(** * Top-Down dependency graph engine: a shallow embedding and its properties

    The development follows the Python sources of the repository:
    - [python/topdown_runtime.py]     ([Runtime]:  the [td] resolver),
    - [python/topdown_cli.py]         ([Cli]:      load, validation, cycles),
    - [python/topdown_ci.py]          ([Ci]:       load, file-to-row mapping),
    - [examples/buildsystem/build.py] ([Build]:    cache, levels, hashes, build),
    - [examples/orchestrator/orchestrator.py] ([Orchestrator]),
    - [examples/datapipeline/pipeline.py]     ([Pipeline]).

    Conventions of the embedding.
    - A Python [str] is the Rocq [string] of the bytes of its UTF-8
      encoding, whose byte order is the code point order Python compares
      by. The white space of [strip()] and [split()] is Unicode's, read
      off those bytes; separators and wildcards are single ASCII
      characters.
    - A [dict] used as a map is a [gmap], a [set] is a [gset]; where Python
      iterates over a set the model iterates over [elements].
    - A Python [int] is a [Z].
    - Exceptions are explicit results; recursion that Python bounds by its
      stack is given fuel, and the fuel that suffices is proved to suffice. *)

From Stdlib Require Import ZArith Ascii.
From stdpp Require Import gmap strings list sorting relations.

Local Open Scope Z_scope.
Set Warnings "-register-all,-clear-no-such-hyp".

(** ** Part I: the embedding *)

(** *** Python string operations used by the sources *)
Module Py.

(** A Python [str] is kept as the bytes of its UTF-8 encoding, the bytes
    that [encode()] hands to the digest. The white space of [str.strip]
    and [str.split] is the characters for which [str.isspace] holds. *)

(** The white space of one byte: TAB, LF, VT, FF, CR, the four separators
    FS, GS, RS, US and the blank *)
Definition is_space (c : ascii) : bool :=
  let n := nat_of_ascii c in
  ((9 <=? n)%nat && (n <=? 13)%nat) || ((28 <=? n)%nat && (n <=? 32)%nat).

(** The white space of two bytes: U+0085 (C2 85) and U+00A0 (C2 A0) *)
Definition is_space2 (c1 c2 : ascii) : bool :=
  let n1 := nat_of_ascii c1 in
  let n2 := nat_of_ascii c2 in
  (n1 =? 194)%nat && ((n2 =? 133)%nat || (n2 =? 160)%nat).

(** The white space of three bytes: U+1680 (E1 9A 80), U+2000 to U+200A
    (E2 80 80 to E2 80 8A), U+2028, U+2029 and U+202F (E2 80 A8, A9, AF),
    U+205F (E2 81 9F) and U+3000 (E3 80 80) *)
Definition is_space3 (c1 c2 c3 : ascii) : bool :=
  let n1 := nat_of_ascii c1 in
  let n2 := nat_of_ascii c2 in
  let n3 := nat_of_ascii c3 in
  ((n1 =? 225)%nat && (n2 =? 154)%nat && (n3 =? 128)%nat)
  || ((n1 =? 226)%nat && (n2 =? 128)%nat
      && (((128 <=? n3)%nat && (n3 <=? 138)%nat)
          || (n3 =? 168)%nat || (n3 =? 169)%nat || (n3 =? 175)%nat))
  || ((n1 =? 226)%nat && (n2 =? 129)%nat && (n3 =? 159)%nat)
  || ((n1 =? 227)%nat && (n2 =? 128)%nat && (n3 =? 128)%nat).

(** [s.lstrip()] *)
Fixpoint lstrip (s : string) : string :=
  match s with
  | String c1 s1 =>
      if is_space c1 then lstrip s1
      else match s1 with
           | String c2 s2 =>
               if is_space2 c1 c2 then lstrip s2
               else match s2 with
                    | String c3 s3 =>
                        if is_space3 c1 c2 c3 then lstrip s3 else s
                    | EmptyString => s
                    end
           | EmptyString => s
           end
  | EmptyString => EmptyString
  end.

(** [lstrip] on the bytes in reverse: a character of several bytes is read
    from its last byte. *)
Fixpoint lstrip_reversed (s : string) : string :=
  match s with
  | String c1 s1 =>
      if is_space c1 then lstrip_reversed s1
      else match s1 with
           | String c2 s2 =>
               if is_space2 c2 c1 then lstrip_reversed s2
               else match s2 with
                    | String c3 s3 =>
                        if is_space3 c3 c2 c1 then lstrip_reversed s3 else s
                    | EmptyString => s
                    end
           | EmptyString => s
           end
  | EmptyString => EmptyString
  end.

(** [s.rstrip()] *)
Definition rstrip (s : string) : string :=
  String.rev (lstrip_reversed (String.rev s)).

(** [s.strip()] *)
Definition strip (s : string) : string := rstrip (lstrip s).

(** [s.split(sep)] for a one-character separator: never empty, keeps empty
    fields. *)
Fixpoint split_go (sep : ascii) (cur : string) (s : string) : list string :=
  match s with
  | EmptyString => [String.rev cur]
  | String c s' =>
      if Ascii.eqb c sep then String.rev cur :: split_go sep EmptyString s'
      else split_go sep (String c cur) s'
  end.
Definition split (sep : ascii) (s : string) : list string :=
  split_go sep EmptyString s.

(** [s.split()]: fields separated by runs of white space, none empty.
    [cur] is the field being read, in reverse. *)
Fixpoint split_ws_go (cur : option string) (s : string) : list string :=
  match s with
  | EmptyString => option_list (String.rev <$> cur)
  | String c1 s1 =>
      let field := option_list (String.rev <$> cur) in
      let cur' := Some (String c1 (default EmptyString cur)) in
      if is_space c1 then field ++ split_ws_go None s1
      else match s1 with
           | String c2 s2 =>
               if is_space2 c1 c2 then field ++ split_ws_go None s2
               else match s2 with
                    | String c3 s3 =>
                        if is_space3 c1 c2 c3 then field ++ split_ws_go None s3
                        else split_ws_go cur' s1
                    | EmptyString => split_ws_go cur' s1
                    end
           | EmptyString => split_ws_go cur' s1
           end
  end.
Definition split_ws : string → list string := split_ws_go None.

(** [[d.strip() for d in s.split(",") if d.strip()]] *)
Definition split_commas (s : string) : list string :=
  filter (λ d, d ≠ EmptyString) (strip <$> split ","%char s).

(** [sep.join(parts)] *)
Definition join (sep : string) (parts : list string) : string :=
  String.concat sep parts.

(** [s.startswith(p)] *)
Definition startswith (s p : string) : bool := String.prefix p s.

(** [s.endswith(p)] *)
Definition endswith (s p : string) : bool :=
  String.prefix (String.rev p) (String.rev s).

(** [s.replace(a, b)] for single characters *)
Fixpoint replace_char (a b : ascii) (s : string) : string :=
  match s with
  | EmptyString => EmptyString
  | String c s' => String (if Ascii.eqb c a then b else c) (replace_char a b s')
  end.

(** [c in s] for a character *)
Fixpoint contains_char (c : ascii) (s : string) : bool :=
  match s with
  | EmptyString => false
  | String c' s' => Ascii.eqb c c' || contains_char c s'
  end.

(** [s.rsplit(sep, 1)[0]]: what precedes the last [sep], or all of [s]
    when [sep] does not occur. *)
Fixpoint drop_through (sep : ascii) (s : string) : option string :=
  match s with
  | EmptyString => None
  | String c s' => if Ascii.eqb c sep then Some s' else drop_through sep s'
  end.
Definition rsplit1_head (sep : ascii) (s : string) : string :=
  match drop_through sep (String.rev s) with
  | Some r => String.rev r
  | None => s
  end.

(** [sorted(l)] on strings *)
Definition sorted (l : list string) : list string := merge_sort String.le l.

(** [d[k] = v] on a dict, as the list of its items in the order they were
    added: the value is replaced where the key is, or the item is added at
    the end. *)
Fixpoint dict_set {A} (d : list (string * A)) (k : string) (v : A)
    : list (string * A) :=
  match d with
  | [] => [(k, v)]
  | kv :: d' => if decide (kv.1 = k) then (k, v) :: d'
                else kv :: dict_set d' k v
  end.

End Py.

(** *** Patterns of file names *)
Module Fnmatch.

(** [fnmatch.fnmatchcase(name, pat)] of the standard library, as
    [fnmatch.translate] reads a pattern: a pattern is a list of items. *)
Inductive glob : Type :=
| Star
| AnyChar
| Class (negated : bool) (chars : list ascii) (ranges : list (ascii * ascii))
| Lit (c : ascii).

(** The chunks of the text of a class that has a hyphen: a hyphen that is
    neither first nor last ends a chunk, and the two characters after it
    are not read as one. *)
Fixpoint chunks (cur : list ascii) (skip : nat) (l : list ascii)
    : list (list ascii) :=
  match l with
  | [] => [rev cur]
  | c :: l' =>
      match skip with
      | S k => chunks (c :: cur) k l'
      | O =>
          if Ascii.eqb c "-" then
            match l' with
            | [] => [rev (c :: cur)]
            | _ => rev cur :: chunks [] 2 l'
            end
          else chunks (c :: cur) 0 l'
      end
  end.

(** "Remove empty ranges": from the right, two chunks whose ends are in
    the wrong order lose these ends and become one. *)
Fixpoint join_empty_ranges (cs : list (list ascii)) : list (list ascii) :=
  match cs with
  | [] => []
  | c :: rest =>
      match join_empty_ranges rest with
      | [] => [c]
      | d :: rest' =>
          match last c, head d with
          | Some lo, Some hi =>
              if (N_of_ascii hi <? N_of_ascii lo)%N
              then (removelast c ++ tail d) :: rest'
              else c :: d :: rest'
          | _, _ => c :: d :: rest'
          end
      end
  end.

(** The ranges between consecutive chunks and the characters left *)
Fixpoint class_of_chunks (first : bool) (cs : list (list ascii))
    : list ascii * list (ascii * ascii) :=
  match cs with
  | [] => ([], [])
  | c :: rest =>
      let c := if first then c else tail c in
      match rest with
      | [] => (c, [])
      | d :: _ =>
          let r := class_of_chunks false rest in
          match last c, head d with
          | Some lo, Some hi => (removelast c ++ r.1, (lo, hi) :: r.2)
          | _, _ => (c ++ r.1, r.2)
          end
      end
  end.

(** What follows the first ["]"], and what precedes it *)
Fixpoint until_close (l : list ascii) : option (list ascii * nat) :=
  match l with
  | [] => None
  | c :: l' =>
      if Ascii.eqb c "]" then Some ([], 1%nat)
      else '(stuff, n) ← until_close l'; Some (c :: stuff, S n)
  end.

(** The class that starts after a ["["], and how many characters it takes;
    [None] when no ["]"] closes it. *)
Definition class_of (rest : list ascii) : option (glob * nat) :=
  let '(negated, r1, n1) :=
    match rest with
    | c :: r => if Ascii.eqb c "!" then (true, r, 1%nat) else (false, rest, 0%nat)
    | [] => (false, rest, 0%nat)
    end in
  let '(first, r2, n2) :=
    match r1 with
    | c :: r => if Ascii.eqb c "]" then ([c], r, 1%nat) else ([], r1, 0%nat)
    | [] => ([], r1, 0%nat)
    end in
  '(stuff, n3) ← until_close r2;
  let body := first ++ stuff in
  let cls :=
    if existsb (Ascii.eqb "-") body
    then class_of_chunks true (join_empty_ranges (chunks [] 1 body))
    else (body, []) in
  Some (Class negated cls.1 cls.2, (n1 + n2 + n3)%nat).

(** The items of a pattern; [skip] characters belong to the class just
    read. *)
Fixpoint translate (skip : nat) (pat : list ascii) : list glob :=
  match pat with
  | [] => []
  | c :: rest =>
      match skip with
      | S k => translate k rest
      | O =>
          if Ascii.eqb c "*" then Star :: translate 0 rest
          else if Ascii.eqb c "?" then AnyChar :: translate 0 rest
          else if Ascii.eqb c "[" then
            match class_of rest with
            | Some (cls, n) => cls :: translate n rest
            | None => Lit c :: translate 0 rest
            end
          else Lit c :: translate 0 rest
      end
  end.

Definition in_class (chars : list ascii) (ranges : list (ascii * ascii))
    (c : ascii) : bool :=
  existsb (Ascii.eqb c) chars ||
  existsb (λ r, (N_of_ascii r.1 <=? N_of_ascii c)%N &&
                (N_of_ascii c <=? N_of_ascii r.2)%N) ranges.

(** The whole of [name] matches the items. *)
Fixpoint matches (p : list glob) (name : list ascii) : bool :=
  match p with
  | [] => match name with [] => true | _ => false end
  | Star :: p' =>
      (fix from (name : list ascii) : bool :=
         matches p' name ||
         match name with [] => false | _ :: name' => from name' end) name
  | AnyChar :: p' =>
      match name with [] => false | _ :: name' => matches p' name' end
  | Class negated chars ranges :: p' =>
      match name with
      | [] => false
      | c :: name' =>
          xorb negated (in_class chars ranges c) && matches p' name'
      end
  | Lit c :: p' =>
      match name with
      | [] => false
      | c' :: name' => Ascii.eqb c c' && matches p' name'
      end
  end.

(** [fnmatch.fnmatch(name, pat)] where [os.path.normcase] changes
    nothing *)
Definition fnmatch (name pat : string) : bool :=
  matches (translate 0 (String.list_ascii_of_string pat))
          (String.list_ascii_of_string name).

End Fnmatch.


(** *** [hashlib.sha256(text.encode()).hexdigest()[:16]]

    SHA-256 on the bytes of the text, and the first sixteen hexadecimal
    digits of the digest. Words are 32-bit numbers in [N]; every addition
    is reduced by the mask. *)
Module Sha256.
Local Open Scope N_scope.

Definition mask : N := 4294967295.

Definition add32 (a b : N) : N := N.land (a + b) mask.

Definition rotr (n x : N) : N :=
  N.lor (N.shiftr x n) (N.land (N.shiftl x (32 - n)) mask).

Definition ch (x y z : N) : N :=
  N.lxor (N.land x y) (N.land (N.lxor x mask) z).

Definition maj (x y z : N) : N :=
  N.lxor (N.lxor (N.land x y) (N.land x z)) (N.land y z).

Definition big_sigma0 (x : N) : N :=
  N.lxor (N.lxor (rotr 2 x) (rotr 13 x)) (rotr 22 x).

Definition big_sigma1 (x : N) : N :=
  N.lxor (N.lxor (rotr 6 x) (rotr 11 x)) (rotr 25 x).

Definition small_sigma0 (x : N) : N :=
  N.lxor (N.lxor (rotr 7 x) (rotr 18 x)) (N.shiftr x 3).

Definition small_sigma1 (x : N) : N :=
  N.lxor (N.lxor (rotr 17 x) (rotr 19 x)) (N.shiftr x 10).

(** The round constants: the fractional parts of the cube roots of the
    first sixty-four primes. *)
Definition round_constants : list N :=
  [1116352408; 1899447441; 3049323471; 3921009573; 961987163; 1508970993;
   2453635748; 2870763221; 3624381080; 310598401; 607225278; 1426881987;
   1925078388; 2162078206; 2614888103; 3248222580; 3835390401; 4022224774;
   264347078; 604807628; 770255983; 1249150122; 1555081692; 1996064986;
   2554220882; 2821834349; 2952996808; 3210313671; 3336571891; 3584528711;
   113926993; 338241895; 666307205; 773529912; 1294757372; 1396182291;
   1695183700; 1986661051; 2177026350; 2456956037; 2730485921; 2820302411;
   3259730800; 3345764771; 3516065817; 3600352804; 4094571909; 275423344;
   430227734; 506948616; 659060556; 883997877; 958139571; 1322822218;
   1537002063; 1747873779; 1955562222; 2024104815; 2227730452; 2361852424;
   2428436474; 2756734187; 3204031479; 3329325298].

(** The eight working words *)
Record words8 := {
  wa : N; wb : N; wc : N; wd : N; we : N; wf : N; wg : N; wh : N;
}.

(** The initial hash value: the fractional parts of the square roots of the
    first eight primes. *)
Definition initial : words8 :=
  {| wa := 1779033703; wb := 3144134277; wc := 1013904242; wd := 2773480762;
     we := 1359893119; wf := 2600822924; wg := 528734635; wh := 1541459225 |}.

(** The message followed by the byte 128, zero bytes up to 56 modulo 64,
    and the bit length as eight bytes, most significant first. *)
Definition pad (msg : list N) : list N :=
  let len := N.of_nat (length msg) in
  let bits := 8 * len in
  msg ++ [128] ++ replicate (N.to_nat ((119 - len mod 64) mod 64)) 0
      ++ ((λ i, N.land (N.shiftr bits (8 * i)) 255) <$> [7; 6; 5; 4; 3; 2; 1; 0]).

(** Four bytes to a word, most significant first *)
Fixpoint to_words (bytes : list N) : list N :=
  match bytes with
  | a :: b :: c :: d :: bytes' =>
      (N.shiftl a 24 + N.shiftl b 16 + N.shiftl c 8 + d) :: to_words bytes'
  | _ => []
  end.

(** The message schedule, latest word first: [n] more words *)
Fixpoint extend (n : nat) (r : list N) : list N :=
  match n with
  | O => r
  | S n' =>
      extend n'
        (add32 (add32 (small_sigma1 (nth 1 r 0)) (nth 6 r 0))
               (add32 (small_sigma0 (nth 14 r 0)) (nth 15 r 0)) :: r)
  end.

Definition schedule (block : list N) : list N := rev (extend 48 (rev block)).

Definition round (st : words8) (kw : N * N) : words8 :=
  let t1 := add32 (add32 (add32 (wh st) (big_sigma1 (we st)))
                         (add32 (ch (we st) (wf st) (wg st)) kw.1)) kw.2 in
  let t2 := add32 (big_sigma0 (wa st)) (maj (wa st) (wb st) (wc st)) in
  {| wa := add32 t1 t2; wb := wa st; wc := wb st; wd := wc st;
     we := add32 (wd st) t1; wf := we st; wg := wf st; wh := wg st |}.

Definition compress (hs : words8) (block : list N) : words8 :=
  let st := foldl round hs (zip round_constants (schedule block)) in
  {| wa := add32 (wa hs) (wa st); wb := add32 (wb hs) (wb st);
     wc := add32 (wc hs) (wc st); wd := add32 (wd hs) (wd st);
     we := add32 (we hs) (we st); wf := add32 (wf hs) (wf st);
     wg := add32 (wg hs) (wg st); wh := add32 (wh hs) (wh st) |}.

(** Sixteen words at a time; there are fewer blocks than words. *)
Fixpoint blocks (fuel : nat) (hs : words8) (ws : list N) : words8 :=
  match fuel, ws with
  | S fuel', _ :: _ => blocks fuel' (compress hs (take 16 ws)) (drop 16 ws)
  | _, _ => hs
  end.

Definition digest (msg : list N) : words8 :=
  let ws := to_words (pad msg) in blocks (length ws) initial ws.

Definition hex_digit (n : N) : ascii :=
  match n with
  | 0 => "0" | 1 => "1" | 2 => "2" | 3 => "3" | 4 => "4" | 5 => "5"
  | 6 => "6" | 7 => "7" | 8 => "8" | 9 => "9" | 10 => "a" | 11 => "b"
  | 12 => "c" | 13 => "d" | 14 => "e" | _ => "f"
  end%char.

(** The eight hexadecimal digits of a word and then [rest] *)
Definition hex8 (w : N) (rest : string) : string :=
  let d i := hex_digit (N.land (N.shiftr w (4 * i)) 15) in
  String (d 7) (String (d 6) (String (d 5) (String (d 4)
    (String (d 3) (String (d 2) (String (d 1) (String (d 0) rest))))))).

(** [hashlib.sha256(text.encode()).hexdigest()[:16]] *)
Definition sha16 (text : string) : string :=
  let hs := digest (N_of_ascii <$> String.list_ascii_of_string text) in
  hex8 (wa hs) (hex8 (wb hs) EmptyString).

End Sha256.

(** *** [python/topdown_runtime.py] *)
Module Runtime.

(** What [json.loads] returns. Numbers are integers here; an object is the
    list of its members, looked up by the first occurrence of a key. *)
Inductive json : Type :=
| JNull
| JBool (b : bool)
| JInt (z : Z)
| JStr (s : string)
| JList (l : list json)
| JDict (d : list (string * json)).

(** [d.get(k)] with its default [None] *)
Fixpoint dict_get (d : list (string * json)) (k : string) : json :=
  match d with
  | [] => JNull
  | (k', v) :: d' => if String.eqb k' k then v else dict_get d' k
  end.

(** Python truthiness, as [bool(v)] and the left operand of [or] *)
Definition truthy (v : json) : bool :=
  match v with
  | JNull => false
  | JBool b => b
  | JInt z => negb (z =? 0)
  | JStr s => negb (String.eqb s EmptyString)
  | JList l => match l with [] => false | _ => true end
  | JDict d => match d with [] => false | _ => true end
  end.

(** [v != wanted] for a string [wanted]: only an equal string is equal *)
Definition is_str (v : json) (wanted : string) : bool :=
  match v with
  | JStr s => String.eqb s wanted
  | _ => false
  end.

(** The test of the loop of [td] on one element of [rows]: a dict whose
    ["id"] equals [wanted] *)
Definition matches (wanted : string) (x : json) : bool :=
  match x with
  | JDict r => is_str (dict_get r "id") wanted
  | _ => false
  end.

(** [class TopDownRow] (frozen dataclass) *)
Record TopDownRow := {
  id : string;
  locked : bool;
  name : string;
  args : string;
  expr : string;
  scope : option string;
}.

Inductive result : Type :=
| Ok (row : TopDownRow)
| ValueError
| TopDownError
| TopDownIdNotFound.

Section td.
(** [str(v)] of a value that is not a string is Python's rendering of it,
    left open. *)
Variable repr : json → string.

Definition py_str (v : json) : string :=
  match v with
  | JStr s => s
  | _ => repr v
  end.

(** [str(v or "")] *)
Definition str_or_empty (v : json) : string :=
  if truthy v then py_str v else EmptyString.

(** The [TopDownRow(...)] built from the record [r] *)
Definition make_row (wanted : string) (r : list (string * json)) : TopDownRow :=
  {| id := wanted;
     locked := truthy (dict_get r "locked");
     name := str_or_empty (dict_get r "name");
     args := str_or_empty (dict_get r "args");
     expr := str_or_empty (dict_get r "expr");
     scope := match dict_get r "scope" with
              | JNull => None
              | v => Some (py_str v)
              end |}.

(** The [for r in rows] loop of [td] *)
Fixpoint scan (wanted : string) (rows : list json) : result :=
  match rows with
  | [] => TopDownIdNotFound
  | JDict r :: rows' =>
      if is_str (dict_get r "id") wanted then Ok (make_row wanted r)
      else scan wanted rows'
  | _ :: rows' => scan wanted rows'
  end.

(** [td(row_id)] on the loaded store (the JSON object of the config) *)
Definition td (store : list (string * json)) (row_id : string) : result :=
  if decide (Py.strip row_id = EmptyString) then ValueError
  else match dict_get store "rows" with
       | JList rows => scan (Py.strip row_id) rows
       | _ => TopDownError
       end.
End td.

End Runtime.

(** *** [BuildCache] of [examples/buildsystem/build.py] *)
Module Cache.

(** One entry as [put] writes it; the time stamp is the clock's reading. *)
Record entry := {
  input_hash : string;
  output_hash : string;
  timestamp : Z;
}.

Definition get (entries : gmap string entry) (target_id : string)
    (input_hash_ : string) : option string :=
  match entries !! target_id with
  | Some e =>
      if decide (input_hash e = input_hash_) then Some (output_hash e) else None
  | None => None
  end.

Definition put (entries : gmap string entry) (target_id : string)
    (input_hash_ output_hash_ : string) (now : Z) : gmap string entry :=
  <[target_id := {| input_hash := input_hash_;
                    output_hash := output_hash_;
                    timestamp := now |}]> entries.

Definition invalidate (entries : gmap string entry) (target_id : string)
    : gmap string entry :=
  delete target_id entries.

Definition clear (entries : gmap string entry) : gmap string entry := ∅.

End Cache.

(** *** Rows of a config, as the loaders read them *)
Module Config.

(** The value of the ["depends"] or ["sources"] member of a record: absent,
    a string, a list of strings, or a value of another type. *)
Inductive raw_list : Type :=
| Absent
| Text (s : string)
| Items (l : list string)
| OtherValue.

(** A dict of the ["rows"] array of a config that follows the schema: the
    id and the text fields are strings where they are given ([raw_id] is
    [None] when the record has no ["id"]), ["locked"] is taken by its
    truth value. *)
Record raw_row := {
  raw_id : option string;
  raw_locked : bool;
  raw_name : string;
  raw_args : string;
  raw_expr : string;
  raw_scope : option string;
  raw_depends : raw_list;
  raw_sources : raw_list;
}.

(** One element of ["rows"]: such a dict, or [None] for anything that is
    not a dict. *)
Definition raw := option raw_row.

(** [ConfigRow] of the CLI and [TopDownRow] of the runtime that has
    dependencies: the same fields. *)
Record Row := {
  id : string;
  locked : bool;
  name : string;
  args : string;
  expr : string;
  scope : option string;
  depends : list string;
  sources : list string;
}.

(** [r] is a dict whose id is [i]. *)
Definition has_id (i : string) (r : raw) : bool :=
  match r with
  | Some r' => bool_decide (raw_id r' = Some i)
  | None => false
  end.

(** The comma-separated string is split, a list is taken as it is, any
    other value gives the empty list. *)
Definition normalize (v : raw_list) : list string :=
  match v with
  | Absent => []
  | Text s => Py.split_commas s
  | Items l => l
  | OtherValue => []
  end.

Definition make_row (i : string) (r : raw_row) : Row :=
  {| id := i;
     locked := raw_locked r;
     name := raw_name r;
     args := raw_args r;
     expr := raw_expr r;
     scope := raw_scope r;
     depends := normalize (raw_depends r);
     sources := normalize (raw_sources r) |}.

End Config.

(** *** The graph and the algorithms the tools share

    [graph] and [reverse_graph] are [defaultdict(set)] everywhere;
    [detect_cycles], [get_transitive_deps], [get_affected] and the loop of
    the leveled order are the same text in the CLI, the build system and the
    orchestrator, and are embedded once. *)
Module Graph.

(** [graph.get(node, set())] *)
Definition graph_get (g : gmap string (gset string)) (node : string)
    : gset string :=
  default ∅ (g !! node).

(** [graph[node].add(dep)] on a [defaultdict(set)] *)
Definition graph_add (g : gmap string (gset string)) (node dep : string)
    : gmap string (gset string) :=
  <[node := {[dep]} ∪ graph_get g node]> g.

(** [dep] is in [graph[node]] *)
Definition edge (g : gmap string (gset string)) (node dep : string) : Prop :=
  dep ∈ graph_get g node.

#[global] Instance edge_dec g node dep : Decision (edge g node dep).
Proof. unfold edge. apply _. Defined.

(** A walk: every element is followed by one of its dependencies. *)
Definition walk (g : gmap string (gset string)) (l : list string) : Prop :=
  ∀ i a b, l !! i = Some a → l !! S i = Some b → edge g a b.

(** A closed walk: a walk of at least one edge that ends where it starts. *)
Definition closed_walk (g : gmap string (gset string)) (c : list string)
    : Prop :=
  walk g c ∧ (2 ≤ length c)%nat ∧ head c = last c.

(** The graph has a cycle: some node reaches itself along one edge or
    more. *)
Definition cyclic (g : gmap string (gset string)) : Prop :=
  ∃ u, tc (edge g) u u.

(** The state of [detect_cycles]: the three variables the nested [dfs]
    closes over and the [path] list, which all calls of one traversal
    share and update in place. *)
Record dfs_state := {
  cycles : list (list string);
  visited : gset string;
  rec_stack : gset string;
  path : list string;
}.

(** [path.index(x)]; [None] where Python raises [ValueError] *)
Fixpoint index (x : string) (l : list string) : option nat :=
  match l with
  | [] => None
  | y :: l' => if decide (y = x) then Some 0%nat else S <$> index x l'
  end.

(** The [for dep in graph.get(node, set())] loop of [dfs]; [rec] is [dfs]
    itself. *)
Fixpoint dfs_neighbors (rec : string → dfs_state → option dfs_state)
    (deps : list string) (st : dfs_state) : option dfs_state :=
  match deps with
  | [] => Some st
  | dep :: deps' =>
      if decide (dep ∉ visited st) then
        st' ← rec dep st; dfs_neighbors rec deps' st'
      else if decide (dep ∈ rec_stack st) then
        cycle_start ← index dep (path st);
        dfs_neighbors rec deps'
          {| cycles := cycles st ++ [drop cycle_start (path st) ++ [dep]];
             visited := visited st;
             rec_stack := rec_stack st;
             path := path st |}
      else dfs_neighbors rec deps' st
  end.

(** [dfs(node, path)]; [None] when the fuel runs out or [index] fails. *)
Fixpoint dfs (fuel : nat) (g : gmap string (gset string)) (node : string)
    (st : dfs_state) : option dfs_state :=
  match fuel with
  | O => None
  | S fuel' =>
      st' ← dfs_neighbors (dfs fuel' g) (elements (graph_get g node))
            {| cycles := cycles st;
               visited := {[node]} ∪ visited st;
               rec_stack := {[node]} ∪ rec_stack st;
               path := path st ++ [node] |};
      Some {| cycles := cycles st';
              visited := visited st';
              rec_stack := rec_stack st' ∖ {[node]};
              path := removelast (path st') |}
  end.

(** The [for node in rows: if node not in visited: dfs(node, [])] loop *)
Fixpoint dfs_roots (fuel : nat) (g : gmap string (gset string))
    (nodes : list string) (st : dfs_state) : option dfs_state :=
  match nodes with
  | [] => Some st
  | node :: nodes' =>
      if decide (node ∉ visited st) then
        st' ← dfs fuel g node
               {| cycles := cycles st; visited := visited st;
                  rec_stack := rec_stack st; path := [] |};
        dfs_roots fuel g nodes' st'
      else dfs_roots fuel g nodes' st
  end.

(** Every id the traversal can meet: the nodes it starts from, the keys
    of the graph and the members of its sets. *)
Definition universe (g : gmap string (gset string)) (nodes : list string)
    : gset string :=
  list_to_set nodes ∪ dom g ∪ ⋃ (snd <$> map_to_list g).

(** [detect_cycles()] over the ids [nodes] in the order of the dict *)
Definition detect_cycles (g : gmap string (gset string))
    (nodes : list string) : option (list (list string)) :=
  cycles <$>
    dfs_roots (S (size (universe g nodes))) g nodes
      {| cycles := []; visited := ∅; rec_stack := ∅; path := [] |}.

(** [x] is met by the traversal that starts from the dependencies of [t]
    and goes on from the ids that are [known] only; with every id known,
    [x] is reached from [t] along one edge or more. *)
Definition reaches (known : string → bool) (g : gmap string (gset string))
    (t x : string) : Prop :=
  known x = true ∧
  ∃ q, edge g t q ∧ rtc (λ a b, known a = true ∧ edge g a b) q x.

(** The [while queue] loop of [get_transitive_deps]. The CLI and the build
    system add every id they pop for the first time ([known] is constantly
    true); the orchestrator adds it only if it is a node. *)
Fixpoint transitive_loop (known : string → bool) (fuel : nat)
    (g : gmap string (gset string)) (queue : list string) (deps : gset string)
    : option (gset string) :=
  match fuel with
  | O => None
  | S fuel' =>
      match queue with
      | [] => Some deps
      | dep :: queue' =>
          if decide ((dep ∉ deps) ∧ known dep = true)
          then transitive_loop known fuel' g
                 (queue' ++ elements (graph_get g dep)) ({[dep]} ∪ deps)
          else transitive_loop known fuel' g queue' deps
      end
  end.

(** Every id a traversal of [g] can meet *)
Definition ids (g : gmap string (gset string)) : gset string :=
  dom g ∪ ⋃ (snd <$> map_to_list g).

(** [get_transitive_deps(id)]. A round of the loop shortens the queue by
    one, or adds a new id and appends its dependencies: the fuel covers the
    rounds there can be. *)
Definition get_transitive_deps (known : string → bool)
    (g : gmap string (gset string)) (node : string) : option (gset string) :=
  let queue := elements (graph_get g node) in
  transitive_loop known
    (S (length queue + size (ids g) * S (size (ids g))))%nat g queue ∅.

(** [in_degree[t]] after the "Compute in-degrees" loops: one for each
    dependency of [t] that is in [nodes] *)
Definition count_in (nodes : gset string) (deps : list string) : Z :=
  foldl (λ n dep, if decide (dep ∈ nodes) then n + 1 else n) 0 deps.

Definition in_degrees (nodes : gset string) (g : gmap string (gset string))
    : gmap string Z :=
  list_to_map ((λ t, (t, count_in nodes (elements (graph_get g t))))
                 <$> elements nodes).

(** The body of [for t in level]: [remaining.remove(t)], then one less for
    each dependent still remaining. *)
Definition level_step (dependents : string → list string)
    (acc : gset string * gmap string Z) (t : string)
    : gset string * gmap string Z :=
  let remaining := acc.1 ∖ {[t]} in
  (remaining,
   foldl (λ in_degree dependent,
            if decide (dependent ∈ remaining)
            then <[dependent := (in_degree !!! dependent) - 1]> in_degree
            else in_degree)
         acc.2 (dependents t)).

(** The [while remaining] loop of the leveled order. A level is not empty,
    so a round removes a node: as many rounds as nodes at most. *)
Fixpoint levels_loop (fuel : nat) (dependents : string → list string)
    (remaining : gset string) (in_degree : gmap string Z)
    (levels : list (list string)) : option (list (list string)) :=
  match fuel with
  | O => None
  | S fuel' =>
      if decide (remaining = ∅) then Some levels
      else
        let level :=
          filter (λ t, in_degree !!! t = 0) (elements remaining) in
        match level with
        | [] => Some levels
        | _ =>
            let acc := foldl (level_step dependents) (remaining, in_degree) level in
            levels_loop fuel' dependents acc.1 acc.2 (levels ++ [Py.sorted level])
        end
  end.

(** The leveled order of the node set [nodes]: the in-degrees within
    [nodes], then the loop. *)
Definition leveled_order (nodes : gset string)
    (g rg : gmap string (gset string)) : option (list (list string)) :=
  levels_loop (S (size nodes)) (λ t, elements (graph_get rg t))
    nodes (in_degrees nodes g) [].

(** [levels] is a leveled order of [nodes]: every node is in exactly one
    level, every dependency of a node that is in [nodes] is in a strictly
    earlier level, and the levels together list [nodes] once each. *)
Definition leveled (g : gmap string (gset string)) (nodes : gset string)
    (levels : list (list string)) : Prop :=
  (∀ x, x ∈ nodes →
     ∃ i l, levels !! i = Some l ∧ x ∈ l ∧
            ∀ j l', levels !! j = Some l' → x ∈ l' → j = i) ∧
  (∀ i l t d, levels !! i = Some l → t ∈ l → edge g t d → d ∈ nodes →
     ∃ j l', (j < i)%nat ∧ levels !! j = Some l' ∧ d ∈ l') ∧
  concat levels ≡ₚ elements nodes.

(** [all = set(targets); for t in targets: all.update(get_transitive_deps(t))] *)
Fixpoint with_transitive_deps (known : string → bool)
    (g : gmap string (gset string)) (targets : list string) (all : gset string)
    : option (gset string) :=
  match targets with
  | [] => Some all
  | t :: targets' =>
      deps ← get_transitive_deps known g t;
      with_transitive_deps known g targets' (all ∪ deps)
  end.

(** The body of [for dependent in reverse_graph.get(current, set())]: a
    dependent met for the first time is added and queued. *)
Definition affected_step (acc : gset string * list string) (dependent : string)
    : gset string * list string :=
  if decide (dependent ∈ acc.1) then acc
  else ({[dependent]} ∪ acc.1, acc.2 ++ [dependent]).

(** The [while queue] loop of [get_affected_targets], [get_affected_nodes],
    [get_affected_rows], [_get_affected] and [get_downstream];
    [dependents current] lists [reverse_graph[current]] as it is iterated.
    A round takes an id off the queue, and an id is queued once at most. *)
Fixpoint affected_loop (fuel : nat) (dependents : string → list string)
    (queue : list string) (affected : gset string) : option (gset string) :=
  match fuel with
  | O => None
  | S fuel' =>
      match queue with
      | [] => Some affected
      | current :: queue' =>
          let acc := foldl affected_step (affected, queue') (dependents current) in
          affected_loop fuel' dependents acc.2 acc.1
      end
  end.

(** The traversal from [changed_id] along the edges of [rg] *)
Definition get_affected (rg : gmap string (gset string)) (changed_id : string)
    : option (gset string) :=
  affected_loop (S (S (size (ids rg)))) (λ t, elements (graph_get rg t))
                [changed_id] ∅.

(** The body of [for dependent in self.reverse_graph.get(node, set())] in a
    round of the level loop: [acc] is [(visited, next_level)]. *)
Definition level_visit (acc : gset string * gset string) (dependent : string)
    : gset string * gset string :=
  if decide (dependent ∈ acc.1) then acc
  else ({[dependent]} ∪ acc.1, {[dependent]} ∪ acc.2).

(** The [while current_level] loop of [_compute_levels] and of
    [show_propagation_chain]. A round that does not end the loop adds an
    id to [visited]. *)
Fixpoint compute_levels_loop (fuel : nat) (rg : gmap string (gset string))
    (visited current_level : gset string) (levels : list (gset string))
    : option (list (gset string)) :=
  match fuel with
  | O => None
  | S fuel' =>
      if decide (current_level = ∅) then Some levels
      else
        let acc :=
          foldl (λ acc node, foldl level_visit acc (elements (graph_get rg node)))
                (visited, ∅) (elements current_level) in
        compute_levels_loop fuel' rg acc.1 acc.2
          (if decide (acc.2 = ∅) then levels else levels ++ [acc.2])
  end.

(** [_compute_levels(start_nodes)] *)
Definition _compute_levels (rg : gmap string (gset string))
    (start_nodes : gset string) : option (list (gset string)) :=
  compute_levels_loop (S (S (size (ids rg)))) rg start_nodes start_nodes [].

End Graph.

(** *** [python/topdown_cli.py] *)
Module Cli.
Import Config.

(** The fields of [TopDownCLI] the engine uses *)
Record state := {
  rows : gmap string Row;
  graph : gmap string (gset string);
  reverse_graph : gmap string (gset string);
}.

(** The first loop of [load]: records that are not dicts or have no id or
    an empty one are passed over; [self.rows[row.id] = row]. *)
Definition load_row (rows : gmap string Row) (r : raw) : gmap string Row :=
  match r with
  | Some r =>
      match raw_id r with
      | Some i => if decide (i = EmptyString) then rows
                  else <[i := make_row i r]> rows
      | None => rows
      end
  | None => rows
  end.

Definition load_rows (raws : list raw) : gmap string Row :=
  foldl load_row ∅ raws.

(** The inner loop of "Build graphs": [for dep in row.depends] *)
Definition add_edges (rows : gmap string Row)
    (gs : gmap string (gset string) * gmap string (gset string))
    (row_id : string) (deps : list string)
    : gmap string (gset string) * gmap string (gset string) :=
  foldl (λ gs dep,
           if decide (dep ∈ dom rows)
           then (Graph.graph_add gs.1 row_id dep,
                 Graph.graph_add gs.2 dep row_id)
           else gs)
        gs deps.

(** [load()] on the parsed ["rows"] array *)
Definition load (raws : list raw) : state :=
  let rows := load_rows raws in
  let gs := foldl (λ gs kv, add_edges rows gs kv.1 (depends kv.2))
                  (∅, ∅) (map_to_list rows) in
  {| rows := rows; graph := gs.1; reverse_graph := gs.2 |}.

(** The "Check for duplicate IDs" loop of [cmd_validate]: the ids of the
    rows it reports as [DUPLICATE_ID]. *)
Definition duplicate_ids (s : state) : list string :=
  (foldl (λ acc row,
            let '(errors, seen_ids) := acc in
            (if decide (id row ∈ seen_ids) then errors ++ [id row] else errors,
             {[id row]} ∪ seen_ids))
         ([], (∅ : gset string)) (snd <$> map_to_list (rows s))).1.

(** [_detect_cycles()]. The traversals start from the ids in the order of
    the map, where Python takes the order in which the rows were read:
    which cycles are listed, and in which order, can differ; whether one
    is listed cannot. *)
Definition _detect_cycles (s : state) : option (list (list string)) :=
  Graph.detect_cycles (graph s) (fst <$> map_to_list (rows s)).

(** [_get_transitive_deps(row_id)] *)
Definition _get_transitive_deps (s : state) (row_id : string)
    : option (gset string) :=
  Graph.get_transitive_deps (λ _, true) (graph s) row_id.

(** [_get_affected(row_id)] *)
Definition _get_affected (s : state) (row_id : string) : option (gset string) :=
  Graph.get_affected (reverse_graph s) row_id.

(** [ConfigRow.to_dict()]: the id and the name are always written, any
    other field only when it is true as a condition. *)
Definition to_dict (row : Row) : raw_row :=
  {| raw_id := Some (id row);
     raw_name := name row;
     raw_locked := locked row;
     raw_args := args row;
     raw_expr := expr row;
     raw_scope := match scope row with
                  | Some sc => if decide (sc = EmptyString) then None else Some sc
                  | None => None
                  end;
     raw_depends := match depends row with [] => Absent | l => Items l end;
     raw_sources := match sources row with [] => Absent | l => Items l end |}.

(** The ["rows"] array that [save()] writes *)
Definition save (s : state) : list raw :=
  (λ row, Some (to_dict row)) <$> (snd <$> map_to_list (rows s)).

(** [ValidationIssue]: the code, with what the message names *)
Inductive issue : Type :=
| DUPLICATE_ID (row_id : string)
| MISSING_DEPENDENCY (row_id dep : string)
| CIRCULAR_DEPENDENCY (cycle : list string)
| UNUSED_LOCKED (row_id : string).

(** The "Check for missing dependencies" loop of [cmd_validate] *)
Definition missing_dependencies (s : state) : list issue :=
  row ← snd <$> map_to_list (rows s);
  dep ← depends row;
  if decide (dep ∈ dom (rows s)) then []
  else [MISSING_DEPENDENCY (id row) dep].

(** The "Check for locked rows with no dependents" loop *)
Definition unused_locked (s : state) : list issue :=
  row ← snd <$> map_to_list (rows s);
  if locked row && bool_decide (Graph.graph_get (reverse_graph s) (id row) = ∅)
  then [UNUSED_LOCKED (id row)]
  else [].

(** [i.code == "CIRCULAR_DEPENDENCY"] and [i.code == "MISSING_DEPENDENCY"] *)
Definition is_circular (i : issue) : bool :=
  match i with CIRCULAR_DEPENDENCY _ => true | _ => false end.
Definition is_missing (i : issue) : bool :=
  match i with MISSING_DEPENDENCY _ _ => true | _ => false end.

(** The truth value of a list *)
Definition some {A} (l : list A) : bool :=
  match l with [] => false | _ => true end.

Record validation := {
  errors : list issue;
  warnings : list issue;
  exit_code : Z;
}.

(** [cmd_validate(strict, fail_on_cycle, fail_on_missing)] from the point
    where the config is loaded: the issues found and the exit code. *)
Definition cmd_validate (s : state) (strict fail_on_cycle fail_on_missing : bool)
    : option validation :=
  cycles ← _detect_cycles s;
  let errors_ := (DUPLICATE_ID <$> duplicate_ids s) ++ missing_dependencies s
                 ++ (CIRCULAR_DEPENDENCY <$> cycles) in
  let warnings_ := unused_locked s in
  Some {| errors := errors_; warnings := warnings_;
          exit_code :=
            if strict && (some errors_ || some warnings_) then 1
            else if fail_on_cycle && existsb is_circular errors_ then 1
            else if fail_on_missing && existsb is_missing errors_ then 1
            else if some errors_ then 1
            else 0 |}.

End Cli.

(** *** [python/topdown_ci.py]: loading *)
Module Ci.
Import Config.

(** The fields of [TopDownCI] *)
Record state := {
  rows : gmap string Row;
  graph : gmap string (gset string);
  reverse_graph : gmap string (gset string);
  file_patterns : list (string * list string);
}.

(** [tuple(deps)] after the comma-separated string has been split; a value
    that is neither a string nor a list (a number, a truth value, null)
    raises [TypeError]. *)
Definition deps_tuple (v : raw_list) : option (list string) :=
  match v with
  | Absent => Some []
  | Text s => Some (Py.split_commas s)
  | Items l => Some l
  | OtherValue => None
  end.

(** The test of [_extract_file_patterns] on one token of [args] *)
Definition file_like (part : string) : bool :=
  Py.contains_char "*" part || Py.contains_char "/" part ||
  existsb (Py.endswith part) [".c"; ".h"; ".py"; ".ts"; ".js"; ".go"; ".rs"].

(** [_extract_file_patterns(row_id, args)] *)
Definition _extract_file_patterns (fp : list (string * list string))
    (row_id : string) (args_ : string) : list (string * list string) :=
  match filter (λ part, file_like part = true) (Py.split_ws args_) with
  | [] => fp
  | patterns => Py.dict_set fp row_id patterns
  end.

(** One round of the first loop of [load]; here a record with an empty id
    is kept. The sources of a row are not read. *)
Definition load_row (acc : gmap string Row * list (string * list string))
    (r : raw) : option (gmap string Row * list (string * list string)) :=
  match r with
  | Some r =>
      match raw_id r with
      | Some row_id =>
          deps ← deps_tuple (raw_depends r);
          Some (<[row_id := {| id := row_id; locked := raw_locked r;
                               name := raw_name r; args := raw_args r;
                               expr := raw_expr r; scope := raw_scope r;
                               depends := deps; sources := [] |}]> acc.1,
                _extract_file_patterns acc.2 row_id (raw_args r))
      | None => Some acc
      end
  | None => Some acc
  end.

Fixpoint load_rows (acc : gmap string Row * list (string * list string))
    (raws : list raw) : option (gmap string Row * list (string * list string)) :=
  match raws with
  | [] => Some acc
  | r :: raws' => acc' ← load_row acc r; load_rows acc' raws'
  end.

(** [load()] on the parsed ["rows"] array; [None] when [TypeError] escapes.
    The graphs are built as in the CLI. *)
Definition load (raws : list raw) : option state :=
  acc ← load_rows (∅, []) raws;
  let gs := foldl (λ gs kv, Cli.add_edges acc.1 gs kv.1 (depends kv.2))
                  (∅, ∅) (map_to_list acc.1) in
  Some {| rows := acc.1; graph := gs.1; reverse_graph := gs.2;
          file_patterns := acc.2 |}.

(** [get_affected_rows(changed_id)] *)
Definition get_affected_rows (s : state) (changed_id : string)
    : option (gset string) :=
  Graph.get_affected (reverse_graph s) changed_id.

(** [_compute_levels(start_nodes)] *)
Definition _compute_levels (s : state) (start_nodes : gset string)
    : option (list (gset string)) :=
  Graph._compute_levels (reverse_graph s) start_nodes.

Section map_files.
(** [fnmatch.fnmatch] *)
Variable fnmatch : string → string → bool.

(** [pattern.endswith("/*") or pattern.endswith("/*.c") or
    pattern.endswith("/*.py")] *)
Definition dir_suffix (pattern : string) : bool :=
  Py.endswith pattern "/*" || Py.endswith pattern "/*.c" ||
  Py.endswith pattern "/*.py".

(** The two tests of the [for pattern in patterns] loop on one pattern *)
Definition pattern_hits (filepath_normalized pattern : string) : bool :=
  fnmatch filepath_normalized pattern ||
  (dir_suffix pattern &&
   Py.startswith filepath_normalized (Py.rsplit1_head "/" pattern +:+ "/")).

(** The character that [filepath.replace] turns into a slash *)
Definition backslash : ascii := ascii_of_nat 92.

(** [file_to_rows[filepath].append(row_id)] on a [defaultdict(list)] *)
Definition append (file_to_rows : gmap string (list string))
    (filepath row_id : string) : gmap string (list string) :=
  <[filepath := default [] (file_to_rows !! filepath) ++ [row_id]]> file_to_rows.

(** The body of [for filepath in changed_files]: the row is added at the
    first of its patterns that hits, and the loop over its patterns ends
    there. *)
Definition map_file (s : state) (file_to_rows : gmap string (list string))
    (filepath : string) : gmap string (list string) :=
  let filepath_normalized := Py.replace_char backslash "/" filepath in
  foldl (λ file_to_rows kv,
           if existsb (pattern_hits filepath_normalized) kv.2
           then append file_to_rows filepath kv.1
           else file_to_rows)
        file_to_rows (file_patterns s).

(** [map_files_to_rows(changed_files)] *)
Definition map_files_to_rows (s : state) (changed_files : list string)
    : gmap string (list string) :=
  foldl (map_file s) ∅ changed_files.

End map_files.

(** The dict that [analyze_changes] returns *)
Record analysis := {
  changed_files : list string;
  file_mapping : gmap string (list string);
  directly_affected : list string;
  total_affected : list string;
  by_scope : gmap string (list string);
  propagation_levels : list (list (list string));
  files_changed : nat;
  files_mapped : nat;
  direct_targets : nat;
  total_targets : nat;
}.

(** [for rows in file_mapping.values(): directly_affected.update(rows)] *)
Definition direct_rows (file_mapping_ : gmap string (list string)) : gset string :=
  foldl (λ directly kv, directly ∪ list_to_set kv.2) ∅ (map_to_list file_mapping_).

(** [for row_id in directly_affected:
       all_affected.update(self.get_affected_rows(row_id))] *)
Fixpoint all_affected (s : state) (todo : list string) (all : gset string)
    : option (gset string) :=
  match todo with
  | [] => Some all
  | row_id :: todo' =>
      affected ← get_affected_rows s row_id;
      all_affected s todo' (all ∪ affected)
  end.

(** The key under which "Group by scope" files a row *)
Definition scope_key (s : state) (row_id : string) : string :=
  match rows s !! row_id with
  | Some row =>
      match scope row with
      | Some sc => if decide (sc = EmptyString) then "config" else sc
      | None => "config"
      end
  | None => "config"
  end.

(** [by_scope[scope or "config"].append(row_id)] for each row *)
Definition group_by_scope (s : state) (row_ids : list string)
    : gmap string (list string) :=
  foldl (λ by_scope_ row_id,
           <[scope_key s row_id :=
               default [] (by_scope_ !! scope_key s row_id) ++ [row_id]]> by_scope_)
        ∅ row_ids.

Section analyze.
(** [fnmatch.fnmatch] *)
Variable fnmatch : string → string → bool.

(** [analyze_changes(changed_files)] *)
Definition analyze_changes (s : state) (changed_files_ : list string)
    : option analysis :=
  let file_mapping_ := map_files_to_rows fnmatch s changed_files_ in
  let directly := direct_rows file_mapping_ in
  all ← all_affected s (elements directly) directly;
  levels ← _compute_levels s directly;
  Some {| changed_files := changed_files_;
          file_mapping := file_mapping_;
          directly_affected := Py.sorted (elements directly);
          total_affected := Py.sorted (elements all);
          by_scope := Py.sorted <$> group_by_scope s (elements all);
          propagation_levels := [(λ level, Py.sorted (elements level)) <$> levels];
          files_changed := length changed_files_;
          files_mapped := size file_mapping_;
          direct_targets := size directly;
          total_targets := size all |}.

End analyze.

End Ci.

(** *** The hash of a row

    [BuildSystem.compute_hash] and [Orchestrator.compute_node_hash] are the
    same text but for the last part of what is digested: the build system
    appends its sorted compiler flags, the orchestrator nothing. [tail]
    holds the parts that follow the dependency hashes. *)
Module Hash.
Import Config.

(** ["|".join(parts)] for [parts = [args, expr, "|".join(dep_hash_parts)]]
    and what follows them *)
Definition text (tail : list string) (row : Row) (dep_hash_parts : list string)
    : string :=
  Py.join "|" ([args row; expr row; Py.join "|" dep_hash_parts] ++ tail).

(** [f"{dep}:{dep_hash}"] *)
Definition part (dep dep_hash : string) : string := dep +:+ ":" +:+ dep_hash.

(** The [for dep in sorted(row.depends)] loop; [rec] is the method itself and
    [dep_hashes] the dict all calls share. *)
Fixpoint deps_loop (rows : gmap string Row)
    (rec : string → gmap string string → option (string * gmap string string))
    (deps : list string) (dep_hashes : gmap string string)
    (dep_hash_parts : list string)
    : option (list string * gmap string string) :=
  match deps with
  | [] => Some (dep_hash_parts, dep_hashes)
  | dep :: deps' =>
      match dep_hashes !! dep with
      | Some dep_hash =>
          deps_loop rows rec deps' dep_hashes
                    (dep_hash_parts ++ [part dep dep_hash])
      | None =>
          if decide (dep ∈ dom rows) then
            r ← rec dep dep_hashes;
            deps_loop rows rec deps' (<[dep := r.1]> r.2)
                      (dep_hash_parts ++ [part dep r.1])
          else deps_loop rows rec deps' dep_hashes dep_hash_parts
      end
  end.

(** The method, on the dict [dep_hashes]: the digest and the dict as the
    call leaves it. [None]: the recursion is deeper than the fuel. *)
Fixpoint compute (rows : gmap string Row) (tail : list string) (fuel : nat)
    (row_id : string) (dep_hashes : gmap string string)
    : option (string * gmap string string) :=
  match fuel with
  | O => None
  | S fuel' =>
      match rows !! row_id with
      | None => Some (EmptyString, dep_hashes)
      | Some row =>
          r ← deps_loop rows (compute rows tail fuel')
                 (Py.sorted (depends row)) dep_hashes [];
          Some (Sha256.sha16 (text tail row r.1), r.2)
      end
  end.

(** The text that is digested for a row when no dict is kept: every
    dependency that is a row contributes the digest of its own text. *)
Fixpoint input (rows : gmap string Row) (tail : list string) (fuel : nat)
    (row_id : string) : option string :=
  match fuel with
  | O => None
  | S fuel' =>
      row ← rows !! row_id;
      dep_hash_parts ←
        mapM (λ dep, i ← input rows tail fuel' dep;
                     Some (part dep (Sha256.sha16 i)))
             (filter (λ dep, dep ∈ dom rows) (Py.sorted (depends row)));
      Some (text tail row dep_hash_parts)
  end.

(** The digest does not collide on the two texts of the row [d]. *)
Definition collision_free (rows rows' : gmap string Row) (tail tail' : list string)
    (fuel : nat) (d : string) : Prop :=
  match input rows tail fuel d, input rows' tail' fuel d with
  | Some i, Some i' => i ≠ i' → Sha256.sha16 i ≠ Sha256.sha16 i'
  | _, _ => True
  end.

#[global] Instance collision_free_dec rows rows' tail tail' fuel d :
  Decision (collision_free rows rows' tail tail' fuel d).
Proof.
  unfold collision_free.
  destruct (input rows tail fuel d), (input rows' tail' fuel d); apply _.
Defined.

(** The row [d] declares the row [dep]. *)
Definition declares (rows : gmap string Row) (d dep : string) : Prop :=
  ∃ row, rows !! d = Some row ∧ dep ∈ depends row ∧ dep ∈ dom rows.

(** The row [row_id] with other [args] and [expr] *)
Definition with_fields (rows : gmap string Row) (row_id : string)
    (args' expr' : string) : gmap string Row :=
  match rows !! row_id with
  | Some row =>
      <[row_id := {| id := id row; locked := locked row; name := name row;
                     args := args'; expr := expr'; scope := scope row;
                     depends := depends row; sources := sources row |}]> rows
  | None => rows
  end.

End Hash.

(** *** [examples/buildsystem/build.py]: loading *)
Module Build.
Import Config.

Inductive td_result : Type :=
| Ok (row : Row)
| ValueError
| TopDownIdNotFound.

(** The loop of [td] of the runtime the examples import (the one whose rows
    carry [depends] and [sources]) *)
Fixpoint scan (wanted : string) (raws : list raw) : td_result :=
  match raws with
  | [] => TopDownIdNotFound
  | Some r :: raws' =>
      if decide (raw_id r = Some wanted) then Ok (make_row wanted r)
      else scan wanted raws'
  | None :: raws' => scan wanted raws'
  end.

(** [td(row_id)] on the ["rows"] array of the config *)
Definition td (raws : list raw) (row_id : string) : td_result :=
  if decide (Py.strip row_id = EmptyString) then ValueError
  else scan (Py.strip row_id) raws.

(** The fields of [BuildSystem] the engine uses *)
Record state := {
  targets : gmap string Row;
  graph : gmap string (gset string);
  reverse_graph : gmap string (gset string);
  profile_deps : gset string;
}.

(** The [for dep in profile.depends] loop of [_collect_profile_deps]; [rec]
    is the method itself. [None]: a [ValueError] of [td] escapes, or the
    recursion does not end. *)
Fixpoint collect_loop (raws : list raw)
    (rec : Row → gset string → option (gset string))
    (deps : list string) (acc : gset string) : option (gset string) :=
  match deps with
  | [] => Some acc
  | dep :: deps' =>
      match td raws dep with
      | Ok dep_row =>
          acc' ← rec dep_row ({[dep]} ∪ acc); collect_loop raws rec deps' acc'
      | TopDownIdNotFound => collect_loop raws rec deps' ({[dep]} ∪ acc)
      | ValueError => None
      end
  end.

(** [_collect_profile_deps(profile)] *)
Fixpoint _collect_profile_deps (fuel : nat) (raws : list raw) (profile : Row)
    (acc : gset string) : option (gset string) :=
  match fuel with
  | O => None
  | S fuel' =>
      collect_loop raws (_collect_profile_deps fuel' raws) (depends profile) acc
  end.

(** The [for dep in target.depends] loop of [_load_config]: every
    dependency gives an edge. *)
Definition add_edges
    (gs : gmap string (gset string) * gmap string (gset string))
    (row_id : string) (deps : list string)
    : gmap string (gset string) * gmap string (gset string) :=
  foldl (λ gs dep, (Graph.graph_add gs.1 row_id dep,
                    Graph.graph_add gs.2 dep row_id))
        gs deps.

(** One round of the "Load all targets" loop. A record that is not a dict
    has no [get]; the [ValueError] of [td] for a blank id is not caught. *)
Definition load_target (raws : list raw) (st : state) (r : raw)
    : option state :=
  match r with
  | None => None
  | Some r =>
      match raw_id r with
      | None => Some st
      | Some row_id =>
          if decide (row_id = EmptyString) then Some st
          else match td raws row_id with
               | Ok target =>
                   let gs := add_edges (graph st, reverse_graph st) row_id
                                       (depends target) in
                   Some {| targets := <[row_id := target]> (targets st);
                           graph := gs.1; reverse_graph := gs.2;
                           profile_deps := profile_deps st |}
               | TopDownIdNotFound => Some st
               | ValueError => None
               end
      end
  end.

Fixpoint load_targets (raws : list raw) (st : state) (todo : list raw)
    : option state :=
  match todo with
  | [] => Some st
  | r :: todo' => st' ← load_target raws st r; load_targets raws st' todo'
  end.

(** [_load_config()] for the profile name and the ["rows"] array. The
    recursion over the profile's dependencies is as deep as a chain of
    distinct rows can be; a deeper one repeats a row and never ends. *)
Definition _load_config (profile_name : string) (raws : list raw)
    : option state :=
  let profile_id := "profile-" +:+ profile_name in
  st ← match td raws profile_id with
       | Ok profile =>
           pd ← _collect_profile_deps (S (length raws)) raws profile ∅;
           Some {| targets := {[profile_id := profile]}; graph := ∅;
                   reverse_graph := ∅; profile_deps := pd |}
       | TopDownIdNotFound =>
           Some {| targets := ∅; graph := ∅; reverse_graph := ∅;
                   profile_deps := ∅ |}
       | ValueError => None
       end;
  load_targets raws st raws.

(** [detect_cycles()] *)
Definition detect_cycles (s : state) : option (list (list string)) :=
  Graph.detect_cycles (graph s) (fst <$> map_to_list (targets s)).

(** [get_transitive_deps(target_id)] *)
Definition get_transitive_deps (s : state) (target_id : string)
    : option (gset string) :=
  Graph.get_transitive_deps (λ _, true) (graph s) target_id.

(** [SCOPES]; [None] is the last element of the Python list. *)
Definition SCOPES : list (option string) :=
  [Some "library"; Some "binary"; Some "test"; Some "package"; Some "deploy";
   Some "profile"; None].

(** [t in self.targets and self.targets[t].scope in self.SCOPES] *)
Definition is_buildable (s : state) (t : string) : bool :=
  match targets s !! t with
  | Some row => bool_decide (scope row ∈ SCOPES)
  | None => false
  end.

(** The set [buildable] of [get_build_order] *)
Definition buildable (s : state) (targets_ : list string) : option (gset string) :=
  all_targets ← Graph.with_transitive_deps (λ _, true) (graph s) targets_
                   (list_to_set targets_);
  Some (filter (λ t, is_buildable s t = true) all_targets).

(** [get_build_order(targets)] *)
Definition get_build_order (s : state) (targets_ : list string)
    : option (list (list string)) :=
  nodes ← buildable s targets_;
  Graph.leveled_order nodes (graph s) (reverse_graph s).

(** [get_compiler_flags()], in the order the set is iterated in *)
Definition get_compiler_flags (s : state) : list string :=
  concat ((λ dep_id,
             match targets s !! dep_id with
             | Some target =>
                 if decide (args target = EmptyString) then []
                 else Py.split_ws (args target)
             | None => []
             end) <$> elements (profile_deps s)).

(** [compute_hash(target_id, dep_hashes)] *)
Definition compute_hash (fuel : nat) (s : state) (target_id : string)
    (dep_hashes : gmap string string) : option (string * gmap string string) :=
  Hash.compute (targets s) [Py.join "|" (Py.sorted (get_compiler_flags s))]
    fuel target_id dep_hashes.

(** [test_propagation] replaces the target by one with other [args]; here
    [expr] as well. *)
Definition with_fields (s : state) (target_id : string) (args' expr' : string)
    : state :=
  {| targets := Hash.with_fields (targets s) target_id args' expr';
     graph := graph s; reverse_graph := reverse_graph s;
     profile_deps := profile_deps s |}.

(** [get_affected_targets(changed_id)] as a set of ids: what is reached
    from [changed_id] along reverse edges *)
Definition affected (s : state) (changed_id d : string) : Prop :=
  tc (Graph.edge (reverse_graph s)) changed_id d.

Record BuildArtifact := {
  target_id : string;
  output : string;
  hash : string;
  build_time_ms : Z;
  cached : bool;
}.

(** What a run cannot compute: the draws of [random], the answers typed at
    the prompt, and the digest of the id and the clock. *)
Record oracle := {
  draw_fails : string → bool;
  typed_yes : string → bool;
  build_time : string → Z;
  fresh_hash : string → string;
  clock : Z;
}.

(** [build_target(target_id, dry_run, force)]: the artifact, or [None] for
    a failure, and the cache entries. The outer [None]: no fuel. *)
Definition build_target (fuel : nat) (s : state) (o : oracle)
    (entries : gmap string Cache.entry) (target_id_ : string)
    (dry_run force : bool)
    : option (option BuildArtifact * gmap string Cache.entry) :=
  match targets s !! target_id_ with
  | None => Some (None, entries)
  | Some target =>
      r ← compute_hash fuel s target_id_ ∅;
      let input_hash := r.1 in
      let output_ := if decide (expr target = EmptyString) then target_id_
                     else expr target in
      let hit := if force then None
                 else cached_hash ← Cache.get entries target_id_ input_hash;
                      if decide (cached_hash = EmptyString) then None
                      else Some cached_hash in
      match hit with
      | Some cached_hash =>
          Some (Some {| target_id := target_id_; output := output_;
                        hash := cached_hash; build_time_ms := 0;
                        cached := true |}, entries)
      | None =>
          if dry_run then
            Some (Some {| target_id := target_id_; output := output_;
                          hash := input_hash; build_time_ms := 0;
                          cached := false |}, entries)
          else if draw_fails o target_id_ && negb (locked target) then
            Some (None, entries)
          else
            Some (Some {| target_id := target_id_; output := output_;
                          hash := fresh_hash o target_id_;
                          build_time_ms := build_time o target_id_;
                          cached := false |},
                  Cache.put entries target_id_ input_hash
                            (fresh_hash o target_id_) (clock o))
      end
  end.

(** What the loop of [build] did with a target *)
Inductive event : Type :=
| SkippedDependency
| SkippedNotConfirmed
| Failed
| Built (artifact : BuildArtifact).

(** The variables of the loop of [build]; [log] has one entry for each
    target the loop handled, in order (the counters of [BuildStats] count
    the entries of each kind). *)
Record run := {
  failed_targets : gset string;
  entries : gmap string Cache.entry;
  log : list (string * event);
}.

(** The body of [for target_id in level] *)
Definition build_step (fuel : nat) (s : state) (o : oracle)
    (dry_run force : bool) (r : run) (target_id_ : string) : option run :=
  match targets s !! target_id_ with
  | None => Some r
  | Some target =>
      if decide (Graph.graph_get (graph s) target_id_ ∩ failed_targets r ≠ ∅) then
        Some {| failed_targets := failed_targets r; entries := entries r;
                log := log r ++ [(target_id_, SkippedDependency)] |}
      else if locked target && negb dry_run && negb (typed_yes o target_id_) then
        Some {| failed_targets := failed_targets r; entries := entries r;
                log := log r ++ [(target_id_, SkippedNotConfirmed)] |}
      else
        res ← build_target fuel s o (entries r) target_id_ dry_run force;
        match res.1 with
        | None =>
            Some {| failed_targets := {[target_id_]} ∪ failed_targets r;
                    entries := res.2;
                    log := log r ++ [(target_id_, Failed)] |}
        | Some artifact =>
            Some {| failed_targets := failed_targets r; entries := res.2;
                    log := log r ++ [(target_id_, Built artifact)] |}
        end
  end.

(** The two nested loops: the targets of all levels in order *)
Fixpoint build_loop (fuel : nat) (s : state) (o : oracle)
    (dry_run force : bool) (r : run) (todo : list string) : option run :=
  match todo with
  | [] => Some r
  | t :: todo' =>
      r' ← build_step fuel s o dry_run force r t;
      build_loop fuel s o dry_run force r' todo'
  end.

(** [build(targets, dry_run, force)]: the verdict and how the loop ended.
    [None]: a traversal or a hash ran out of fuel. *)
Definition build (fuel : nat) (s : state) (o : oracle)
    (entries_ : gmap string Cache.entry) (targets_ : list string)
    (dry_run force : bool) : option (bool * run) :=
  let r0 := {| failed_targets := ∅; entries := entries_; log := [] |} in
  cycles ← detect_cycles s;
  match cycles with
  | _ :: _ => Some (false, r0)
  | [] =>
      build_order ← get_build_order s targets_;
      match build_order with
      | [] => Some (true, r0)
      | _ =>
          r ← build_loop fuel s o dry_run force r0 (concat build_order);
          Some (bool_decide (failed_targets r = ∅), r)
      end
  end.

(** [get_affected_targets(changed_id)] *)
Definition get_affected_targets (s : state) (changed_id : string)
    : option (gset string) :=
  Graph.get_affected (reverse_graph s) changed_id.

(** The levels that [show_propagation_chain(target_id)] prints; nothing
    for an id that is no target. *)
Definition show_propagation_chain (s : state) (target_id : string)
    : option (list (gset string)) :=
  if decide (target_id ∈ dom (targets s))
  then Graph._compute_levels (reverse_graph s) {[target_id]}
  else Some [].

End Build.

(** *** [BuildStats] of [examples/buildsystem/build.py] *)
Module BuildStats.

Record stats := {
  total_targets : Z;
  built : Z;
  cached : Z;
  failed : Z;
  skipped : Z;
  total_time_ms : Z;
  artifacts : list Build.BuildArtifact;
}.

(** [BuildStats()] *)
Definition initial : stats :=
  {| total_targets := 0; built := 0; cached := 0; failed := 0; skipped := 0;
     total_time_ms := 0; artifacts := [] |}.

Definition add (st : stats) (artifact : Build.BuildArtifact) : stats :=
  {| artifacts := artifacts st ++ [artifact];
     total_targets := total_targets st + 1;
     total_time_ms := total_time_ms st + Build.build_time_ms artifact;
     cached := if Build.cached artifact then cached st + 1 else cached st;
     built := if Build.cached artifact then built st else built st + 1;
     failed := failed st; skipped := skipped st |}.

Definition fail (st : stats) (target_id : string) : stats :=
  {| total_targets := total_targets st + 1; failed := failed st + 1;
     built := built st; cached := cached st; skipped := skipped st;
     total_time_ms := total_time_ms st; artifacts := artifacts st |}.

Definition skip (st : stats) : stats :=
  {| total_targets := total_targets st + 1; skipped := skipped st + 1;
     built := built st; cached := cached st; failed := failed st;
     total_time_ms := total_time_ms st; artifacts := artifacts st |}.

(** The call on [self.stats] that the loop of [build] makes where it
    handles a target: [skip()] at both [continue]s after a skip,
    [fail(target_id)] when [build_target] gives [None], [add(artifact)]
    otherwise. *)
Definition record (st : stats) (entry : string * Build.event) : stats :=
  match entry.2 with
  | Build.SkippedDependency | Build.SkippedNotConfirmed => skip st
  | Build.Failed => fail st entry.1
  | Build.Built artifact => add st artifact
  end.

(** The statistics after the loop of [build] handled the targets of
    [log], in order *)
Definition after (st : stats) (log : list (string * Build.event)) : stats :=
  foldl record st log.

End BuildStats.

(** *** [examples/orchestrator/orchestrator.py]: loading and levels *)
Module Orchestrator.
Import Config.

Record state := {
  nodes : gmap string Row;
  graph : gmap string (gset string);
  reverse_graph : gmap string (gset string);
}.

(** One round of the loop of [_load_orchestrator_config], which is the
    "Load all targets" loop of the build system. *)
Definition load_node (raws : list raw) (st : state) (r : raw) : option state :=
  match r with
  | None => None
  | Some r =>
      match raw_id r with
      | None => Some st
      | Some row_id =>
          if decide (row_id = EmptyString) then Some st
          else match Build.td raws row_id with
               | Build.Ok node =>
                   let gs := Build.add_edges (graph st, reverse_graph st)
                                             row_id (depends node) in
                   Some {| nodes := <[row_id := node]> (nodes st);
                           graph := gs.1; reverse_graph := gs.2 |}
               | Build.TopDownIdNotFound => Some st
               | Build.ValueError => None
               end
      end
  end.

Fixpoint load_nodes (raws : list raw) (st : state) (todo : list raw)
    : option state :=
  match todo with
  | [] => Some st
  | r :: todo' => st' ← load_node raws st r; load_nodes raws st' todo'
  end.

(** [_load_orchestrator_config()] *)
Definition _load_orchestrator_config (raws : list raw) : option state :=
  load_nodes raws {| nodes := ∅; graph := ∅; reverse_graph := ∅ |} raws.

(** [get_transitive_deps(node_id)]: only nodes are added. *)
Definition get_transitive_deps (s : state) (node_id : string)
    : option (gset string) :=
  Graph.get_transitive_deps (λ dep, bool_decide (dep ∈ dom (nodes s)))
    (graph s) node_id.

(** The set [all_nodes] of [get_execution_levels] *)
Definition all_nodes (s : state) (targets_ : list string) : option (gset string) :=
  all ← Graph.with_transitive_deps (λ dep, bool_decide (dep ∈ dom (nodes s)))
          (graph s) targets_ (list_to_set targets_);
  Some (filter (λ n, n ∈ dom (nodes s)) all).

(** [get_execution_levels(targets)] *)
Definition get_execution_levels (s : state) (targets_ : list string)
    : option (list (list string)) :=
  all ← all_nodes s targets_;
  Graph.leveled_order all (graph s) (reverse_graph s).

(** [compute_node_hash(node_id, dep_hashes)] *)
Definition compute_node_hash (fuel : nat) (s : state) (node_id : string)
    (dep_hashes : gmap string string) : option (string * gmap string string) :=
  Hash.compute (nodes s) [] fuel node_id dep_hashes.

(** [test_propagation] replaces the node by one with other [args]; here
    [expr] as well. *)
Definition with_fields (s : state) (node_id : string) (args' expr' : string)
    : state :=
  {| nodes := Hash.with_fields (nodes s) node_id args' expr';
     graph := graph s; reverse_graph := reverse_graph s |}.

(** [get_affected_nodes(changed_id)] as a set of ids: what is reached from
    [changed_id] along reverse edges *)
Definition affected (s : state) (changed_id d : string) : Prop :=
  tc (Graph.edge (reverse_graph s)) changed_id d.

(** [detect_cycles()] *)
Definition detect_cycles (s : state) : option (list (list string)) :=
  Graph.detect_cycles (graph s) (fst <$> map_to_list (nodes s)).

(** [class Status] *)
Inductive Status : Type :=
| PENDING | RUNNING | SUCCESS | FAILED | SKIPPED | BLOCKED | WAITING_APPROVAL.

#[global] Instance Status_eq_dec : EqDecision Status.
Proof. solve_decision. Defined.

(** The draws of [random] and the answers typed at the prompt *)
Record oracle := {
  draw_fails : string → bool;
  typed_yes : string → bool;
}.

(** The status of the result of [execute_node(node_id, dry_run,
    auto_approve)] *)
Definition execute_node (s : state) (o : oracle) (node_id : string)
    (dry_run auto_approve : bool) : Status :=
  match nodes s !! node_id with
  | None => FAILED
  | Some node =>
      if bool_decide (default "config" (scope node) = "gate")
         && locked node && negb auto_approve
      then WAITING_APPROVAL
      else if locked node && negb dry_run && negb auto_approve
              && negb (typed_yes o node_id)
      then SKIPPED
      else if dry_run then SUCCESS
      else if draw_fails o node_id then FAILED
      else SUCCESS
  end.

(** What the loop of [run_pipeline] did with a node: it added a [SKIPPED]
    result of its own, or called [execute_node] and added its result. *)
Inductive event : Type :=
| SkippedDependency
| Executed (status : Status).

(** The status of the result added to [self.state.results] *)
Definition status_of (e : event) : Status :=
  match e with
  | SkippedDependency => SKIPPED
  | Executed status => status
  end.

(** The variables of the loop of [run_pipeline]; [log] has one entry for
    each result added, in order. *)
Record run := {
  failed_nodes : gset string;
  log : list (string * event);
}.

(** The body of [for node_id in level] *)
Definition run_step (s : state) (o : oracle) (dry_run auto_approve : bool)
    (r : run) (node_id : string) : run :=
  match nodes s !! node_id with
  | None => r
  | Some node =>
      if decide (Graph.graph_get (graph s) node_id ∩ failed_nodes r ≠ ∅) then
        {| failed_nodes := failed_nodes r;
           log := log r ++ [(node_id, SkippedDependency)] |}
      else
        let status := execute_node s o node_id dry_run auto_approve in
        {| failed_nodes := if decide (status = FAILED)
                           then {[node_id]} ∪ failed_nodes r
                           else failed_nodes r;
           log := log r ++ [(node_id, Executed status)] |}
  end.

(** [run_pipeline(pipeline_id, dry_run, auto_approve)] *)
Definition run_pipeline (s : state) (o : oracle) (pipeline_id : string)
    (dry_run auto_approve : bool) : option (bool * run) :=
  let r0 := {| failed_nodes := ∅; log := [] |} in
  match nodes s !! pipeline_id with
  | None => Some (false, r0)
  | Some pipeline =>
      if decide (scope pipeline = Some "pipeline") then
        cycles ← detect_cycles s;
        match cycles with
        | _ :: _ => Some (false, r0)
        | [] =>
            levels ← get_execution_levels s [pipeline_id];
            let r := foldl (run_step s o dry_run auto_approve) r0
                           (concat levels) in
            Some (bool_decide (failed_nodes r = ∅), r)
        end
      else Some (false, r0)
  end.

(** [get_affected_nodes(changed_id)] *)
Definition get_affected_nodes (s : state) (changed_id : string)
    : option (gset string) :=
  Graph.get_affected (reverse_graph s) changed_id.

(** The levels that [show_propagation_chain(node_id)] prints; nothing for
    an id that is no node. *)
Definition show_propagation_chain (s : state) (node_id : string)
    : option (list (gset string)) :=
  if decide (node_id ∈ dom (nodes s))
  then Graph._compute_levels (reverse_graph s) {[node_id]}
  else Some [].

End Orchestrator.

(** *** [WorkflowState] of [examples/orchestrator/orchestrator.py] *)
Module WorkflowState.

(** The fields that [run_pipeline] changes; a result is kept as its node
    and its status. *)
Record state := {
  status : Orchestrator.Status;
  results : list (string * Orchestrator.Status);
  blocked_by : option string;
}.

(** [WorkflowState(pipeline_id, started_at)] *)
Definition initial : state :=
  {| status := Orchestrator.PENDING; results := []; blocked_by := None |}.

Definition add_result (st : state) (result : string * Orchestrator.Status)
    : state :=
  {| results := results st ++ [result];
     status := if decide (result.2 = Orchestrator.FAILED)
               then Orchestrator.FAILED else status st;
     blocked_by := blocked_by st |}.

(** What the loop of [run_pipeline] does to [self.state] where it handles
    a node: it adds the result, and a node that waits for approval becomes
    [blocked_by]. *)
Definition record (st : state) (entry : string * Orchestrator.event) : state :=
  let st' := add_result st (entry.1, Orchestrator.status_of entry.2) in
  match entry.2 with
  | Orchestrator.Executed Orchestrator.WAITING_APPROVAL =>
      {| status := status st'; results := results st';
         blocked_by := Some entry.1 |}
  | _ => st'
  end.

(** [self.state] after the loop handled the nodes of [log], in order *)
Definition after (st : state) (log : list (string * Orchestrator.event))
    : state :=
  foldl record st log.

(** ["total_nodes"] of [summary()] *)
Definition total_nodes (st : state) : nat := length (results st).

(** The count of [status_] in ["nodes"] of [summary()]; 0 for a key that
    is not there *)
Definition by_status (st : state) (status_ : Orchestrator.Status) : nat :=
  length (filter (λ r, r.2 = status_) (results st)).

End WorkflowState.

(** *** [examples/datapipeline/pipeline.py] *)
Module Pipeline.
Import Config.

(** The fields of [DataPipeline]; the graphs are [defaultdict(list)]. *)
Record state := {
  stages : gmap string Row;
  graph : gmap string (list string);
  reverse_graph : gmap string (list string);
}.

(** [stage_ids] of [_load_stages] *)
Definition stage_ids (prod : bool) : list string :=
  [if prod then "db-connection-prod" else "db-connection";
   "api-credentials"; "extract-users"; "extract-orders"; "extract-products";
   "transform-normalize"; "transform-enrich"; "transform-aggregate";
   "validate-schema";
   if prod then "load-warehouse-prod" else "load-warehouse";
   "notify-slack"; "cleanup-temp"].

(** [graph[k].append(v)] on a [defaultdict(list)] *)
Definition append (g : gmap string (list string)) (k v : string)
    : gmap string (list string) :=
  <[k := default [] (g !! k) ++ [v]]> g.

(** The [for dep in config.depends] loop of [_load_stages] *)
Definition add_edges (prod : bool)
    (gs : gmap string (list string) * gmap string (list string))
    (stage_id : string) (deps : list string)
    : gmap string (list string) * gmap string (list string) :=
  foldl (λ gs dep,
           let actual_dep :=
             if bool_decide (dep = "db-connection") && prod
             then "db-connection-prod"
             else if bool_decide (dep = "load-warehouse") && prod
             then "load-warehouse-prod"
             else dep in
           if decide (actual_dep ∈ stage_ids prod ∨ dep ∈ stage_ids prod) then
             let d := if decide (dep ∈ stage_ids prod) then dep else actual_dep in
             (append gs.1 stage_id d, append gs.2 d stage_id)
           else gs)
        gs deps.

(** [_load_stages()]; the ids are not blank, so [td] raises nothing but
    [TopDownIdNotFound], which is caught. *)
Definition _load_stages (prod : bool) (raws : list raw) : state :=
  foldl (λ st stage_id,
           match Build.td raws stage_id with
           | Build.Ok config =>
               let gs := add_edges prod (graph st, reverse_graph st) stage_id
                                   (depends config) in
               {| stages := <[stage_id := config]> (stages st);
                  graph := gs.1; reverse_graph := gs.2 |}
           | _ => st
           end)
        {| stages := ∅; graph := ∅; reverse_graph := ∅ |} (stage_ids prod).

(** [in_degree] of [get_execution_levels] *)
Definition in_degrees (s : state) : gmap string Z :=
  foldl (λ in_degree kv,
           foldl (λ in_degree dep,
                    if decide (dep ∈ dom in_degree)
                    then <[kv.1 := (in_degree !!! kv.1) + 1]> in_degree
                    else in_degree)
                 in_degree kv.2)
        (gset_to_gmap 0 (dom (stages s))) (map_to_list (graph s)).

(** [get_execution_levels()] *)
Definition get_execution_levels (s : state) : option (list (list string)) :=
  Graph.levels_loop (S (size (dom (stages s))))
    (λ t, default [] (reverse_graph s !! t))
    (dom (stages s)) (in_degrees s) [].

(** The draws of [random] and the answers typed at the prompt *)
Record oracle := {
  draw_fails : string → bool;
  typed_yes : string → bool;
}.

(** Whether [simulate_stage(stage_id, dry_run)] succeeds *)
Definition simulate_stage (s : state) (o : oracle) (stage_id : string)
    (dry_run : bool) : option bool :=
  stage ← stages s !! stage_id;
  if locked stage && negb dry_run && negb (typed_yes o stage_id) then Some false
  else if dry_run then Some true
  else if draw_fails o stage_id && negb (locked stage) then Some false
  else Some true.

(** [target and stage_id != target] *)
Definition off_target (target : option string) (stage_id : string) : bool :=
  match target with
  | Some t => negb (String.eqb t EmptyString) && negb (String.eqb stage_id t)
  | None => false
  end.

(** The two nested loops of [run]: the stages handled, with their success,
    and whether the loops ran to their end. A stage that fails ends the
    run. [None]: [KeyError]. *)
Fixpoint run_loop (s : state) (o : oracle) (target : option string)
    (dry_run : bool) (results : list (string * bool)) (todo : list string)
    : option (bool * list (string * bool)) :=
  match todo with
  | [] => Some (true, results)
  | stage_id :: todo' =>
      if off_target target stage_id
      then run_loop s o target dry_run results todo'
      else
        match simulate_stage s o stage_id dry_run with
        | Some true =>
            run_loop s o target dry_run (results ++ [(stage_id, true)]) todo'
        | Some false => Some (false, results ++ [(stage_id, false)])
        | None => None
        end
  end.

(** [run(target, dry_run)] *)
Definition run (s : state) (o : oracle) (target : option string)
    (dry_run : bool) : option (bool * list (string * bool)) :=
  cycles ← Graph.detect_cycles (list_to_set <$> graph s)
              (fst <$> map_to_list (stages s));
  match cycles with
  | _ :: _ => Some (false, [])
  | [] =>
      levels ← get_execution_levels s;
      run_loop s o target dry_run [] (concat levels)
  end.

(** Every id in the lists of [reverse_graph] *)
Definition dependents_ids (s : state) : gset string :=
  ⋃ (list_to_set <$> (snd <$> map_to_list (reverse_graph s))).

(** [get_downstream(stage_id)] *)
Definition get_downstream (s : state) (stage_id : string) : option (gset string) :=
  Graph.affected_loop (S (S (size (dependents_ids s))))
    (λ t, default [] (reverse_graph s !! t)) [stage_id] ∅.

End Pipeline.

(** *** [examples/taskrunner/taskrunner.py] *)
Module TaskRunner.

(** [class Task] *)
Record Task := {
  id : string;
  name : string;
  args : list string;
  timeout : Z;
  retries : Z;
  depends : list string;
  locked : bool;
}.

(** The [for dep in task.depends] loop of [visit]; [rec] is [visit]
    itself, on the variables [visited] and [order]. *)
Fixpoint visit_deps (tasks : gmap string Task)
    (rec : string → gset string * list string
           → option (gset string * list string))
    (deps : list string) (st : gset string * list string)
    : option (gset string * list string) :=
  match deps with
  | [] => Some st
  | dep :: deps' =>
      if decide (dep ∈ dom tasks)
      then st' ← rec dep st; visit_deps tasks rec deps' st'
      else visit_deps tasks rec deps' st
  end.

(** [visit(tid)] of [get_execution_order]. [None]: the recursion is deeper
    than the fuel. *)
Fixpoint visit (fuel : nat) (tasks : gmap string Task) (tid : string)
    (st : gset string * list string) : option (gset string * list string) :=
  match fuel with
  | O => None
  | S fuel' =>
      if decide (tid ∈ st.1) then Some st
      else
        let st1 := ({[tid]} ∪ st.1, st.2) in
        match tasks !! tid with
        | None => Some st1
        | Some task =>
            st2 ← visit_deps tasks (visit fuel' tasks) (depends task) st1;
            Some (st2.1, st2.2 ++ [tid])
        end
  end.

(** [get_execution_order(task_id)]; the recursion is never deeper than the
    number of tasks, and one call more for [task_id] itself. *)
Definition get_execution_order (tasks : gmap string Task) (task_id : string)
    : option (list string) :=
  snd <$> visit (S (S (size (dom tasks)))) tasks task_id (∅, []).

(** Whether [Task.run(dry_run)] succeeds; [typed_yes] tells for which task
    the answer typed at the prompt is [yes]. *)
Definition task_run (typed_yes : string → bool) (task : Task) (dry_run : bool)
    : bool :=
  if dry_run then true
  else if locked task then typed_yes (id task)
  else true.

(** The loop of [run]: the verdict and the tasks that were run, in order.
    [None]: [KeyError]. *)
Fixpoint run_loop (typed_yes : string → bool) (tasks : gmap string Task)
    (dry_run : bool) (todo ran : list string) : option (bool * list string) :=
  match todo with
  | [] => Some (true, ran)
  | tid :: todo' =>
      task ← tasks !! tid;
      if task_run typed_yes task dry_run
      then run_loop typed_yes tasks dry_run todo' (ran ++ [tid])
      else Some (false, ran ++ [tid])
  end.

(** [run(task_id, dry_run)] *)
Definition run (typed_yes : string → bool) (tasks : gmap string Task)
    (task_id : string) (dry_run : bool) : option (bool * list string) :=
  if decide (task_id ∈ dom tasks) then
    execution_order ← get_execution_order tasks task_id;
    run_loop typed_yes tasks dry_run execution_order []
  else Some (false, []).

End TaskRunner.

(** *** Configs used as examples *)
Module Examples.
Import Config.

Definition record (i nm : string) (deps : list string) : raw :=
  Some {| raw_id := Some i; raw_locked := false; raw_name := nm;
          raw_args := ""; raw_expr := ""; raw_scope := None;
          raw_depends := Items deps; raw_sources := Absent |}.

(** [a] and [b] depend on each other, [c] on [a]. *)
Definition cyclic_config : list raw :=
  [record "a" "A" ["b"]; record "b" "B" ["a"]; record "c" "C" ["a"]].

(** The id [a] twice. *)
Definition first_a : raw_row :=
  {| raw_id := Some "a"; raw_locked := false; raw_name := "first";
     raw_args := ""; raw_expr := ""; raw_scope := None;
     raw_depends := Items []; raw_sources := Absent |}.
Definition second_a : raw_row :=
  {| raw_id := Some "a"; raw_locked := false; raw_name := "second";
     raw_args := ""; raw_expr := ""; raw_scope := None;
     raw_depends := Items []; raw_sources := Absent |}.
Definition duplicate_config : list raw :=
  [Some first_a; record "b" "other" ["a"]; Some second_a].

(** The diamond of the scenario; [mid1] also names an id no record has. *)
Definition diamond_config : list raw :=
  [record "leaf" "Leaf" ["mid1"; "mid2"]; record "mid2" "Mid 2" ["root"];
   record "mid1" "Mid 1" ["root"; "ghost"]; record "root" "Root" []].

(** A record with arguments *)
Definition record_args (i args_ : string) (deps : list string) : raw :=
  Some {| raw_id := Some i; raw_locked := false; raw_name := i;
          raw_args := args_; raw_expr := ""; raw_scope := None;
          raw_depends := Items deps; raw_sources := Absent |}.

(** The profile [dev] takes its flags from [cflags]; [app] depends on
    nothing. *)
Definition flags_config : list raw :=
  [record "profile-dev" "Dev" ["cflags"]; record_args "cflags" "-O2" [];
   record "app" "App" []].


(** [a] depends on an id no record has. *)
Definition dangling_config : list raw :=
  [record "a" "A" ["ghost"]; record "b" "B" ["a"]].

(** The build of [a] fails; every other draw succeeds. *)
Definition a_fails : Build.oracle :=
  {| Build.draw_fails := λ t, bool_decide (t = "a");
     Build.typed_yes := λ _, true;
     Build.build_time := λ _, 1;
     Build.fresh_hash := λ t, t;
     Build.clock := 0 |}.

(** Two stages of the data pipeline that depend on nothing *)
Definition stages_config : list raw :=
  [record "db-connection" "Database" []; record "api-credentials" "API" []].

(** The no-break space U+00A0, in UTF-8 *)
Definition nbsp : string :=
  String (ascii_of_nat 194) (String (ascii_of_nat 160) EmptyString).

(** Three stages of the data pipeline: [extract-users] reads from
    [db-connection], [transform-normalize] from both. *)
Definition etl_config : list raw :=
  [record "db-connection" "Database" [];
   record "extract-users" "Users" ["db-connection"];
   record "transform-normalize" "Normalize" ["extract-users"; "db-connection"]].

(** Every draw succeeds and the digest of the target [t] is ["h-t"]. *)
Definition all_built : Build.oracle :=
  {| Build.draw_fails := λ _, false;
     Build.typed_yes := λ _, true;
     Build.build_time := λ _, 1;
     Build.fresh_hash := λ t, "h-" +:+ t;
     Build.clock := 0 |}.

(** A record with a scope and a lock *)
Definition scoped (i scope_ : string) (lock : bool) (deps : list string) : raw :=
  Some {| raw_id := Some i; raw_locked := lock; raw_name := i;
          raw_args := ""; raw_expr := ""; raw_scope := Some scope_;
          raw_depends := Items deps; raw_sources := Absent |}.

(** The pipeline [release] runs [deploy], which comes after the locked
    gate [approval]. *)
Definition release_config : list raw :=
  [scoped "approval" "gate" true []; scoped "deploy" "workflow" false ["approval"];
   scoped "release" "pipeline" false ["deploy"]].

(** No draw fails and nothing is confirmed at the prompt. *)
Definition nothing_confirmed : Orchestrator.oracle :=
  {| Orchestrator.draw_fails := λ _, false;
     Orchestrator.typed_yes := λ _, false |}.

(** The node [deploy] fails and everything is confirmed. *)
Definition deploy_fails : Orchestrator.oracle :=
  {| Orchestrator.draw_fails := λ n, bool_decide (n = "deploy");
     Orchestrator.typed_yes := λ _, true |}.

(** The stage [api-credentials] fails. *)
Definition credentials_fail : Pipeline.oracle :=
  {| Pipeline.draw_fails := λ t, bool_decide (t = "api-credentials");
     Pipeline.typed_yes := λ _, true |}.

(** The row [headers] checks the headers of [src]; the row [sources]
    names the C files of [src] and all of [docs]. *)
Definition patterns_config : list raw :=
  [record_args "headers" "check src/*.h" [];
   record_args "sources" "lint src/*.c docs/*" ["headers"]].

(** [api] depends on [schema] and [app] on [api]; [schema] names one
    file. *)
Definition impact_config : list raw :=
  [record_args "schema" "db/schema.sql" [];
   record_args "api" "lint api/*.py" ["schema"]; record "app" "App" ["api"]].

End Examples.

(** ** Part II: properties *)

(** *** The result cache *)
Section cache_properties.
Import Cache.

Lemma get_Some entries row_id h o :
  get entries row_id h = Some o ↔
  ∃ e, entries !! row_id = Some e ∧ input_hash e = h ∧ output_hash e = o.
Proof.
  unfold get. destruct (entries !! row_id) as [e|] eqn:He.
  - case_decide; naive_solver.
  - naive_solver.
Qed.

Lemma get_None entries row_id h :
  get entries row_id h = None ↔
  ¬ ∃ e, entries !! row_id = Some e ∧ input_hash e = h.
Proof.
  unfold get. destruct (entries !! row_id) as [e|] eqn:He.
  - case_decide; naive_solver.
  - naive_solver.
Qed.

(** C8. [get] hits exactly when an entry for the row exists whose stored
    input hash is the queried one, and then returns the stored output hash;
    anything else, a stale entry included, is a miss. [put] replaces
    whatever entry the row had and leaves the other rows alone, so a
    query after it sees only the new entry. *)
Theorem cache_contract (entries : gmap string entry) (row_id h : string) :
  (∀ o, get entries row_id h = Some o ↔
        ∃ e, entries !! row_id = Some e ∧ input_hash e = h ∧ output_hash e = o)
  ∧ (get entries row_id h = None ↔
        ¬ ∃ e, entries !! row_id = Some e ∧ input_hash e = h)
  ∧ (∀ h' o' now,
        put entries row_id h' o' now !! row_id =
          Some {| input_hash := h'; output_hash := o'; timestamp := now |})
  ∧ (∀ h' o' now,
        get (put entries row_id h' o' now) row_id h =
          if decide (h' = h) then Some o' else None)
  ∧ (∀ other h' o' now, other ≠ row_id →
        put entries row_id h' o' now !! other = entries !! other).
Proof.
  split_and!.
  - intros o. apply get_Some.
  - apply get_None.
  - intros. unfold put. by rewrite lookup_insert_eq.
  - intros. unfold get, put. by rewrite lookup_insert_eq.
  - intros. unfold put. by rewrite lookup_insert_ne.
Qed.

End cache_properties.

(** *** Cycle detection *)
Section dfs_correct.
Import Graph.
Context (g : gmap string (gset string)) (U : gset string).
Hypothesis U_closed : ∀ a b, edge g a b → b ∈ U.

Definition black (st : dfs_state) : gset string := visited st ∖ rec_stack st.

Record inv (st : dfs_state) : Prop := {
  inv_stack : ∀ x, x ∈ rec_stack st ↔ x ∈ path st;
  inv_visited : rec_stack st ⊆ visited st;
  inv_univ : visited st ⊆ U;
  inv_walk : walk g (path st);
  inv_cycles : Forall (closed_walk g) (cycles st);
  inv_black : cycles st = [] → ∀ u, u ∈ black st →
              (∀ w, edge g u w → w ∈ black st) ∧ ¬ tc (edge g) u u;
}.

Lemma walk_snoc l a b :
  walk g l → last l = Some a → edge g a b → walk g (l ++ [b]).
Proof.
  intros Hw Hl He i x y Hx Hy.
  destruct (decide (S i < length l)%nat) as [Hlt|Hge].
  - rewrite lookup_app_l in Hx by lia. rewrite lookup_app_l in Hy by lia. eauto.
  - assert (i < length l)%nat.
    { apply lookup_lt_Some in Hy. rewrite length_app in Hy. simpl in Hy.
      apply lookup_lt_Some in Hx. rewrite length_app in Hx. simpl in Hx. lia. }
    rewrite lookup_app_l in Hx by lia.
    rewrite lookup_app_r in Hy by lia.
    assert (S i = length l) as Heq by lia. rewrite Heq, Nat.sub_diag in Hy.
    simpl in Hy. injection Hy as <-.
    rewrite last_lookup in Hl. replace (pred (length l)) with i in Hl by lia.
    congruence.
Qed.

Lemma walk_single a : walk g [a].
Proof. intros [|i] x y Hx Hy; simpl in *; done. Qed.

Lemma walk_nil : walk g [].
Proof. intros i x y Hx; done. Qed.

Lemma walk_app_l l1 l2 : walk g (l1 ++ l2) → walk g l1.
Proof.
  intros Hw i x y Hx Hy. apply (Hw i).
  - by apply lookup_app_l_Some.
  - by apply lookup_app_l_Some.
Qed.

Lemma walk_drop k l : walk g l → walk g (drop k l).
Proof.
  intros Hw i x y Hx Hy. rewrite lookup_drop in Hx, Hy.
  apply (Hw (k + i)%nat); [done|]. by rewrite <-Nat.add_succ_r.
Qed.

Lemma index_Some x l : x ∈ l → ∃ k, index x l = Some k ∧ l !! k = Some x.
Proof.
  induction l as [|y l IH]; [by intros ?%elem_of_nil|].
  intros Hin. simpl. destruct (decide (y = x)) as [->|Hne].
  - exists 0%nat. done.
  - apply elem_of_cons in Hin as [->|Hin]; [done|].
    destruct (IH Hin) as (k & -> & Hk). exists (S k). done.
Qed.


Lemma closed_walk_cycle l k dep node :
  walk g l → last l = Some node → l !! k = Some dep → edge g node dep →
  closed_walk g (drop k l ++ [dep]).
Proof.
  intros Hw Hl Hk He.
  assert (k < length l)%nat as Hlt by by eapply lookup_lt_Some.
  assert (last (drop k l) = Some node) as Hld.
  { rewrite last_lookup, lookup_drop, length_drop.
    rewrite last_lookup in Hl.
    replace (k + pred (length l - k))%nat with (pred (length l)) by lia. done. }
  split_and!.
  - eapply walk_snoc; [by apply walk_drop|done..].
  - rewrite length_app, length_drop. simpl. lia.
  - rewrite last_snoc.
    destruct (drop k l) as [|y l'] eqn:Hd.
    + apply (f_equal length) in Hd. rewrite length_drop in Hd. simpl in Hd. lia.
    + simpl. f_equal.
      assert (drop k l !! 0%nat = Some dep) as H0.
      { rewrite lookup_drop, Nat.add_0_r. done. }
      rewrite Hd in H0. simpl in H0. congruence.
Qed.

Lemma black_closed st u w :
  inv st → cycles st = [] → u ∈ black st → rtc (edge g) u w → w ∈ black st.
Proof.
  intros Hinv Hc Hu Hr. induction Hr as [|x y z Hxy _ IH]; [done|].
  apply IH. by apply (inv_black st Hinv Hc x).
Qed.

(** What a call [dfs(node, path)] entered in [st] guarantees of the state
    [st'] it returns in. *)
Definition post (st st' : dfs_state) : Prop :=
  inv st' ∧ path st' = path st ∧ rec_stack st' = rec_stack st ∧
  visited st ⊆ visited st' ∧ (cycles st' = [] → cycles st = []).

Lemma post_black st st' : post st st' → black st ⊆ black st'.
Proof. intros (_ & _ & Hr & Hv & _). unfold black. rewrite Hr. set_solver. Qed.

Lemma post_trans st1 st2 st3 : post st1 st2 → post st2 st3 → post st1 st3.
Proof.
  intros (_ & Hp & Hr & Hv & Hc) (Hi & Hp' & Hr' & Hv' & Hc').
  split_and!; [done|congruence|congruence|set_solver|auto].
Qed.

Lemma size_unvisited st st' :
  visited st ⊆ visited st' → (size (U ∖ visited st') ≤ size (U ∖ visited st))%nat.
Proof. intros. apply subseteq_size. set_solver. Qed.

Section neighbors.
Variable fuel : nat.
Hypothesis IH : ∀ node st,
  inv st → node ∉ visited st → node ∈ U →
  (∀ l, last (path st) = Some l → edge g l node) →
  (size (U ∖ visited st) < fuel)%nat →
  ∃ st', dfs fuel g node st = Some st' ∧ post st st' ∧ node ∈ visited st'.

Lemma dfs_neighbors_spec node deps st :
  inv st → last (path st) = Some node →
  (∀ d, d ∈ deps → edge g node d) →
  (size (U ∖ visited st) < fuel)%nat →
  ∃ st', dfs_neighbors (dfs fuel g) deps st = Some st' ∧ post st st' ∧
         (cycles st' = [] → ∀ d, d ∈ deps → d ∈ black st').
Proof.
  revert st. induction deps as [|dep deps IHd]; intros st Hinv Hlast Hdeps Hsz.
  { exists st. split; [done|]. split.
    - split_and!; done.
    - intros _ d ?%elem_of_nil. done. }
  simpl. destruct (decide (dep ∉ visited st)) as [Hnv|Hv].
  - destruct (IH dep st) as (st1 & -> & Hpost1 & Hdv); auto.
    { apply (U_closed node). apply Hdeps. left. }
    { intros l Hl. rewrite Hlast in Hl. injection Hl as <-. apply Hdeps. left. }
    simpl. pose proof Hpost1 as (Hi1 & Hp1 & Hr1 & Hv1 & Hc1).
    destruct (IHd st1) as (st2 & -> & Hpost2 & Hb2); auto.
    { congruence. }
    { intros d Hd. apply Hdeps. by right. }
    { pose proof (size_unvisited st st1 Hv1). lia. }
    exists st2. split; [done|]. split; [by eapply post_trans|].
    intros Hc d [->|Hd]%elem_of_cons; [|by auto].
    apply (post_black _ _ Hpost2). unfold black.
    apply elem_of_difference. split; [done|].
    rewrite Hr1. intros Hin. apply Hnv. by apply (inv_visited st Hinv).
  - apply dec_stable in Hv.
    destruct (decide (dep ∈ rec_stack st)) as [Hrec|Hnrec].
    + destruct (index_Some dep (path st)) as (k & -> & Hk).
      { by apply (inv_stack st Hinv). }
      simpl.
      set (st1 := {| cycles := cycles st ++ [drop k (path st) ++ [dep]];
                     visited := visited st; rec_stack := rec_stack st;
                     path := path st |}).
      assert (inv st1) as Hi1.
      { destruct Hinv. split; simpl; try done.
        - apply Forall_app. split; [done|]. apply Forall_singleton.
          eapply closed_walk_cycle; eauto. apply Hdeps. left.
        - intros Hc. by apply app_nil in Hc as [_ ?]. }
      destruct (IHd st1) as (st2 & -> & Hpost2 & Hb2); auto.
      { intros d Hd. apply Hdeps. by right. }
      exists st2. split; [done|].
      destruct Hpost2 as (Hi2 & Hp2 & Hr2 & Hv2 & Hc2).
      assert (cycles st2 ≠ []) as Hne.
      { intros Hc. specialize (Hc2 Hc). simpl in Hc2.
        by apply app_nil in Hc2 as [_ ?]. }
      split; [|done]. split_and!; done.
    + destruct (IHd st) as (st2 & -> & Hpost2 & Hb2); auto.
      { intros d Hd. apply Hdeps. by right. }
      exists st2. split; [done|]. split; [done|].
      intros Hc d [->|Hd]%elem_of_cons; [|by auto].
      apply (post_black _ _ Hpost2). unfold black. set_solver.
Qed.
End neighbors.

Lemma tc_first {A} (R : relation A) x y : tc R x y → ∃ z, R x z ∧ rtc R z y.
Proof.
  intros Htc. destruct Htc as [x y H|x z y H Htc].
  - exists y. split; [done|]. constructor.
  - exists z. split; [done|]. by apply tc_rtc.
Qed.

Lemma dfs_spec fuel node st :
  inv st → node ∉ visited st → node ∈ U →
  (∀ l, last (path st) = Some l → edge g l node) →
  (size (U ∖ visited st) < fuel)%nat →
  ∃ st', dfs fuel g node st = Some st' ∧ post st st' ∧ node ∈ visited st'.
Proof.
  revert node st. induction fuel as [|fuel IH]; intros node st Hinv Hnv HU Hlast Hsz;
    [lia|].
  simpl.
  set (st1 := {| cycles := cycles st; visited := {[node]} ∪ visited st;
                 rec_stack := {[node]} ∪ rec_stack st;
                 path := path st ++ [node] |}).
  assert (node ∉ rec_stack st) as Hnr.
  { intros Hin. apply Hnv. by apply (inv_visited st Hinv). }
  assert (black st1 = black st) as Hbl.
  { unfold black. simpl. apply set_eq. intros x. set_solver. }
  assert (inv st1) as Hi1.
  { split; simpl.
    - intros x. rewrite elem_of_app, elem_of_union, list_elem_of_singleton,
        elem_of_singleton, (inv_stack st Hinv). tauto.
    - pose proof (inv_visited st Hinv). set_solver.
    - pose proof (inv_univ st Hinv). set_solver.
    - destruct (last (path st)) as [l|] eqn:Hl.
      + eapply walk_snoc; [apply (inv_walk st Hinv)|done|auto].
      + apply last_None in Hl. rewrite Hl. simpl. apply walk_single.
    - apply (inv_cycles st Hinv).
    - intros Hc u. rewrite Hbl. apply (inv_black st Hinv Hc). }
  destruct (dfs_neighbors_spec fuel IH node (elements (graph_get g node)) st1)
    as (st2 & -> & Hpost2 & Hb2); auto.
  { simpl. by rewrite last_snoc. }
  { intros d Hd. by apply elem_of_elements in Hd. }
  { simpl. assert (size (U ∖ ({[node]} ∪ visited st)) < size (U ∖ visited st))%nat;
      [|lia].
    apply subset_size. set_solver. }
  simpl. eexists. split; [done|].
  destruct Hpost2 as (Hi2 & Hp2 & Hr2 & Hv2 & Hc2). simpl in *.
  assert (rec_stack st2 ∖ {[node]} = rec_stack st) as Hrs.
  { rewrite Hr2. apply set_eq. intros x. set_solver. }
  split; [|set_solver].
  split_and!; simpl.
  - split; simpl.
    + intros x. rewrite Hrs, Hp2, removelast_last. apply (inv_stack st Hinv).
    + rewrite Hrs. pose proof (inv_visited st Hinv). set_solver.
    + apply (inv_univ st2 Hi2).
    + rewrite Hp2, removelast_last. apply (inv_walk st Hinv).
    + apply (inv_cycles st2 Hi2).
    + intros Hc u. unfold black. simpl. rewrite Hrs.
      assert (∀ x, x ∈ visited st2 ∖ rec_stack st ↔ x = node ∨ x ∈ black st2) as Hsplit.
      { intros x. unfold black. rewrite Hr2.
        destruct (decide (x = node)) as [->|]; set_solver. }
      assert (∀ w, edge g node w → w ∈ black st2) as Hsucc.
      { intros w Hw. apply (Hb2 Hc). by apply elem_of_elements. }
      assert (node ∉ black st2) as Hnb.
      { unfold black. rewrite Hr2. set_solver. }
      intros [->|Hu]%Hsplit.
      * split.
        -- intros w Hw. apply Hsplit. right. by apply Hsucc.
        -- intros Htc. apply tc_first in Htc as (z & Hz & Hrtc).
           apply Hnb. eapply black_closed; eauto.
      * destruct (inv_black st2 Hi2 Hc u Hu) as [Hs Hn]. split; [|done].
        intros w Hw. apply Hsplit. right. by apply Hs.
  - by rewrite Hp2, removelast_last.
  - done.
  - set_solver.
  - done.
Qed.

Lemma dfs_roots_spec nodes st :
  inv st → rec_stack st = ∅ → (∀ n, n ∈ nodes → n ∈ U) →
  ∃ st', dfs_roots (S (size U)) g nodes st = Some st' ∧ inv st' ∧
         rec_stack st' = ∅ ∧ visited st ⊆ visited st' ∧
         (∀ n, n ∈ nodes → n ∈ visited st') ∧
         (cycles st' = [] → cycles st = []).
Proof.
  revert st. induction nodes as [|node nodes IHn]; intros st Hinv Hrs HU.
  { exists st. split_and!; try done. by intros n ?%elem_of_nil. }
  assert (path st = []) as Hp.
  { destruct (path st) as [|x l] eqn:Hpath; [done|].
    assert (x ∈ rec_stack st) as Hx; [|set_solver].
    apply (inv_stack st Hinv). rewrite Hpath. left. }
  assert ({| cycles := cycles st; visited := visited st;
             rec_stack := rec_stack st; path := [] |} = st) as Hst.
  { destruct st; simpl in *; congruence. }
  cbn [dfs_roots]. rewrite Hst.
  destruct (decide (node ∉ visited st)) as [Hnv|Hv].
  - destruct (dfs_spec (S (size U)) node st) as (st1 & -> & Hpost & Hin); auto.
    { apply HU. left. }
    { rewrite Hp. by intros l. }
    { assert (size (U ∖ visited st) ≤ size U)%nat; [|lia].
      apply subseteq_size. set_solver. }
    simpl. destruct Hpost as (Hi1 & Hp1 & Hr1 & Hv1 & Hc1).
    destruct (IHn st1) as (st2 & -> & Hi2 & Hr2 & Hv2 & Hn2 & Hc2); auto.
    { congruence. }
    { intros n Hn. apply HU. by right. }
    exists st2. split_and!; try done; [set_solver| |auto].
    intros n [->|Hn]%elem_of_cons; [set_solver|auto].
  - apply dec_stable in Hv.
    destruct (IHn st) as (st2 & -> & Hi2 & Hr2 & Hv2 & Hn2 & Hc2); auto.
    { intros n Hn. apply HU. by right. }
    exists st2. split_and!; try done.
    intros n [->|Hn]%elem_of_cons; [set_solver|auto].
Qed.

End dfs_correct.

Section detect_cycles_correct.
Import Graph.

Lemma universe_closed g nodes a b : edge g a b → b ∈ universe g nodes.
Proof.
  unfold edge, graph_get, universe. intros Hb.
  destruct (g !! a) as [s|] eqn:Ha; simpl in Hb; [|set_solver].
  apply elem_of_union_r, elem_of_union_list. exists s. split; [|done].
  apply list_elem_of_fmap. exists (a, s). split; [done|].
  by apply elem_of_map_to_list.
Qed.

Lemma edge_dom g a b : edge g a b → a ∈ dom g.
Proof.
  unfold edge, graph_get. intros Hb. apply elem_of_dom.
  destruct (g !! a); [done|]. simpl in Hb. set_solver.
Qed.

Lemma inv_initial g U :
  inv g U {| cycles := []; visited := ∅; rec_stack := ∅; path := [] |}.
Proof.
  split; simpl; try done.
  intros x. split; [by intros ?%elem_of_empty|by intros ?%elem_of_nil].
Qed.

(** The traversal ends, every cycle it returns is a closed walk of the
    graph, and it returns one at least when the graph has a cycle. *)
Lemma detect_cycles_correct g nodes :
  dom g ⊆ list_to_set nodes →
  ∃ cs, detect_cycles g nodes = Some cs ∧ Forall (closed_walk g) cs ∧
        (cyclic g → cs ≠ []).
Proof.
  intros Hdom. unfold detect_cycles.
  destruct (dfs_roots_spec g (universe g nodes) (universe_closed g nodes) nodes
              {| cycles := []; visited := ∅; rec_stack := ∅; path := [] |})
    as (st & -> & Hinv & Hrs & _ & Hvis & _).
  { apply inv_initial. }
  { done. }
  { intros n Hn. unfold universe. set_solver. }
  simpl. exists (cycles st). split; [done|]. split; [apply Hinv|].
  intros [u Hu] Hc.
  assert (u ∈ black st) as Hb.
  { unfold black. rewrite Hrs. apply elem_of_difference. split; [|set_solver].
    apply Hvis. apply tc_first in Hu as (z & Hz & _).
    apply edge_dom in Hz. set_solver. }
  by destruct (inv_black _ _ st Hinv Hc u Hb) as [_ Hn].
Qed.

End detect_cycles_correct.

(** *** Loading *)
Section load_properties.
Import Config Graph.

Lemma edge_graph_add g n d a b :
  edge (graph_add g n d) a b ↔ edge g a b ∨ (a = n ∧ b = d).
Proof.
  unfold edge, graph_add, graph_get.
  destruct (decide (a = n)) as [->|Hne].
  - rewrite lookup_insert_eq. simpl. set_solver.
  - rewrite lookup_insert_ne by done. naive_solver.
Qed.

Lemma edge_empty a b : ¬ edge ∅ a b.
Proof. unfold edge, graph_get. rewrite lookup_empty. simpl. set_solver. Qed.

Lemma dom_graph_add g n d : dom (graph_add g n d) = {[n]} ∪ dom g.
Proof. unfold graph_add. by rewrite dom_insert_L. Qed.

(** The edges [add_edges] of the CLI adds for one row *)
Lemma cli_add_edges_spec rows gs k deps a b :
  (edge (Cli.add_edges rows gs k deps).1 a b ↔
     edge gs.1 a b ∨ (a = k ∧ b ∈ deps ∧ b ∈ dom rows)) ∧
  (edge (Cli.add_edges rows gs k deps).2 b a ↔
     edge gs.2 b a ∨ (a = k ∧ b ∈ deps ∧ b ∈ dom rows)).
Proof.
  unfold Cli.add_edges. revert gs.
  induction deps as [|d deps IH]; intros gs; simpl.
  - split; (split; [auto|intros [?|(_ & ?%elem_of_nil & _)]; done]).
  - destruct (IH (if decide (d ∈ dom rows)
                   then (graph_add gs.1 k d, graph_add gs.2 d k) else gs))
      as [IH1 IH2].
    rewrite IH1, IH2. clear IH IH1 IH2.
    case_decide; simpl; rewrite ?edge_graph_add, ?elem_of_cons; naive_solver.
Qed.

Lemma cli_graph_fold rows kvs gs a b :
  let gs' := foldl (λ gs kv, Cli.add_edges rows gs kv.1 (depends kv.2)) gs kvs in
  (edge gs'.1 a b ↔
     edge gs.1 a b ∨ ∃ row, (a, row) ∈ kvs ∧ b ∈ depends row ∧ b ∈ dom rows) ∧
  (edge gs'.2 b a ↔
     edge gs.2 b a ∨ ∃ row, (a, row) ∈ kvs ∧ b ∈ depends row ∧ b ∈ dom rows).
Proof.
  revert gs. induction kvs as [|[k row] kvs IH]; intros gs; simpl.
  - split; (split; [auto|intros [?|(? & ?%elem_of_nil & _)]; done]).
  - destruct (IH (Cli.add_edges rows gs k (depends row))) as [IH1 IH2].
    simpl in IH1, IH2. rewrite IH1, IH2. clear IH IH1 IH2.
    destruct (cli_add_edges_spec rows gs k (depends row) a b) as [-> ->].
    split; (split; [intros [[?|(-> & ? & ?)]|(r & ? & ? & ?)]|
                    intros [?|(r & [[= -> ->]|?]%elem_of_cons & ? & ?)]]);
      eauto 10 using list_elem_of_here, list_elem_of_further.
Qed.

Lemma cli_graph_spec rows a b :
  let gs := foldl (λ gs kv, Cli.add_edges rows gs kv.1 (depends kv.2))
                  (∅, ∅) (map_to_list rows) in
  (edge gs.1 a b ↔ ∃ row, rows !! a = Some row ∧ b ∈ depends row ∧ b ∈ dom rows) ∧
  (edge gs.2 b a ↔ edge gs.1 a b).
Proof.
  intros gs. destruct (cli_graph_fold rows (map_to_list rows) (∅, ∅) a b)
    as [H1 H2]. fold gs in H1, H2. simpl in H1, H2.
  assert (edge gs.1 a b ↔
          ∃ row, rows !! a = Some row ∧ b ∈ depends row ∧ b ∈ dom rows) as Hg.
  { rewrite H1. split.
    - intros [?%edge_empty|(row & ?%elem_of_map_to_list & ?)]; [done|eauto].
    - intros (row & ?%elem_of_map_to_list & ?). eauto. }
  split; [done|]. rewrite Hg, H2. split.
  - intros [?%edge_empty|(row & ?%elem_of_map_to_list & ?)]; [done|eauto].
  - intros (row & ?%elem_of_map_to_list & ?). eauto.
Qed.

Lemma cli_load_rows_snoc raws r :
  Cli.load_rows (raws ++ [r]) = Cli.load_row (Cli.load_rows raws) r.
Proof. unfold Cli.load_rows. by rewrite foldl_app. Qed.

(** Every row of the store sits under its own id, which is not empty. *)
Lemma cli_load_rows_key raws i row :
  Cli.load_rows raws !! i = Some row → id row = i ∧ i ≠ EmptyString.
Proof.
  revert i row. induction raws as [|r raws IH] using rev_ind; intros i row.
  { unfold Cli.load_rows. simpl. by rewrite lookup_empty. }
  rewrite cli_load_rows_snoc. unfold Cli.load_row.
  destruct r as [r|]; [|by apply IH].
  destruct (raw_id r) as [j|]; [|by apply IH].
  case_decide; [by apply IH|].
  destruct (decide (j = i)) as [->|Hne].
  - rewrite lookup_insert_eq. by intros [= <-].
  - rewrite lookup_insert_ne by done. by apply IH.
Qed.

Lemma cli_load_row_other rows r i :
  has_id i r = false → Cli.load_row rows r !! i = rows !! i.
Proof.
  intros Hno. unfold Cli.load_row. destruct r as [r|]; [|done].
  destruct (raw_id r) as [j|] eqn:Hj; [|done].
  case_decide; [done|]. rewrite lookup_insert_ne; [done|].
  intros ->. simpl in Hno. rewrite Hj in Hno. by rewrite bool_decide_eq_true_2 in Hno.
Qed.

(** The store is last-wins: the row kept for an id is built from the last
    record that has it. *)
Lemma cli_load_last_wins pre r post i :
  raw_id r = Some i → i ≠ EmptyString →
  forallb (λ x, negb (has_id i x)) post = true →
  Cli.load_rows (pre ++ Some r :: post) !! i = Some (make_row i r).
Proof.
  intros Hi Hne. induction post as [|x post IH] using rev_ind; intros Hpost.
  - rewrite cli_load_rows_snoc. unfold Cli.load_row. rewrite Hi.
    rewrite decide_False by done. by rewrite lookup_insert_eq.
  - rewrite forallb_app in Hpost. apply andb_prop in Hpost as [Hpost Hx].
    simpl in Hx. rewrite andb_true_r in Hx. apply negb_true_iff in Hx.
    replace (pre ++ Some r :: post ++ [x]) with ((pre ++ Some r :: post) ++ [x])
      by by rewrite <-app_assoc.
    rewrite cli_load_rows_snoc, cli_load_row_other; [by apply IH|done].
Qed.

Lemma duplicate_fold_nodup (l : list Row) errors (seen : gset string) :
  NoDup (id <$> l) → (∀ row, row ∈ l → id row ∉ seen) →
  (foldl (λ acc row,
            let '(errors, seen_ids) := acc in
            (if decide (id row ∈ seen_ids) then errors ++ [id row] else errors,
             {[id row]} ∪ seen_ids))
         (errors, seen) l).1 = errors.
Proof.
  revert errors seen. induction l as [|row l IH]; intros errors seen Hnd Hseen;
    [done|].
  simpl. rewrite decide_False by (apply Hseen; left).
  apply NoDup_cons in Hnd as [Hrow Hnd]. apply IH; [done|].
  intros row' Hin. rewrite elem_of_union, elem_of_singleton.
  intros [Heq|Hs].
  - apply Hrow. rewrite <-Heq. by apply list_elem_of_fmap_2.
  - apply (Hseen row'); [by right|done].
Qed.

(** The duplicate check of [cmd_validate] reads the rows of the store,
    whose ids are distinct: it reports nothing. *)
Lemma cli_duplicate_ids_nil raws : Cli.duplicate_ids (Cli.load raws) = [].
Proof.
  unfold Cli.duplicate_ids. simpl. apply duplicate_fold_nodup.
  - rewrite <-list_fmap_compose.
    rewrite (list_fmap_ext (id ∘ snd) fst (map_to_list (Cli.load_rows raws))).
    + apply NoDup_fst_map_to_list.
    + intros k [i row] Hk. simpl.
      apply list_elem_of_lookup_2, elem_of_map_to_list in Hk.
      by apply cli_load_rows_key in Hk as [-> _].
  - intros row _. set_solver.
Qed.

Lemma build_add_edges_dom gs row_id deps :
  dom (Build.add_edges gs row_id deps).1 ⊆ {[row_id]} ∪ dom gs.1.
Proof.
  unfold Build.add_edges. revert gs. induction deps as [|d deps IH]; intros gs;
    simpl; [set_solver|].
  etrans; [apply IH|]. simpl. rewrite dom_graph_add. set_solver.
Qed.

Lemma build_load_targets_dom raws todo st s :
  dom (Build.graph st) ⊆ dom (Build.targets st) →
  Build.load_targets raws st todo = Some s →
  dom (Build.graph s) ⊆ dom (Build.targets s).
Proof.
  revert st. induction todo as [|r todo IH]; intros st Hst; simpl.
  { by intros [= <-]. }
  destruct (Build.load_target raws st r) as [st'|] eqn:Hr; [|done]. simpl.
  apply IH. unfold Build.load_target in Hr.
  destruct r as [r|]; [|done]. destruct (raw_id r) as [i|]; [|by injection Hr as <-].
  case_decide; [by injection Hr as <-|].
  destruct (Build.td raws i) as [target| |]; [|done|by injection Hr as <-].
  injection Hr as <-. simpl. rewrite dom_insert_L.
  etrans; [apply build_add_edges_dom|]. simpl. set_solver.
Qed.

(** The keys of the graph of a loaded build system are targets. *)
Lemma build_load_dom profile raws s :
  Build._load_config profile raws = Some s →
  dom (Build.graph s) ⊆ dom (Build.targets s).
Proof.
  unfold Build._load_config. intros Hs.
  destruct (Build.td raws _) as [p| |]; [|done|].
  - destruct (Build._collect_profile_deps (S (length raws)) raws p ∅); [|done].
    eapply build_load_targets_dom; [|exact Hs]. simpl. set_solver.
  - eapply build_load_targets_dom; [|exact Hs]. simpl. set_solver.
Qed.

Lemma cli_add_edges_dom rows gs row_id deps :
  dom (Cli.add_edges rows gs row_id deps).1 ⊆ {[row_id]} ∪ dom gs.1.
Proof.
  unfold Cli.add_edges. revert gs. induction deps as [|d deps IH]; intros gs;
    simpl; [set_solver|].
  etrans; [apply IH|]. case_decide; simpl; [|set_solver].
  rewrite dom_graph_add. set_solver.
Qed.

Lemma cli_graph_fold_dom rows kvs gs :
  dom (foldl (λ gs kv, Cli.add_edges rows gs kv.1 (depends kv.2)) gs kvs).1
    ⊆ list_to_set kvs.*1 ∪ dom gs.1.
Proof.
  revert gs. induction kvs as [|[k row] kvs IH]; intros gs; simpl; [set_solver|].
  etrans; [apply IH|]. pose proof (cli_add_edges_dom rows gs k (depends row)).
  set_solver.
Qed.

Lemma list_to_set_keys {A} (m : gmap string A) :
  list_to_set (map_to_list m).*1 =@{gset string} dom m.
Proof.
  apply set_eq. intros k. rewrite elem_of_list_to_set, elem_of_dom.
  rewrite list_elem_of_fmap. split.
  - intros ([k' v] & -> & Hkv%elem_of_map_to_list). eauto.
  - intros [v Hv]. exists (k, v). split; [done|]. by apply elem_of_map_to_list.
Qed.

(** The keys of the graph of a loaded CLI are rows. *)
Lemma cli_load_dom raws :
  dom (Cli.graph (Cli.load raws)) ⊆ dom (Cli.rows (Cli.load raws)).
Proof.
  simpl. etrans; [apply cli_graph_fold_dom|].
  rewrite list_to_set_keys. simpl. set_solver.
Qed.

End load_properties.


(** *** Claims on loading and cycle detection *)
Section graph_claims.
Import Config Graph Examples.

(** C5. Cycle detection, as the CLI and the build system run it on what
    they loaded, ends; each cycle it returns is a closed walk along forward
    edges of the graph whose first and last elements are equal; and when
    the graph has a cycle the list it returns is not empty. *)
Theorem detect_cycles_sound_complete :
  (∀ raws, ∃ cs,
      Cli._detect_cycles (Cli.load raws) = Some cs ∧
      Forall (closed_walk (Cli.graph (Cli.load raws))) cs ∧
      (cyclic (Cli.graph (Cli.load raws)) → cs ≠ [])) ∧
  (∀ profile raws s, Build._load_config profile raws = Some s →
    ∃ cs, Build.detect_cycles s = Some cs ∧
          Forall (closed_walk (Build.graph s)) cs ∧
          (cyclic (Build.graph s) → cs ≠ [])).
Proof.
  split.
  - intros raws. apply detect_cycles_correct.
    rewrite list_to_set_keys. apply cli_load_dom.
  - intros profile raws s Hs. apply detect_cycles_correct.
    rewrite list_to_set_keys. by eapply build_load_dom.
Qed.

Lemma detect_cycles_sound_complete_witness :
  ∃ s cs, Build._load_config "dev" cyclic_config = Some s ∧
          Build.detect_cycles s = Some cs ∧
          Forall (closed_walk (Build.graph s)) cs ∧ cs ≠ [].
Proof.
  destruct (Build._load_config "dev" cyclic_config) as [s|] eqn:Hs;
    [|vm_compute in Hs; discriminate].
  destruct detect_cycles_sound_complete as [_ H].
  destruct (H "dev" cyclic_config s Hs) as (cs & Hcs & Hwalk & Hne).
  exists s, cs. split_and!; [done..|]. apply Hne.
  assert (s = default s (Build._load_config "dev" cyclic_config)) as ->
    by by rewrite Hs.
  exists "a". apply tc_l with "b"; [|apply tc_once].
  - apply (bool_decide_unpack _). vm_compute. exact I.
  - apply (bool_decide_unpack _). vm_compute. exact I.
Defined.

(** C6. What the CLI does with an id that occurs twice: the row kept is
    the one built from the last record with that id, and the duplicate
    check of [cmd_validate], which reads the rows kept, reports no
    [DUPLICATE_ID]. *)
Theorem cli_duplicate_id_lost (pre mid post : list raw) (r1 r2 : raw_row)
    (i : string) :
  raw_id r1 = Some i → raw_id r2 = Some i → i ≠ EmptyString →
  forallb (λ x, negb (has_id i x)) post = true →
  Cli.duplicate_ids (Cli.load (pre ++ Some r1 :: mid ++ Some r2 :: post)) = [] ∧
  Cli.rows (Cli.load (pre ++ Some r1 :: mid ++ Some r2 :: post)) !! i =
    Some (make_row i r2).
Proof.
  intros H1 H2 Hne Hpost. split; [apply cli_duplicate_ids_nil|]. simpl.
  replace (pre ++ Some r1 :: mid ++ Some r2 :: post)
    with ((pre ++ Some r1 :: mid) ++ Some r2 :: post)
    by by rewrite <-app_assoc.
  by apply cli_load_last_wins.
Qed.

Lemma cli_duplicate_id_lost_witness :
  Cli.duplicate_ids (Cli.load duplicate_config) = [] ∧
  Cli.rows (Cli.load duplicate_config) !! "a" = Some (make_row "a" second_a).
Proof.
  apply (cli_duplicate_id_lost [] [record "b" "other" ["a"]] []
           first_a second_a "a");
    [reflexivity|reflexivity|discriminate|reflexivity].
Defined.

(** C7, for the loaders that filter. In a snapshot loaded by the CLI or by
    the CI analyzer, [dep] is in [graph[row]] exactly when [row] is a row of
    the store that declares [dep] and [dep] is a row of the store as well,
    and the reverse adjacency holds the same edges turned round: both ends
    of an edge are rows, and a dependency on an unknown id gives no edge. *)
Theorem graph_edges_resolve :
  (∀ raws a b,
      (edge (Cli.graph (Cli.load raws)) a b ↔
         ∃ row, Cli.rows (Cli.load raws) !! a = Some row ∧
                b ∈ depends row ∧ b ∈ dom (Cli.rows (Cli.load raws))) ∧
      (edge (Cli.reverse_graph (Cli.load raws)) b a ↔
         edge (Cli.graph (Cli.load raws)) a b) ∧
      (edge (Cli.graph (Cli.load raws)) a b →
         a ∈ dom (Cli.rows (Cli.load raws)) ∧
         b ∈ dom (Cli.rows (Cli.load raws)))) ∧
  (∀ raws s a b, Ci.load raws = Some s →
      (edge (Ci.graph s) a b ↔
         ∃ row, Ci.rows s !! a = Some row ∧
                b ∈ depends row ∧ b ∈ dom (Ci.rows s)) ∧
      (edge (Ci.reverse_graph s) b a ↔ edge (Ci.graph s) a b) ∧
      (edge (Ci.graph s) a b → a ∈ dom (Ci.rows s) ∧ b ∈ dom (Ci.rows s))).
Proof.
  split.
  - intros raws a b.
    destruct (cli_graph_spec (Cli.load_rows raws) a b) as [Hg Hr].
    split_and!; [exact Hg|exact Hr|].
    intros (row & Hrow & _ & Hb)%Hg. split; [|done].
    apply elem_of_dom. eauto.
  - intros raws s a b Hs. unfold Ci.load in Hs.
    destruct (Ci.load_rows (∅, []) raws) as [acc|]; [|done].
    injection Hs as <-. simpl.
    destruct (cli_graph_spec acc.1 a b) as [Hg Hr].
    split_and!; [exact Hg|exact Hr|].
    intros (row & Hrow & _ & Hb)%Hg. split; [|done].
    apply elem_of_dom. eauto.
Qed.

Lemma graph_edges_resolve_witness :
  ∃ s, Ci.load dangling_config = Some s ∧
       ¬ edge (Ci.graph s) "a" "ghost" ∧ "a" ∈ dom (Ci.rows s) ∧
       edge (Ci.graph s) "b" "a".
Proof.
  destruct (Ci.load dangling_config) as [s|] eqn:Hs;
    [|vm_compute in Hs; discriminate].
  destruct graph_edges_resolve as [_ H].
  exists s. split; [done|].
  destruct (H dangling_config s "a" "ghost" Hs) as (_ & _ & Hends).
  assert (s = default s (Ci.load dangling_config)) as Heq by by rewrite Hs.
  split_and!.
  - intros [_ Hg]%Hends. revert Hg. rewrite Heq.
    apply (bool_decide_unpack _). vm_compute. exact I.
  - rewrite Heq. apply (bool_decide_unpack _). vm_compute. exact I.
  - rewrite Heq. apply (bool_decide_unpack _). vm_compute. exact I.
Defined.

(** C7 does not hold of the build system: its loader adds the edge to an
    id that no target has. *)
Lemma build_edge_to_unknown_id :
  ∃ s, Build._load_config "dev" dangling_config = Some s ∧
       ¬ (∀ a b, edge (Build.graph s) a b → b ∈ dom (Build.targets s)).
Proof.
  destruct (Build._load_config "dev" dangling_config) as [s|] eqn:Hs;
    [|vm_compute in Hs; discriminate].
  exists s. split; [done|]. intros H. specialize (H "a" "ghost").
  assert (s = default s (Build._load_config "dev" dangling_config)) as Heq
    by by rewrite Hs.
  rewrite Heq in H. revert H.
  apply (bool_decide_unpack _). vm_compute. exact I.
Qed.

End graph_claims.

(** *** Transitive dependencies *)
Section bfs.
Import Graph.
Context (known : string → bool) (g : gmap string (gset string)).
Context (queue0 : list string).

Definition kedge (a b : string) : Prop := known a = true ∧ edge g a b.

(** What the loop is to collect: the known ids met from [queue0] *)
Definition target (x : string) : Prop :=
  known x = true ∧ ∃ q, q ∈ queue0 ∧ rtc kedge q x.

Record binv (queue : list string) (deps : gset string) : Prop := {
  binv_deps : ∀ d, d ∈ deps → target d;
  binv_queue : ∀ q, q ∈ queue → ∃ q0, q0 ∈ queue0 ∧ rtc kedge q0 q;
  binv_closed : ∀ d w, d ∈ deps → edge g d w → known w = true →
                w ∈ deps ∨ w ∈ queue;
  binv_start : ∀ q0, q0 ∈ queue0 → known q0 = true → q0 ∈ deps ∨ q0 ∈ queue;
  binv_ids : ∀ q, q ∈ queue → q ∈ ids g;
  binv_sub : deps ⊆ ids g;
}.

Lemma ids_closed a b : edge g a b → b ∈ ids g.
Proof.
  unfold edge, graph_get, ids. intros Hb.
  destruct (g !! a) as [s|] eqn:Ha; simpl in Hb; [|set_solver].
  apply elem_of_union_r, elem_of_union_list. exists s. split; [|done].
  apply list_elem_of_fmap. exists (a, s). split; [done|].
  by apply elem_of_map_to_list.
Qed.

Lemma succ_length a : (length (elements (graph_get g a)) ≤ size (ids g))%nat.
Proof.
  change (size (graph_get g a) ≤ size (ids g))%nat. apply subseteq_size.
  intros b Hb. by apply (ids_closed a).
Qed.

Lemma binv_done deps : binv [] deps → ∀ x, x ∈ deps ↔ target x.
Proof.
  intros [Hd _ Hc Hs _ _] x. split; [apply Hd|].
  intros (Hk & q & Hq & Hr). revert Hk.
  revert x Hr. apply (rtc_ind_r (λ z, known z = true → z ∈ deps) q).
  - intros Hk. destruct (Hs q Hq Hk) as [?|?%elem_of_nil]; done.
  - intros y z _ [Hky Hyz] IH Hk.
    destruct (Hc y z (IH Hky) Hyz Hk) as [?|?%elem_of_nil]; done.
Qed.

Lemma transitive_loop_spec fuel queue deps :
  binv queue deps →
  (length queue + size (ids g ∖ deps) * S (size (ids g)) < fuel)%nat →
  ∃ r, transitive_loop known fuel g queue deps = Some r ∧ ∀ x, x ∈ r ↔ target x.
Proof.
  revert queue deps. induction fuel as [|fuel IH]; intros queue deps Hinv Hm; [lia|].
  destruct queue as [|dep queue]; simpl.
  { exists deps. split; [done|]. by apply binv_done. }
  destruct Hinv as [Hd Hq Hc Hs Hi Hsub].
  destruct (decide ((dep ∉ deps) ∧ known dep = true)) as [[Hnew Hk]|Hold].
  - apply IH.
    + split.
      * intros d [->%elem_of_singleton|?]%elem_of_union; [|by apply Hd].
        split; [done|]. apply Hq. left.
      * intros q [Hin|Hin%elem_of_elements]%elem_of_app.
        -- apply Hq. by right.
        -- destruct (Hq dep) as (q0 & ? & ?); [left|].
           exists q0. split; [done|]. eapply rtc_r; [done|]. by split.
      * intros d w [->%elem_of_singleton|Hin]%elem_of_union Hdw Hkw.
        -- right. apply elem_of_app. right. by apply elem_of_elements.
        -- destruct (Hc d w Hin Hdw Hkw) as [?|[->|?]%elem_of_cons];
             [left; set_solver|left; set_solver|right; apply elem_of_app; by left].
      * intros q0 Hq0 Hk0.
        destruct (Hs q0 Hq0 Hk0) as [?|[->|?]%elem_of_cons];
          [left; set_solver|left; set_solver|right; apply elem_of_app; by left].
      * intros q [Hin|Hin%elem_of_elements]%elem_of_app.
        -- apply Hi. by right.
        -- by apply (ids_closed dep).
      * assert (dep ∈ ids g) by (apply Hi; left). set_solver.
    + rewrite length_app. pose proof (succ_length dep).
      assert (dep ∈ ids g) as Hdep by (apply Hi; left).
      assert (size (ids g ∖ deps) = S (size (ids g ∖ ({[dep]} ∪ deps)))) as Heq.
      { assert (ids g ∖ deps = {[dep]} ∪ ids g ∖ ({[dep]} ∪ deps)) as ->.
        { apply set_eq. intros x. destruct (decide (x = dep)) as [->|]; set_solver. }
        rewrite size_union by set_solver. by rewrite size_singleton. }
      rewrite Heq in Hm. simpl in Hm. simpl. lia.
  - apply IH.
    + split; try done.
      * intros q Hin. apply Hq. by right.
      * intros d w Hin Hdw Hkw.
        destruct (Hc d w Hin Hdw Hkw) as [?|[->|?]%elem_of_cons]; [by left| |by right].
        left. destruct (decide (dep ∈ deps)); [done|]. exfalso. apply Hold. done.
      * intros q0 Hq0 Hk0.
        destruct (Hs q0 Hq0 Hk0) as [?|[->|?]%elem_of_cons]; [by left| |by right].
        left. destruct (decide (dep ∈ deps)); [done|]. exfalso. apply Hold. done.
      * intros q Hin. apply Hi. by right.
    + simpl in Hm. lia.
Qed.

End bfs.

Section transitive.
Import Graph.
Context (known : string → bool) (g : gmap string (gset string)).

Lemma get_transitive_deps_spec t :
  ∃ r, get_transitive_deps known g t = Some r ∧ ∀ x, x ∈ r ↔ reaches known g t x.
Proof.
  unfold get_transitive_deps.
  destruct (transitive_loop_spec known g (elements (graph_get g t))
              (S (length (elements (graph_get g t))
                  + size (ids g) * S (size (ids g)))) (elements (graph_get g t)) ∅)
    as (r & Hr & Hspec).
  - split.
    + intros d ?%elem_of_empty. done.
    + intros q Hq. exists q. split; [done|]. constructor.
    + intros d w ?%elem_of_empty. done.
    + intros q0 Hq0 _. by right.
    + intros q Hq%elem_of_elements. by apply (ids_closed g t).
    + set_solver.
  - assert (size (ids g ∖ ∅) ≤ size (ids g))%nat by (apply subseteq_size; set_solver).
    nia.
  - exists r. split; [done|]. intros x. rewrite Hspec. unfold target, reaches.
    split; intros (? & q & Hq & ?); (split; [done|]); exists q.
    + split; [by apply elem_of_elements in Hq|done].
    + split; [by apply elem_of_elements|done].
Qed.

Lemma with_transitive_deps_spec targets all :
  ∃ r, with_transitive_deps known g targets all = Some r ∧
       ∀ x, x ∈ r ↔ x ∈ all ∨ ∃ t, t ∈ targets ∧ reaches known g t x.
Proof.
  revert all. induction targets as [|t targets IH]; intros all; simpl.
  { exists all. split; [done|]. intros x. split; [by left|].
    by intros [?|(t & ?%elem_of_nil & _)]. }
  destruct (get_transitive_deps_spec t) as (deps & -> & Hdeps). simpl.
  destruct (IH (all ∪ deps)) as (r & -> & Hr). exists r. split; [done|].
  intros x. rewrite Hr, elem_of_union, Hdeps. split.
  - intros [[?|?]|(t' & ? & ?)]; [by left|right; exists t|right; exists t'];
      (split; [|done]); [left|by right].
  - intros [?|(t' & [->|?]%elem_of_cons & ?)]; [by left; left|by left; right|].
    right. by exists t'.
Qed.

End transitive.

Section reaches_all.
Import Graph.

(** With every id known, [reaches] is the transitive closure of the edges. *)
Lemma reaches_tc g t x : reaches (λ _, true) g t x ↔ tc (edge g) t x.
Proof.
  unfold reaches. split.
  - intros (_ & q & Hq & Hr). eapply tc_rtc_r; [by apply tc_once|].
    clear Hq. induction Hr as [|a b c [_ ?] _ IH]; [done|by eapply rtc_l].
  - intros H. split; [done|]. destruct H as [t x H|t z x H Htc].
    + exists x. split; [done|]. constructor.
    + exists z. split; [done|]. apply tc_rtc in Htc.
      clear H. induction Htc as [|a b c ? _ IH]; [done|]. by eapply rtc_l.
Qed.

End reaches_all.

(** *** The leveled order *)
Section kahn.
Import Graph.
Context (g rg : gmap string (gset string)).
Hypothesis rg_spec : ∀ a b, edge rg b a ↔ edge g a b.

(** [in_degree] counts, for every remaining node, its dependencies that
    remain. *)
Definition deg_ok (R : gset string) (deg : gmap string Z) : Prop :=
  ∀ t, t ∈ R → deg !!! t = Z.of_nat (size (graph_get g t ∩ R)).

Lemma elem_of_concat {A} (x : A) (ls : list (list A)) :
  x ∈ concat ls ↔ ∃ i l, ls !! i = Some l ∧ x ∈ l.
Proof.
  induction ls as [|l ls IH]; simpl.
  - split; [by intros ?%elem_of_nil|by intros (i & l & ? & _)].
  - rewrite elem_of_app, IH. split.
    + intros [Hx|(i & l' & Hi & Hx)]; [by exists 0%nat, l|by exists (S i), l'].
    + intros ([|i] & l' & Hi & Hx); simpl in Hi; [left; congruence|right; eauto].
Qed.

Lemma acyclic_source (R : gset string) :
  ¬ cyclic g → R ≠ ∅ → ∃ t, t ∈ R ∧ graph_get g t ∩ R = ∅.
Proof.
  intros Hacyc [x Hx]%set_choose_L.
  set (step := λ a b : string, edge g a b ∧ b ∈ R).
  assert (∀ a b, tc step a b → tc (edge g) a b ∧ b ∈ R) as Htc.
  { intros a b H. induction H as [a b [??]|a b c [??] _ [??]].
    - split; [by apply tc_once|done].
    - split; [by eapply tc_l|done]. }
  assert (sn step x) as Hsn.
  { apply tc_finite_sn.
    - intros u Hu. apply Hacyc. exists u. by apply Htc.
    - exists (elements R). intros y Hy. apply elem_of_elements.
      by apply Htc in Hy as [_ ?]. }
  induction Hsn as [x _ IH].
  destruct (decide (graph_get g x ∩ R = ∅)) as [He|Hne]; [by exists x|].
  apply set_choose_L in Hne as [y Hy]. apply (IH y); [|set_solver].
  unfold flip, step, edge. set_solver.
Qed.

Lemma inner_fold (R' : gset string) ds (deg : gmap string Z) d :
  NoDup ds →
  foldl (λ in_degree dependent,
           if decide (dependent ∈ R')
           then <[dependent := (in_degree !!! dependent) - 1]> in_degree
           else in_degree) deg ds !!! d
  = if decide (d ∈ ds ∧ d ∈ R') then deg !!! d - 1 else deg !!! d.
Proof.
  revert deg. induction ds as [|x ds IH]; intros deg Hnd; cbn [foldl].
  { case_decide as H; [|done]. by destruct H as [?%elem_of_nil _]. }
  apply NoDup_cons in Hnd as [Hx Hnd]. rewrite IH by done. clear IH.
  destruct (decide (d = x)) as [->|Hne].
  - destruct (decide (x ∈ R')).
    + rewrite lookup_total_insert_eq.
      repeat case_decide; try done; exfalso; naive_solver eauto using list_elem_of_here.
    + repeat case_decide; try done; exfalso; naive_solver.
  - assert ((if decide (x ∈ R') then <[x := deg !!! x - 1]> deg else deg) !!! d
            = deg !!! d) as ->.
    { destruct (decide (x ∈ R')); [by rewrite lookup_total_insert_ne|done]. }
    repeat case_decide; try done; exfalso.
    + rewrite elem_of_cons in *. naive_solver.
    + rewrite elem_of_cons in *. naive_solver.
Qed.

Lemma step_remaining R deg t :
  (level_step (λ t, elements (graph_get rg t)) (R, deg) t).1 = R ∖ {[t]}.
Proof. done. Qed.

Lemma step_deg_ok R deg t :
  deg_ok R deg → t ∈ R →
  deg_ok (R ∖ {[t]}) (level_step (λ t, elements (graph_get rg t)) (R, deg) t).2.
Proof.
  intros Hok Ht d Hd. unfold level_step. simpl.
  rewrite inner_fold by apply NoDup_elements.
  assert (d ∈ R) as HdR by set_solver. rewrite (Hok d HdR).
  destruct (decide (t ∈ graph_get g d)) as [Hin|Hnin].
  - rewrite decide_True.
    2:{ split; [|done]. apply elem_of_elements. by apply rg_spec. }
    assert (graph_get g d ∩ R = {[t]} ∪ graph_get g d ∩ (R ∖ {[t]})) as ->.
    { apply set_eq. intros x. destruct (decide (x = t)) as [->|]; set_solver. }
    rewrite size_union by set_solver. rewrite size_singleton. lia.
  - rewrite decide_False.
    2:{ intros [Hin%elem_of_elements _]. apply Hnin. by apply rg_spec. }
    do 2 f_equal. apply set_eq. intros x. set_solver.
Qed.

Lemma fold_level L R deg :
  NoDup L → (∀ t, t ∈ L → t ∈ R) → deg_ok R deg →
  (foldl (level_step (λ t, elements (graph_get rg t))) (R, deg) L).1
    = R ∖ list_to_set L ∧
  deg_ok (foldl (level_step (λ t, elements (graph_get rg t))) (R, deg) L).1
         (foldl (level_step (λ t, elements (graph_get rg t))) (R, deg) L).2.
Proof.
  revert R deg. induction L as [|t L IH]; intros R deg Hnd HL Hok; simpl.
  { split; [set_solver|done]. }
  apply NoDup_cons in Hnd as [Ht Hnd].
  destruct (level_step (λ t, elements (graph_get rg t)) (R, deg) t)
    as [R1 deg1] eqn:Hstep.
  assert (R1 = R ∖ {[t]}) as ->.
  { by rewrite <-(step_remaining R deg t), Hstep. }
  assert (deg_ok (R ∖ {[t]}) deg1) as Hok1.
  { pose proof (step_deg_ok R deg t Hok) as H. rewrite Hstep in H.
    apply H, HL. left. }
  destruct (IH (R ∖ {[t]}) deg1) as [-> Hok2]; [done| |done|].
  { intros x Hx. apply elem_of_difference. split; [apply HL; by right|].
    set_solver. }
  split; [set_solver|].
  replace (R ∖ {[t]} ∖ list_to_set L) with (R ∖ {[t]} ∖ list_to_set L) by done.
  done.
Qed.

Context (N : gset string).
Hypothesis acyclic : ¬ cyclic g.

(** What holds of the levels found so far and of the nodes that remain *)
Record kinv (R : gset string) (levels : list (list string)) : Prop := {
  kinv_sub : R ⊆ N;
  kinv_nodup : NoDup (concat levels);
  kinv_elem : ∀ x, x ∈ concat levels ↔ x ∈ N ∧ x ∉ R;
  kinv_order : ∀ i l t d, levels !! i = Some l → t ∈ l → edge g t d → d ∈ N →
               ∃ j l', (j < i)%nat ∧ levels !! j = Some l' ∧ d ∈ l';
}.

Lemma sorted_perm l : Py.sorted l ≡ₚ l.
Proof. apply merge_sort_Permutation. Qed.

Lemma elem_of_sorted x l : x ∈ Py.sorted l ↔ x ∈ l.
Proof. by rewrite sorted_perm. Qed.

Lemma concat_snoc {A} (ls : list (list A)) l : concat (ls ++ [l]) = concat ls ++ l.
Proof. rewrite concat_app. simpl. by rewrite app_nil_r. Qed.

Lemma levels_loop_unfold fuel dependents R deg levels :
  R ≠ ∅ → filter (λ t, deg !!! t = 0) (elements R) ≠ [] →
  levels_loop (S fuel) dependents R deg levels =
    levels_loop fuel dependents
      (foldl (level_step dependents) (R, deg)
             (filter (λ t, deg !!! t = 0) (elements R))).1
      (foldl (level_step dependents) (R, deg)
             (filter (λ t, deg !!! t = 0) (elements R))).2
      (levels ++ [Py.sorted (filter (λ t, deg !!! t = 0) (elements R))]).
Proof.
  intros HR HL. cbn [levels_loop]. rewrite decide_False by done.
  by destruct (filter _ _).
Qed.

Lemma levels_loop_spec fuel R deg levels :
  (size R < fuel)%nat → kinv R levels → deg_ok R deg →
  ∃ levels', levels_loop fuel (λ t, elements (graph_get rg t)) R deg levels
               = Some levels' ∧ kinv ∅ levels'.
Proof.
  revert R deg levels. induction fuel as [|fuel IH]; intros R deg levels Hsz Hinv Hok;
    [lia|].
  destruct (decide (R = ∅)) as [->|Hne].
  { exists levels. split; [|done]. cbn [levels_loop]. by rewrite decide_True. }
  set (L := filter (λ t, deg !!! t = 0) (elements R)).
  assert (∀ t, t ∈ L ↔ t ∈ R ∧ graph_get g t ∩ R = ∅) as HL.
  { intros t. unfold L. rewrite list_elem_of_filter, elem_of_elements.
    split; intros [H1 H2]; split; try done.
    - rewrite (Hok t H2) in H1. apply leibniz_equiv, size_empty_inv. lia.
    - rewrite (Hok t H1), H2, size_empty. done. }
  assert (NoDup L) as HndL by apply NoDup_filter, NoDup_elements.
  destruct (acyclic_source R acyclic Hne) as (t0 & Ht0 & Hsrc).
  assert (t0 ∈ L) as Ht0L by by apply HL.
  rewrite levels_loop_unfold; [|done|].
  2:{ fold L. intros HeqL. rewrite HeqL in Ht0L. by apply elem_of_nil in Ht0L. }
  fold L.
  destruct (fold_level L R deg) as [HR' Hok']; [done|intros t; by intros [??]%HL|done|].
  apply IH; [| |done].
  - rewrite HR'.
    assert (R ∖ list_to_set L ⊂ R) as Hsub; [|apply subset_size in Hsub; lia].
    set_solver.
  - rewrite HR'. destruct Hinv as [Hsub Hnd Helem Hord]. split.
    + set_solver.
    + rewrite concat_snoc. apply NoDup_app. split_and!; [done| |].
      * intros x Hx [? _]%elem_of_sorted%HL. apply Helem in Hx. tauto.
      * by rewrite sorted_perm.
    + intros x. rewrite concat_snoc, elem_of_app, Helem, elem_of_sorted.
      rewrite elem_of_difference, elem_of_list_to_set. split.
      * intros [[??]|Hx]; [tauto|]. pose proof Hx as [? _]%HL.
        split; [set_solver|tauto].
      * intros [? Hx]. destruct (decide (x ∈ R)); [|tauto].
        right. destruct (decide (x ∈ L)); tauto.
    + intros i l t d Hi Ht Hd HdN.
      destruct (decide (i < length levels)%nat) as [Hlt|Hge].
      * rewrite lookup_app_l in Hi by done.
        destruct (Hord i l t d Hi Ht Hd HdN) as (j & l' & ? & ? & ?).
        exists j, l'. split_and!; [done| |done]. rewrite lookup_app_l; [done|lia].
      * assert (i = length levels) as ->.
        { apply lookup_lt_Some in Hi. rewrite length_app in Hi. simpl in Hi. lia. }
        rewrite lookup_app_r, Nat.sub_diag in Hi by lia. injection Hi as <-.
        apply elem_of_sorted, HL in Ht as [HtR Hempty].
        assert (d ∈ concat levels) as (j & l' & Hj & Hdl)%elem_of_concat.
        { apply Helem. split; [done|]. unfold edge in Hd. set_solver. }
        exists j, l'. split_and!; [by eapply lookup_lt_Some| |done].
        rewrite lookup_app_l; [done|by eapply lookup_lt_Some].
Qed.

Lemma count_in_spec (s : gset string) deps acc :
  foldl (λ n dep, if decide (dep ∈ s) then n + 1 else n) acc deps
  = acc + Z.of_nat (length (filter (λ dep, dep ∈ s) deps)).
Proof.
  revert acc. induction deps as [|d deps IH]; intros acc; simpl; [lia|].
  rewrite IH. rewrite filter_cons. case_decide; simpl; lia.
Qed.

Lemma size_intersection_filter (a s : gset string) :
  size (a ∩ s) = length (filter (λ dep, dep ∈ s) (elements a)).
Proof.
  unfold size, set_size. simpl. apply Permutation_length, NoDup_Permutation.
  - apply NoDup_elements.
  - apply NoDup_filter, NoDup_elements.
  - intros x. rewrite list_elem_of_filter, !elem_of_elements. set_solver.
Qed.

Lemma in_degrees_ok : deg_ok N (in_degrees N g).
Proof.
  intros t Ht. unfold in_degrees.
  assert ((list_to_map ((λ t, (t, count_in N (elements (graph_get g t))))
                          <$> elements N) : gmap string Z) !! t
          = Some (count_in N (elements (graph_get g t)))) as Hlk.
  { apply elem_of_list_to_map_1.
    - rewrite <-list_fmap_compose.
      rewrite (list_fmap_ext _ id (elements N)) by done.
      rewrite list_fmap_id. apply NoDup_elements.
    - apply list_elem_of_fmap. exists t. split; [done|]. by apply elem_of_elements. }
  rewrite lookup_total_alt, Hlk. simpl.
  unfold count_in. rewrite count_in_spec, size_intersection_filter. lia.
Qed.

(** The leveled order of an acyclic graph: the loop ends with every node of
    [N] in exactly one level and after all its dependencies in [N]. *)
Lemma leveled_order_spec :
  ∃ levels, leveled_order N g rg = Some levels ∧
    NoDup (concat levels) ∧ (∀ x, x ∈ concat levels ↔ x ∈ N) ∧
    (∀ i l t d, levels !! i = Some l → t ∈ l → edge g t d → d ∈ N →
       ∃ j l', (j < i)%nat ∧ levels !! j = Some l' ∧ d ∈ l').
Proof.
  destruct (levels_loop_spec (S (size N)) N (in_degrees N g) [])
    as (levels & Hl & [? ? He ?]); [lia| |apply in_degrees_ok|].
  { split; simpl; [done|constructor| |].
    - intros x. split; [by intros ?%elem_of_nil|tauto].
    - intros i l t d Hi. done. }
  exists levels. split_and!; try done. intros x. rewrite He. set_solver.
Qed.

End kahn.

(** *** Claims on the leveled order *)
Section reverse_graph.
Import Config Graph.

Lemma build_add_edges_rev gs row_id deps :
  (∀ a b, edge gs.2 b a ↔ edge gs.1 a b) →
  ∀ a b, edge (Build.add_edges gs row_id deps).2 b a ↔
         edge (Build.add_edges gs row_id deps).1 a b.
Proof.
  unfold Build.add_edges. revert gs.
  induction deps as [|d deps IH]; intros gs Hgs; simpl; [done|].
  apply IH. simpl. intros a b. rewrite !edge_graph_add, Hgs. tauto.
Qed.

Lemma build_load_targets_rev raws todo st s :
  (∀ a b, edge (Build.reverse_graph st) b a ↔ edge (Build.graph st) a b) →
  Build.load_targets raws st todo = Some s →
  ∀ a b, edge (Build.reverse_graph s) b a ↔ edge (Build.graph s) a b.
Proof.
  revert st. induction todo as [|r todo IH]; intros st Hst; simpl.
  { by intros [= <-]. }
  destruct (Build.load_target raws st r) as [st'|] eqn:Hr; [|done]. simpl.
  apply IH. unfold Build.load_target in Hr.
  destruct r as [r|]; [|done]. destruct (raw_id r) as [i|]; [|by injection Hr as <-].
  case_decide; [by injection Hr as <-|].
  destruct (Build.td raws i) as [target| |]; [|done|by injection Hr as <-].
  injection Hr as <-. simpl.
  by apply (build_add_edges_rev (Build.graph st, Build.reverse_graph st)).
Qed.

(** In a loaded build system the reverse graph is the graph turned round. *)
Lemma build_load_rev profile raws s :
  Build._load_config profile raws = Some s →
  ∀ a b, edge (Build.reverse_graph s) b a ↔ edge (Build.graph s) a b.
Proof.
  unfold Build._load_config. intros Hs.
  destruct (Build.td raws _) as [p| |]; [|done|].
  - destruct (Build._collect_profile_deps (S (length raws)) raws p ∅); [|done].
    eapply build_load_targets_rev; [|exact Hs]. simpl.
    intros a b. split; by intros ?%edge_empty.
  - eapply build_load_targets_rev; [|exact Hs]. simpl.
    intros a b. split; by intros ?%edge_empty.
Qed.

Lemma orchestrator_load_nodes_rev raws todo st s :
  (∀ a b, edge (Orchestrator.reverse_graph st) b a ↔
          edge (Orchestrator.graph st) a b) →
  Orchestrator.load_nodes raws st todo = Some s →
  ∀ a b, edge (Orchestrator.reverse_graph s) b a ↔ edge (Orchestrator.graph s) a b.
Proof.
  revert st. induction todo as [|r todo IH]; intros st Hst; simpl.
  { by intros [= <-]. }
  destruct (Orchestrator.load_node raws st r) as [st'|] eqn:Hr; [|done]. simpl.
  apply IH. unfold Orchestrator.load_node in Hr.
  destruct r as [r|]; [|done]. destruct (raw_id r) as [i|]; [|by injection Hr as <-].
  case_decide; [by injection Hr as <-|].
  destruct (Build.td raws i) as [target| |]; [|done|by injection Hr as <-].
  injection Hr as <-. simpl.
  by apply (build_add_edges_rev
              (Orchestrator.graph st, Orchestrator.reverse_graph st)).
Qed.

Lemma orchestrator_load_rev raws s :
  Orchestrator._load_orchestrator_config raws = Some s →
  ∀ a b, edge (Orchestrator.reverse_graph s) b a ↔ edge (Orchestrator.graph s) a b.
Proof.
  intros Hs. eapply orchestrator_load_nodes_rev; [|exact Hs]. simpl.
  intros a b. split; by intros ?%edge_empty.
Qed.

Lemma NoDup_concat_unique {A} (ls : list (list A)) i j l l' x :
  NoDup (concat ls) → ls !! i = Some l → ls !! j = Some l' →
  x ∈ l → x ∈ l' → i = j.
Proof.
  revert i j. induction ls as [|l0 ls IH]; intros i j Hnd Hi Hj Hx Hx'; [done|].
  simpl in Hnd. apply NoDup_app in Hnd as (_ & Hdisj & Hnd).
  destruct i as [|i], j as [|j]; simpl in *; simplify_eq; try done.
  - exfalso. apply (Hdisj x Hx). apply elem_of_concat. eauto.
  - exfalso. apply (Hdisj x Hx'). apply elem_of_concat. eauto.
  - f_equal. by apply IH.
Qed.

(** What the loop guarantees, in the words of the claim *)
Lemma leveled_order_leveled g rg N :
  (∀ a b, edge rg b a ↔ edge g a b) → ¬ cyclic g →
  ∃ levels, leveled_order N g rg = Some levels ∧ leveled g N levels.
Proof.
  intros Hrg Hacyc.
  destruct (leveled_order_spec g rg Hrg N Hacyc) as (levels & Hl & Hnd & He & Ho).
  exists levels. split; [done|]. split_and!.
  - intros x (i & l & Hi & Hx)%He%elem_of_concat. exists i, l.
    split_and!; [done..|]. intros j l' Hj Hx'. by eapply NoDup_concat_unique.
  - done.
  - apply NoDup_Permutation; [done|apply NoDup_elements|].
    intros x. by rewrite He, elem_of_elements.
Qed.

End reverse_graph.

(** *** The leveled order of the data pipeline *)
Section kahn_lists.
Import Graph.
Context (g : gmap string (gset string)) (gl rl : string → list string).

(** How many times [x] is in [l] *)
Definition occurrences (x : string) (l : list string) : nat :=
  length (filter (λ y, y = x) l).

Hypothesis gl_spec : ∀ t d, edge g t d ↔ d ∈ gl t.
Hypothesis rl_spec : ∀ a d, occurrences a (rl d) = occurrences d (gl a).

(** [in_degree] counts, for every remaining stage, the entries of its list
    of dependencies that remain. *)
Definition deg_list_ok (R : gset string) (deg : gmap string Z) : Prop :=
  ∀ t, t ∈ R → deg !!! t = Z.of_nat (length (filter (λ d, d ∈ R) (gl t))).

Lemma occurrences_cons x y l :
  occurrences x (y :: l)
  = ((if decide (y = x) then 1 else 0) + occurrences x l)%nat.
Proof. unfold occurrences. rewrite filter_cons. by case_decide. Qed.

Lemma inner_fold_list (R' : gset string) ds (deg : gmap string Z) d :
  foldl (λ in_degree dependent,
           if decide (dependent ∈ R')
           then <[dependent := (in_degree !!! dependent) - 1]> in_degree
           else in_degree) deg ds !!! d
  = if decide (d ∈ R') then deg !!! d - Z.of_nat (occurrences d ds)
    else deg !!! d.
Proof.
  revert deg. induction ds as [|x ds IH]; intros deg; cbn [foldl].
  { case_decide; [|done]. unfold occurrences. simpl. lia. }
  rewrite IH, occurrences_cons. clear IH.
  destruct (decide (d ∈ R')) as [Hd|Hd]; [|].
  - destruct (decide (x = d)) as [->|Hne].
    + rewrite decide_True by done. rewrite lookup_total_insert_eq. lia.
    + assert ((if decide (x ∈ R') then <[x := deg !!! x - 1]> deg else deg) !!! d
              = deg !!! d) as ->.
      { case_decide; [by rewrite lookup_total_insert_ne|done]. }
      simpl. done.
  - case_decide; [|done]. rewrite lookup_total_insert_ne; [done|]. by intros ->.
Qed.

Lemma filter_remove (R : gset string) t l :
  t ∈ R →
  length (filter (λ d, d ∈ R) l)
  = (length (filter (λ d, d ∈ R ∖ {[t]}) l) + occurrences t l)%nat.
Proof.
  intros Ht. induction l as [|x l IH]; [done|].
  rewrite occurrences_cons, !filter_cons.
  destruct (decide (x = t)) as [->|Hne].
  - rewrite decide_True by done. rewrite decide_False by set_solver.
    simpl. lia.
  - destruct (decide (x ∈ R)).
    + rewrite decide_True by set_solver. simpl. lia.
    + rewrite decide_False by set_solver. lia.
Qed.

Lemma step_deg_list_ok R deg t :
  deg_list_ok R deg → t ∈ R →
  deg_list_ok (R ∖ {[t]}) (level_step rl (R, deg) t).2.
Proof.
  intros Hok Ht d Hd. unfold level_step. simpl.
  rewrite inner_fold_list, decide_True by done.
  assert (d ∈ R) as HdR by set_solver.
  rewrite (Hok d HdR), rl_spec, (filter_remove R t) by done. lia.
Qed.

Lemma fold_level_list L R deg :
  NoDup L → (∀ t, t ∈ L → t ∈ R) → deg_list_ok R deg →
  (foldl (level_step rl) (R, deg) L).1 = R ∖ list_to_set L ∧
  deg_list_ok (foldl (level_step rl) (R, deg) L).1
              (foldl (level_step rl) (R, deg) L).2.
Proof.
  revert R deg. induction L as [|t L IH]; intros R deg Hnd HL Hok; simpl.
  { split; [set_solver|done]. }
  apply NoDup_cons in Hnd as [Ht Hnd].
  destruct (level_step rl (R, deg) t) as [R1 deg1] eqn:Hstep.
  assert (R1 = R ∖ {[t]}) as ->.
  { by injection Hstep as <- _. }
  assert (deg_list_ok (R ∖ {[t]}) deg1) as Hok1.
  { pose proof (step_deg_list_ok R deg t Hok) as H. rewrite Hstep in H.
    apply H, HL. left. }
  destruct (IH (R ∖ {[t]}) deg1) as [-> Hok2]; [done| |done|].
  { intros x Hx. apply elem_of_difference. split; [apply HL; by right|].
    set_solver. }
  split; [set_solver|done].
Qed.

Lemma acyclic_has_source (R : gset string) :
  ¬ cyclic g → R ≠ ∅ → ∃ t, t ∈ R ∧ ∀ d, d ∈ gl t → d ∉ R.
Proof.
  intros Hacyc [x Hx]%set_choose_L.
  set (step := λ a b : string, edge g a b ∧ b ∈ R).
  assert (∀ a b, tc step a b → tc (edge g) a b ∧ b ∈ R) as Htc.
  { intros a b H. induction H as [a b [??]|a b c [??] _ [??]].
    - split; [by apply tc_once|done].
    - split; [by eapply tc_l|done]. }
  assert (sn step x) as Hsn.
  { apply tc_finite_sn.
    - intros u Hu. apply Hacyc. exists u. by apply Htc.
    - exists (elements R). intros y Hy. apply elem_of_elements.
      by apply Htc in Hy as [_ ?]. }
  induction Hsn as [x _ IH].
  destruct (decide (Exists (λ d, d ∈ R) (gl x))) as [He|Hne].
  - apply Exists_exists in He as (y & Hy & HyR). apply (IH y); [|done].
    split; [|done]. by apply gl_spec.
  - exists x. split; [done|]. intros d Hd HdR. apply Hne, Exists_exists. eauto.
Qed.

Lemma filter_nil_iff (R : gset string) l :
  length (filter (λ d, d ∈ R) l) = 0%nat ↔ ∀ d, d ∈ l → d ∉ R.
Proof.
  rewrite length_zero_iff_nil. split.
  - intros Hnil d Hd HdR.
    assert (d ∈ filter (λ d, d ∈ R) l) as Hin by by apply list_elem_of_filter.
    rewrite Hnil in Hin. by apply elem_of_nil in Hin.
  - intros Hall. apply elem_of_nil_inv. intros d [? ?]%list_elem_of_filter.
    by eapply Hall.
Qed.

Context (N : gset string).
Hypothesis acyclic : ¬ cyclic g.

Lemma levels_loop_list_spec fuel R deg levels :
  (size R < fuel)%nat → kinv g N R levels → deg_list_ok R deg →
  ∃ levels', levels_loop fuel rl R deg levels = Some levels' ∧
             kinv g N ∅ levels'.
Proof.
  revert R deg levels. induction fuel as [|fuel IH]; intros R deg levels Hsz Hinv Hok;
    [lia|].
  destruct (decide (R = ∅)) as [->|Hne].
  { exists levels. split; [|done]. cbn [levels_loop]. by rewrite decide_True. }
  set (L := filter (λ t, deg !!! t = 0) (elements R)).
  assert (∀ t, t ∈ L ↔ t ∈ R ∧ ∀ d, d ∈ gl t → d ∉ R) as HL.
  { intros t. unfold L. rewrite list_elem_of_filter, elem_of_elements.
    split; intros [H1 H2]; split; try done.
    - rewrite (Hok t H2) in H1. apply filter_nil_iff. lia.
    - rewrite (Hok t H1). apply filter_nil_iff in H2. lia. }
  assert (NoDup L) as HndL by apply NoDup_filter, NoDup_elements.
  destruct (acyclic_has_source R acyclic Hne) as (t0 & Ht0 & Hsrc).
  assert (t0 ∈ L) as Ht0L by by apply HL.
  rewrite levels_loop_unfold; [|done|].
  2:{ fold L. intros HeqL. rewrite HeqL in Ht0L. by apply elem_of_nil in Ht0L. }
  fold L.
  destruct (fold_level_list L R deg) as [HR' Hok']; [done|intros t; by intros [??]%HL|done|].
  apply IH; [| |done].
  - rewrite HR'.
    assert (R ∖ list_to_set L ⊂ R) as Hsub; [|apply subset_size in Hsub; lia].
    set_solver.
  - rewrite HR'. destruct Hinv as [Hsub Hnd Helem Hord]. split.
    + set_solver.
    + rewrite concat_snoc. apply NoDup_app. split_and!; [done| |].
      * intros x Hx [? _]%elem_of_sorted%HL. apply Helem in Hx. tauto.
      * by rewrite sorted_perm.
    + intros x. rewrite concat_snoc, elem_of_app, Helem, elem_of_sorted.
      rewrite elem_of_difference, elem_of_list_to_set. split.
      * intros [[??]|Hx]; [tauto|]. pose proof Hx as [? _]%HL.
        split; [set_solver|tauto].
      * intros [? Hx]. destruct (decide (x ∈ R)); [|tauto].
        right. destruct (decide (x ∈ L)); tauto.
    + intros i l t d Hi Ht Hd HdN.
      destruct (decide (i < length levels)%nat) as [Hlt|Hge].
      * rewrite lookup_app_l in Hi by done.
        destruct (Hord i l t d Hi Ht Hd HdN) as (j & l' & ? & ? & ?).
        exists j, l'. split_and!; [done| |done]. rewrite lookup_app_l; [done|lia].
      * assert (i = length levels) as ->.
        { apply lookup_lt_Some in Hi. rewrite length_app in Hi. simpl in Hi. lia. }
        rewrite lookup_app_r, Nat.sub_diag in Hi by lia. injection Hi as <-.
        apply elem_of_sorted, HL in Ht as [HtR Hempty].
        assert (d ∈ concat levels) as (j & l' & Hj & Hdl)%elem_of_concat.
        { apply Helem. split; [done|]. apply Hempty. by apply gl_spec. }
        exists j, l'. split_and!; [by eapply lookup_lt_Some| |done].
        rewrite lookup_app_l; [done|by eapply lookup_lt_Some].
Qed.

(** The loop started on all of [N] with its in-degrees: a leveled order *)
Lemma levels_loop_list_leveled deg :
  deg_list_ok N deg →
  ∃ levels, levels_loop (S (size N)) rl N deg [] = Some levels ∧
            leveled g N levels.
Proof.
  intros Hok.
  destruct (levels_loop_list_spec (S (size N)) N deg [])
    as (levels & Hl & [? Hnd He Ho]); [lia| |done|].
  { split; simpl; [done|constructor| |].
    - intros x. split; [by intros ?%elem_of_nil|tauto].
    - intros i l t d Hi. done. }
  assert (∀ x, x ∈ concat levels ↔ x ∈ N) as He'.
  { intros x. rewrite He. set_solver. }
  exists levels. split; [done|]. split_and!.
  - intros x (i & l & Hi & Hx)%He'%elem_of_concat. exists i, l.
    split_and!; [done..|]. intros j l' Hj Hx'. by eapply NoDup_concat_unique.
  - done.
  - apply NoDup_Permutation; [done|apply NoDup_elements|].
    intros x. by rewrite He', elem_of_elements.
Qed.

End kahn_lists.

Section pipeline_levels.
Import Config Graph.

Lemma pipeline_add_edges_dom prod gs stage_id deps :
  dom (Pipeline.add_edges prod gs stage_id deps).1 ⊆ {[stage_id]} ∪ dom gs.1.
Proof.
  unfold Pipeline.add_edges. revert gs.
  induction deps as [|d deps IH]; intros gs; simpl; [set_solver|].
  etrans; [apply IH|]. case_decide; [|set_solver]. simpl.
  unfold Pipeline.append. rewrite dom_insert_L. set_solver.
Qed.

Lemma pipeline_load_dom prod raws :
  dom (Pipeline.graph (Pipeline._load_stages prod raws))
    ⊆ dom (Pipeline.stages (Pipeline._load_stages prod raws)).
Proof.
  unfold Pipeline._load_stages.
  assert (dom (Pipeline.graph {| Pipeline.stages := ∅; Pipeline.graph := ∅;
                                 Pipeline.reverse_graph := ∅ |})
            ⊆ dom (Pipeline.stages {| Pipeline.stages := ∅; Pipeline.graph := ∅;
                                      Pipeline.reverse_graph := ∅ |})) as H0
    by (simpl; set_solver).
  revert H0. generalize {| Pipeline.stages := ∅; Pipeline.graph := ∅;
                           Pipeline.reverse_graph := ∅ |}.
  induction (Pipeline.stage_ids prod) as [|i ids IH]; intros st Hst; simpl; [done|].
  apply IH. destruct (Build.td raws i) as [config| |]; [|done..].
  simpl. rewrite dom_insert_L.
  etrans; [apply pipeline_add_edges_dom|]. simpl. set_solver.
Qed.

(** [graph[k]] of a [defaultdict(list)] that is only read *)
Definition entries (g : gmap string (list string)) (k : string) : list string :=
  default [] (g !! k).

Lemma entries_append g k v a :
  entries (Pipeline.append g k v) a
  = if decide (a = k) then entries g a ++ [v] else entries g a.
Proof.
  unfold entries, Pipeline.append. destruct (decide (a = k)) as [->|Hne].
  - by rewrite lookup_insert_eq.
  - by rewrite lookup_insert_ne.
Qed.

Lemma occurrences_snoc x l y :
  occurrences x (l ++ [y])
  = (occurrences x l + if decide (y = x) then 1 else 0)%nat.
Proof.
  unfold occurrences. rewrite filter_app, length_app, filter_cons, filter_nil.
  by case_decide.
Qed.

(** The two graphs hold each edge the same number of times. *)
Definition mirrored (gs : gmap string (list string) * gmap string (list string))
    : Prop :=
  ∀ a d, occurrences a (entries gs.2 d) = occurrences d (entries gs.1 a).

Lemma pipeline_add_edges_mirrored prod gs stage_id deps :
  mirrored gs → mirrored (Pipeline.add_edges prod gs stage_id deps).
Proof.
  unfold Pipeline.add_edges. revert gs.
  induction deps as [|dep deps IH]; intros gs Hgs; simpl; [done|].
  apply IH. case_decide; [|done].
  intros a d. simpl. rewrite !entries_append.
  repeat case_decide; subst; rewrite ?occurrences_snoc, ?Hgs;
    repeat case_decide; try done; congruence.
Qed.

Lemma pipeline_load_mirrored prod raws :
  mirrored (Pipeline.graph (Pipeline._load_stages prod raws),
            Pipeline.reverse_graph (Pipeline._load_stages prod raws)).
Proof.
  unfold Pipeline._load_stages.
  assert (mirrored
            (Pipeline.graph {| Pipeline.stages := ∅; Pipeline.graph := ∅;
                               Pipeline.reverse_graph := ∅ |},
             Pipeline.reverse_graph {| Pipeline.stages := ∅; Pipeline.graph := ∅;
                                       Pipeline.reverse_graph := ∅ |})) as H0.
  { intros a d. unfold entries. simpl. by rewrite !lookup_empty. }
  revert H0. generalize {| Pipeline.stages := ∅; Pipeline.graph := ∅;
                           Pipeline.reverse_graph := ∅ |}.
  induction (Pipeline.stage_ids prod) as [|i ids IH]; intros st Hst; simpl; [done|].
  apply IH. destruct (Build.td raws i) as [config| |]; [|done..].
  simpl. rewrite <-surjective_pairing. by apply pipeline_add_edges_mirrored.
Qed.

(** The [for dep in deps] loop of [in_degree] for one stage *)
Lemma in_degree_inner (k : string) deps (deg : gmap string Z) :
  k ∈ dom deg →
  let r := foldl (λ in_degree dep,
                    if decide (dep ∈ dom in_degree)
                    then <[k := (in_degree !!! k) + 1]> in_degree
                    else in_degree) deg deps in
  dom r = dom deg ∧
  r !!! k = deg !!! k + Z.of_nat (length (filter (λ d, d ∈ dom deg) deps)) ∧
  ∀ t, t ≠ k → r !!! t = deg !!! t.
Proof.
  revert deg. induction deps as [|d deps IH]; intros deg Hk; cbn [foldl].
  { simpl. split_and!; [done|lia|done]. }
  destruct (decide (d ∈ dom deg)) as [Hd|Hd].
  - destruct (IH (<[k := deg !!! k + 1]> deg)) as (Hdom & Hk' & Hne).
    { rewrite dom_insert_L. set_solver. }
    assert (dom (<[k := deg !!! k + 1]> deg) = dom deg) as Hdom'.
    { rewrite dom_insert_L. set_solver. }
    rewrite Hdom' in *. cbv zeta. split_and!.
    + done.
    + rewrite Hk', lookup_total_insert_eq, filter_cons, decide_True by done.
      simpl. lia.
    + intros t Ht. rewrite Hne by done. by rewrite lookup_total_insert_ne.
  - destruct (IH deg Hk) as (Hdom & Hk' & Hne). cbv zeta. split_and!; [done| |done].
    rewrite Hk', filter_cons, decide_False by done. done.
Qed.

Lemma in_degree_outer (D : gset string) kvs (deg : gmap string Z) :
  dom deg = D → NoDup kvs.*1 → (∀ k, k ∈ kvs.*1 → k ∈ D) →
  let r := foldl (λ in_degree (kv : string * list string),
                    foldl (λ in_degree dep,
                             if decide (dep ∈ dom in_degree)
                             then <[kv.1 := (in_degree !!! kv.1) + 1]> in_degree
                             else in_degree)
                          in_degree kv.2) deg kvs in
  dom r = D ∧
  (∀ t deps, (t, deps) ∈ kvs →
     r !!! t = deg !!! t + Z.of_nat (length (filter (λ d, d ∈ D) deps))) ∧
  (∀ t, t ∉ kvs.*1 → r !!! t = deg !!! t).
Proof.
  revert deg. induction kvs as [|[k ds] kvs IH]; intros deg Hdom Hnd Hin;
    cbn [foldl].
  { simpl. split_and!; [done| |done]. by intros t deps ?%elem_of_nil. }
  rewrite fmap_cons in Hnd, Hin. simpl in Hnd, Hin.
  apply NoDup_cons in Hnd as [Hk Hnd].
  destruct (in_degree_inner k ds deg) as (Hdom1 & Hk1 & Hne1).
  { rewrite Hdom. apply Hin. left. }
  simpl in Hdom1, Hk1, Hne1. cbn [fst snd].
  match goal with |- context [foldl _ ?d kvs] =>
    destruct (IH d) as (Hdom2 & Hin2 & Hout2) end.
  { by rewrite Hdom1. }
  { done. }
  { intros x Hx. apply Hin. by right. }
  cbv zeta in *. split_and!; [done| |].
  - intros t deps [Heq|Ht]%elem_of_cons.
    + injection Heq as -> ->. rewrite Hout2 by done. by rewrite Hk1, Hdom.
    + rewrite (Hin2 t deps Ht). rewrite Hne1; [done|].
      intros ->. apply Hk. apply list_elem_of_fmap. by exists (k, deps).
  - intros t Ht. rewrite fmap_cons, not_elem_of_cons in Ht. destruct Ht as [Htk Ht].
    rewrite Hout2 by done. by apply Hne1.
Qed.

Lemma pipeline_in_degrees_ok (s : Pipeline.state) :
  dom (Pipeline.graph s) ⊆ dom (Pipeline.stages s) →
  deg_list_ok (entries (Pipeline.graph s)) (dom (Pipeline.stages s))
              (Pipeline.in_degrees s).
Proof.
  intros Hsub t Ht. unfold Pipeline.in_degrees.
  destruct (in_degree_outer (dom (Pipeline.stages s))
              (map_to_list (Pipeline.graph s))
              (gset_to_gmap 0 (dom (Pipeline.stages s))))
    as (_ & Hin & Hout).
  { apply dom_gset_to_gmap. }
  { apply NoDup_fst_map_to_list. }
  { intros k (kv & -> & Hkv)%list_elem_of_fmap. destruct kv as [k ds].
    apply elem_of_map_to_list in Hkv. apply Hsub, elem_of_dom. by exists ds. }
  cbv zeta in Hin, Hout.
  assert (gset_to_gmap 0 (dom (Pipeline.stages s)) !!! t = 0) as H0.
  { rewrite lookup_total_alt, lookup_gset_to_gmap, option_guard_True by done.
    done. }
  unfold entries. destruct (Pipeline.graph s !! t) as [deps|] eqn:Hg; simpl.
  - rewrite (Hin t deps) by by apply elem_of_map_to_list. rewrite H0. lia.
  - rewrite Hout; [by rewrite H0|].
    intros (kv & -> & Hkv)%list_elem_of_fmap. destruct kv as [k ds].
    apply elem_of_map_to_list in Hkv. simpl in Hg. congruence.
Qed.

(** The levels of a loaded pipeline whose graph has no cycle *)
Lemma pipeline_levels_leveled prod raws :
  ¬ cyclic (list_to_set <$> Pipeline.graph (Pipeline._load_stages prod raws)) →
  ∃ levels,
    Pipeline.get_execution_levels (Pipeline._load_stages prod raws) = Some levels ∧
    leveled (list_to_set <$> Pipeline.graph (Pipeline._load_stages prod raws))
            (dom (Pipeline.stages (Pipeline._load_stages prod raws))) levels.
Proof.
  pose proof (pipeline_load_dom prod raws) as Hdom.
  pose proof (pipeline_load_mirrored prod raws) as Hmir.
  revert Hdom Hmir. generalize (Pipeline._load_stages prod raws). intros s Hdom Hmir Hacyc.
  unfold Pipeline.get_execution_levels.
  apply (levels_loop_list_leveled (list_to_set <$> Pipeline.graph s)
           (entries (Pipeline.graph s))
           (entries (Pipeline.reverse_graph s))).
  - intros t d. unfold edge, graph_get, entries. rewrite lookup_fmap.
    destruct (Pipeline.graph s !! t); simpl; [by rewrite elem_of_list_to_set|].
    split; [by intros ?%elem_of_empty|by intros ?%elem_of_nil].
  - intros a d. apply (Hmir a d).
  - done.
  - by apply pipeline_in_degrees_ok.
Qed.

End pipeline_levels.

Section order_claims.
Import Config Graph Examples.

(** C2. For a loaded build system or orchestrator whose graph is acyclic
    and any list of targets, the leveled order is computed; the nodes it
    orders are the targets and the ids reached from them along dependency
    edges, restricted to the rows that exist (and, in the build system,
    carry a recognized scope); every such node is in exactly one level,
    every dependency of a node among them is in a strictly earlier level,
    and the levels together list them once each. For a loaded data pipeline
    whose graph is acyclic, [get_execution_levels], which takes no target,
    is computed as well and orders the loaded stages: every stage is in
    exactly one level, every dependency of a stage that is a loaded stage
    is in a strictly earlier level, and the levels together list the
    stages once each. *)
Theorem leveled_order_partition :
  (∀ profile raws s (targets_ : list string),
      Build._load_config profile raws = Some s → ¬ cyclic (Build.graph s) →
      ∃ nodes levels,
        Build.buildable s targets_ = Some nodes ∧
        Build.get_build_order s targets_ = Some levels ∧
        (∀ x, x ∈ nodes ↔
              (x ∈ targets_ ∨ ∃ t, t ∈ targets_ ∧ tc (edge (Build.graph s)) t x) ∧
              Build.is_buildable s x = true) ∧
        leveled (Build.graph s) nodes levels) ∧
  (∀ raws s (targets_ : list string),
      Orchestrator._load_orchestrator_config raws = Some s →
      ¬ cyclic (Orchestrator.graph s) →
      ∃ nodes levels,
        Orchestrator.all_nodes s targets_ = Some nodes ∧
        Orchestrator.get_execution_levels s targets_ = Some levels ∧
        (∀ x, x ∈ nodes ↔
              (x ∈ targets_ ∨
               ∃ t, t ∈ targets_ ∧
                    reaches (λ dep, bool_decide (dep ∈ dom (Orchestrator.nodes s)))
                            (Orchestrator.graph s) t x) ∧
              x ∈ dom (Orchestrator.nodes s)) ∧
        leveled (Orchestrator.graph s) nodes levels) ∧
  (∀ prod raws s,
      Pipeline._load_stages prod raws = s →
      ¬ cyclic (list_to_set <$> Pipeline.graph s) →
      ∃ levels,
        Pipeline.get_execution_levels s = Some levels ∧
        leveled (list_to_set <$> Pipeline.graph s) (dom (Pipeline.stages s))
                levels).
Proof.
  split_and!.
  - intros profile raws s targets_ Hs Hacyc.
    unfold Build.get_build_order, Build.buildable.
    destruct (with_transitive_deps_spec (λ _, true) (Build.graph s) targets_
                (list_to_set targets_)) as (all & -> & Hall). simpl.
    destruct (leveled_order_leveled (Build.graph s) (Build.reverse_graph s)
                (filter (λ t, Build.is_buildable s t = true) all))
      as (levels & -> & Hlev); [by eapply build_load_rev|done|].
    eexists _, levels. split_and!; [done..| |done].
    intros x. rewrite elem_of_filter, Hall, elem_of_list_to_set.
    setoid_rewrite reaches_tc. tauto.
  - intros raws s targets_ Hs Hacyc.
    unfold Orchestrator.get_execution_levels, Orchestrator.all_nodes.
    destruct (with_transitive_deps_spec
                (λ dep, bool_decide (dep ∈ dom (Orchestrator.nodes s)))
                (Orchestrator.graph s) targets_
                (list_to_set targets_)) as (all & -> & Hall). simpl.
    destruct (leveled_order_leveled (Orchestrator.graph s)
                (Orchestrator.reverse_graph s)
                (filter (λ n, n ∈ dom (Orchestrator.nodes s)) all))
      as (levels & -> & Hlev); [by eapply orchestrator_load_rev|done|].
    eexists _, levels. split_and!; [done..| |done].
    intros x. rewrite elem_of_filter, Hall, elem_of_list_to_set. tauto.
  - intros prod raws s <-. apply pipeline_levels_leveled.
Qed.

Lemma diamond_acyclic s :
  Build._load_config "dev" diamond_config = Some s → ¬ cyclic (Build.graph s).
Proof.
  intros Hs Hcyc.
  destruct (detect_cycles_correct (Build.graph s)
              (fst <$> map_to_list (Build.targets s))) as (cs & Hcs & _ & Hne).
  { rewrite list_to_set_keys. by eapply build_load_dom. }
  apply (Hne Hcyc).
  assert (s = default s (Build._load_config "dev" diamond_config)) as Heq
    by by rewrite Hs.
  rewrite Heq in Hcs. vm_compute in Hcs. by injection Hcs as <-.
Qed.

Lemma leveled_order_partition_witness :
  ∃ s n nodes nodes_n,
    Build._load_config "dev" diamond_config = Some s ∧
    Build.get_build_order s ["leaf"]
      = Some [["root"]; ["mid1"; "mid2"]; ["leaf"]] ∧
    leveled (Build.graph s) nodes [["root"]; ["mid1"; "mid2"]; ["leaf"]] ∧
    Orchestrator._load_orchestrator_config diamond_config = Some n ∧
    Orchestrator.get_execution_levels n ["mid1"] = Some [["root"]; ["mid1"]] ∧
    leveled (Orchestrator.graph n) nodes_n [["root"]; ["mid1"]] ∧
    Pipeline.get_execution_levels (Pipeline._load_stages false etl_config)
      = Some [["db-connection"]; ["extract-users"]; ["transform-normalize"]] ∧
    leveled (list_to_set <$> Pipeline.graph (Pipeline._load_stages false etl_config))
            (dom (Pipeline.stages (Pipeline._load_stages false etl_config)))
            [["db-connection"]; ["extract-users"]; ["transform-normalize"]].
Proof.
  destruct (Build._load_config "dev" diamond_config) as [s|] eqn:Hs;
    [|vm_compute in Hs; discriminate].
  destruct (Orchestrator._load_orchestrator_config diamond_config) as [n|] eqn:Hn;
    [|vm_compute in Hn; discriminate].
  destruct leveled_order_partition as (H & Ho & Hp).
  destruct (H "dev" diamond_config s ["leaf"] Hs (diamond_acyclic s Hs))
    as (nodes & levels & _ & Hl & _ & Hlev).
  assert (s = default s (Build._load_config "dev" diamond_config)) as Heq
    by by rewrite Hs.
  assert (n = default n (Orchestrator._load_orchestrator_config diamond_config))
    as Heqn by by rewrite Hn.
  assert (levels = [["root"]; ["mid1"; "mid2"]; ["leaf"]]) as ->.
  { rewrite Heq in Hl. vm_compute in Hl. by injection Hl as <-. }
  destruct (Ho diamond_config n ["mid1"] Hn) as (nodes_n & levels_n & _ & Hln & _ & Hlevn).
  { intros Hcyc.
    destruct (detect_cycles_correct (Orchestrator.graph n)
                (fst <$> map_to_list (Orchestrator.nodes n)))
      as (cs & Hcs & _ & Hne).
    { rewrite list_to_set_keys, Heqn. apply (bool_decide_unpack _).
      vm_compute. exact I. }
    apply (Hne Hcyc). rewrite Heqn in Hcs. vm_compute in Hcs.
    by injection Hcs as <-. }
  assert (levels_n = [["root"]; ["mid1"]]) as ->.
  { rewrite Heqn in Hln. vm_compute in Hln. by injection Hln as <-. }
  destruct (Hp false etl_config (Pipeline._load_stages false etl_config) eq_refl)
    as (levels_p & Hlp & Hlevp).
  { intros Hcyc.
    destruct (detect_cycles_correct
                (list_to_set <$> Pipeline.graph (Pipeline._load_stages false etl_config))
                (fst <$> map_to_list
                   (Pipeline.stages (Pipeline._load_stages false etl_config))))
      as (cs & Hcs & _ & Hne).
    { rewrite list_to_set_keys, dom_fmap_L. apply pipeline_load_dom. }
    apply (Hne Hcyc). vm_compute in Hcs. by injection Hcs as <-. }
  assert (levels_p = [["db-connection"]; ["extract-users"]; ["transform-normalize"]])
    as ->.
  { vm_compute in Hlp. by injection Hlp as <-. }
  exists s, n, nodes, nodes_n.
  split_and!; [reflexivity|exact Hl|exact Hlev|reflexivity|exact Hln|exact Hlevn
              |exact Hlp|exact Hlevp].
Defined.

End order_claims.

(** *** Hashes *)
Section string_lemmas.

Lemma string_app_nil (b : string) : EmptyString +:+ b = b.
Proof. done. Qed.

Lemma string_app_cons c (a b : string) : String c a +:+ b = String c (a +:+ b).
Proof. done. Qed.

Lemma string_length_app (a b : string) :
  String.length (a +:+ b) = (String.length a + String.length b)%nat.
Proof.
  induction a as [|c a IH]; [done|].
  rewrite string_app_cons. simpl. by rewrite IH.
Qed.

Lemma string_app_inj_length (a a' b b' : string) :
  String.length a = String.length a' → a +:+ b = a' +:+ b' → a = a' ∧ b = b'.
Proof.
  revert a'. induction a as [|c a IH]; intros [|c' a'] Hlen Heq; try done.
  rewrite !string_app_cons in Heq. injection Heq as -> Heq.
  destruct (IH a') as [-> ->]; [by injection Hlen|done|done].
Qed.

Lemma string_app_inv_tail (a a' c : string) : a +:+ c = a' +:+ c → a = a'.
Proof.
  intros H. apply string_app_inj_length in H as [? _]; [done|].
  apply (f_equal String.length) in H. rewrite !string_length_app in H. lia.
Qed.

Lemma join_cons2 sep (x y : string) l :
  Py.join sep (x :: y :: l) = x +:+ sep +:+ Py.join sep (y :: l).
Proof. done. Qed.

(** Joined lists of strings of the same lengths are equal only if the
    lists are. *)
Lemma join_inj sep (l l' : list string) :
  Forall2 (λ x y, String.length x = String.length y) l l' →
  Py.join sep l = Py.join sep l' → l = l'.
Proof.
  induction 1 as [|x y l l' Hxy Hl IH]; [done|].
  destruct Hl as [|x2 y2 l2 l2' Hxy2 Hl2].
  - simpl. by intros ->.
  - rewrite !join_cons2. intros [-> Heq]%string_app_inj_length; [|done].
    apply (inj (String.app sep)) in Heq. f_equal. by apply IH.
Qed.

Lemma sha16_length t : String.length (Sha256.sha16 t) = 16%nat.
Proof. done. Qed.

(** What follows the dependency hashes in the text *)
Definition tail_text (tail : list string) : string :=
  match tail with
  | [] => EmptyString
  | _ => "|" +:+ Py.join "|" tail
  end.

Lemma text_eq tail (row : Config.Row) parts :
  Hash.text tail row parts =
    Config.args row +:+ "|" +:+ Config.expr row +:+ "|"
      +:+ Py.join "|" parts +:+ tail_text tail.
Proof.
  unfold Hash.text. simpl app. rewrite !join_cons2.
  destruct tail as [|t tail]; simpl tail_text.
  - simpl. f_equal. f_equal. f_equal. f_equal.
    induction (Py.join "|" parts) as [|c s IH]; [done|].
    rewrite string_app_cons. by rewrite <-IH.
  - by rewrite join_cons2.
Qed.

End string_lemmas.

Section hash_lemmas.
Import Config.
Context (rows : gmap string Row) (tail : list string).

Definition known_deps (row : Row) : list string :=
  filter (λ dep, dep ∈ dom rows) (Py.sorted (depends row)).

Lemma input_S fuel row_id :
  Hash.input rows tail (S fuel) row_id =
    row ← rows !! row_id;
    dep_hash_parts ←
      mapM (λ dep, i ← Hash.input rows tail fuel dep;
                   Some (Hash.part dep (Sha256.sha16 i))) (known_deps row);
    Some (Hash.text tail row dep_hash_parts).
Proof. done. Qed.

Lemma input_Some_dom fuel d i : Hash.input rows tail fuel d = Some i → d ∈ dom rows.
Proof.
  destruct fuel; [done|]. rewrite input_S. intros H. apply elem_of_dom.
  destruct (rows !! d); [done|]. done.
Qed.

(** More fuel does not change a text. *)
Lemma input_mono fuel fuel' row_id i :
  (fuel ≤ fuel')%nat → Hash.input rows tail fuel row_id = Some i →
  Hash.input rows tail fuel' row_id = Some i.
Proof.
  revert fuel' row_id i. induction fuel as [|fuel IH]; intros fuel' d i Hle; [done|].
  destruct fuel' as [|fuel']; [lia|]. rewrite !input_S.
  destruct (rows !! d) as [row|]; [|done]. simpl.
  destruct (mapM _ _) as [parts|] eqn:Hparts; [|done]. simpl. intros [= <-].
  assert (mapM (λ dep, i ← Hash.input rows tail fuel' dep;
                       Some (Hash.part dep (Sha256.sha16 i))) (known_deps row)
          = Some parts) as ->; [|done].
  apply mapM_Some. apply mapM_Some in Hparts.
  eapply Forall2_impl; [exact Hparts|]. intros dep p. simpl.
  destruct (Hash.input rows tail fuel dep) as [j|] eqn:Hj; [|done].
  rewrite (IH fuel' dep j); [done|lia|done].
Qed.

(** The digest of the row [d], whatever fuel it takes *)
Definition hash_of (d h : string) : Prop :=
  ∃ fuel i, Hash.input rows tail fuel d = Some i ∧ h = Sha256.sha16 i.

Definition memo_ok (m : gmap string string) : Prop :=
  ∀ d h, m !! d = Some h → hash_of d h.

Lemma hash_of_inj d h h' : hash_of d h → hash_of d h' → h = h'.
Proof.
  intros (f & i & Hi & ->) (f' & i' & Hi' & ->).
  apply (input_mono f (f `max` f')) in Hi; [|lia].
  apply (input_mono f' (f `max` f')) in Hi'; [|lia]. congruence.
Qed.

Lemma hash_of_dom d h : hash_of d h → d ∈ dom rows.
Proof. intros (f & i & Hi & _). by eapply input_Some_dom. Qed.

Lemma uniform_parts (l : list string) (parts : list string) :
  Forall2 (λ d p, ∃ h, hash_of d h ∧ p = Hash.part d h) l parts →
  ∃ fuel, Forall2 (λ d p, ∃ i, Hash.input rows tail fuel d = Some i ∧
                               p = Hash.part d (Sha256.sha16 i)) l parts.
Proof.
  induction 1 as [|d p l parts (h & (f & i & Hi & ->) & ->) _ [F IH]].
  { exists 0%nat. constructor. }
  exists (f `max` F)%nat. constructor.
  - exists i. split; [|done]. eapply input_mono; [|done]. lia.
  - eapply Forall2_impl; [exact IH|]. intros d' p' (j & Hj & ->).
    exists j. split; [|done]. eapply input_mono; [|done]. lia.
Qed.

Lemma deps_loop_sound rec deps m parts parts' m' :
  (∀ d m h m1, d ∈ dom rows → memo_ok m → rec d m = Some (h, m1) →
               hash_of d h ∧ memo_ok m1) →
  memo_ok m →
  Hash.deps_loop rows rec deps m parts = Some (parts', m') →
  memo_ok m' ∧
  ∃ new, parts' = parts ++ new ∧
         Forall2 (λ d p, ∃ h, hash_of d h ∧ p = Hash.part d h)
                 (filter (λ dep, dep ∈ dom rows) deps) new.
Proof.
  intros Hrec. revert m parts. induction deps as [|dep deps IH]; intros m parts Hm; simpl.
  { intros [= <- <-]. split; [done|]. exists []. by rewrite app_nil_r. }
  destruct (m !! dep) as [h|] eqn:Hdep.
  - intros Hloop. destruct (IH _ _ Hm Hloop) as (Hm' & new & -> & Hnew).
    split; [done|]. exists (Hash.part dep h :: new). split; [by rewrite <-app_assoc|].
    rewrite filter_cons_True by (eapply hash_of_dom; eauto).
    constructor; [|done]. exists h. split; [by apply Hm|done].
  - destruct (decide (dep ∈ dom rows)) as [Hin|Hnin].
    + destruct (rec dep m) as [[h m1]|] eqn:Hr; [|done]. simpl.
      destruct (Hrec dep m h m1 Hin Hm Hr) as [Hh Hm1].
      assert (memo_ok (<[dep:=h]> m1)) as Hm2.
      { intros d h'. destruct (decide (d = dep)) as [->|].
        - rewrite lookup_insert_eq. by intros [= <-].
        - rewrite lookup_insert_ne by done. apply Hm1. }
      intros Hloop. destruct (IH _ _ Hm2 Hloop) as (Hm' & new & -> & Hnew).
      split; [done|]. exists (Hash.part dep h :: new).
      split; [by rewrite <-app_assoc|].
      rewrite filter_cons_True by done. constructor; [|done]. by exists h.
    + rewrite filter_cons_False by done. apply IH, Hm.
Qed.

(** The digest a call returns is the digest of the row, and the dict it
    leaves holds digests of rows only. *)
Lemma compute_sound fuel d m h m' :
  Hash.compute rows tail fuel d m = Some (h, m') → memo_ok m → d ∈ dom rows →
  hash_of d h ∧ memo_ok m'.
Proof.
  revert d m h m'. induction fuel as [|fuel IH]; intros d m h m' Hc Hm Hd; [done|].
  simpl in Hc. apply elem_of_dom in Hd as [row Hrow]. rewrite Hrow in Hc.
  destruct (Hash.deps_loop _ _ _ _ _) as [[parts m1]|] eqn:Hloop; [|done].
  simpl in Hc. injection Hc as <- <-.
  assert (∀ d m h m1, d ∈ dom rows → memo_ok m →
                      Hash.compute rows tail fuel d m = Some (h, m1) →
                      hash_of d h ∧ memo_ok m1) as Hrec.
  { intros d' m0 h0 m2 Hd' Hm0 Hr. by eapply IH. }
  destruct (deps_loop_sound _ _ _ _ _ _ Hrec Hm Hloop)
    as (Hm1 & new & Hparts & Hnew).
  simpl in Hparts. subst parts.
  split; [|done]. simpl.
  destruct (uniform_parts _ _ Hnew) as [F HF].
  exists (S F), (Hash.text tail row new). split; [|done].
  rewrite input_S, Hrow. simpl.
  assert (mapM (λ dep, i ← Hash.input rows tail F dep;
                       Some (Hash.part dep (Sha256.sha16 i))) (known_deps row)
          = Some new) as ->; [|done].
  apply mapM_Some. eapply Forall2_impl; [exact HF|].
  intros d' p (i & -> & ->). done.
Qed.

Lemma deps_loop_total rec deps m parts :
  (∀ d m, d ∈ deps → d ∈ dom rows → is_Some (rec d m)) →
  is_Some (Hash.deps_loop rows rec deps m parts).
Proof.
  revert m parts. induction deps as [|dep deps IH]; intros m parts Hrec; simpl;
    [done|].
  assert (∀ d m, d ∈ deps → d ∈ dom rows → is_Some (rec d m)) as Hrec'.
  { intros d m0 Hd. apply Hrec. by right. }
  destruct (m !! dep); [by apply IH|].
  destruct (decide (dep ∈ dom rows)) as [Hin|]; [|by apply IH].
  destruct (Hrec dep m) as [[h m1] ->]; [left|done|]. simpl. by apply IH.
Qed.

(** A call has fuel enough when the text of the row has. *)
Lemma compute_total fuel d m :
  is_Some (Hash.input rows tail fuel d) → is_Some (Hash.compute rows tail fuel d m).
Proof.
  revert d m. induction fuel as [|fuel IH]; intros d m [i Hi]; [done|].
  rewrite input_S in Hi. simpl.
  destruct (rows !! d) as [row|]; [|done]. simpl in Hi.
  destruct (mapM _ _) as [parts|] eqn:Hparts; [|done].
  destruct (deps_loop_total (Hash.compute rows tail fuel)
              (Py.sorted (depends row)) m []) as [[ps m1] ->]; [|done].
  intros dep m0 Hdep Hin. apply IH.
  assert (is_Some (mapM (λ dep, i ← Hash.input rows tail fuel dep;
                                Some (Hash.part dep (Sha256.sha16 i)))
                        (known_deps row))) as Hsome by by rewrite Hparts.
  apply mapM_is_Some_1 in Hsome. rewrite Forall_forall in Hsome.
  specialize (Hsome dep). simpl in Hsome.
  destruct (Hash.input rows tail fuel dep); [done|].
  destruct Hsome as [? ?]; [|done]. unfold known_deps.
  by apply list_elem_of_filter.
Qed.

Lemma compute_missing fuel d m :
  d ∉ dom rows → Hash.compute rows tail (S fuel) d m = Some (EmptyString, m).
Proof. intros Hd%not_elem_of_dom. simpl. by rewrite Hd. Qed.

End hash_lemmas.

Section hash_total.
Import Config.
Context (rows : gmap string Row) (tail : list string).

Lemma uniform_input (l : list string) :
  (∀ d, d ∈ l → ∃ fuel, is_Some (Hash.input rows tail fuel d)) →
  ∃ fuel, ∀ d, d ∈ l → is_Some (Hash.input rows tail fuel d).
Proof.
  induction l as [|x l IH]; intros Hl.
  { exists 0%nat. by intros d ?%elem_of_nil. }
  destruct IH as [F HF]. { intros d Hd. apply Hl. by right. }
  destruct (Hl x) as [f [i Hi]]; [left|].
  exists (f `max` F)%nat. intros d [->|Hd]%elem_of_cons.
  - exists i. eapply input_mono; [|done]. lia.
  - destruct (HF d Hd) as [j Hj]. exists j. eapply input_mono; [|done]. lia.
Qed.

Lemma declares_known row d dep :
  rows !! d = Some row → dep ∈ known_deps rows row ↔ Hash.declares rows d dep.
Proof.
  intros Hrow. unfold known_deps, Hash.declares.
  rewrite list_elem_of_filter, elem_of_sorted. split.
  - intros [??]. by exists row.
  - intros (row' & Hrow' & ? & ?). by simplify_eq.
Qed.

(** Without a cycle among the declarations every row has a text. *)
Lemma input_total d :
  ¬ (∃ u, tc (Hash.declares rows) u u) → d ∈ dom rows →
  ∃ fuel, is_Some (Hash.input rows tail fuel d).
Proof.
  intros Hacyc Hd.
  assert (sn (Hash.declares rows) d) as Hsn.
  { apply tc_finite_sn.
    - intros u Hu. apply Hacyc. by exists u.
    - exists (elements (dom rows)). intros y Hy. apply elem_of_elements.
      clear Hd. induction Hy as [x y (_ & _ & _ & ?)|]; done. }
  induction Hsn as [d _ IH]. apply elem_of_dom in Hd as [row Hrow].
  destruct (uniform_input (known_deps rows row)) as [F HF].
  { intros dep Hdep. pose proof Hdep as Hdecl.
    rewrite (declares_known row d dep Hrow) in Hdecl.
    apply IH; [done|]. by destruct Hdecl as (_ & _ & _ & ?). }
  exists (S F). rewrite input_S, Hrow. simpl.
  destruct (mapM_is_Some_2
              (λ dep, i ← Hash.input rows tail F dep;
                      Some (Hash.part dep (Sha256.sha16 i)))
              (known_deps rows row)) as [parts ->]; [|done].
  apply Forall_forall. intros dep Hdep. simpl.
  destruct (HF dep Hdep) as [i ->]. done.
Qed.

(** Fuel that is enough for every call *)
Lemma compute_fuel :
  ¬ (∃ u, tc (Hash.declares rows) u u) →
  ∃ fuel0, ∀ fuel d m, (fuel0 ≤ fuel)%nat →
    (d ∈ dom rows → is_Some (Hash.input rows tail fuel d)) ∧
    is_Some (Hash.compute rows tail fuel d m).
Proof.
  intros Hacyc.
  destruct (uniform_input (elements (dom rows))) as [F HF].
  { intros d Hd%elem_of_elements. by apply input_total. }
  exists (S F). intros fuel d m Hle.
  assert (d ∈ dom rows → is_Some (Hash.input rows tail fuel d)) as Hin.
  { intros Hd. destruct (HF d) as [i Hi]; [by apply elem_of_elements|].
    exists i. eapply input_mono; [|done]. lia. }
  split; [done|]. destruct (decide (d ∈ dom rows)) as [Hd|Hd].
  - by apply compute_total, Hin.
  - destruct fuel as [|fuel]; [lia|]. by rewrite compute_missing.
Qed.

End hash_total.

Section hash_change.
Import Config.
Context (rows : gmap string Row) (tail : list string).
Context (X : string) (rowX : Row) (args' expr' : string).
Hypothesis HX : rows !! X = Some rowX.

Abbreviation rows' := (Hash.with_fields rows X args' expr').

Lemma with_fields_X :
  rows' !! X = Some {| id := id rowX; locked := locked rowX; name := name rowX;
                       args := args'; expr := expr'; scope := scope rowX;
                       depends := depends rowX; sources := sources rowX |}.
Proof. unfold Hash.with_fields. rewrite HX. by rewrite lookup_insert_eq. Qed.

Lemma with_fields_other d : d ≠ X → rows' !! d = rows !! d.
Proof.
  intros Hne. unfold Hash.with_fields. rewrite HX. by rewrite lookup_insert_ne.
Qed.

Lemma with_fields_dom : dom rows' = dom rows.
Proof.
  unfold Hash.with_fields. rewrite HX, dom_insert_L.
  assert (X ∈ dom rows) by (apply elem_of_dom; eauto). set_solver.
Qed.

Lemma with_fields_known row row' :
  depends row' = depends row → known_deps rows' row' = known_deps rows row.
Proof. intros Hd. unfold known_deps. by rewrite with_fields_dom, Hd. Qed.

Lemma mapM_ext_in {A B} (f g : A → option B) l :
  (∀ x, x ∈ l → f x = g x) → mapM f l = mapM g l.
Proof.
  induction l as [|x l IH]; intros H; [done|]. simpl.
  rewrite (H x) by left. destruct (g x); [|done]. simpl.
  rewrite IH; [done|]. intros y Hy. apply H. by right.
Qed.

(** A row that does not reach [X] along the declarations has the same
    text after the change as before. *)
Lemma input_unchanged fuel d :
  ¬ rtc (Hash.declares rows) d X →
  Hash.input rows' tail fuel d = Hash.input rows tail fuel d.
Proof.
  revert d. induction fuel as [|fuel IH]; intros d Hd; [done|].
  assert (d ≠ X) as Hne by (intros ->; by apply Hd).
  rewrite !input_S, with_fields_other by done.
  destruct (rows !! d) as [row|] eqn:Hrow; [|done]. simpl.
  rewrite (with_fields_known row row) by done.
  erewrite mapM_ext_in; [done|]. intros dep Hdep. simpl.
  rewrite IH; [done|]. intros Hr. apply Hd.
  eapply rtc_l; [|done]. by apply (declares_known rows row).
Qed.

Lemma text_change_args (row row' : Row) parts :
  expr row' = expr row → args row' ≠ args row →
  Hash.text tail row' parts ≠ Hash.text tail row parts.
Proof.
  intros He Ha. rewrite !text_eq, He. intros H. apply Ha.
  by apply string_app_inv_tail in H.
Qed.

Lemma text_change_expr (row row' : Row) parts :
  args row' = args row → expr row' ≠ expr row →
  Hash.text tail row' parts ≠ Hash.text tail row parts.
Proof.
  intros Ha He. rewrite !text_eq, Ha. intros H. apply He.
  apply (inj (String.app _)) in H. apply (inj (String.app _)) in H.
  by apply string_app_inv_tail in H.
Qed.

Lemma text_change_parts (row : Row) parts parts' :
  Forall2 (λ x y, String.length x = String.length y) parts parts' →
  Hash.text tail row parts = Hash.text tail row parts' → parts = parts'.
Proof.
  intros Hlen. rewrite !text_eq. intros H.
  do 4 apply (inj (String.app _)) in H.
  apply string_app_inv_tail in H. by apply (join_inj "|").
Qed.

Lemma part_length dep h h' :
  String.length h = String.length h' →
  String.length (Hash.part dep h) = String.length (Hash.part dep h').
Proof. intros H. unfold Hash.part. rewrite !string_length_app. by rewrite H. Qed.

Lemma part_inj dep h h' : Hash.part dep h = Hash.part dep h' → h = h'.
Proof.
  unfold Hash.part. intros H. by do 2 apply (inj (String.app _)) in H.
Qed.

(** A row that reaches [X] along the declarations, [X] included, has
    another text after a change of one of the two fields than before,
    as long as the digest tells apart the texts that differ. *)
Lemma input_changed top fuel d i i' :
  ¬ (∃ u, tc (Hash.declares rows) u u) →
  (args' ≠ args rowX ∧ expr' = expr rowX ∨
   args' = args rowX ∧ expr' ≠ expr rowX) →
  (∀ d, d ∈ dom rows → Hash.collision_free rows rows' tail tail top d) →
  (fuel ≤ top)%nat →
  rtc (Hash.declares rows) d X →
  Hash.input rows tail fuel d = Some i → Hash.input rows' tail fuel d = Some i' →
  i' ≠ i.
Proof.
  intros Hacyc Hchange Hfree. revert d i i'.
  induction fuel as [|fuel IH]; intros d i i' Hle Hreach Hi Hi'; [done|].
  rewrite input_S in Hi, Hi'.
  destruct (decide (d = X)) as [->|Hne].
  - rewrite HX in Hi. rewrite with_fields_X in Hi'. simpl in Hi, Hi'.
    rewrite (with_fields_known rowX) in Hi' by done.
    erewrite mapM_ext_in in Hi'.
    2:{ intros dep Hdep. simpl. rewrite input_unchanged; [done|].
        intros Hr. apply Hacyc. exists X. eapply tc_rtc_r; [|done].
        apply tc_once. by apply (declares_known rows rowX). }
    destruct (mapM _ _) as [parts|]; [|done]. simpl in Hi, Hi'.
    injection Hi as <-. injection Hi' as <-.
    destruct Hchange as [[??]|[??]];
      [by apply text_change_args|by apply text_change_expr].
  - rewrite with_fields_other in Hi' by done.
    destruct (rows !! d) as [row|] eqn:Hrow; [|done]. simpl in Hi, Hi'.
    rewrite (with_fields_known row) in Hi' by done.
    destruct (mapM _ (known_deps rows row)) as [parts|] eqn:Hparts in Hi; [|done].
    destruct (mapM _ (known_deps rows row)) as [parts'|] eqn:Hparts' in Hi'; [|done].
    simpl in Hi, Hi'. injection Hi as <-. injection Hi' as <-.
    apply mapM_Some in Hparts, Hparts'.
    intros Heq. apply text_change_parts in Heq.
    2:{ clear -Hparts Hparts'. revert parts' Hparts'.
        induction Hparts as [|dep p l ps Hp _ IH]; intros parts' Hparts';
          inversion Hparts' as [|? p' ? ps' Hp' Hps']; subst; constructor.
        - simpl in Hp, Hp'.
          destruct (Hash.input rows tail fuel dep); [|done].
          destruct (Hash.input rows' tail fuel dep); [|done].
          injection Hp as <-. injection Hp' as <-. by apply part_length.
        - by apply IH. }
    subst parts'.
    apply rtc_inv in Hreach as [->|(d1 & Hd1 & Hreach)]; [done|].
    assert (d1 ∈ known_deps rows row) as Hin by by apply (declares_known rows row d).
    apply list_elem_of_lookup in Hin as [k Hk].
    destruct (Forall2_lookup_l _ _ _ _ _ Hparts Hk) as (p & Hpk & Hp).
    destruct (Forall2_lookup_l _ _ _ _ _ Hparts' Hk) as (p' & Hpk' & Hp').
    simpl in Hp, Hp'. rewrite Hpk in Hpk'. injection Hpk' as <-.
    destruct (Hash.input rows tail fuel d1) as [j|] eqn:Hj; [|done].
    destruct (Hash.input rows' tail fuel d1) as [j'|] eqn:Hj'; [|done].
    injection Hp as <-. injection Hp' as Hp'. apply part_inj in Hp'.
    assert (j' ≠ j) as Hjj by (eapply (IH d1); [lia|done..]).
    assert (d1 ∈ dom rows) as Hd1dom by by destruct Hd1 as (_ & _ & _ & ?).
    specialize (Hfree d1 Hd1dom). unfold Hash.collision_free in Hfree.
    rewrite (input_mono rows tail fuel top d1 j) in Hfree by (lia || done).
    rewrite (input_mono rows' tail fuel top d1 j') in Hfree by (lia || done).
    apply Hfree; [congruence|done].
Qed.

End hash_change.

(** *** The graph of a loaded build system *)
Section build_wf.
Import Config Graph.

Lemma build_scan_Ok wanted raws row :
  Build.scan wanted raws = Build.Ok row →
  ∃ r, Some r ∈ raws ∧ raw_id r = Some wanted ∧ row = make_row wanted r.
Proof.
  induction raws as [|[r|] raws IH]; simpl; [done| |].
  - case_decide as Hid.
    + intros [= <-]. exists r. split_and!; [left|done..].
    + intros (r' & ? & ?)%IH. exists r'. split; [by right|done].
  - intros (r' & ? & ?)%IH. exists r'. split; [by right|done].
Qed.

Lemma build_add_edges_spec gs row_id deps a b :
  edge (Build.add_edges gs row_id deps).1 a b ↔
  edge gs.1 a b ∨ (a = row_id ∧ b ∈ deps).
Proof.
  unfold Build.add_edges. revert gs.
  induction deps as [|d deps IH]; intros gs; simpl.
  - split; [auto|intros [?|[_ ?%elem_of_nil]]; done].
  - rewrite IH. simpl. rewrite edge_graph_add, elem_of_cons. naive_solver.
Qed.

(** What the "Load all targets" loop keeps true: a target is what [td]
    returns for its key; the edges of a node are the dependencies of its
    target; and the records handled have their target and its edges. *)
Record load_inv (raws : list raw) (profile_id : string)
    (targets_ : gmap string Row) (g : gmap string (gset string))
    (handled : list raw) : Prop := {
  load_td : ∀ a row, targets_ !! a = Some row → Build.td raws a = Build.Ok row;
  load_edge : ∀ a b, edge g a b →
              ∃ row, targets_ !! a = Some row ∧ b ∈ depends row;
  load_handled : ∀ r i row, Some r ∈ handled → raw_id r = Some i →
                 i ≠ EmptyString → Build.td raws i = Build.Ok row →
                 targets_ !! i = Some row ∧ ∀ b, b ∈ depends row → edge g i b;
  load_keys : ∀ a, a ∈ dom targets_ →
              a = profile_id ∨
              ∃ r, Some r ∈ handled ∧ raw_id r = Some a ∧ a ≠ EmptyString;
}.

Lemma load_inv_step raws profile_id targets_ g rg handled r i target :
  load_inv raws profile_id targets_ g handled →
  raw_id r = Some i → i ≠ EmptyString → Build.td raws i = Build.Ok target →
  load_inv raws profile_id (<[i := target]> targets_)
    (Build.add_edges (g, rg) i (depends target)).1 (handled ++ [Some r]).
Proof.
  intros [Htd Hedge Hh Hk] Hi Hne Htarget. split.
  - intros a row. destruct (decide (a = i)) as [->|].
    + rewrite lookup_insert_eq. by intros [= <-].
    + rewrite lookup_insert_ne by done. apply Htd.
  - intros a b [Hab | [-> Hb] ]%build_add_edges_spec.
    + destruct (Hedge a b Hab) as (row & Hrow & Hb). simpl in *.
      destruct (decide (a = i)) as [->|].
      * exists target. rewrite lookup_insert_eq. split; [done|].
        apply Htd in Hrow. congruence.
      * exists row. by rewrite lookup_insert_ne.
    + exists target. by rewrite lookup_insert_eq.
  - intros r' i' row [Hin|Heq%list_elem_of_singleton]%elem_of_app Hi' Hne' Hrow.
    + destruct (Hh r' i' row Hin Hi' Hne' Hrow) as [Hlk He]. split.
      * destruct (decide (i' = i)) as [->|].
        -- rewrite lookup_insert_eq. congruence.
        -- by rewrite lookup_insert_ne.
      * intros b Hb. apply build_add_edges_spec. left. by apply He.
    + injection Heq as ->. assert (i' = i) as -> by congruence.
      assert (row = target) as -> by congruence.
      split; [by rewrite lookup_insert_eq|].
      intros b Hb. apply build_add_edges_spec. by right.
  - intros a. rewrite dom_insert, elem_of_union, elem_of_singleton.
    intros [->|Ha].
    + right. exists r. split_and!; [|done..]. apply elem_of_app. right. left.
    + destruct (Hk a Ha) as [?|(r' & ? & ?)]; [by left|].
      right. exists r'. split; [|done]. apply elem_of_app. by left.
Qed.

Lemma load_inv_skip raws profile_id targets_ g handled r :
  load_inv raws profile_id targets_ g handled →
  (∀ r' i, r = Some r' → raw_id r' = Some i → i ≠ EmptyString →
           ∀ row, Build.td raws i ≠ Build.Ok row) →
  load_inv raws profile_id targets_ g (handled ++ [r]).
Proof.
  intros [Htd Hedge Hh Hk] Hskip. split; [done|done| |].
  - intros r' i row [Hin|Heq%list_elem_of_singleton]%elem_of_app Hi Hne Hrow.
    + by eapply Hh.
    + by destruct (Hskip r' i (eq_sym Heq) Hi Hne row).
  - intros a Ha. destruct (Hk a Ha) as [?|(r' & ? & ?)]; [by left|].
    right. exists r'. split; [|done]. apply elem_of_app. by left.
Qed.

Lemma build_load_targets_inv raws profile_id todo handled st s :
  load_inv raws profile_id (Build.targets st) (Build.graph st) handled →
  Build.load_targets raws st todo = Some s →
  load_inv raws profile_id (Build.targets s) (Build.graph s) (handled ++ todo).
Proof.
  revert handled st. induction todo as [|r todo IH]; intros handled st Hinv; simpl.
  { intros [= <-]. by rewrite app_nil_r. }
  destruct (Build.load_target raws st r) as [st'|] eqn:Hr; [|done]. simpl.
  intros Hs. replace (handled ++ r :: todo) with ((handled ++ [r]) ++ todo)
    by by rewrite <-app_assoc.
  apply (IH _ st'); [|done]. unfold Build.load_target in Hr.
  destruct r as [r|]; [|done]. destruct (raw_id r) as [i|] eqn:Hi.
  2:{ injection Hr as <-. apply load_inv_skip; [done|]. intros r' i [= <-]. congruence. }
  case_decide as Hne.
  { injection Hr as <-. apply load_inv_skip; [done|]. intros r' i' [= <-]. congruence. }
  destruct (Build.td raws i) as [target| |] eqn:Htd; [|done|].
  - injection Hr as <-. simpl. by apply load_inv_step.
  - injection Hr as <-. apply load_inv_skip; [done|].
    intros r' i' [= <-] Hi' _ row. congruence.
Qed.

(** In a loaded build system the edges of a target are its dependencies,
    when the id of the profile has no blank at its ends. *)
Lemma build_load_edges profile raws s a b :
  Build._load_config profile raws = Some s →
  Py.strip ("profile-" +:+ profile) = "profile-" +:+ profile →
  edge (Build.graph s) a b ↔
  ∃ row, Build.targets s !! a = Some row ∧ b ∈ depends row.
Proof.
  intros Hs Hstrip.
  assert (load_inv raws ("profile-" +:+ profile) (Build.targets s)
                   (Build.graph s) raws) as [Htd Hedge Hh Hk].
  { unfold Build._load_config in Hs.
    destruct (Build.td raws _) as [p| |] eqn:Hp; [|done|].
    - destruct (Build._collect_profile_deps (S (length raws)) raws p ∅); [|done].
      apply (build_load_targets_inv raws ("profile-" +:+ profile) raws [] _ s)
        in Hs; [done|].
      split; simpl.
      + intros a' row [<- <-]%lookup_singleton_Some. done.
      + intros a' b' ?%edge_empty. done.
      + intros r i row ?%elem_of_nil. done.
      + intros a' Ha'. left. rewrite dom_singleton in Ha'. set_solver.
    - apply (build_load_targets_inv raws ("profile-" +:+ profile) raws [] _ s)
        in Hs; [done|].
      split; simpl.
      + intros a' row. by rewrite lookup_empty.
      + intros a' b' ?%edge_empty. done.
      + intros r i row ?%elem_of_nil. done.
      + intros a' Ha'. set_solver. }
  split; [apply Hedge|]. intros (row & Hrow & Hb).
  pose proof (Htd a row Hrow) as Hrowtd.
  assert (∃ r, Some r ∈ raws ∧ raw_id r = Some a ∧ a ≠ EmptyString)
    as (r & Hr & Hi & Hne).
  { destruct (Hk a) as [->|?]; [by apply elem_of_dom; eauto| |done].
    unfold Build.td in Hrowtd. rewrite Hstrip in Hrowtd.
    case_decide as Hblank; [done|].
    apply build_scan_Ok in Hrowtd as (r & ? & ? & _). by exists r. }
  destruct (Hh r a row Hr Hi Hne Hrowtd) as [_ He]. by apply He.
Qed.

End build_wf.

Section build_hash.
Import Config Graph.

Lemma tc_flip {A} (R R' : relation A) x y :
  (∀ a b, R' b a ↔ R a b) → tc R' x y → tc R y x.
Proof.
  intros Hflip Htc. induction Htc as [x y H|x z y H _ IH].
  - apply tc_once. by apply Hflip.
  - eapply tc_r; [exact IH|]. by apply Hflip.
Qed.

Lemma declares_with_fields rows X args' expr' a b :
  Hash.declares (Hash.with_fields rows X args' expr') a b ↔ Hash.declares rows a b.
Proof.
  unfold Hash.declares.
  destruct (rows !! X) as [rowX|] eqn:HX.
  2:{ unfold Hash.with_fields. by rewrite HX. }
  rewrite (with_fields_dom rows X rowX args' expr' HX).
  destruct (decide (a = X)) as [->|Hne].
  - rewrite (with_fields_X rows X rowX args' expr' HX), HX. split.
    + intros (row & [= <-] & ? & ?). by exists rowX.
    + intros (row & [= <-] & ? & ?). eexists. split; [done|]. done.
  - by rewrite (with_fields_other rows X rowX args' expr' HX).
Qed.

Lemma tc_declares_with_fields rows X args' expr' a b :
  tc (Hash.declares (Hash.with_fields rows X args' expr')) a b ↔
  tc (Hash.declares rows) a b.
Proof.
  split; intros H.
  - induction H as [a b H|a c b H _ IH]; apply declares_with_fields in H;
      [by apply tc_once|by eapply tc_l].
  - induction H as [a b H|a c b H _ IH];
      apply (declares_with_fields rows X args' expr') in H;
      [by apply tc_once|by eapply tc_l].
Qed.

End build_hash.

(** *** Propagation along the declared dependencies *)
Section propagation.
Import Config Graph.
Context (rows : gmap string Row) (tail : list string).
Context (g : gmap string (gset string)).
Hypothesis Hedges :
  ∀ a b, edge g a b ↔ ∃ row, rows !! a = Some row ∧ b ∈ depends row.

Lemma declares_edge a b :
  Hash.declares rows a b ↔ edge g a b ∧ b ∈ dom rows.
Proof. unfold Hash.declares. rewrite Hedges. naive_solver. Qed.

Lemma tc_declares_edge a b : tc (Hash.declares rows) a b → tc (edge g) a b.
Proof.
  intros H. induction H as [a b H|a c b H _ IH]; apply declares_edge in H as [? _].
  - by apply tc_once.
  - by eapply tc_l.
Qed.

Lemma declares_acyclic :
  ¬ cyclic g → ¬ ∃ u, tc (Hash.declares rows) u u.
Proof. intros Hacyc [u Hu]. apply Hacyc. exists u. by apply tc_declares_edge. Qed.

Context (rg : gmap string (gset string)).
Hypothesis Hrev : ∀ a b, edge rg b a ↔ edge g a b.

(** The rows reached from [X] along reverse edges are the rows that reach
    [X] along the declarations. *)
Lemma reverse_reach X d :
  X ∈ dom rows → tc (edge rg) X d ↔ tc (Hash.declares rows) d X.
Proof.
  intros HX. split.
  - intros H. apply (tc_flip (edge g) (edge rg)) in H; [|done].
    induction H as [a b H|a c b H Htc IH].
    + apply tc_once. by apply declares_edge.
    + eapply tc_l; [|by apply IH]. apply declares_edge. split; [done|].
      apply tc_first in Htc as (z & (row & Hrow & _)%Hedges & _).
      apply elem_of_dom. eauto.
  - intros H. apply (tc_flip (edge rg) (edge g)).
    { intros a b. symmetry. apply Hrev. }
    by apply tc_declares_edge.
Qed.

(** The law of propagation for [Hash.compute], whatever ends the text. *)
Lemma propagation X rowX args' expr' :
  ¬ cyclic g → rows !! X = Some rowX →
  (args' ≠ args rowX ∧ expr' = expr rowX ∨
   args' = args rowX ∧ expr' ≠ expr rowX) →
  ∃ fuel0, ∀ fuel, (fuel0 ≤ fuel)%nat → ∀ d,
    ∃ h h' m m',
      Hash.compute rows tail fuel d ∅ = Some (h, m) ∧
      Hash.compute (Hash.with_fields rows X args' expr') tail fuel d ∅
        = Some (h', m') ∧
      (¬ tc (edge rg) X d → d ≠ X → h' = h) ∧
      (tc (edge rg) X d ∨ d = X →
       (∀ c, c ∈ dom rows →
             Hash.collision_free rows (Hash.with_fields rows X args' expr')
                                 tail tail fuel c) →
       h' ≠ h).
Proof.
  intros Hacyc HX Hchange.
  pose proof (declares_acyclic Hacyc) as Hdacyc.
  assert (¬ ∃ u, tc (Hash.declares (Hash.with_fields rows X args' expr')) u u)
    as Hdacyc'.
  { intros [u Hu]. apply Hdacyc. exists u. by apply tc_declares_with_fields in Hu. }
  destruct (compute_fuel rows tail Hdacyc) as [F1 H1].
  destruct (compute_fuel _ tail Hdacyc') as [F2 H2].
  exists (F1 `max` F2)%nat. intros fuel Hle d.
  destruct (H1 fuel d ∅) as [Hin [[h m] Hc]]; [lia|].
  destruct (H2 fuel d ∅) as [Hin' [[h' m'] Hc']]; [lia|].
  exists h, h', m, m'. split; [done|]. split; [done|].
  assert (X ∈ dom rows) as HXdom by (apply elem_of_dom; eauto).
  assert (∀ d, rtc (Hash.declares rows) d X ↔ tc (edge rg) X d ∨ d = X)
    as Hreach.
  { intros d0. rewrite (reverse_reach X d0 HXdom). split.
    - intros [->|(z & Hz & Hr)]%rtc_inv; [by right|]. left.
      eapply tc_rtc_r; [by apply tc_once|done].
    - intros [?%tc_rtc| ->]; done. }
  destruct (decide (d ∈ dom rows)) as [Hd|Hd].
  - destruct (Hin Hd) as [i Hi]. destruct Hin' as [i' Hi'].
    { by rewrite (with_fields_dom rows X rowX). }
    assert (h = Sha256.sha16 i) as ->.
    { destruct (compute_sound rows tail fuel d ∅ h m Hc) as [Hh _]; [done..|].
      eapply hash_of_inj; [exact Hh|]. by exists fuel, i. }
    assert (h' = Sha256.sha16 i') as ->.
    { destruct (compute_sound _ tail fuel d ∅ h' m' Hc') as [Hh _]; [done| |].
      { by rewrite (with_fields_dom rows X rowX). }
      eapply hash_of_inj; [exact Hh|]. by exists fuel, i'. }
    split.
    + intros Hna Hne. f_equal.
      rewrite (input_unchanged rows tail X rowX args' expr' HX) in Hi'.
      * congruence.
      * rewrite Hreach. tauto.
    + intros Hreach' Hfree.
      assert (i' ≠ i) as Hii.
      { eapply (input_changed rows tail X rowX args' expr' HX fuel fuel d);
          [done|done|done|lia| |done|done]. by apply Hreach. }
      specialize (Hfree d Hd). unfold Hash.collision_free in Hfree.
      rewrite Hi, Hi' in Hfree. intros Heq. by apply Hfree.
  - destruct fuel as [|fuel]; [done|].
    rewrite compute_missing in Hc by done.
    rewrite compute_missing in Hc' by by rewrite (with_fields_dom rows X rowX).
    injection Hc as <- <-. injection Hc' as <- <-. split; [done|].
    intros Hreach'%Hreach. exfalso. apply Hd.
    apply rtc_inv in Hreach' as [->|(z & (row & Hrow & _) & _)]; [done|].
    apply elem_of_dom. eauto.
Qed.

End propagation.

Section orchestrator_wf.
Import Config Graph.

Lemma orchestrator_load_nodes_inv raws profile_id todo handled st s :
  load_inv raws profile_id (Orchestrator.nodes st) (Orchestrator.graph st) handled →
  Orchestrator.load_nodes raws st todo = Some s →
  load_inv raws profile_id (Orchestrator.nodes s) (Orchestrator.graph s)
           (handled ++ todo).
Proof.
  revert handled st. induction todo as [|r todo IH]; intros handled st Hinv; simpl.
  { intros [= <-]. by rewrite app_nil_r. }
  destruct (Orchestrator.load_node raws st r) as [st'|] eqn:Hr; [|done]. simpl.
  intros Hs. replace (handled ++ r :: todo) with ((handled ++ [r]) ++ todo)
    by by rewrite <-app_assoc.
  apply (IH _ st'); [|done]. unfold Orchestrator.load_node in Hr.
  destruct r as [r|]; [|done]. destruct (raw_id r) as [i|] eqn:Hi.
  2:{ injection Hr as <-. apply load_inv_skip; [done|]. intros r' i [= <-]. congruence. }
  case_decide as Hne.
  { injection Hr as <-. apply load_inv_skip; [done|]. intros r' i' [= <-]. congruence. }
  destruct (Build.td raws i) as [node| |] eqn:Htd; [|done|].
  - injection Hr as <-. simpl. by apply load_inv_step.
  - injection Hr as <-. apply load_inv_skip; [done|].
    intros r' i' [= <-] Hi' _ row. congruence.
Qed.

(** In a loaded orchestrator the edges of a node are its dependencies. *)
Lemma orchestrator_load_edges raws s a b :
  Orchestrator._load_orchestrator_config raws = Some s →
  edge (Orchestrator.graph s) a b ↔
  ∃ row, Orchestrator.nodes s !! a = Some row ∧ b ∈ depends row.
Proof.
  intros Hs.
  assert (∀ p, load_inv raws p (Orchestrator.nodes s) (Orchestrator.graph s) raws)
    as Hinv.
  { intros p.
    apply (orchestrator_load_nodes_inv raws p raws [] _ s) in Hs; [done|].
    split; simpl.
    - intros a' row. by rewrite lookup_empty.
    - intros a' b' ?%edge_empty. done.
    - intros r i row ?%elem_of_nil. done.
    - intros a' Ha'. set_solver. }
  destruct (Hinv "a") as [Htd Hedge Hh Hk]. destruct (Hinv "b") as [_ _ _ Hk'].
  split; [apply Hedge|]. intros (row & Hrow & Hb).
  assert (a ∈ dom (Orchestrator.nodes s)) as Ha by (apply elem_of_dom; eauto).
  assert (∃ r, Some r ∈ raws ∧ raw_id r = Some a ∧ a ≠ EmptyString)
    as (r & Hr & Hi & Hne).
  { destruct (Hk a Ha) as [->|?]; [|done].
    destruct (Hk' "a" Ha) as [?|?]; done. }
  destruct (Hh r a row Hr Hi Hne (Htd a row Hrow)) as [_ He]. by apply He.
Qed.

End orchestrator_wf.

Section build_acyclic.
Import Config Graph.

Lemma build_declares_acyclic profile raws s :
  Build._load_config profile raws = Some s →
  Py.strip ("profile-" +:+ profile) = "profile-" +:+ profile →
  ¬ cyclic (Build.graph s) → ¬ ∃ u, tc (Hash.declares (Build.targets s)) u u.
Proof.
  intros Hs Hstrip. apply (declares_acyclic _ (Build.graph s)).
  intros a b. by apply (build_load_edges profile raws).
Qed.

End build_acyclic.

(** *** Claims on hashes *)
Section hash_claims.
Import Config Graph Examples.

(** C1, as the build system and the orchestrator have it. In a loaded
    configuration without a cycle (the build system loaded for a profile
    whose name does not end in white space, so that [strip] leaves the id
    [profile-<name>] as it is), change the [args] or the [expr] of the row
    [X], one of the two and, in the build system, so that
    [get_compiler_flags] returns what it returned. With fuel enough, the
    hash is computed for every id before and after the change; a row that
    is neither [X] nor affected by [X] keeps its hash; and a row affected
    by [X], as [X] itself, gets another hash, as long as the sixteen digits
    of the digest tell apart the texts that changed. *)
Theorem hash_propagation :
  (∀ profile raws s X rowX args' expr',
     Build._load_config profile raws = Some s →
     Py.strip ("profile-" +:+ profile) = "profile-" +:+ profile →
     ¬ cyclic (Build.graph s) →
     Build.targets s !! X = Some rowX →
     (args' ≠ args rowX ∧ expr' = expr rowX ∨
      args' = args rowX ∧ expr' ≠ expr rowX) →
     Build.get_compiler_flags (Build.with_fields s X args' expr')
       = Build.get_compiler_flags s →
     ∃ fuel0, ∀ fuel, (fuel0 ≤ fuel)%nat → ∀ d,
       ∃ h h' m m',
         Build.compute_hash fuel s d ∅ = Some (h, m) ∧
         Build.compute_hash fuel (Build.with_fields s X args' expr') d ∅
           = Some (h', m') ∧
         (¬ Build.affected s X d → d ≠ X → h' = h) ∧
         (Build.affected s X d ∨ d = X →
          (∀ c, c ∈ dom (Build.targets s) →
                Hash.collision_free (Build.targets s)
                  (Build.targets (Build.with_fields s X args' expr'))
                  [Py.join "|" (Py.sorted (Build.get_compiler_flags s))]
                  [Py.join "|" (Py.sorted (Build.get_compiler_flags s))] fuel c) →
          h' ≠ h)) ∧
  (∀ raws s X rowX args' expr',
     Orchestrator._load_orchestrator_config raws = Some s →
     ¬ cyclic (Orchestrator.graph s) →
     Orchestrator.nodes s !! X = Some rowX →
     (args' ≠ args rowX ∧ expr' = expr rowX ∨
      args' = args rowX ∧ expr' ≠ expr rowX) →
     ∃ fuel0, ∀ fuel, (fuel0 ≤ fuel)%nat → ∀ d,
       ∃ h h' m m',
         Orchestrator.compute_node_hash fuel s d ∅ = Some (h, m) ∧
         Orchestrator.compute_node_hash fuel
           (Orchestrator.with_fields s X args' expr') d ∅ = Some (h', m') ∧
         (¬ Orchestrator.affected s X d → d ≠ X → h' = h) ∧
         (Orchestrator.affected s X d ∨ d = X →
          (∀ c, c ∈ dom (Orchestrator.nodes s) →
                Hash.collision_free (Orchestrator.nodes s)
                  (Orchestrator.nodes (Orchestrator.with_fields s X args' expr'))
                  [] [] fuel c) →
          h' ≠ h)).
Proof.
  split.
  - intros profile raws s X rowX args' expr' Hload Hstrip Hacyc HX Hchange Hflags.
    unfold Build.compute_hash, Build.affected. rewrite Hflags.
    by apply (propagation (Build.targets s) _ (Build.graph s)
                (λ a b, build_load_edges profile raws s a b Hload Hstrip)
                (Build.reverse_graph s) (build_load_rev profile raws s Hload)
                X rowX).
  - intros raws s X rowX args' expr' Hload Hacyc HX Hchange.
    unfold Orchestrator.compute_node_hash, Orchestrator.affected.
    by apply (propagation (Orchestrator.nodes s) [] (Orchestrator.graph s)
                (λ a b, orchestrator_load_edges raws s a b Hload)
                (Orchestrator.reverse_graph s)
                (orchestrator_load_rev raws s Hload) X rowX).
Qed.

Lemma hash_propagation_witness :
  ∃ s, Build._load_config "dev" diamond_config = Some s ∧
    ∃ fuel0, ∀ fuel, (fuel0 ≤ fuel)%nat → ∀ d,
      ∃ h h' m m',
        Build.compute_hash fuel s d ∅ = Some (h, m) ∧
        Build.compute_hash fuel (Build.with_fields s "root" "--modified" "") d ∅
          = Some (h', m') ∧
        (¬ Build.affected s "root" d → d ≠ "root" → h' = h) ∧
        (Build.affected s "root" d ∨ d = "root" →
         (∀ c, c ∈ dom (Build.targets s) →
               Hash.collision_free (Build.targets s)
                 (Build.targets (Build.with_fields s "root" "--modified" ""))
                 [Py.join "|" (Py.sorted (Build.get_compiler_flags s))]
                 [Py.join "|" (Py.sorted (Build.get_compiler_flags s))] fuel c) →
         h' ≠ h).
Proof.
  destruct (Build._load_config "dev" diamond_config) as [s|] eqn:Hs;
    [|vm_compute in Hs; discriminate].
  exists s. split; [done|].
  assert (s = default s (Build._load_config "dev" diamond_config)) as Heq
    by by rewrite Hs.
  destruct hash_propagation as [H _].
  apply (H "dev" diamond_config s "root"
           {| id := "root"; locked := false; name := "Root"; args := "";
              expr := ""; scope := None; depends := []; sources := [] |}).
  - exact Hs.
  - reflexivity.
  - exact (diamond_acyclic s Hs).
  - rewrite Heq. vm_compute. reflexivity.
  - left. split; [discriminate|reflexivity].
  - rewrite Heq. vm_compute. reflexivity.
Defined.

(** On the diamond the change of [root] reaches [leaf]: the digests before
    and after differ. *)
Example diamond_leaf_changes :
  ∃ s h h', Build._load_config "dev" diamond_config = Some s ∧
    fst <$> Build.compute_hash 4 s "leaf" ∅ = Some h ∧
    fst <$> Build.compute_hash 4 (Build.with_fields s "root" "--modified" "")
              "leaf" ∅ = Some h' ∧
    h ≠ h'.
Proof.
  destruct (Build._load_config "dev" diamond_config) as [s|] eqn:Hs;
    [|vm_compute in Hs; discriminate].
  assert (s = default s (Build._load_config "dev" diamond_config)) as Heq
    by by rewrite Hs.
  exists s. do 2 eexists. split; [done|]. rewrite Heq. split_and!.
  - vm_compute. reflexivity.
  - vm_compute. reflexivity.
  - discriminate.
Qed.

Lemma tc_last {A} (R : relation A) x y : tc R x y → ∃ z, R z y.
Proof. induction 1 as [x y H|x z y _ _ IH]; [by exists x|done]. Qed.

(** C1 does not hold of the build system as it stands: the digest of every
    target takes in the compiler flags, so a change of the [args] of a row
    the profile draws its flags from can change the hash of a target that
    is not affected by that row. Here [-O2] becomes [-O3] in the row
    [cflags], and the hash of [app], which [cflags] does not affect, is
    another. *)
Lemma flags_change_unaffected_hash :
  ∃ s, Build._load_config "dev" flags_config = Some s ∧
    ¬ Build.affected s "cflags" "app" ∧ "app" ≠ "cflags" ∧
    fst <$> Build.compute_hash 3 s "app" ∅ = Some "ee2e0fa0c90e1a30" ∧
    fst <$> Build.compute_hash 3 (Build.with_fields s "cflags" "-O3" "")
              "app" ∅ = Some "7626d479d888b70b".
Proof.
  destruct (Build._load_config "dev" flags_config) as [s|] eqn:Hs;
    [|vm_compute in Hs; discriminate].
  assert (s = default s (Build._load_config "dev" flags_config)) as Heq
    by by rewrite Hs.
  exists s. split; [done|]. split_and!.
  - intros [z Hz%ids_closed]%tc_last. revert Hz. rewrite Heq.
    apply (bool_decide_unpack _). vm_compute. exact I.
  - discriminate.
  - rewrite Heq. vm_compute. reflexivity.
  - rewrite Heq. vm_compute. reflexivity.
Qed.

End hash_claims.

(** *** The loops of the schedulers *)
Section schedule.
Import Graph.
Context {E : Type} (skip failed : E).
Variable g : gmap string (gset string).

(** What the loop of a scheduler keeps: the failed set holds the ids of the
    entries that failed, and an entry is a skip for a dependency exactly
    when an earlier entry of one of its direct dependencies failed. *)
Record sched_inv (fs : gset string) (log : list (string * E)) : Prop := {
  inv_failed : ∀ t, t ∈ fs ↔ (t, failed) ∈ log;
  inv_skip : ∀ i t e, log !! i = Some (t, e) →
    (e = skip ↔ ∃ d j, (j < i)%nat ∧ log !! j = Some (d, failed) ∧ edge g t d);
}.

Lemma sched_inv_nil : sched_inv ∅ [].
Proof.
  split.
  - intros t. split; [by intros ?%elem_of_empty|by intros ?%elem_of_nil].
  - by intros i t e.
Qed.

Lemma failed_dependency fs log t :
  sched_inv fs log →
  graph_get g t ∩ fs ≠ ∅ ↔
  ∃ d j, (j < length log)%nat ∧ log !! j = Some (d, failed) ∧ edge g t d.
Proof.
  intros [Hf _]. split.
  - intros [d [Hd Hfs]%elem_of_intersection]%set_choose_L.
    apply Hf, list_elem_of_lookup in Hfs as [j Hj].
    exists d, j. split_and!; [by eapply lookup_lt_Some|done..].
  - intros (d & j & _ & Hj & Hd) Hempty.
    assert (d ∈ graph_get g t ∩ fs) as Hin; [|set_solver].
    apply elem_of_intersection. split; [done|].
    apply Hf, list_elem_of_lookup. eauto.
Qed.

Lemma sched_inv_snoc fs fs' log t e :
  sched_inv fs log →
  (e = skip ↔ graph_get g t ∩ fs ≠ ∅) →
  (∀ x, x ∈ fs' ↔ x ∈ fs ∨ x = t ∧ e = failed) →
  sched_inv fs' (log ++ [(t, e)]).
Proof.
  intros Hinv He Hfs'. pose proof (failed_dependency fs log t Hinv) as Hdep.
  destruct Hinv as [Hf Hs]. split.
  - intros x. rewrite Hfs', elem_of_app, list_elem_of_singleton, Hf.
    naive_solver.
  - intros i x e' Hi.
    destruct (decide (i < length log)%nat) as [Hlt|Hge].
    + rewrite lookup_app_l in Hi by done. rewrite (Hs i x e' Hi).
      split; intros (d & j & Hj & Hl & Hd); exists d, j; split_and!; try done.
      * rewrite lookup_app_l; [done|lia].
      * rewrite lookup_app_l in Hl; [done|lia].
    + rewrite lookup_app_r in Hi by lia.
      destruct (i - length log)%nat as [|n] eqn:Hn; [|done].
      injection Hi as <- <-. assert (i = length log) as -> by lia.
      rewrite He, Hdep.
      split; intros (d & j & Hj & Hl & Hd); exists d, j; split_and!; try done.
      * by rewrite lookup_app_l.
      * by rewrite lookup_app_l in Hl.
Qed.

End schedule.

Section build_run.
Import Config Graph.
Context (s : Build.state) (o : Build.oracle) (dry_run force : bool).

Definition build_inv (r : Build.run) : Prop :=
  sched_inv Build.SkippedDependency Build.Failed (Build.graph s)
            (Build.failed_targets r) (Build.log r) ∧
  ∀ t, (t, Build.SkippedNotConfirmed) ∈ Build.log r →
       ∃ row, Build.targets s !! t = Some row ∧ locked row = true ∧
              dry_run = false ∧ Build.typed_yes o t = false.

Lemma build_step_spec fuel r t r' :
  build_inv r → Build.build_step fuel s o dry_run force r t = Some r' →
  build_inv r' ∧
  (Build.log r').*1
    = (Build.log r).*1 ++ filter (λ x, x ∈ dom (Build.targets s)) [t].
Proof.
  intros [Hinv Hconf]. unfold Build.build_step.
  destruct (Build.targets s !! t) as [row|] eqn:Ht.
  2:{ intros [= <-]. split; [done|].
      rewrite filter_cons_False, filter_nil, app_nil_r; [done|].
      by rewrite not_elem_of_dom. }
  assert (filter (λ x, x ∈ dom (Build.targets s)) [t] = [t]) as ->.
  { rewrite filter_cons_True; [done|]. apply elem_of_dom. eauto. }
  assert (∀ e, e ≠ Build.SkippedNotConfirmed →
               ∀ x, (x, Build.SkippedNotConfirmed) ∈ Build.log r ++ [(t, e)] →
                    ∃ row, Build.targets s !! x = Some row ∧ locked row = true ∧
                           dry_run = false ∧ Build.typed_yes o x = false) as Hkeep.
  { intros e He x [?|Hx%list_elem_of_singleton]%elem_of_app; [by apply Hconf|].
    congruence. }
  case_decide as Hdep.
  { intros [= <-]. simpl. rewrite fmap_app. split; [|done]. split.
    - eapply sched_inv_snoc; [exact Hinv|done|]. naive_solver.
    - by apply Hkeep. }
  destruct (locked row && negb dry_run && negb (Build.typed_yes o t)) eqn:Hlock.
  { intros [= <-]. simpl. rewrite fmap_app. split; [|done]. split.
    - eapply sched_inv_snoc; [exact Hinv| |]; naive_solver.
    - intros x [?|Hx%list_elem_of_singleton]%elem_of_app; [by apply Hconf|].
      injection Hx as ->. exists row.
      apply andb_true_iff in Hlock as [[? ?%negb_true_iff]%andb_true_iff
                                        ?%negb_true_iff]. done. }
  destruct (Build.build_target _ _ _ _ _ _ _) as [[[artifact|] entries']|]; [| |done].
  - intros [= <-]. simpl. rewrite fmap_app. split; [|done]. split.
    + eapply sched_inv_snoc; [exact Hinv| |]; naive_solver.
    + by apply Hkeep.
  - intros [= <-]. simpl. rewrite fmap_app. split; [|done]. split.
    + eapply sched_inv_snoc; [exact Hinv| |]; [naive_solver|]. set_solver.
    + by apply Hkeep.
Qed.

Lemma build_loop_spec fuel todo r r' :
  build_inv r → Build.build_loop fuel s o dry_run force r todo = Some r' →
  build_inv r' ∧
  (Build.log r').*1
    = (Build.log r).*1 ++ filter (λ x, x ∈ dom (Build.targets s)) todo.
Proof.
  revert r. induction todo as [|t todo IH]; intros r Hinv; simpl.
  { intros [= <-]. by rewrite filter_nil, app_nil_r. }
  destruct (Build.build_step _ _ _ _ _ _ _) as [r1|] eqn:Hstep; [|done]. simpl.
  destruct (build_step_spec _ _ _ _ Hinv Hstep) as [Hinv1 Hlog1].
  intros [Hinv' Hlog']%IH; [|done]. split; [done|].
  rewrite Hlog', Hlog1, <-(assoc_L (++)). f_equal.
  by rewrite (filter_app _ [t] todo).
Qed.

Lemma build_loop_total fuel todo r :
  (∀ d m, is_Some (Build.compute_hash fuel s d m)) →
  is_Some (Build.build_loop fuel s o dry_run force r todo).
Proof.
  intros Hhash. revert r. induction todo as [|t todo IH]; intros r; simpl; [done|].
  assert (is_Some (Build.build_step fuel s o dry_run force r t)) as [r1 ->];
    [|apply IH].
  unfold Build.build_step. destruct (Build.targets s !! t) as [row|] eqn:Ht; [|done].
  case_decide; [done|].
  destruct (_ && _ && _); [done|].
  unfold Build.build_target. rewrite Ht.
  destruct (Hhash t ∅) as [[h m] ->]. simpl.
  repeat (case_match; simpl; try done).
Qed.

End build_run.

Section acyclic_runs.
Import Config Graph.

Lemma walk_tc g a l b :
  walk g (a :: l) → l ≠ [] → last (a :: l) = Some b → tc (edge g) a b.
Proof.
  revert a. induction l as [|x l IH]; intros a Hw Hne Hl; [done|].
  assert (edge g a x) as Hax by by apply (Hw 0%nat).
  destruct l as [|y l].
  - injection Hl as <-. by apply tc_once.
  - eapply tc_l; [exact Hax|]. apply IH; [|done|done].
    intros i u v Hu Hv. by apply (Hw (S i)).
Qed.

Lemma closed_walk_cyclic g c : closed_walk g c → cyclic g.
Proof.
  intros (Hw & Hlen & Hhl). destruct c as [|a l]; [simpl in Hlen; lia|].
  exists a. eapply walk_tc; [done| |by rewrite <-Hhl].
  intros ->. simpl in Hlen. lia.
Qed.

(** The traversal decides whether the graph has a cycle. *)
Lemma detect_cycles_decides g nodes :
  dom g ⊆ list_to_set nodes →
  detect_cycles g nodes = Some [] ∧ ¬ cyclic g ∨
  ∃ c cs, detect_cycles g nodes = Some (c :: cs) ∧ cyclic g.
Proof.
  intros Hdom.
  destruct (detect_cycles_correct g nodes Hdom) as ([|c cs] & Hcs & Hw & Hne).
  - left. split; [done|]. intros Hc. by apply Hne.
  - right. exists c, cs. split; [done|].
    apply Forall_cons in Hw as [Hc _]. by eapply closed_walk_cyclic.
Qed.

Lemma build_order_targets profile raws s targets_ :
  Build._load_config profile raws = Some s → ¬ cyclic (Build.graph s) →
  ∃ order, Build.get_build_order s targets_ = Some order ∧
           ∀ x, x ∈ concat order → x ∈ dom (Build.targets s).
Proof.
  intros Hs Hacyc. unfold Build.get_build_order, Build.buildable.
  destruct (with_transitive_deps_spec (λ _, true) (Build.graph s) targets_
              (list_to_set targets_)) as (all & -> & Hall). simpl.
  destruct (leveled_order_leveled (Build.graph s) (Build.reverse_graph s)
              (filter (λ t, Build.is_buildable s t = true) all))
    as (levels & -> & _ & _ & Hperm); [by eapply build_load_rev|done|].
  exists levels. split; [done|]. intros x. rewrite Hperm, elem_of_elements.
  intros [Hb _]%elem_of_filter. unfold Build.is_buildable in Hb.
  apply elem_of_dom. by destruct (Build.targets s !! x).
Qed.

Lemma filter_all {A} (P : A → Prop) `{∀ x, Decision (P x)} (l : list A) :
  (∀ x, x ∈ l → P x) → filter P l = l.
Proof.
  induction l as [|x l IH]; intros Hl; [done|].
  rewrite filter_cons_True by (apply Hl; left).
  f_equal. apply IH. intros y Hy. apply Hl. by right.
Qed.

(** A run of [build] on a loaded configuration returns; without a cycle,
    its log lists the build order, and it keeps the invariant of the
    loop. *)
Lemma build_run_spec profile raws s o entries_ targets_ dry_run force :
  Build._load_config profile raws = Some s →
  Py.strip ("profile-" +:+ profile) = "profile-" +:+ profile →
  ∃ fuel0, ∀ fuel, (fuel0 ≤ fuel)%nat →
    ∃ v r, Build.build fuel s o entries_ targets_ dry_run force = Some (v, r) ∧
      build_inv s o dry_run r ∧
      (cyclic (Build.graph s) → v = false ∧ Build.log r = []) ∧
      (¬ cyclic (Build.graph s) →
       (v = true ↔ Build.failed_targets r = ∅) ∧
       ∃ order, Build.get_build_order s targets_ = Some order ∧
                (Build.log r).*1 = concat order).
Proof.
  intros Hs Hstrip. unfold Build.build, Build.detect_cycles.
  assert (build_inv s o dry_run
            {| Build.failed_targets := ∅; Build.entries := entries_;
               Build.log := [] |}) as Hinv0.
  { split; [apply sched_inv_nil|]. by intros t ?%elem_of_nil. }
  destruct (detect_cycles_decides (Build.graph s)
              (fst <$> map_to_list (Build.targets s)))
    as [[-> Hacyc]|(c & cs & -> & Hcyc)].
  { rewrite list_to_set_keys. by eapply build_load_dom. }
  - destruct (compute_fuel (Build.targets s)
                [Py.join "|" (Py.sorted (Build.get_compiler_flags s))])
      as [F HF].
    { by eapply build_declares_acyclic. }
    destruct (build_order_targets profile raws s targets_ Hs Hacyc)
      as (order & Horder & Hdom).
    exists F. intros fuel Hle. simpl. rewrite Horder. simpl.
    destruct order as [|l order].
    { eexists _, _. split; [done|]. split; [done|]. split; [done|].
      intros _. split; [done|]. by exists []. }
    destruct (build_loop_total s o dry_run force fuel (concat (l :: order))
                {| Build.failed_targets := ∅; Build.entries := entries_;
                   Build.log := [] |}) as [r Hr].
    { intros d m. by apply HF. }
    rewrite Hr. simpl. eexists _, r. split; [done|].
    destruct (build_loop_spec s o dry_run force fuel _ _ r Hinv0 Hr)
      as [Hinv Hlog].
    split; [done|]. split; [done|]. intros _. split.
    + by rewrite bool_decide_eq_true.
    + exists (l :: order). split; [done|]. rewrite Hlog. simpl.
      by rewrite filter_all.
  - exists 0%nat. intros fuel _. simpl. eexists _, _. split; [done|].
    split; [done|]. done.
Qed.

End acyclic_runs.

Section orchestrator_run.
Import Config Graph.

Lemma orchestrator_load_nodes_dom raws todo st s :
  dom (Orchestrator.graph st) ⊆ dom (Orchestrator.nodes st) →
  Orchestrator.load_nodes raws st todo = Some s →
  dom (Orchestrator.graph s) ⊆ dom (Orchestrator.nodes s).
Proof.
  revert st. induction todo as [|r todo IH]; intros st Hst; simpl.
  { by intros [= <-]. }
  destruct (Orchestrator.load_node raws st r) as [st'|] eqn:Hr; [|done]. simpl.
  apply IH. unfold Orchestrator.load_node in Hr.
  destruct r as [r|]; [|done]. destruct (raw_id r) as [row_id|]; [|by simplify_eq].
  case_decide; [by simplify_eq|].
  destruct (Build.td raws row_id) as [node| |]; simplify_eq; [|done].
  simpl. rewrite dom_insert_L.
  etrans; [apply build_add_edges_dom|]. simpl. set_solver.
Qed.

Lemma orchestrator_load_dom raws s :
  Orchestrator._load_orchestrator_config raws = Some s →
  dom (Orchestrator.graph s) ⊆ dom (Orchestrator.nodes s).
Proof. apply orchestrator_load_nodes_dom. simpl. set_solver. Qed.

Context (s : Orchestrator.state) (o : Orchestrator.oracle)
        (dry_run auto_approve : bool).

Definition orchestrator_inv (r : Orchestrator.run) : Prop :=
  sched_inv Orchestrator.SkippedDependency
            (Orchestrator.Executed Orchestrator.FAILED) (Orchestrator.graph s)
            (Orchestrator.failed_nodes r) (Orchestrator.log r) ∧
  ∀ n status, (n, Orchestrator.Executed status) ∈ Orchestrator.log r →
              status = Orchestrator.execute_node s o n dry_run auto_approve.

Lemma run_step_spec r n :
  orchestrator_inv r →
  orchestrator_inv (Orchestrator.run_step s o dry_run auto_approve r n) ∧
  (Orchestrator.log (Orchestrator.run_step s o dry_run auto_approve r n)).*1
    = (Orchestrator.log r).*1 ++ filter (λ x, x ∈ dom (Orchestrator.nodes s)) [n].
Proof.
  intros [Hinv Hex]. unfold Orchestrator.run_step.
  destruct (Orchestrator.nodes s !! n) as [node|] eqn:Hn.
  2:{ split; [done|].
      rewrite filter_cons_False, filter_nil, app_nil_r; [done|].
      by rewrite not_elem_of_dom. }
  assert (filter (λ x, x ∈ dom (Orchestrator.nodes s)) [n] = [n]) as ->.
  { rewrite filter_cons_True; [done|]. apply elem_of_dom. eauto. }
  case_decide as Hdep; simpl; rewrite fmap_app; (split; [|done]); split.
  - eapply sched_inv_snoc; [exact Hinv|done|]. naive_solver.
  - intros x st [?|Hx%list_elem_of_singleton]%elem_of_app; [by apply Hex|done].
  - eapply sched_inv_snoc; [exact Hinv|naive_solver|].
    intros x. case_decide as Hst; [rewrite Hst; set_solver|]. naive_solver.
  - intros x st [?|Hx%list_elem_of_singleton]%elem_of_app; [by apply Hex|].
    by injection Hx as -> ->.
Qed.

Lemma run_fold_spec todo r :
  orchestrator_inv r →
  orchestrator_inv (foldl (Orchestrator.run_step s o dry_run auto_approve) r todo) ∧
  (Orchestrator.log
     (foldl (Orchestrator.run_step s o dry_run auto_approve) r todo)).*1
    = (Orchestrator.log r).*1 ++ filter (λ x, x ∈ dom (Orchestrator.nodes s)) todo.
Proof.
  revert r. induction todo as [|n todo IH]; intros r Hinv; simpl.
  { by rewrite filter_nil, app_nil_r. }
  destruct (run_step_spec r n Hinv) as [Hinv1 Hlog1].
  destruct (IH _ Hinv1) as [Hinv' Hlog']. split; [done|].
  rewrite Hlog', Hlog1, <-(assoc_L (++)). f_equal.
  by rewrite (filter_app _ [n] todo).
Qed.

End orchestrator_run.

Section orchestrator_spec.
Import Config Graph.

Lemma orchestrator_levels_nodes raws s targets_ :
  Orchestrator._load_orchestrator_config raws = Some s →
  ¬ cyclic (Orchestrator.graph s) →
  ∃ levels, Orchestrator.get_execution_levels s targets_ = Some levels ∧
            ∀ x, x ∈ concat levels → x ∈ dom (Orchestrator.nodes s).
Proof.
  intros Hs Hacyc.
  unfold Orchestrator.get_execution_levels, Orchestrator.all_nodes.
  destruct (with_transitive_deps_spec
              (λ dep, bool_decide (dep ∈ dom (Orchestrator.nodes s)))
              (Orchestrator.graph s) targets_
              (list_to_set targets_)) as (all & -> & Hall). simpl.
  destruct (leveled_order_leveled (Orchestrator.graph s)
              (Orchestrator.reverse_graph s)
              (filter (λ n, n ∈ dom (Orchestrator.nodes s)) all))
    as (levels & -> & _ & _ & Hperm); [by eapply orchestrator_load_rev|done|].
  exists levels. split; [done|]. intros x. rewrite Hperm, elem_of_elements.
  by intros [? _]%elem_of_filter.
Qed.

(** A run of [run_pipeline] on a loaded configuration returns; for a
    pipeline row and without a cycle, its log lists the levels, and it
    keeps the invariant of the loop. *)
Lemma run_pipeline_spec raws s o pipeline_id row dry_run auto_approve :
  Orchestrator._load_orchestrator_config raws = Some s →
  Orchestrator.nodes s !! pipeline_id = Some row →
  scope row = Some "pipeline" →
  ∃ v r, Orchestrator.run_pipeline s o pipeline_id dry_run auto_approve
           = Some (v, r) ∧
    orchestrator_inv s o dry_run auto_approve r ∧
    (cyclic (Orchestrator.graph s) → v = false ∧ Orchestrator.log r = []) ∧
    (¬ cyclic (Orchestrator.graph s) →
     (v = true ↔ Orchestrator.failed_nodes r = ∅) ∧
     ∃ levels, Orchestrator.get_execution_levels s [pipeline_id] = Some levels ∧
               (Orchestrator.log r).*1 = concat levels).
Proof.
  intros Hs Hrow Hscope. unfold Orchestrator.run_pipeline, Orchestrator.detect_cycles.
  rewrite Hrow. rewrite decide_True by done.
  assert (orchestrator_inv s o dry_run auto_approve
            {| Orchestrator.failed_nodes := ∅; Orchestrator.log := [] |}) as Hinv0.
  { split; [apply sched_inv_nil|]. by intros n st ?%elem_of_nil. }
  destruct (detect_cycles_decides (Orchestrator.graph s)
              (fst <$> map_to_list (Orchestrator.nodes s)))
    as [[-> Hacyc]|(c & cs & -> & Hcyc)].
  { rewrite list_to_set_keys. by eapply orchestrator_load_dom. }
  - destruct (orchestrator_levels_nodes raws s [pipeline_id] Hs Hacyc)
      as (levels & Hlevels & Hdom).
    simpl. rewrite Hlevels. simpl. eexists _, _. split; [done|].
    destruct (run_fold_spec s o dry_run auto_approve (concat levels) _ Hinv0)
      as [Hinv Hlog].
    split; [done|]. split; [done|]. intros _. split.
    + by rewrite bool_decide_eq_true.
    + exists levels. split; [done|]. rewrite Hlog. simpl. by rewrite filter_all.
  - simpl. eexists _, _. split; [done|]. split; [done|]. done.
Qed.

End orchestrator_spec.

Section levels_total.
Import Graph.

Lemma fold_level_remaining dependents L R deg :
  (foldl (level_step dependents) (R, deg) L).1 = R ∖ list_to_set L.
Proof.
  revert R deg. induction L as [|t L IH]; intros R deg; simpl; [set_solver|].
  rewrite (surjective_pairing (level_step dependents (R, deg) t)), IH.
  change (level_step dependents (R, deg) t).1 with (R ∖ {[t]}). set_solver.
Qed.

(** The loop of the leveled order ends whatever the in-degrees are, and
    lists remaining nodes only. *)
Lemma levels_loop_returns fuel dependents R deg levels :
  (size R < fuel)%nat →
  ∃ levels', levels_loop fuel dependents R deg levels = Some levels' ∧
             ∀ x, x ∈ concat levels' → x ∈ concat levels ∨ x ∈ R.
Proof.
  revert R deg levels. induction fuel as [|fuel IH]; intros R deg levels Hsz; [lia|].
  destruct (decide (R = ∅)) as [->|Hne].
  { exists levels. split; [|by left]. cbn [levels_loop]. by rewrite decide_True. }
  destruct (decide (filter (λ t, deg !!! t = 0) (elements R) = [])) as [HL|HL].
  { exists levels. split; [|by left]. cbn [levels_loop].
    rewrite decide_False by done. by rewrite HL. }
  rewrite levels_loop_unfold by done.
  set (L := filter (λ t, deg !!! t = 0) (elements R)) in *.
  assert (∀ t, t ∈ L → t ∈ R) as HLR.
  { intros t [_ ?%elem_of_elements]%list_elem_of_filter. done. }
  rewrite fold_level_remaining.
  destruct (IH (R ∖ list_to_set L)
               (foldl (level_step dependents) (R, deg) L).2
               (levels ++ [Py.sorted L])) as (levels' & -> & Hin).
  { destruct L as [|t L'] eqn:HeqL; [done|].
    assert (t ∈ R) as Ht by (apply HLR; left).
    assert (R ∖ list_to_set (t :: L') ⊂ R) as Hsub%subset_size; [|lia].
    split; [set_solver|]. intros Hsub. specialize (Hsub t Ht). set_solver. }
  exists levels'. split; [done|]. intros x [Hx|Hx]%Hin; [|set_solver].
  rewrite concat_app, elem_of_app in Hx. destruct Hx as [?|Hx]; [by left|].
  right. simpl in Hx. rewrite app_nil_r, elem_of_sorted in Hx. by apply HLR.
Qed.

End levels_total.

Section pipeline_run.
Import Config Graph.

Context (s : Pipeline.state) (o : Pipeline.oracle) (target : option string)
        (dry_run : bool).

(** The loops of [run] end; a stage that failed is the last one handled,
    and the verdict is then false. *)
Lemma run_loop_spec todo results :
  (∀ t, t ∈ todo → t ∈ dom (Pipeline.stages s)) →
  (∀ t ok, (t, ok) ∈ results → ok = true) →
  ∃ v results', Pipeline.run_loop s o target dry_run results todo
                  = Some (v, results') ∧
    (∀ i t, results' !! i = Some (t, false) →
            v = false ∧ S i = length results') ∧
    (v = true →
     results'.*1 = results.*1 ++
                   filter (λ t, Pipeline.off_target target t = false) todo ∧
     ∀ t ok, (t, ok) ∈ results' → ok = true).
Proof.
  revert results. induction todo as [|t todo IH]; intros results Hdom Hok; simpl.
  { exists true, results. split; [done|]. split.
    - intros i t Hi. apply list_elem_of_lookup_2, Hok in Hi. done.
    - intros _. by rewrite filter_nil, app_nil_r. }
  assert (∀ t, t ∈ todo → t ∈ dom (Pipeline.stages s)) as Hdom'.
  { intros x Hx. apply Hdom. by right. }
  destruct (Pipeline.off_target target t) eqn:Hoff.
  { destruct (IH results Hdom' Hok) as (v & results' & -> & Hlast & Hall).
    exists v, results'. split; [done|]. split; [done|].
    intros Hv. destruct (Hall Hv) as [-> ?]. split; [|done].
    rewrite filter_cons_False; [done|]. by rewrite Hoff. }
  assert (is_Some (Pipeline.stages s !! t)) as [stage Hstage].
  { apply elem_of_dom, Hdom. left. }
  unfold Pipeline.simulate_stage. rewrite Hstage. simpl.
  set (ok := negb (locked stage && negb dry_run && negb (Pipeline.typed_yes o t))
             && (dry_run || negb (Pipeline.draw_fails o t && negb (locked stage)))).
  assert ((if locked stage && negb dry_run && negb (Pipeline.typed_yes o t)
           then Some false
           else if dry_run then Some true
           else if Pipeline.draw_fails o t && negb (locked stage) then Some false
           else Some true) = Some ok) as ->.
  { unfold ok. by repeat (case_match; simpl in *; try done). }
  destruct ok.
  - destruct (IH (results ++ [(t, true)]) Hdom') as (v & results' & -> & Hlast & Hall).
    { intros x b [?|Hx%list_elem_of_singleton]%elem_of_app; [by eapply Hok|].
      by injection Hx as _ ->. }
    exists v, results'. split; [done|]. split; [done|].
    intros Hv. destruct (Hall Hv) as [-> ?]. split; [|done].
    rewrite filter_cons_True by done. rewrite fmap_app, <-(assoc_L (++)). done.
  - exists false, (results ++ [(t, false)]). split; [done|]. split; [|done].
    intros i x Hi. split; [done|]. rewrite length_app. simpl.
    destruct (decide (i < length results)%nat) as [Hlt|Hge].
    + rewrite lookup_app_l in Hi by done.
      apply list_elem_of_lookup_2, Hok in Hi. done.
    + apply lookup_lt_Some in Hi. rewrite length_app in Hi. simpl in Hi. lia.
Qed.

End pipeline_run.

Section pipeline_spec.
Import Config Graph.


End pipeline_spec.

(** *** Claims on the schedulers *)
Section scheduler_claims.
Import Config Graph Examples.

Lemma build_acyclic_by_detect profile raws s :
  Build._load_config profile raws = Some s →
  Build.detect_cycles s = Some [] → ¬ cyclic (Build.graph s).
Proof.
  intros Hs Hd Hcyc.
  destruct (detect_cycles_correct (Build.graph s)
              (fst <$> map_to_list (Build.targets s))) as (cs & Hcs & _ & Hne).
  { rewrite list_to_set_keys. by eapply build_load_dom. }
  apply (Hne Hcyc). unfold Build.detect_cycles in Hd. congruence.
Qed.




End scheduler_claims.

Section failure_claims.
Import Config Graph Examples.




End failure_claims.


(** *** The impact mapper *)
Section impact_mapper.
Import Config.
Variable fnmatch : string → string → bool.
Context (s : Ci.state).

(** The rows one of whose patterns hits the path, in the order of
    [file_patterns] *)
Definition matched_rows (filepath : string) : list string :=
  (filter (λ kv, existsb (Ci.pattern_hits fnmatch
                            (Py.replace_char Ci.backslash "/" filepath)) kv.2 = true)
          (Ci.file_patterns s)).*1.

Lemma map_file_rows fp m filepath norm f :
  foldl (λ file_to_rows kv,
           if existsb (Ci.pattern_hits fnmatch norm) kv.2
           then Ci.append file_to_rows filepath kv.1
           else file_to_rows) m fp !! f
  = if decide (f = filepath) then
      match (filter (λ kv, existsb (Ci.pattern_hits fnmatch norm) kv.2 = true) fp).*1 with
      | [] => m !! f
      | hits => Some (default [] (m !! f) ++ hits)
      end
    else m !! f.
Proof.
  revert m. induction fp as [|kv fp IH]; intros m.
  { simpl. by case_decide. }
  cbn [foldl]. rewrite IH. destruct (existsb _ kv.2) eqn:Hhit.
  - rewrite filter_cons_True by done. rewrite fmap_cons.
    set (hits := (filter _ fp).*1). unfold Ci.append. case_decide as Hf.
    + subst f. rewrite lookup_insert_eq. simpl.
      destruct hits; [done|]. by rewrite <-(assoc_L (++)).
    + by rewrite lookup_insert_ne.
  - rewrite filter_cons_False by (by rewrite Hhit). done.
Qed.

Lemma map_file_lookup m filepath f :
  Ci.map_file fnmatch s m filepath !! f
  = if decide (f = filepath) then
      match matched_rows filepath with
      | [] => m !! f
      | hits => Some (default [] (m !! f) ++ hits)
      end
    else m !! f.
Proof. apply map_file_rows. Qed.

Lemma map_files_elem files m f row_id :
  row_id ∈ default [] (foldl (Ci.map_file fnmatch s) m files !! f) ↔
  row_id ∈ default [] (m !! f) ∨ f ∈ files ∧ row_id ∈ matched_rows f.
Proof.
  revert m. induction files as [|x files IH]; intros m; simpl.
  { split; [by left|]. by intros [?|[?%elem_of_nil _]]. }
  rewrite IH, map_file_lookup, elem_of_cons. case_decide as Hf.
  - subst x. destruct (matched_rows f) as [|h hits] eqn:Hm.
    + split; [intros [?|[? ?%elem_of_nil]]; [by left|done]|].
      intros [?|[_ ?%elem_of_nil]]; [by left|done].
    + simpl. rewrite elem_of_app. naive_solver.
  - naive_solver.
Qed.

Lemma map_files_nonempty files m f :
  (∀ l, m !! f = Some l → l ≠ []) →
  ∀ l, foldl (Ci.map_file fnmatch s) m files !! f = Some l → l ≠ [].
Proof.
  revert m. induction files as [|x files IH]; intros m Hm; simpl; [done|].
  apply IH. intros l. rewrite map_file_lookup. case_decide; [|apply Hm].
  destruct (matched_rows x) as [|h hits]; [apply Hm|].
  intros [= <-]. by destruct (default [] (m !! f)).
Qed.

Lemma map_files_once files m f :
  f ∉ files → foldl (Ci.map_file fnmatch s) m files !! f = m !! f.
Proof.
  revert m. induction files as [|x files IH]; intros m Hf; simpl; [done|].
  apply not_elem_of_cons in Hf as [Hne Hf].
  rewrite IH by done. rewrite map_file_lookup. by rewrite decide_False.
Qed.

Lemma map_files_NoDup files m f :
  NoDup files → m !! f = None → f ∈ files →
  foldl (Ci.map_file fnmatch s) m files !! f
  = match matched_rows f with [] => None | hits => Some hits end.
Proof.
  revert m. induction files as [|x files IH]; intros m Hnd Hm Hf; simpl.
  { by apply elem_of_nil in Hf. }
  apply NoDup_cons in Hnd as [Hx Hnd].
  destruct (decide (f = x)) as [->|Hne].
  - rewrite map_files_once by done. rewrite map_file_lookup, decide_True by done.
    rewrite Hm. by destruct (matched_rows x).
  - apply elem_of_cons in Hf as [?|Hf]; [done|].
    apply IH; [done| |done]. rewrite map_file_lookup. by rewrite decide_False.
Qed.

Lemma matched_rows_spec filepath row_id :
  row_id ∈ matched_rows filepath ↔
  ∃ patterns pattern,
    (row_id, patterns) ∈ Ci.file_patterns s ∧ pattern ∈ patterns ∧
    (fnmatch (Py.replace_char Ci.backslash "/" filepath) pattern = true ∨
     Ci.dir_suffix pattern = true ∧
     Py.startswith (Py.replace_char Ci.backslash "/" filepath)
                   (Py.rsplit1_head "/" pattern +:+ "/") = true).
Proof.
  unfold matched_rows. rewrite list_elem_of_fmap. split.
  - intros ([k patterns] & -> & [Hhit Hin]%list_elem_of_filter). simpl in *.
    apply existsb_exists in Hhit as (pattern & Hp%list_elem_of_In & Hhit).
    exists patterns, pattern. split_and!; [done..|].
    unfold Ci.pattern_hits in Hhit.
    apply orb_true_iff in Hhit as [?|[??]%andb_true_iff]; [by left|by right].
  - intros (patterns & pattern & Hin & Hp & Hhit).
    exists (row_id, patterns). split; [done|].
    apply list_elem_of_filter. split; [|done]. simpl.
    apply existsb_exists. exists pattern. split; [by apply list_elem_of_In|].
    unfold Ci.pattern_hits. apply orb_true_iff.
    destruct Hhit as [?|[??]]; [by left|right]. by apply andb_true_iff.
Qed.

End impact_mapper.

Section file_patterns_keys.
Import Config.

Lemma dict_set_keys {A} (d : list (string * A)) k v :
  (Py.dict_set d k v).*1 = if decide (k ∈ d.*1) then d.*1 else d.*1 ++ [k].
Proof.
  induction d as [|[k' v'] d IH].
  { cbn [Py.dict_set fmap list_fmap fst app].
    case_decide as Hk; [by apply elem_of_nil in Hk|done]. }
  cbn [Py.dict_set]. rewrite fmap_cons. cbn [fst].
  destruct (decide (k' = k)) as [->|Hne].
  - rewrite decide_True by left. done.
  - rewrite fmap_cons, IH. cbn [fst].
    destruct (decide (k ∈ d.*1)) as [Hin|Hnin].
    + rewrite decide_True by by right. done.
    + rewrite decide_False; [done|]. by intros [?|?]%elem_of_cons.
Qed.

Lemma dict_set_NoDup {A} (d : list (string * A)) k v :
  NoDup d.*1 → NoDup (Py.dict_set d k v).*1.
Proof.
  intros Hd. rewrite dict_set_keys. case_decide as Hk; [done|].
  apply NoDup_app. split_and!; [done| |apply NoDup_singleton].
  by intros x Hx ->%list_elem_of_singleton.
Qed.

Lemma ci_load_rows_NoDup raws acc acc' :
  NoDup acc.2.*1 → Ci.load_rows acc raws = Some acc' → NoDup acc'.2.*1.
Proof.
  revert acc. induction raws as [|r raws IH]; intros acc Hacc; simpl.
  { by intros [= <-]. }
  destruct (Ci.load_row acc r) as [acc1|] eqn:Hr; [|done]. simpl.
  apply IH. unfold Ci.load_row in Hr.
  destruct r as [r|]; [|by simplify_eq].
  destruct (raw_id r) as [row_id|]; [|by simplify_eq].
  destruct (Ci.deps_tuple _); [|done]. simpl in Hr. injection Hr as <-. simpl.
  unfold Ci._extract_file_patterns. destruct (filter _ _); [done|].
  by apply dict_set_NoDup.
Qed.

(** A dict has each key once. *)
Lemma ci_load_patterns_NoDup raws s :
  Ci.load raws = Some s → NoDup (Ci.file_patterns s).*1.
Proof.
  unfold Ci.load. destruct (Ci.load_rows (∅, []) raws) as [acc|] eqn:Hacc; [|done].
  simpl. intros [= <-]. simpl.
  eapply ci_load_rows_NoDup; [|exact Hacc]. constructor.
Qed.

End file_patterns_keys.

(** *** Claim on the impact mapper *)
Section mapper_claims.
Import Config Examples.

(** The matching rule in the words of the specification: the pattern
    matches the path as a glob, or the pattern ends in a wildcard suffix
    after the name of a directory and the path is under that directory. *)
Definition spec_matching_rule (fnmatch : string → string → bool)
    (filepath_normalized pattern : string) : Prop :=
  fnmatch filepath_normalized pattern = true ∨
  ∃ dir suffix,
    pattern = dir +:+ "/" +:+ suffix ∧
    Py.contains_char "*" suffix = true ∧ Py.contains_char "/" suffix = false ∧
    Py.startswith filepath_normalized (dir +:+ "/") = true.

(** C9. For a loaded snapshot and changed files listed once each, a row
    is mapped to a file exactly when the file is among the changed ones
    and one of the patterns of the row matches the path, backslashes
    turned into slashes, as [fnmatch] does, or ends in one of the suffixes
    ["/*"], ["/*.c"], ["/*.py"] while the path starts with the part of the
    pattern before its last slash, followed by a slash; a file of the
    mapping has a list that is not empty and names each such row once. *)
Theorem impact_mapper_rule (fnmatch : string → string → bool) (raws : list raw)
    (s : Ci.state) (changed_files : list string) (filepath : string) :
  Ci.load raws = Some s → NoDup changed_files →
  (∀ row_id,
     row_id ∈ default [] (Ci.map_files_to_rows fnmatch s changed_files !! filepath) ↔
     filepath ∈ changed_files ∧
     ∃ patterns pattern,
       (row_id, patterns) ∈ Ci.file_patterns s ∧ pattern ∈ patterns ∧
       (fnmatch (Py.replace_char Ci.backslash "/" filepath) pattern = true ∨
        Ci.dir_suffix pattern = true ∧
        Py.startswith (Py.replace_char Ci.backslash "/" filepath)
                      (Py.rsplit1_head "/" pattern +:+ "/") = true)) ∧
  (∀ l, Ci.map_files_to_rows fnmatch s changed_files !! filepath = Some l →
        l ≠ [] ∧ NoDup l).
Proof.
  intros Hs Hnd. unfold Ci.map_files_to_rows. split.
  - intros row_id. rewrite map_files_elem, lookup_empty, matched_rows_spec.
    simpl. split; [by intros [?%elem_of_nil|?]|by right].
  - intros l Hl. split.
    { eapply map_files_nonempty; [|exact Hl]. intros l'. by rewrite lookup_empty. }
    destruct (decide (filepath ∈ changed_files)) as [Hin|Hnin].
    2:{ by rewrite map_files_once, lookup_empty in Hl. }
    rewrite map_files_NoDup in Hl by done.
    assert (l = matched_rows fnmatch s filepath) as ->.
    { destruct (matched_rows fnmatch s filepath); by simplify_eq. }
    unfold matched_rows.
    assert ((filter (λ kv, existsb (Ci.pattern_hits fnmatch
                              (Py.replace_char Ci.backslash "/" filepath)) kv.2
                            = true) (Ci.file_patterns s)).*1
              `sublist_of` (Ci.file_patterns s).*1) as Hsub
      by apply fmap_sublist, sublist_filter.
    eapply sublist_NoDup in Hsub; [done|]. by eapply ci_load_patterns_NoDup.
Qed.

Lemma impact_mapper_rule_witness :
  ∃ s, Ci.load patterns_config = Some s ∧
       "sources" ∈ default [] (Ci.map_files_to_rows Fnmatch.fnmatch s
                                 ["src/main.py"; "README.md"] !! "src/main.py").
Proof.
  destruct (Ci.load patterns_config) as [s|] eqn:Hs;
    [|vm_compute in Hs; discriminate].
  assert (s = default s (Ci.load patterns_config)) as Heq by by rewrite Hs.
  exists s. split; [done|].
  destruct (impact_mapper_rule Fnmatch.fnmatch patterns_config s
              ["src/main.py"; "README.md"] "src/main.py" Hs) as [Hiff _].
  { apply (bool_decide_unpack _). vm_compute. exact I. }
  apply Hiff. split; [left|].
  exists ["src/*.c"; "docs/*"], "src/*.c". split_and!.
  - rewrite Heq. apply (bool_decide_unpack _). vm_compute. exact I.
  - left.
  - right. split; vm_compute; reflexivity.
Defined.

(** The pattern [src/*.h] ends in a wildcard suffix and names the
    directory [src], and [src/main.py] is under it: the rule of the
    specification maps the file to the row [headers]; the mapper does
    not. *)
Lemma header_pattern_not_mapped :
  ∃ s, Ci.load patterns_config = Some s ∧
       ("headers", ["src/*.h"]) ∈ Ci.file_patterns s ∧
       spec_matching_rule Fnmatch.fnmatch "src/main.py" "src/*.h" ∧
       Ci.map_files_to_rows Fnmatch.fnmatch s ["src/main.py"] !! "src/main.py"
         = Some ["sources"].
Proof.
  destruct (Ci.load patterns_config) as [s|] eqn:Hs;
    [|vm_compute in Hs; discriminate].
  assert (s = default s (Ci.load patterns_config)) as Heq by by rewrite Hs.
  exists s. split_and!; [done| | |].
  - rewrite Heq. apply (bool_decide_unpack _). vm_compute. exact I.
  - right. exists "src", "*.h". split_and!; vm_compute; reflexivity.
  - rewrite Heq. vm_compute. reflexivity.
Qed.

End mapper_claims.


(** *** The traversal of the dependents *)
Section affected.
Import Graph.
Context (dependents : string → list string) (U : gset string).
Hypothesis U_closed : ∀ a b, b ∈ dependents a → b ∈ U.
Context (changed_id : string).

Definition dependent_of (a b : string) : Prop := b ∈ dependents a.

Lemma affected_fold L A q :
  A ⊆ U → (∀ x, x ∈ L → x ∈ U) →
  ∃ new,
    foldl affected_step (A, q) L = (A ∪ list_to_set L, q ++ new) ∧
    (∀ x, x ∈ new ↔ x ∈ L ∧ x ∉ A) ∧
    (length new + size (U ∖ (A ∪ list_to_set L)) = size (U ∖ A))%nat.
Proof.
  revert A q. induction L as [|x L IH]; intros A q HA HL.
  { exists []. simpl. rewrite app_nil_r, (right_id_L ∅ (∪)). split_and!; [done| |done].
    intros x. split; [by intros ?%elem_of_nil|by intros [?%elem_of_nil _]]. }
  cbn [foldl]. unfold affected_step at 2. cbn [fst snd].
  assert (∀ y, y ∈ L → y ∈ U) as HL' by (intros y Hy; apply HL; by right).
  assert (x ∈ U) as Hx by (apply HL; left).
  destruct (decide (x ∈ A)) as [Hin|Hnin].
  - assert (A ∪ list_to_set (x :: L) =@{gset string} A ∪ list_to_set L) as ->
      by set_solver.
    destruct (IH A q HA HL') as (new & -> & Hnew & Hsize).
    exists new. split_and!; [done| |done].
    intros y. rewrite Hnew. set_solver.
  - assert (A ∪ list_to_set (x :: L) =@{gset string} {[x]} ∪ A ∪ list_to_set L)
      as -> by set_solver.
    destruct (IH ({[x]} ∪ A) (q ++ [x])) as (new & -> & Hnew & Hsize);
      [set_solver|done|].
    exists (x :: new). split_and!.
    + by rewrite <-(assoc_L (++)).
    + intros y. rewrite elem_of_cons, Hnew. split.
      * intros [->|[? Hy]]; [split; [left|done]|]. split; [by right|].
        intros HyA. apply Hy. apply elem_of_union. by right.
      * intros [[->|?]%elem_of_cons HyA]; [by left|].
        destruct (decide (y = x)) as [->|Hne]; [by left|]. right.
        split; [done|]. intros [?%elem_of_singleton|?]%elem_of_union; done.
    + assert (U ∖ A = {[x]} ∪ U ∖ ({[x]} ∪ A)) as ->.
      { apply set_eq. intros y. destruct (decide (y = x)) as [->|]; set_solver. }
      rewrite (size_union (C:=gset string) {[x]}) by set_solver.
      rewrite size_singleton. simpl. lia.
Qed.

Record ainv (queue : list string) (A : gset string) : Prop := {
  ainv_reach : ∀ d, d ∈ A → tc dependent_of changed_id d;
  ainv_queue : ∀ q, q ∈ queue → q = changed_id ∨ q ∈ A;
  ainv_closed : ∀ a, a = changed_id ∨ a ∈ A →
                a ∈ queue ∨ ∀ b, dependent_of a b → b ∈ A;
  ainv_sub : A ⊆ U;
}.

Lemma ainv_done A : ainv [] A → ∀ x, x ∈ A ↔ tc dependent_of changed_id x.
Proof.
  intros [Hr _ Hc _] x. split; [apply Hr|].
  assert (∀ a x, tc dependent_of a x → a = changed_id ∨ a ∈ A → x ∈ A) as Hgen.
  { clear x. intros a x Htc. induction Htc as [a x Hax|a b x Hab _ IH]; intros Ha.
    - destruct (Hc a Ha) as [?%elem_of_nil|Hall]; [done|]. by apply Hall.
    - apply IH. right.
      destruct (Hc a Ha) as [?%elem_of_nil|Hall]; [done|]. by apply Hall. }
  intros Htc. apply (Hgen changed_id); [done|by left].
Qed.

Lemma affected_loop_spec fuel queue A :
  ainv queue A → (length queue + size (U ∖ A) < fuel)%nat →
  ∃ r, affected_loop fuel dependents queue A = Some r ∧
       ∀ x, x ∈ r ↔ tc dependent_of changed_id x.
Proof.
  revert queue A. induction fuel as [|fuel IH]; intros queue A Hinv Hm; [lia|].
  destruct queue as [|current queue]; simpl.
  { exists A. split; [done|]. by apply ainv_done. }
  destruct Hinv as [Hr Hq Hc Hsub].
  destruct (affected_fold (dependents current) A queue Hsub)
    as (new & -> & Hnew & Hsize).
  { intros x. apply U_closed. }
  simpl. apply IH.
  - split.
    + intros d [?|Hd%elem_of_list_to_set]%elem_of_union; [by apply Hr|].
      destruct (Hq current) as [->|Hcur]; [left|by apply tc_once|].
      eapply tc_r; [by apply Hr|done].
    + intros q [Hin|[Hin _]%Hnew]%elem_of_app.
      * destruct (Hq q) as [?|?]; [by right|by left|right; set_solver].
      * right. apply elem_of_union. right. by apply elem_of_list_to_set.
    + intros a Ha.
      assert (a = changed_id ∨ a ∈ A ∨ a ∈ dependents current ∧ a ∉ A) as Ha'.
      { destruct Ha as [?|[?|?%elem_of_list_to_set]%elem_of_union]; [by left|by right; left|].
        destruct (decide (a ∈ A)); [by right; left|by right; right]. }
      destruct Ha' as [Hac|[HaA|Hanew]].
      * destruct (Hc a (or_introl Hac)) as [[->|?]%elem_of_cons|Hall].
        -- right. intros b Hb. apply elem_of_union. right.
           by apply elem_of_list_to_set.
        -- left. apply elem_of_app. by left.
        -- right. intros b Hb. apply elem_of_union. left. by apply Hall.
      * destruct (Hc a (or_intror HaA)) as [[->|?]%elem_of_cons|Hall].
        -- right. intros b Hb. apply elem_of_union. right.
           by apply elem_of_list_to_set.
        -- left. apply elem_of_app. by left.
        -- right. intros b Hb. apply elem_of_union. left. by apply Hall.
      * left. apply elem_of_app. right. by apply Hnew.
    + intros x [?|Hx%elem_of_list_to_set]%elem_of_union; [by apply Hsub|].
      by eapply U_closed.
  - rewrite length_app. simpl in Hm. lia.
Qed.

End affected.

Section get_affected.
Import Graph.

(** The traversal ends and returns what is reached from [changed_id] along
    one edge or more of [rg]. *)
Lemma get_affected_spec rg changed_id :
  ∃ r, get_affected rg changed_id = Some r ∧
       ∀ x, x ∈ r ↔ tc (edge rg) changed_id x.
Proof.
  unfold get_affected.
  destruct (affected_loop_spec (λ t, elements (graph_get rg t)) (ids rg)
              (λ a b Hb, ids_closed rg a b (proj1 (elem_of_elements _ _) Hb))
              changed_id (S (S (size (ids rg)))) [changed_id] ∅)
    as (r & Hr & Hspec).
  - split.
    + by intros d ?%elem_of_empty.
    + intros q ->%list_elem_of_singleton. by left.
    + intros a [->|?%elem_of_empty]; [|done]. left. left.
    + set_solver.
  - assert (size (ids rg ∖ ∅) ≤ size (ids rg))%nat by (apply subseteq_size; set_solver).
    simpl. lia.
  - exists r. split; [done|]. intros x. rewrite Hspec.
    assert (∀ a b, tc (dependent_of (λ t, elements (graph_get rg t))) a b
                   ↔ tc (edge rg) a b) as Htc.
    { intros a b. split; intros H; (induction H as [a b H|a c b H _ IH];
        [apply tc_once|eapply tc_l; [|exact IH]]);
        unfold dependent_of, edge in *; by apply elem_of_elements. }
    apply Htc.
Qed.

End get_affected.

(** *** The levels of propagation *)
Section compute_levels.
Import Graph.
Context (rg : gmap string (gset string)) (start : gset string).

(** The dependents of the ids of a set *)
Definition succs (C : gset string) (x : string) : Prop :=
  ∃ n, n ∈ C ∧ edge rg n x.

Lemma level_visit_fold L V N :
  ∀ x, (x ∈ (foldl level_visit (V, N) L).1 ↔ x ∈ V ∨ x ∈ L) ∧
       (x ∈ (foldl level_visit (V, N) L).2 ↔ x ∈ N ∨ x ∈ L ∧ x ∉ V).
Proof.
  revert V N. induction L as [|d L IH]; intros V N x.
  { simpl. split; split; [by left|by intros [?|?%elem_of_nil]|by left|].
    by intros [?|[?%elem_of_nil _]]. }
  cbn [foldl]. unfold level_visit at 2 4. cbn [fst snd].
  destruct (decide (d ∈ V)) as [Hin|Hnin].
  - destruct (IH V N x) as [-> ->]. rewrite elem_of_cons. split.
    + split; [tauto|]. intros [?|[->|?]]; tauto.
    + split; [tauto|]. intros [?|[[->|?] ?]]; tauto.
  - destruct (IH ({[d]} ∪ V) ({[d]} ∪ N) x) as [-> ->].
    rewrite !elem_of_union, !elem_of_singleton, elem_of_cons. split.
    + tauto.
    + destruct (decide (x = d)) as [->|Hne]; tauto.
Qed.

Lemma round_fold Ns V N :
  ∀ x,
    (x ∈ (foldl (λ acc node, foldl level_visit acc (elements (graph_get rg node)))
                (V, N) Ns).1 ↔ x ∈ V ∨ ∃ n, n ∈ Ns ∧ edge rg n x) ∧
    (x ∈ (foldl (λ acc node, foldl level_visit acc (elements (graph_get rg node)))
                (V, N) Ns).2 ↔ x ∈ N ∨ (∃ n, n ∈ Ns ∧ edge rg n x) ∧ x ∉ V).
Proof.
  revert V N. induction Ns as [|n Ns IH]; intros V N x.
  { simpl. split; split; [by left| |by left|].
    - by intros [?|(n & ?%elem_of_nil & _)].
    - by intros [?|[(n & ?%elem_of_nil & _) _]]. }
  cbn [foldl].
  rewrite (surjective_pairing (foldl level_visit (V, N) (elements (graph_get rg n)))).
  destruct (IH (foldl level_visit (V, N) (elements (graph_get rg n))).1
               (foldl level_visit (V, N) (elements (graph_get rg n))).2 x)
    as [-> ->].
  destruct (level_visit_fold (elements (graph_get rg n)) V N x) as [-> ->].
  setoid_rewrite elem_of_cons. rewrite elem_of_elements.
  fold (edge rg n x).
  destruct (decide (edge rg n x)); destruct (decide (x ∈ V)); naive_solver.
Qed.

(** The ids met from the start nodes *)
Definition reached (x : string) : Prop := ∃ s, s ∈ start ∧ rtc (edge rg) s x.

(** The level before the level [i] *)
Definition previous (levels : list (gset string)) (i : nat) : gset string :=
  match i with
  | O => start
  | S i' => default ∅ (levels !! i')
  end.

Record linv (V C : gset string) (levels : list (gset string)) : Prop := {
  linv_current : C ⊆ V;
  linv_visited : ∀ x, x ∈ V ↔ x ∈ start ∨ ∃ l, l ∈ levels ∧ x ∈ l;
  linv_nonempty : ∀ l, l ∈ levels → l ≠ ∅ ∧ l ## start;
  linv_disjoint : ∀ i j l l', levels !! i = Some l → levels !! j = Some l' →
                  i ≠ j → l ## l';
  linv_reached : ∀ x, x ∈ V → reached x;
  linv_closed : ∀ a b, a ∈ V → a ∉ C → edge rg a b → b ∈ V;
  linv_last : C = ∅ ∨ C = previous levels (length levels);
  linv_pred : ∀ i l x, levels !! i = Some l → x ∈ l →
              ∃ y, edge rg y x ∧ y ∈ previous levels i;
}.

Lemma previous_app levels l i :
  (i ≤ length levels)%nat → previous (levels ++ [l]) i = previous levels i.
Proof.
  intros Hi. destruct i as [|i]; [done|]. simpl.
  by rewrite lookup_app_l by lia.
Qed.

Lemma previous_last levels l :
  previous (levels ++ [l]) (S (length levels)) = l.
Proof.
  simpl. rewrite lookup_app_r by lia. by rewrite Nat.sub_diag.
Qed.

Lemma linv_done V levels :
  linv V ∅ levels → ∀ x, x ∈ V ↔ reached x.
Proof.
  intros [_ Hv _ _ Hr Hc _ _] x. split; [apply Hr|].
  intros (s & Hs & Hrtc). revert x Hrtc. apply (rtc_ind_r (λ z, z ∈ V) s).
  - apply Hv. by left.
  - intros y z _ Hyz Hy. apply (Hc y z); [done|set_solver|done].
Qed.

Lemma compute_levels_loop_spec fuel V C levels :
  linv V C levels →
  (size (ids rg ∖ V) + (if decide (C = ∅) then 0 else 1) < fuel)%nat →
  ∃ levels', compute_levels_loop fuel rg V C levels = Some levels' ∧
             ∃ V', linv V' ∅ levels'.
Proof.
  revert V C levels. induction fuel as [|fuel IH]; intros V C levels Hinv Hm; [lia|].
  cbn [compute_levels_loop]. destruct (decide (C = ∅)) as [->|HC].
  { exists levels. split; [done|]. by exists V. }
  pose proof (round_fold (elements C) V ∅) as Hfold.
  set (acc := foldl (λ acc node, foldl level_visit acc (elements (graph_get rg node)))
                    (V, ∅) (elements C)) in *.
  destruct Hinv as [Hcur Hvis Hne Hdis Hreach Hclosed Hlast Hpred].
  assert (∀ x, x ∈ acc.1 ↔ x ∈ V ∨ succs C x) as H1.
  { intros x. destruct (Hfold x) as [-> _]. unfold succs.
    by setoid_rewrite elem_of_elements. }
  assert (∀ x, x ∈ acc.2 ↔ succs C x ∧ x ∉ V) as H2.
  { intros x. destruct (Hfold x) as [_ ->]. unfold succs.
    setoid_rewrite elem_of_elements. set_solver. }
  assert (C = previous levels (length levels)) as HCprev by (by destruct Hlast).
  assert (∀ i l, levels !! i = Some l → (i < length levels)%nat) as Hlt.
  { intros i l Hi. by eapply lookup_lt_Some. }
  assert (∀ a, a ∈ acc.1 → a ∉ acc.2 → a ∈ V) as Hold1.
  { intros a [?|Hs]%H1 Hna; [done|]. destruct (decide (a ∈ V)); [done|].
    exfalso. by apply Hna, H2. }
  destruct (decide (acc.2 = ∅)) as [Hempty|Hnonempty].
  - assert (∀ x, x ∈ acc.1 ↔ x ∈ V) as HV.
    { intros x. split; [|intros ?; apply H1; by left].
      intros Hx. apply Hold1; [done|]. rewrite Hempty. set_solver. }
    apply IH.
    + rewrite Hempty. split.
      * set_solver.
      * intros x. rewrite HV. apply Hvis.
      * done.
      * done.
      * intros x ?%HV. by apply Hreach.
      * intros a b Ha%HV _ Hab. apply H1.
        destruct (decide (a ∈ C)); [right; by exists a|left; by eapply Hclosed].
      * by left.
      * done.
    + rewrite Hempty, decide_True by done.
      assert (size (ids rg ∖ acc.1) ≤ size (ids rg ∖ V))%nat; [|lia].
      apply subseteq_size. intros x [? Hx]%elem_of_difference.
      apply elem_of_difference. split; [done|]. intros ?. by apply Hx, HV.
  - apply IH.
    + split.
      * intros x [? ?]%H2. apply H1. by right.
      * intros x. rewrite H1, Hvis. split.
        -- intros [[?|(l & ? & ?)]|Hs]; [by left|right; exists l; split; [|done];
             apply elem_of_app; by left|].
           destruct (decide (x ∈ V)) as [HxV|Hx].
           { apply Hvis in HxV as [?|(l & ? & ?)]; [by left|].
             right. exists l. split; [apply elem_of_app; by left|done]. }
           right. exists acc.2. split; [apply elem_of_app; right; left|by apply H2].
        -- intros [?|(l & [?|Hl%list_elem_of_singleton]%elem_of_app & Hx)];
             [by left; left|left; right; by exists l|].
           subst l. right. by apply H2 in Hx as [? _].
      * intros l [?|Hl%list_elem_of_singleton]%elem_of_app; [by apply Hne|].
        subst l. split; [done|]. intros x [_ Hx]%H2 Hs. apply Hx, Hvis. by left.
      * intros i j l l' Hi Hj Hij.
        assert (∀ k m, levels !! k = Some m → m ## acc.2) as Hold.
        { intros k m Hk x Hx [_ Hx2]%H2. apply Hx2, Hvis. right. exists m.
          split; [|done]. by eapply list_elem_of_lookup_2. }
        destruct (decide (i < length levels)%nat), (decide (j < length levels)%nat).
        -- rewrite lookup_app_l in Hi, Hj by done. by eapply Hdis.
        -- rewrite lookup_app_l in Hi by done. rewrite lookup_app_r in Hj by lia.
           destruct (j - length levels)%nat; [|done]. injection Hj as <-.
           by eapply Hold.
        -- rewrite lookup_app_l in Hj by done. rewrite lookup_app_r in Hi by lia.
           destruct (i - length levels)%nat; [|done]. injection Hi as <-.
           symmetry. by eapply Hold.
        -- apply lookup_lt_Some in Hi, Hj. rewrite length_app in Hi, Hj.
           simpl in *. lia.
      * intros x [?|(n & Hn & Hnx)]%H1; [by apply Hreach|].
        destruct (Hreach n) as (s & Hs & Hsn); [by apply Hcur|].
        exists s. split; [done|]. by eapply rtc_r.
      * intros a b Ha Hna Hab. pose proof (Hold1 a Ha Hna) as HaV.
        apply H1. destruct (decide (a ∈ C)); [right; by exists a|].
        left. by eapply Hclosed.
      * right. by rewrite length_app, Nat.add_1_r, previous_last.
      * intros i l x Hi Hx.
        destruct (decide (i < length levels)%nat).
        -- rewrite lookup_app_l in Hi by done. rewrite previous_app by lia.
           by eapply Hpred.
        -- pose proof (lookup_lt_Some _ _ _ Hi) as Hlen.
           rewrite length_app in Hlen. simpl in Hlen.
           assert (i = length levels) as -> by lia.
           rewrite lookup_app_r, Nat.sub_diag in Hi by lia. injection Hi as <-.
           rewrite previous_app, <-HCprev by lia.
           apply H2 in Hx as [(y & ? & ?) _]. by exists y.
    + rewrite decide_False by done.
      apply set_choose_L in Hnonempty as [x [(y & Hn & Hnx) Hx]%H2].
      assert (ids rg ∖ acc.1 ⊂ ids rg ∖ V) as Hsub%subset_size; [|lia].
      split.
      * intros z [? Hz]%elem_of_difference. apply elem_of_difference.
        split; [done|]. intros ?. apply Hz, H1. by left.
      * intros Hsub. assert (x ∈ ids rg ∖ acc.1) as [_ Hx1]%elem_of_difference.
        { apply Hsub, elem_of_difference. split; [by eapply ids_closed|done]. }
        apply Hx1, H1. right. by exists y.
Qed.

(** [_compute_levels] ends; its levels are not empty, apart from one
    another and from the start nodes; with the start nodes they hold what
    is met from the start nodes; and an id of a level is a dependent of an
    id of the level before. *)
Lemma compute_levels_spec :
  ∃ levels, _compute_levels rg start = Some levels ∧
    (∀ l, l ∈ levels → l ≠ ∅ ∧ l ## start) ∧
    (∀ i j l l', levels !! i = Some l → levels !! j = Some l' → i ≠ j → l ## l') ∧
    (∀ x, (x ∈ start ∨ ∃ l, l ∈ levels ∧ x ∈ l) ↔ reached x) ∧
    (∀ i l x, levels !! i = Some l → x ∈ l →
       ∃ y, edge rg y x ∧ y ∈ previous levels i).
Proof.
  unfold _compute_levels.
  destruct (compute_levels_loop_spec (S (S (size (ids rg)))) start start [])
    as (levels & Hl & V & Hinv).
  - split.
    + done.
    + intros x. split; [by left|]. by intros [?|(l & ?%elem_of_nil & _)].
    + by intros l ?%elem_of_nil.
    + by intros i j l l' Hi.
    + intros x Hx. by exists x.
    + by intros a b Ha Hna.
    + by right.
    + by intros i l x Hi.
  - assert (size (ids rg ∖ start) ≤ size (ids rg))%nat
      by (apply subseteq_size; set_solver).
    case_decide; lia.
  - exists levels. split; [done|].
    pose proof (linv_done V levels Hinv) as Hdone.
    destruct Hinv as [_ Hvis Hne Hdis _ _ _ Hpred].
    split_and!; [done|done| |done]. intros x. by rewrite <-Hvis, Hdone.
Qed.

End compute_levels.

Section closures.
Import Config Graph.

(** Over a reverse graph that mirrors [g], the traversal of the dependents
    of [c] returns the ids that reach [c] in [g]. *)
Lemma get_affected_dual g rg c :
  (∀ a b, edge rg b a ↔ edge g a b) →
  ∃ A, get_affected rg c = Some A ∧ ∀ x, x ∈ A ↔ tc (edge g) x c.
Proof.
  intros Hrev. destruct (get_affected_spec rg c) as (A & HA & Hspec).
  exists A. split; [done|]. intros x. rewrite Hspec. split.
  - by apply tc_flip.
  - apply tc_flip. intros a b. symmetry. apply Hrev.
Qed.

Lemma get_transitive_deps_tc g t :
  ∃ D, get_transitive_deps (λ _, true) g t = Some D ∧
       ∀ x, x ∈ D ↔ tc (edge g) t x.
Proof.
  destruct (get_transitive_deps_spec (λ _, true) g t) as (D & HD & Hspec).
  exists D. split; [done|]. intros x. by rewrite Hspec, reaches_tc.
Qed.

Lemma tc_source_dom g a b : tc (edge g) a b → a ∈ dom g.
Proof. intros (z & Hz & _)%tc_first. by eapply edge_dom. Qed.

(** Where the ids with an edge are known, what the traversal of the
    orchestrator meets from [t] is what [t] reaches, if it is known. *)
Lemma reaches_known_tc (known : string → bool) g t x :
  (∀ a, a ∈ dom g → known a = true) → known x = true →
  reaches known g t x ↔ tc (edge g) t x.
Proof.
  intros Hdom Hx. unfold reaches. split.
  - intros (_ & q & Hq & Hr). eapply tc_rtc_r; [by apply tc_once|].
    clear Hq Hx. induction Hr as [|a b c [_ ?] _ IH]; [constructor|by eapply rtc_l].
  - intros H. split; [done|]. destruct H as [t x H|t z x H Htc].
    + exists x. split; [done|]. constructor.
    + exists z. split; [done|]. clear H.
      induction Htc as [a b Hab|a b c Hab _ IH].
      * apply rtc_once. split; [|done]. apply Hdom. by eapply edge_dom.
      * eapply rtc_l; [|by apply IH]. split; [|done]. apply Hdom.
        by eapply edge_dom.
Qed.

End closures.

Section closure_extras.
Import Config Graph Examples.

(** X1. In a loaded build system or orchestrator, the traversal of the
    dependents of [changed_id] ends and returns the rows that depend on
    [changed_id] through one dependency or more; they are rows of the
    configuration; and a row is among them exactly when [changed_id] is
    among its transitive dependencies (for the orchestrator, when
    [changed_id] is a node). *)
Theorem affected_are_the_dependents :
  (∀ profile raws s changed_id,
     Build._load_config profile raws = Some s →
     ∃ A, Build.get_affected_targets s changed_id = Some A ∧
       (∀ x, x ∈ A ↔ tc (edge (Build.graph s)) x changed_id) ∧
       A ⊆ dom (Build.targets s) ∧
       (∀ x, x ∈ A ↔
             ∃ D, Build.get_transitive_deps s x = Some D ∧ changed_id ∈ D)) ∧
  (∀ raws s changed_id,
     Orchestrator._load_orchestrator_config raws = Some s →
     ∃ A, Orchestrator.get_affected_nodes s changed_id = Some A ∧
       (∀ x, x ∈ A ↔ tc (edge (Orchestrator.graph s)) x changed_id) ∧
       A ⊆ dom (Orchestrator.nodes s) ∧
       (changed_id ∈ dom (Orchestrator.nodes s) →
        ∀ x, x ∈ A ↔
             ∃ D, Orchestrator.get_transitive_deps s x = Some D ∧ changed_id ∈ D)).
Proof.
  split.
  - intros profile raws s c Hs. unfold Build.get_affected_targets.
    destruct (get_affected_dual (Build.graph s) (Build.reverse_graph s) c
                (build_load_rev profile raws s Hs)) as (A & HA & Hspec).
    exists A. split_and!; [done|done| |].
    + intros x Hx%Hspec%tc_source_dom. by apply (build_load_dom profile raws s Hs).
    + intros x. rewrite Hspec. unfold Build.get_transitive_deps.
      destruct (get_transitive_deps_tc (Build.graph s) x) as (D & HD & HDspec).
      rewrite HD. split.
      * intros Htc. exists D. split; [done|]. by apply HDspec.
      * intros (D' & [= <-] & Hc). by apply HDspec.
  - intros raws s c Hs. unfold Orchestrator.get_affected_nodes.
    destruct (get_affected_dual (Orchestrator.graph s)
                (Orchestrator.reverse_graph s) c
                (orchestrator_load_rev raws s Hs)) as (A & HA & Hspec).
    exists A. split_and!; [done|done| |].
    + intros x Hx%Hspec%tc_source_dom. by apply (orchestrator_load_dom raws s Hs).
    + intros Hc x. rewrite Hspec. unfold Orchestrator.get_transitive_deps.
      destruct (get_transitive_deps_spec
                  (λ dep, bool_decide (dep ∈ dom (Orchestrator.nodes s)))
                  (Orchestrator.graph s) x) as (D & HD & HDspec).
      rewrite HD.
      assert (c ∈ D ↔ tc (edge (Orchestrator.graph s)) x c) as Hiff.
      { rewrite HDspec. apply reaches_known_tc.
        - intros a Ha. apply bool_decide_eq_true.
          by apply (orchestrator_load_dom raws s Hs).
        - by apply bool_decide_eq_true. }
      split.
      * intros Htc. exists D. split; [done|]. by apply Hiff.
      * intros (D' & [= <-] & HcD). by apply Hiff.
Qed.

Lemma affected_are_the_dependents_witness :
  ∃ s A, Build._load_config "dev" diamond_config = Some s ∧
    Build.get_affected_targets s "root" = Some A ∧
    A = {["mid1"; "mid2"; "leaf"]} ∧
    A ⊆ dom (Build.targets s).
Proof.
  destruct (Build._load_config "dev" diamond_config) as [s|] eqn:Hs;
    [|vm_compute in Hs; discriminate].
  assert (s = default s (Build._load_config "dev" diamond_config)) as Heq
    by by rewrite Hs.
  destruct affected_are_the_dependents as [H _].
  destruct (H "dev" diamond_config s "root" Hs) as (A & HA & _ & Hsub & _).
  exists s, A. split_and!; [done..| |done].
  assert (Some A = Some ({["mid1"; "mid2"; "leaf"]} : gset string)) as Hsome.
  { rewrite <-HA, Heq. vm_compute. reflexivity. }
  by injection Hsome.
Defined.

(** X2. In what the CLI and the CI tool load, the traversal of the
    dependents of [row_id] ends and returns the rows that depend on
    [row_id] through one dependency or more that names a row; a row is
    among them exactly when [row_id] is among its transitive dependencies;
    and an id that is no row affects nothing. *)
Theorem cli_affected_are_the_dependents :
  (∀ raws row_id,
     ∃ A, Cli._get_affected (Cli.load raws) row_id = Some A ∧
       (∀ x, x ∈ A ↔ tc (edge (Cli.graph (Cli.load raws))) x row_id) ∧
       A ⊆ dom (Cli.rows (Cli.load raws)) ∧
       (∀ x, x ∈ A ↔
             ∃ D, Cli._get_transitive_deps (Cli.load raws) x = Some D ∧
                  row_id ∈ D) ∧
       (row_id ∉ dom (Cli.rows (Cli.load raws)) → A = ∅)) ∧
  (∀ raws s changed_id, Ci.load raws = Some s →
     ∃ A, Ci.get_affected_rows s changed_id = Some A ∧
       (∀ x, x ∈ A ↔ tc (edge (Ci.graph s)) x changed_id) ∧
       A ⊆ dom (Ci.rows s) ∧
       (changed_id ∉ dom (Ci.rows s) → A = ∅)).
Proof.
  assert (∀ (rows : gmap string Row) g rg c,
            (∀ a b, (edge g a b ↔ ∃ row : Row, rows !! a = Some row ∧
                                   b ∈ depends row ∧ b ∈ dom rows) ∧
                    (edge rg b a ↔ edge g a b)) →
            ∃ A, get_affected rg c = Some A ∧
                 (∀ x, x ∈ A ↔ tc (edge g) x c) ∧ A ⊆ dom rows ∧
                 (c ∉ dom rows → A = ∅)) as Hgen.
  { intros rows g rg c Hg.
    destruct (get_affected_dual g rg c (λ a b, proj2 (Hg a b)))
      as (A & HA & Hspec).
    exists A. split_and!; [done|done| |].
    - intros x (z & (row & Hrow & _)%Hg & _)%Hspec%tc_first.
      apply elem_of_dom. eauto.
    - intros Hc. apply set_eq. intros x. split; [|by intros ?%elem_of_empty].
      intros (z & (row & _ & _ & Hdom)%Hg)%Hspec%tc_last. done. }
  split.
  - intros raws c. unfold Cli._get_affected.
    destruct (Hgen (Cli.rows (Cli.load raws)) (Cli.graph (Cli.load raws))
                (Cli.reverse_graph (Cli.load raws)) c)
      as (A & HA & Hspec & Hsub & Hnone).
    { intros a b. apply (cli_graph_spec (Cli.load_rows raws) a b). }
    exists A. split_and!; [done..| |done].
    intros x. rewrite Hspec. unfold Cli._get_transitive_deps.
    destruct (get_transitive_deps_tc (Cli.graph (Cli.load raws)) x)
      as (D & HD & HDspec).
    rewrite HD. split.
    + intros Htc. exists D. split; [done|]. by apply HDspec.
    + intros (D' & [= <-] & Hc). by apply HDspec.
  - intros raws s c Hs. unfold Ci.get_affected_rows. unfold Ci.load in Hs.
    destruct (Ci.load_rows (∅, []) raws) as [acc|]; [|done].
    injection Hs as <-. simpl.
    apply (Hgen acc.1). intros a b. apply (cli_graph_spec acc.1 a b).
Qed.

Lemma cli_affected_are_the_dependents_witness :
  ∃ s A, Ci.load dangling_config = Some s ∧
    Ci.get_affected_rows s "ghost" = Some A ∧ A = ∅.
Proof.
  destruct (Ci.load dangling_config) as [s|] eqn:Hs;
    [|vm_compute in Hs; discriminate].
  assert (s = default s (Ci.load dangling_config)) as Heq by by rewrite Hs.
  destruct cli_affected_are_the_dependents as [_ H].
  destruct (H dangling_config s "ghost" Hs) as (A & HA & _ & _ & Hnone).
  exists s, A. split_and!; [done..|]. apply Hnone.
  rewrite Heq. apply (bool_decide_unpack _). vm_compute. exact I.
Defined.

End closure_extras.

Section closure_extras2.
Import Config Graph Examples.

(** X3. [get_transitive_deps] ends. In the build system it returns every
    id reached from the target along one dependency edge or more, targets
    or not; in a loaded orchestrator it returns, of these ids, the ones
    that are nodes; in the CLI, where edges lead to rows only, what it
    returns are rows. *)
Theorem transitive_deps_are_reachable :
  (∀ s target_id,
     ∃ D, Build.get_transitive_deps s target_id = Some D ∧
          ∀ x, x ∈ D ↔ tc (edge (Build.graph s)) target_id x) ∧
  (∀ raws s node_id,
     Orchestrator._load_orchestrator_config raws = Some s →
     ∃ D, Orchestrator.get_transitive_deps s node_id = Some D ∧
          ∀ x, x ∈ D ↔ tc (edge (Orchestrator.graph s)) node_id x ∧
                       x ∈ dom (Orchestrator.nodes s)) ∧
  (∀ raws row_id,
     ∃ D, Cli._get_transitive_deps (Cli.load raws) row_id = Some D ∧
          (∀ x, x ∈ D ↔ tc (edge (Cli.graph (Cli.load raws))) row_id x) ∧
          D ⊆ dom (Cli.rows (Cli.load raws))).
Proof.
  split_and!.
  - intros s t. apply get_transitive_deps_tc.
  - intros raws s t Hs. unfold Orchestrator.get_transitive_deps.
    destruct (get_transitive_deps_spec
                (λ dep, bool_decide (dep ∈ dom (Orchestrator.nodes s)))
                (Orchestrator.graph s) t) as (D & HD & HDspec).
    exists D. split; [done|]. intros x. rewrite HDspec.
    destruct (decide (x ∈ dom (Orchestrator.nodes s))) as [Hx|Hx].
    + rewrite reaches_known_tc; [tauto| |by apply bool_decide_eq_true].
      intros a Ha. apply bool_decide_eq_true.
      by apply (orchestrator_load_dom raws s Hs).
    + split; [|tauto]. intros [Hk _]. by apply bool_decide_eq_true in Hk.
  - intros raws t. unfold Cli._get_transitive_deps.
    destruct (get_transitive_deps_tc (Cli.graph (Cli.load raws)) t)
      as (D & HD & HDspec).
    exists D. split_and!; [done..|].
    intros x (z & Hz)%HDspec%tc_last.
    by apply (cli_graph_spec (Cli.load_rows raws) z x) in Hz as (row & _ & _ & ?).
Qed.

Lemma transitive_deps_are_reachable_witness :
  ∃ s D, Orchestrator._load_orchestrator_config diamond_config = Some s ∧
    Orchestrator.get_transitive_deps s "leaf" = Some D ∧
    D = {["mid1"; "mid2"; "root"]} ∧ "ghost" ∉ D.
Proof.
  destruct (Orchestrator._load_orchestrator_config diamond_config) as [s|] eqn:Hs;
    [|vm_compute in Hs; discriminate].
  assert (s = default s (Orchestrator._load_orchestrator_config diamond_config))
    as Heq by by rewrite Hs.
  destruct transitive_deps_are_reachable as (_ & H & _).
  destruct (H diamond_config s "leaf" Hs) as (D & HD & HDspec).
  exists s, D. split_and!; [done..| |].
  - assert (Some D = Some ({["mid1"; "mid2"; "root"]} : gset string)) as Hsome.
    { rewrite <-HD, Heq. vm_compute. reflexivity. }
    by injection Hsome.
  - intros [_ Hg]%HDspec. revert Hg. rewrite Heq.
    apply (bool_decide_unpack _). vm_compute. exact I.
Defined.

Lemma reached_singleton rg t x :
  reached rg {[t]} x ↔ x = t ∨ tc (edge rg) t x.
Proof.
  unfold reached. split.
  - intros (s & ->%elem_of_singleton & [->|(z & Hz & Hr)]%rtc_inv); [by left|].
    right. eapply tc_rtc_r; [by apply tc_once|done].
  - intros [->|Htc]; exists t; (split; [by apply elem_of_singleton|]);
      [constructor|by apply tc_rtc].
Qed.

(** X4. The levels that [show_propagation_chain] prints for a target or a
    node, and the ones [_compute_levels] returns, in the build system, the
    orchestrator and the impact analysis alike: the loop ends; no level
    is empty; no id is in two levels or in a level and among the start
    nodes; an id of a level is a dependent of an id of the level before
    (of a start node, for the first level); the ids of the levels of a
    target or node are the ids that [get_affected_targets] or
    [get_affected_nodes] returns for it, the target apart; and the start
    nodes of [_compute_levels] with its levels are what is reached from
    the start nodes along reverse edges. *)
Theorem propagation_levels_partition :
  (∀ s target_id, target_id ∈ dom (Build.targets s) →
     ∃ levels A,
       Build.show_propagation_chain s target_id = Some levels ∧
       Build.get_affected_targets s target_id = Some A ∧
       (∀ l, l ∈ levels → l ≠ ∅) ∧
       (∀ i j l l', levels !! i = Some l → levels !! j = Some l' → i ≠ j →
                    l ## l') ∧
       (∀ x, (∃ l, l ∈ levels ∧ x ∈ l) ↔ x ∈ A ∧ x ≠ target_id) ∧
       (∀ i l x, levels !! i = Some l → x ∈ l →
          ∃ y, edge (Build.reverse_graph s) y x ∧
               y ∈ previous {[target_id]} levels i)) ∧
  (∀ s node_id, node_id ∈ dom (Orchestrator.nodes s) →
     ∃ levels A,
       Orchestrator.show_propagation_chain s node_id = Some levels ∧
       Orchestrator.get_affected_nodes s node_id = Some A ∧
       (∀ l, l ∈ levels → l ≠ ∅) ∧
       (∀ i j l l', levels !! i = Some l → levels !! j = Some l' → i ≠ j →
                    l ## l') ∧
       (∀ x, (∃ l, l ∈ levels ∧ x ∈ l) ↔ x ∈ A ∧ x ≠ node_id) ∧
       (∀ i l x, levels !! i = Some l → x ∈ l →
          ∃ y, edge (Orchestrator.reverse_graph s) y x ∧
               y ∈ previous {[node_id]} levels i)) ∧
  (∀ s start_nodes,
     ∃ levels,
       Ci._compute_levels s start_nodes = Some levels ∧
       (∀ l, l ∈ levels → l ≠ ∅ ∧ l ## start_nodes) ∧
       (∀ i j l l', levels !! i = Some l → levels !! j = Some l' → i ≠ j →
                    l ## l') ∧
       (∀ x, (x ∈ start_nodes ∨ ∃ l, l ∈ levels ∧ x ∈ l) ↔
             ∃ n, n ∈ start_nodes ∧ rtc (edge (Ci.reverse_graph s)) n x) ∧
       (∀ i l x, levels !! i = Some l → x ∈ l →
          ∃ y, edge (Ci.reverse_graph s) y x ∧
               y ∈ previous start_nodes levels i)).
Proof.
  assert (∀ rg t, ∃ levels A,
            _compute_levels rg {[t]} = Some levels ∧
            get_affected rg t = Some A ∧
            (∀ l, l ∈ levels → l ≠ ∅) ∧
            (∀ i j l l', levels !! i = Some l → levels !! j = Some l' → i ≠ j →
                         l ## l') ∧
            (∀ x, (∃ l, l ∈ levels ∧ x ∈ l) ↔ x ∈ A ∧ x ≠ t) ∧
            (∀ i l x, levels !! i = Some l → x ∈ l →
               ∃ y, edge rg y x ∧ y ∈ previous {[t]} levels i)) as Hgen.
  { intros rg t.
    destruct (compute_levels_spec rg {[t]}) as (levels & Hl & Hne & Hdis & Hall & Hpred).
    destruct (get_affected_spec rg t) as (A & HA & HAspec).
    exists levels, A. split_and!; [done|done| |done| |done].
    - intros l Hin. by apply Hne.
    - intros x. rewrite HAspec. split.
      + intros (l & Hin & Hx).
        assert (x ≠ t) as Hxt.
        { intros ->. destruct (Hne l Hin) as [_ Hd]. set_solver. }
        split; [|done].
        assert (reached rg {[t]} x) as [?|?]%reached_singleton; [|done..].
        apply Hall. right. by exists l.
      + intros [Htc Hxt].
        assert (reached rg {[t]} x) as [Hx|Hx]%Hall; [|set_solver|done].
        apply reached_singleton. by right. }
  split_and!.
  - intros s t Ht. unfold Build.show_propagation_chain, Build.get_affected_targets.
    rewrite decide_True by done. apply Hgen.
  - intros s t Ht.
    unfold Orchestrator.show_propagation_chain, Orchestrator.get_affected_nodes.
    rewrite decide_True by done. apply Hgen.
  - intros s start. unfold Ci._compute_levels.
    destruct (compute_levels_spec (Ci.reverse_graph s) start)
      as (levels & Hl & Hne & Hdis & Hall & Hpred).
    by exists levels.
Qed.

Lemma propagation_levels_partition_witness :
  ∃ s n c levels levels_n levels_c A,
    Build._load_config "dev" diamond_config = Some s ∧
    Orchestrator._load_orchestrator_config diamond_config = Some n ∧
    Ci.load diamond_config = Some c ∧
    Build.show_propagation_chain s "root" = Some levels ∧
    Build.get_affected_targets s "root" = Some A ∧
    levels = [{["mid1"; "mid2"]}; {["leaf"]}] ∧
    (∀ x, (∃ l, l ∈ levels ∧ x ∈ l) ↔ x ∈ A ∧ x ≠ "root") ∧
    Orchestrator.show_propagation_chain n "root" = Some levels_n ∧
    levels_n = [{["mid1"; "mid2"]}; {["leaf"]}] ∧
    (∀ i l x, levels_n !! i = Some l → x ∈ l →
       ∃ y, edge (Orchestrator.reverse_graph n) y x ∧
            y ∈ previous {["root"]} levels_n i) ∧
    Ci._compute_levels c {["mid1"]} = Some levels_c ∧
    levels_c = [{["leaf"]}] ∧
    (∀ i l x, levels_c !! i = Some l → x ∈ l →
       ∃ y, edge (Ci.reverse_graph c) y x ∧ y ∈ previous {["mid1"]} levels_c i).
Proof.
  destruct (Build._load_config "dev" diamond_config) as [s|] eqn:Hs;
    [|vm_compute in Hs; discriminate].
  destruct (Orchestrator._load_orchestrator_config diamond_config) as [n|] eqn:Hn;
    [|vm_compute in Hn; discriminate].
  destruct (Ci.load diamond_config) as [c|] eqn:Hc;
    [|vm_compute in Hc; discriminate].
  assert (s = default s (Build._load_config "dev" diamond_config)) as Heq
    by by rewrite Hs.
  assert (n = default n (Orchestrator._load_orchestrator_config diamond_config))
    as Heqn by by rewrite Hn.
  assert (c = default c (Ci.load diamond_config)) as Heqc by by rewrite Hc.
  destruct propagation_levels_partition as (H & Ho & Hci).
  destruct (H s "root") as (levels & A & Hl & HA & _ & _ & Hall & _).
  { rewrite Heq. apply (bool_decide_unpack _). vm_compute. exact I. }
  destruct (Ho n "root") as (levels_n & An & Hln & _ & _ & _ & _ & Hpn).
  { rewrite Heqn. apply (bool_decide_unpack _). vm_compute. exact I. }
  destruct (Hci c {["mid1"]}) as (levels_c & Hlc & _ & _ & _ & Hpc).
  exists s, n, c, levels, levels_n, levels_c, A.
  assert (Some levels = Some [({["mid1"; "mid2"]} : gset string); {["leaf"]}])
    as Hsome.
  { rewrite <-Hl, Heq. vm_compute. reflexivity. }
  assert (Some levels_n = Some [({["mid1"; "mid2"]} : gset string); {["leaf"]}])
    as Hsome_n.
  { rewrite <-Hln, Heqn. vm_compute. reflexivity. }
  assert (Some levels_c = Some [({["leaf"]} : gset string)]) as Hsome_c.
  { rewrite <-Hlc, Heqc. vm_compute. reflexivity. }
  injection Hsome as Hlv. injection Hsome_n as Hlvn. injection Hsome_c as Hlvc.
  split_and!;
    [reflexivity|reflexivity|reflexivity|exact Hl|exact HA|exact Hlv|exact Hall
    |exact Hln|exact Hlvn|exact Hpn|exact Hlc|exact Hlvc|exact Hpc].
Defined.

End closure_extras2.

(** *** The analysis of changed files *)
Section analysis.
Import Config Graph.

Lemma direct_rows_spec (m : gmap string (list string)) x :
  x ∈ Ci.direct_rows m ↔ ∃ f l, m !! f = Some l ∧ x ∈ l.
Proof.
  unfold Ci.direct_rows.
  assert (∀ (kvs : list (string * list string)) (acc : gset string),
            x ∈ foldl (λ directly kv, directly ∪ list_to_set kv.2) acc kvs ↔
            x ∈ acc ∨ ∃ f l, (f, l) ∈ kvs ∧ x ∈ l) as Hfold.
  { induction kvs as [|[f l] kvs IH]; intros acc; simpl.
    - split; [by left|]. by intros [?|(f & l & ?%elem_of_nil & _)].
    - rewrite IH, elem_of_union, elem_of_list_to_set. split.
      + intros [[?|?]|(f' & l' & ? & ?)]; [by left| |].
        * right. exists f, l. split; [left|done].
        * right. exists f', l'. split; [by right|done].
      + intros [?|(f' & l' & [[= -> ->]|?]%elem_of_cons & ?)];
          [by left; left|by left; right|].
        right. by exists f', l'. }
  rewrite Hfold. setoid_rewrite elem_of_map_to_list. set_solver.
Qed.

Lemma all_affected_spec s todo all :
  ∃ r, Ci.all_affected s todo all = Some r ∧
       ∀ x, x ∈ r ↔ x ∈ all ∨ ∃ d, d ∈ todo ∧ tc (edge (Ci.reverse_graph s)) d x.
Proof.
  revert all. induction todo as [|d todo IH]; intros all; simpl.
  { exists all. split; [done|]. intros x. split; [by left|].
    by intros [?|(d & ?%elem_of_nil & _)]. }
  unfold Ci.get_affected_rows.
  destruct (get_affected_spec (Ci.reverse_graph s) d) as (A & -> & HA). simpl.
  destruct (IH (all ∪ A)) as (r & -> & Hr). exists r. split; [done|].
  intros x. rewrite Hr, elem_of_union, HA. split.
  - intros [[?|?]|(d' & ? & ?)]; [by left|right; exists d|right; exists d'];
      (split; [|done]); [left|by right].
  - intros [?|(d' & [->|?]%elem_of_cons & ?)]; [by left; left|by left; right|].
    right. by exists d'.
Qed.

Lemma group_fold s ids (m : gmap string (list string)) sc :
  foldl (λ by_scope_ row_id,
           <[Ci.scope_key s row_id :=
               default [] (by_scope_ !! Ci.scope_key s row_id) ++ [row_id]]> by_scope_)
        m ids !! sc
  = match filter (λ r, Ci.scope_key s r = sc) ids with
    | [] => m !! sc
    | new => Some (default [] (m !! sc) ++ new)
    end.
Proof.
  revert m. induction ids as [|r ids IH]; intros m; [done|].
  cbn [foldl]. rewrite IH. destruct (decide (Ci.scope_key s r = sc)) as [Heq|Hne].
  - rewrite filter_cons_True by done. rewrite Heq, lookup_insert_eq. simpl.
    destruct (filter _ ids); [done|]. by rewrite <-(assoc_L (++)).
  - rewrite filter_cons_False by done. by rewrite lookup_insert_ne.
Qed.

Lemma group_by_scope_spec s ids sc l :
  Ci.group_by_scope s ids !! sc = Some l ↔
  l = filter (λ r, Ci.scope_key s r = sc) ids ∧ l ≠ [].
Proof.
  unfold Ci.group_by_scope. rewrite group_fold, lookup_empty. simpl.
  destruct (filter _ ids) as [|x new]; [naive_solver|]. naive_solver.
Qed.

Lemma size_union_levels (levels : list (gset string)) :
  (∀ i j l l', levels !! i = Some l → levels !! j = Some l' → i ≠ j → l ## l') →
  size (⋃ levels) = sum_list (size <$> levels).
Proof.
  induction levels as [|l levels IH]; intros Hdis; [done|].
  simpl. rewrite size_union.
  - f_equal. apply IH. intros i j a b Hi Hj Hij.
    apply (Hdis (S i) (S j)); [done..|lia].
  - intros x Hx (l' & Hl' & Hx')%elem_of_union_list.
    apply list_elem_of_lookup in Hl' as [j Hj].
    by apply (Hdis 0%nat (S j) l l' eq_refl Hj ltac:(lia) x).
Qed.

Lemma sorted_length l : length (Py.sorted l) = length l.
Proof. by rewrite sorted_perm. Qed.

End analysis.

Section analysis_extras.
Import Config Graph Examples.

(** X5. [analyze_changes] on a loaded snapshot ends with a result in
    which: the rows directly affected are the rows of the lists of the
    file mapping; the rows affected in total are the rows that are
    directly affected or depend on one through dependencies that name
    rows; both lists name each row once and the counts of the summary are
    their lengths; the one list of propagation levels holds exactly the
    rows affected in total that are not directly affected, so that the
    total count is the direct count plus the sizes of the levels; and
    every group by scope that the result has is not empty and holds
    exactly the rows affected in total whose scope key, ["config"] for a
    row without a scope, is the key of the group. *)
Theorem analyze_changes_consistent (fnmatch : string → string → bool)
    (raws : list raw) (s : Ci.state) (changed : list string) :
  Ci.load raws = Some s →
  ∃ a levels,
    Ci.analyze_changes fnmatch s changed = Some a ∧
    Ci.file_mapping a = Ci.map_files_to_rows fnmatch s changed ∧
    (∀ r, r ∈ Ci.directly_affected a ↔
          ∃ f l, Ci.file_mapping a !! f = Some l ∧ r ∈ l) ∧
    (∀ r, r ∈ Ci.total_affected a ↔
          ∃ d, d ∈ Ci.directly_affected a ∧ rtc (edge (Ci.graph s)) r d) ∧
    NoDup (Ci.directly_affected a) ∧ NoDup (Ci.total_affected a) ∧
    Ci.direct_targets a = length (Ci.directly_affected a) ∧
    Ci.total_targets a = length (Ci.total_affected a) ∧
    Ci.files_changed a = length changed ∧
    Ci.propagation_levels a = [levels] ∧
    (∀ r, (∃ l, l ∈ levels ∧ r ∈ l) ↔
          r ∈ Ci.total_affected a ∧ r ∉ Ci.directly_affected a) ∧
    Ci.total_targets a
      = (Ci.direct_targets a + sum_list (length <$> levels))%nat ∧
    (∀ sc l, Ci.by_scope a !! sc = Some l →
       l ≠ [] ∧ ∀ r, r ∈ l ↔ r ∈ Ci.total_affected a ∧ Ci.scope_key s r = sc).
Proof.
  intros Hs.
  assert (∀ a b, edge (Ci.reverse_graph s) b a ↔ edge (Ci.graph s) a b) as Hrev.
  { intros a b. unfold Ci.load in Hs.
    destruct (Ci.load_rows (∅, []) raws) as [acc|]; [|done].
    injection Hs as <-. simpl. apply (cli_graph_spec acc.1 a b). }
  unfold Ci.analyze_changes.
  set (mapping := Ci.map_files_to_rows fnmatch s changed).
  set (directly := Ci.direct_rows mapping).
  destruct (all_affected_spec s (elements directly) directly) as (all & -> & Hall).
  unfold Ci._compute_levels.
  destruct (compute_levels_spec (Ci.reverse_graph s) directly)
    as (L & -> & Hne & Hdis & Hreach & _).
  simpl. eexists _, _. split; [done|]. simpl.
  assert (∀ r, r ∈ all ↔ reached (Ci.reverse_graph s) directly r) as Hallr.
  { intros r. rewrite Hall. unfold reached. split.
    - intros [?|(d & Hd%elem_of_elements & Htc)].
      + exists r. split; [done|constructor].
      + exists d. split; [done|by apply tc_rtc].
    - intros (d & Hd & [->|(z & Hz & Hr)]%rtc_inv); [by left|].
      right. exists d. split; [by apply elem_of_elements|].
      eapply tc_rtc_r; [by apply tc_once|done]. }
  assert (∀ r, (∃ l, l ∈ L ∧ r ∈ l) ↔ r ∈ all ∧ r ∉ directly) as HL.
  { intros r. rewrite Hallr, <-Hreach. split.
    - intros (l & Hl & Hr). split; [right; by exists l|].
      destruct (Hne l Hl) as [_ Hd]. set_solver.
    - intros [[?|?] ?]; done. }
  assert (all = directly ∪ ⋃ L) as Hunion.
  { apply set_eq. intros r. rewrite elem_of_union, elem_of_union_list.
    rewrite Hallr, <-Hreach. done. }
  assert (directly ## ⋃ L) as Hdisj.
  { intros r Hr (l & Hl & Hrl)%elem_of_union_list.
    destruct (Hne l Hl) as [_ Hd]. set_solver. }
  split_and!.
  - done.
  - intros r. rewrite elem_of_sorted, elem_of_elements. apply direct_rows_spec.
  - intros r. rewrite elem_of_sorted, elem_of_elements, Hallr. unfold reached.
    setoid_rewrite elem_of_sorted. setoid_rewrite elem_of_elements.
    split; intros (d & Hd & Hr); exists d; (split; [done|]).
    + clear Hd. induction Hr as [|x y z Hxy _ IH]; [constructor|].
      eapply rtc_r; [exact IH|]. by apply Hrev.
    + clear Hd. induction Hr as [|x y z Hxy _ IH]; [constructor|].
      eapply rtc_r; [exact IH|]. by apply Hrev.
  - rewrite sorted_perm. apply NoDup_elements.
  - rewrite sorted_perm. apply NoDup_elements.
  - by rewrite sorted_length.
  - by rewrite sorted_length.
  - done.
  - done.
  - intros r. setoid_rewrite list_elem_of_fmap.
    rewrite !elem_of_sorted, !elem_of_elements, <-HL. split.
    + intros (l & (l0 & -> & Hl0) & Hr). exists l0. split; [done|].
      by rewrite elem_of_sorted, elem_of_elements in Hr.
    + intros (l0 & Hl0 & Hr). exists (Py.sorted (elements l0)).
      split; [by exists l0|]. by rewrite elem_of_sorted, elem_of_elements.
  - rewrite Hunion, size_union by done. f_equal.
    rewrite size_union_levels by done. rewrite <-list_fmap_compose.
    apply (f_equal sum_list), list_fmap_ext. intros i l _. simpl.
    by rewrite sorted_length.
  - intros sc l. rewrite lookup_fmap.
    destruct (Ci.group_by_scope s (elements all) !! sc) as [l0|] eqn:Hg; [|done].
    simpl. intros [= <-]. apply group_by_scope_spec in Hg as [-> Hnil].
    split.
    + intros Heq. apply Hnil. apply Permutation_nil. by rewrite <-Heq, sorted_perm.
    + intros r.
      rewrite !elem_of_sorted, list_elem_of_filter, !elem_of_elements. tauto.
Qed.

Lemma analyze_changes_consistent_witness :
  ∃ s a, Ci.load impact_config = Some s ∧
    Ci.analyze_changes Fnmatch.fnmatch s ["db/schema.sql"] = Some a ∧
    Ci.directly_affected a = ["schema"] ∧
    Ci.total_affected a = ["api"; "app"; "schema"] ∧
    Ci.propagation_levels a = [[["api"]; ["app"]]] ∧
    Ci.total_targets a
      = (Ci.direct_targets a + sum_list (length <$> [["api"]; ["app"]]))%nat.
Proof.
  destruct (Ci.load impact_config) as [s|] eqn:Hs;
    [|vm_compute in Hs; discriminate].
  assert (s = default s (Ci.load impact_config)) as Heq by by rewrite Hs.
  destruct (analyze_changes_consistent Fnmatch.fnmatch impact_config s
              ["db/schema.sql"] Hs)
    as (a & levels & Ha & _ & _ & _ & _ & _ & _ & _ & _ & Hl & _ & Hcount & _).
  assert (Ci.directly_affected
            <$> Ci.analyze_changes Fnmatch.fnmatch s ["db/schema.sql"]
          = Some ["schema"]) as Hd by (rewrite Heq; vm_compute; reflexivity).
  assert (Ci.total_affected
            <$> Ci.analyze_changes Fnmatch.fnmatch s ["db/schema.sql"]
          = Some ["api"; "app"; "schema"]) as Ht
    by (rewrite Heq; vm_compute; reflexivity).
  assert (Ci.propagation_levels
            <$> Ci.analyze_changes Fnmatch.fnmatch s ["db/schema.sql"]
          = Some [[["api"]; ["app"]]]) as Hp
    by (rewrite Heq; vm_compute; reflexivity).
  rewrite Ha in Hd, Ht, Hp. simpl in Hd, Ht, Hp.
  injection Hd as Hd. injection Ht as Ht. injection Hp as Hp.
  rewrite Hp in Hl. injection Hl as <-.
  by exists s, a.
Defined.

End analysis_extras.

(** *** Dry runs of the build system *)
Section dry_run.
Import Config Graph.
Context (s : Build.state) (force : bool) (entries_ : gmap string Cache.entry).

(** What a dry run logs for a target: an artifact that took no time, with
    the cached output hash on a hit and the input hash otherwise. *)
Definition dry_event (fuel : nat) (t : string) (e : Build.event) : Prop :=
  ∃ a h m, e = Build.Built a ∧ Build.compute_hash fuel s t ∅ = Some (h, m) ∧
    Build.target_id a = t ∧ Build.build_time_ms a = 0 ∧
    if Build.cached a
    then force = false ∧ Cache.get entries_ t h = Some (Build.hash a)
    else Build.hash a = h.

Definition dry_inv (fuel : nat) (r : Build.run) : Prop :=
  Build.failed_targets r = ∅ ∧ Build.entries r = entries_ ∧
  ∀ t e, (t, e) ∈ Build.log r → dry_event fuel t e.

Lemma dry_step fuel o o' r t r' :
  dry_inv fuel r →
  Build.build_step fuel s o true force r t = Some r' →
  Build.build_step fuel s o' true force r t = Some r' ∧ dry_inv fuel r'.
Proof.
  intros (Hf & He & Hlog). unfold Build.build_step.
  destruct (Build.targets s !! t) as [target|] eqn:Ht.
  2:{ intros [= <-]. done. }
  rewrite Hf, He.
  destruct (decide (graph_get (Build.graph s) t ∩ ∅ ≠ ∅)) as [Hne|_]; [set_solver|].
  rewrite andb_false_r. simpl.
  unfold Build.build_target. rewrite Ht.
  destruct (Build.compute_hash fuel s t ∅) as [[h m]|] eqn:Hh; [|done]. simpl.
  assert (∀ a, Build.target_id a = t → Build.build_time_ms a = 0 →
               (if Build.cached a
                then force = false ∧ Cache.get entries_ t h = Some (Build.hash a)
                else Build.hash a = h) →
               dry_inv fuel {| Build.failed_targets := ∅; Build.entries := entries_;
                               Build.log := Build.log r ++ [(t, Build.Built a)] |})
    as Hstep.
  { intros a Hid Htime Hhash. split_and!; [done..|].
    intros x e [?|Hx%list_elem_of_singleton]%elem_of_app; [by apply Hlog|].
    injection Hx as -> ->. by exists a, h, m. }
  destruct force eqn:Hforce.
  - simpl. intros [= <-]. split; [done|]. by apply Hstep.
  - destruct (Cache.get entries_ t h) as [cached_hash|] eqn:Hget; simpl.
    + case_decide as Hempty; simpl.
      * intros [= <-]. split; [done|]. by apply Hstep.
      * intros [= <-]. split; [done|]. by apply Hstep.
    + intros [= <-]. split; [done|]. by apply Hstep.
Qed.

Lemma dry_loop fuel o o' todo r r' :
  dry_inv fuel r →
  Build.build_loop fuel s o true force r todo = Some r' →
  Build.build_loop fuel s o' true force r todo = Some r' ∧ dry_inv fuel r'.
Proof.
  revert r. induction todo as [|t todo IH]; intros r Hinv; simpl.
  { by intros [= <-]. }
  destruct (Build.build_step fuel s o true force r t) as [r1|] eqn:Hstep; [|done].
  destruct (dry_step fuel o o' r t r1 Hinv Hstep) as [-> Hinv1]. simpl.
  by apply IH.
Qed.

Lemma dry_build fuel o o' targets_ v r :
  Build.build fuel s o entries_ targets_ true force = Some (v, r) →
  Build.build fuel s o' entries_ targets_ true force = Some (v, r) ∧
  dry_inv fuel r.
Proof.
  unfold Build.build.
  assert (dry_inv fuel {| Build.failed_targets := ∅; Build.entries := entries_;
                          Build.log := [] |}) as Hinv0.
  { split_and!; [done..|]. by intros t e ?%elem_of_nil. }
  destruct (Build.detect_cycles s) as [[|c cs]|]; simpl; [| |done].
  2:{ by intros [= <- <-]. }
  destruct (Build.get_build_order s targets_) as [[|l order]|]; simpl; [| |done].
  { by intros [= <- <-]. }
  destruct (Build.build_loop fuel s o true force _ _) as [r1|] eqn:Hloop; [|done].
  simpl. intros [= <- <-].
  destruct (dry_loop fuel o o' _ _ r1 Hinv0 Hloop) as [-> Hinv]. done.
Qed.

End dry_run.

Section dry_run_extras.
Import Config Graph Examples.

(** X6. A dry run of [build] on a loaded configuration returns, and it
    consults neither the prompt nor the random draws nor the clock: with any
    other oracle the verdict and the run are the same. It leaves the cache
    as it was, no target fails or is skipped, the verdict is [true] exactly
    when the graph has no cycle, and every entry of the log is an artifact
    for the logged target with build time 0, whose hash is the cached output
    hash on a cache hit (never with [force]) and the target's input hash
    otherwise. The configuration is loaded for a profile whose name does
    not end in white space, so that [strip] leaves the id [profile-<name>]
    as it is. *)
Theorem dry_run_changes_nothing (profile : string) (raws : list raw)
    (s : Build.state) (o o' : Build.oracle) (entries_ : gmap string Cache.entry)
    (targets_ : list string) (force : bool) :
  Build._load_config profile raws = Some s →
  Py.strip ("profile-" +:+ profile) = "profile-" +:+ profile →
  ∃ fuel0, ∀ fuel, (fuel0 ≤ fuel)%nat →
    ∃ v r, Build.build fuel s o entries_ targets_ true force = Some (v, r) ∧
      Build.build fuel s o' entries_ targets_ true force = Some (v, r) ∧
      (v = true ↔ ¬ cyclic (Build.graph s)) ∧
      Build.entries r = entries_ ∧ Build.failed_targets r = ∅ ∧
      ∀ t e, (t, e) ∈ Build.log r →
        ∃ a h m, e = Build.Built a ∧
          Build.compute_hash fuel s t ∅ = Some (h, m) ∧
          Build.target_id a = t ∧ Build.build_time_ms a = 0 ∧
          if Build.cached a
          then force = false ∧ Cache.get entries_ t h = Some (Build.hash a)
          else Build.hash a = h.
Proof.
  intros Hs Hstrip.
  destruct (build_run_spec profile raws s o entries_ targets_ true force Hs Hstrip)
    as [fuel0 Hrun].
  exists fuel0. intros fuel Hle.
  destruct (Hrun fuel Hle) as (v & r & Hb & _ & Hcyc & Hacyc).
  destruct (dry_build s force entries_ fuel o o' targets_ v r Hb)
    as (Hb' & Hf & He & Hlog).
  exists v, r. split_and!; try done.
  split.
  - intros -> Hc. by destruct (Hcyc Hc).
  - intros Hn. by apply (Hacyc Hn).
Qed.

Lemma dry_run_changes_nothing_witness :
  ∃ s fuel v r,
    Build._load_config "dev" diamond_config = Some s ∧
    Build.build fuel s a_fails ∅ ["leaf"] true false = Some (v, r) ∧
    v = true ∧ Build.entries r = ∅ ∧ Build.failed_targets r = ∅.
Proof.
  destruct (Build._load_config "dev" diamond_config) as [s|] eqn:Hs;
    [|vm_compute in Hs; discriminate].
  destruct (dry_run_changes_nothing "dev" diamond_config s a_fails a_fails ∅
              ["leaf"] false Hs eq_refl) as [fuel0 Hrun].
  destruct (Hrun fuel0 (le_n _)) as (v & r & Hb & _ & Hv & He & Hf & _).
  exists s, fuel0, v, r. split_and!; try done.
  apply Hv. by apply diamond_acyclic.
Defined.

End dry_run_extras.

(** *** Builds that follow a build *)
Section rebuild.
Import Config Graph.
Context (s : Build.state) (fuel : nat).

(** The artifact a cache hit gives for what [a] recorded *)
Definition hit_of (a : Build.BuildArtifact) : Build.BuildArtifact :=
  {| Build.target_id := Build.target_id a; Build.output := Build.output a;
     Build.hash := Build.hash a; Build.build_time_ms := 0;
     Build.cached := true |}.

(** The cache holds the output hash of the artifact [a] of [t] under the
    input hash that [t] has now. *)
Definition stored (entries_ : gmap string Cache.entry) (t : string)
    (a : Build.BuildArtifact) : Prop :=
  ∃ target h m,
    Build.targets s !! t = Some target ∧
    Build.compute_hash fuel s t ∅ = Some (h, m) ∧
    Cache.get entries_ t h = Some (Build.hash a) ∧ Build.hash a ≠ "" ∧
    Build.target_id a = t ∧
    Build.output a = if decide (expr target = "") then t else expr target.

Lemma build_step_frame o dry_run force r t r' k :
  Build.build_step fuel s o dry_run force r t = Some r' → k ≠ t →
  Build.entries r' !! k = Build.entries r !! k.
Proof.
  intros Hstep Hk. unfold Build.build_step in Hstep.
  destruct (Build.targets s !! t) as [target|] eqn:Ht; [|by simplify_eq].
  case_decide; [by simplify_eq|].
  destruct (_ && _ && _); [by simplify_eq|].
  unfold Build.build_target in Hstep. rewrite Ht in Hstep.
  destruct (Build.compute_hash fuel s t ∅) as [[h m]|]; [|done].
  simpl in Hstep.
  repeat (case_match; simplify_eq; simpl in *; try done).
  all: unfold Cache.put; by rewrite lookup_insert_ne.
Qed.

Lemma stored_frame entries1 entries2 t a :
  entries2 !! t = entries1 !! t → stored entries1 t a → stored entries2 t a.
Proof.
  intros He (target & h & m & ? & ? & Hget & ? & ? & ?). exists target, h, m.
  split_and!; try done. unfold Cache.get in *. by rewrite He.
Qed.

(** A step of a build that is no dry run stores what it builds. *)
Lemma build_step_stores o force r t r' :
  (∀ x, Build.fresh_hash o x ≠ "") →
  Build.build_step fuel s o false force r t = Some r' →
  ∀ e, Build.log r' = Build.log r ++ [(t, e)] →
  ∀ a, e = Build.Built a → stored (Build.entries r') t a.
Proof.
  intros Hfresh Hstep e Hlog a ->. unfold Build.build_step in Hstep.
  destruct (Build.targets s !! t) as [target|] eqn:Ht.
  2:{ simplify_eq. apply (f_equal length) in Hlog.
      rewrite length_app in Hlog. simpl in Hlog. lia. }
  case_decide.
  { simplify_eq. simpl in Hlog. by apply app_inv_head in Hlog. }
  destruct (_ && _ && _).
  { simplify_eq. simpl in Hlog. by apply app_inv_head in Hlog. }
  unfold Build.build_target in Hstep. rewrite Ht in Hstep.
  destruct (Build.compute_hash fuel s t ∅) as [[h m]|] eqn:Hh; [|done].
  simpl in Hstep.
  destruct (if force then None else _) as [cached_hash|] eqn:Hhit.
  - simpl in Hstep. simplify_eq. simpl in *.
    apply app_inv_head in Hlog. injection Hlog as <-.
    exists target, h, m. simpl. split_and!; try done.
    + destruct force; [done|].
      destruct (Cache.get (Build.entries r) t h) as [c|]; [|done]. simpl in Hhit.
      case_decide; by simplify_eq.
    + destruct force; [done|].
      destruct (Cache.get (Build.entries r) t h) as [c|]; [|done]. simpl in Hhit.
      case_decide; by simplify_eq.
  - simpl in Hstep. destruct (_ && _).
    { simpl in Hstep. simplify_eq. simpl in Hlog. by apply app_inv_head in Hlog. }
    simpl in Hstep. simplify_eq. simpl in *.
    apply app_inv_head in Hlog. injection Hlog as <-.
    exists target, h, m. simpl. split_and!; try done.
    unfold Cache.get, Cache.put. rewrite lookup_insert_eq. simpl.
    by rewrite decide_True.
Qed.

Lemma build_step_log o dry_run force r t r' :
  Build.build_step fuel s o dry_run force r t = Some r' →
  Build.log r' = Build.log r ∨ ∃ e, Build.log r' = Build.log r ++ [(t, e)].
Proof.
  unfold Build.build_step. intros Hstep.
  destruct (Build.targets s !! t) as [target|]; [|left; by simplify_eq].
  case_decide; [right; simplify_eq; simpl; eauto|].
  destruct (_ && _ && _); [right; simplify_eq; simpl; eauto|].
  destruct (Build.build_target _ _ _ _ _ _ _) as [[[artifact|] entries']|];
    simpl in Hstep; simplify_eq; simpl; eauto.
Qed.

Lemma build_loop_stores o force todo r r' :
  (∀ x, Build.fresh_hash o x ≠ "") → NoDup todo →
  (∀ x, x ∈ todo → x ∉ (Build.log r).*1) →
  (∀ t a, (t, Build.Built a) ∈ Build.log r → stored (Build.entries r) t a) →
  Build.build_loop fuel s o false force r todo = Some r' →
  ∀ t a, (t, Build.Built a) ∈ Build.log r' → stored (Build.entries r') t a.
Proof.
  intros Hfresh. revert r.
  induction todo as [|x todo IH]; intros r Hnd Hnew Hinv; simpl.
  { by intros [= <-]. }
  destruct (Build.build_step fuel s o false force r x) as [r1|] eqn:Hstep; [|done].
  simpl. apply NoDup_cons in Hnd as [Hx Hnd].
  assert (∀ t a, (t, Build.Built a) ∈ Build.log r → stored (Build.entries r1) t a)
    as Hold.
  { intros t a Hin. eapply stored_frame; [|by apply Hinv].
    eapply build_step_frame; [done|]. intros ->.
    apply (Hnew x); [by left|]. apply list_elem_of_fmap. by exists (x, Build.Built a). }
  apply IH; [done| |].
  - intros y Hy. destruct (build_step_log _ _ _ _ _ _ Hstep) as [->|[e ->]].
    + apply Hnew. by right.
    + rewrite fmap_app, elem_of_app. simpl. rewrite list_elem_of_singleton.
      intros [? | ->]; [|done]. by apply (Hnew y); [right|].
  - intros t a. destruct (build_step_log _ _ _ _ _ _ Hstep) as [Hl|[e Hl]].
    + rewrite Hl. apply Hold.
    + rewrite Hl. intros [?|Hin%list_elem_of_singleton]%elem_of_app; [by apply Hold|].
      injection Hin as -> <-. by eapply build_step_stores.
Qed.

(** Without [force], a step keeps what is stored and answers with it. *)
Lemma build_step_reuses o dry_run r x r' t a :
  stored (Build.entries r) t a →
  Build.build_step fuel s o dry_run false r x = Some r' →
  stored (Build.entries r') t a ∧
  ∀ e, Build.log r' = Build.log r ++ [(x, e)] → x = t →
    e = Build.SkippedDependency ∨ e = Build.SkippedNotConfirmed ∨
    e = Build.Built (hit_of a).
Proof.
  intros Hst Hstep. destruct (decide (x = t)) as [->|Hne].
  2:{ split; [|done]. eapply stored_frame; [|done].
      by eapply build_step_frame. }
  destruct Hst as (target & h & m & Ht & Hh & Hget & Hne & Hid & Hout).
  unfold Build.build_step in Hstep. rewrite Ht in Hstep.
  assert (stored (Build.entries r) t a) as Hst by by exists target, h, m.
  case_decide.
  { simplify_eq. simpl. split; [done|]. intros e Hl%app_inv_head _. injection Hl as <-. naive_solver. }
  destruct (_ && _ && _).
  { simplify_eq. simpl. split; [done|]. intros e Hl%app_inv_head _. injection Hl as <-. naive_solver. }
  unfold Build.build_target in Hstep. rewrite Ht, Hh in Hstep. simpl in Hstep.
  rewrite Hget in Hstep. simpl in Hstep. rewrite decide_False in Hstep by done.
  simpl in Hstep. simplify_eq. simpl. split; [done|].
  intros e Hl%app_inv_head _. injection Hl as <-. right. right. f_equal.
  unfold hit_of. destruct a; simpl in *. by subst.
Qed.

Lemma build_loop_reuses o dry_run todo r r' t a :
  stored (Build.entries r) t a →
  (∀ e, (t, e) ∈ Build.log r →
     e = Build.SkippedDependency ∨ e = Build.SkippedNotConfirmed ∨
     e = Build.Built (hit_of a)) →
  Build.build_loop fuel s o dry_run false r todo = Some r' →
  stored (Build.entries r') t a ∧
  ∀ e, (t, e) ∈ Build.log r' →
     e = Build.SkippedDependency ∨ e = Build.SkippedNotConfirmed ∨
     e = Build.Built (hit_of a).
Proof.
  revert r. induction todo as [|x todo IH]; intros r Hst Hlog; simpl.
  { by intros [= <-]. }
  destruct (Build.build_step fuel s o dry_run false r x) as [r1|] eqn:Hstep;
    [|done].
  simpl. destruct (build_step_reuses _ _ _ _ _ _ _ Hst Hstep) as [Hst1 He].
  apply IH; [done|].
  destruct (build_step_log _ _ _ _ _ _ Hstep) as [->|[e Hl]]; [done|].
  rewrite Hl. intros e' [?|Hin%list_elem_of_singleton]%elem_of_app; [by apply Hlog|].
  injection Hin as -> ->. by apply He.
Qed.

End rebuild.

Section rebuild_extras.
Import Config Graph Examples.

Lemma build_order_NoDup profile raws s targets_ order :
  Build._load_config profile raws = Some s → ¬ cyclic (Build.graph s) →
  Build.get_build_order s targets_ = Some order → NoDup (concat order).
Proof.
  intros Hs Hacyc. unfold Build.get_build_order, Build.buildable.
  destruct (with_transitive_deps_spec (λ _, true) (Build.graph s) targets_
              (list_to_set targets_)) as (all & -> & Hall). simpl.
  destruct (leveled_order_spec (Build.graph s) (Build.reverse_graph s)
              (build_load_rev _ _ _ Hs)
              (filter (λ t, Build.is_buildable s t = true) all) Hacyc)
    as (levels & -> & Hnd & _).
  by intros [= <-].
Qed.

(** With enough fuel every call of [build] on a loaded configuration
    returns. *)
Lemma build_returns profile raws s :
  Build._load_config profile raws = Some s →
  Py.strip ("profile-" +:+ profile) = "profile-" +:+ profile →
  ∃ fuel0, ∀ fuel, (fuel0 ≤ fuel)%nat →
    ∀ o entries_ targets_ dry_run force,
      is_Some (Build.build fuel s o entries_ targets_ dry_run force).
Proof.
  intros Hs Hstrip. unfold Build.build, Build.detect_cycles.
  destruct (detect_cycles_decides (Build.graph s)
              (fst <$> map_to_list (Build.targets s)))
    as [[-> Hacyc]|(c & cs & -> & Hcyc)].
  { rewrite list_to_set_keys. by eapply build_load_dom. }
  - destruct (compute_fuel (Build.targets s)
                [Py.join "|" (Py.sorted (Build.get_compiler_flags s))])
      as [F HF].
    { by eapply build_declares_acyclic. }
    exists F. intros fuel Hle o entries_ targets_ dry_run force. simpl.
    destruct (build_order_targets profile raws s targets_ Hs Hacyc)
      as (order & -> & _). simpl.
    destruct order as [|l order]; [done|].
    destruct (build_loop_total s o dry_run force fuel (concat (l :: order))
                {| Build.failed_targets := ∅; Build.entries := entries_;
                   Build.log := [] |}) as [r ->]; [|done].
    intros d m. by apply HF.
  - exists 0%nat. by intros.
Qed.

Lemma build_stores profile raws s fuel o entries_ targets_ force v r :
  Build._load_config profile raws = Some s →
  (∀ x, Build.fresh_hash o x ≠ "") →
  Build.build fuel s o entries_ targets_ false force = Some (v, r) →
  ∀ t a, (t, Build.Built a) ∈ Build.log r → stored s fuel (Build.entries r) t a.
Proof.
  intros Hs Hfresh. unfold Build.build.
  destruct (Build.detect_cycles s) as [[|c cs]|] eqn:Hd; simpl; [| |done].
  2:{ intros [= <- <-] t a. by intros ?%elem_of_nil. }
  destruct (Build.get_build_order s targets_) as [[|l order]|] eqn:Ho; simpl;
    [| |done].
  { intros [= <- <-] t a. by intros ?%elem_of_nil. }
  destruct (Build.build_loop fuel s o false force _ _) as [r1|] eqn:Hloop; [|done].
  simpl. intros [= <- <-].
  eapply build_loop_stores; [done| | | |exact Hloop].
  - eapply (build_order_NoDup _ _ _ _ (l :: order)); [done| |done].
    by eapply build_acyclic_by_detect.
  - simpl. by intros x _ ?%elem_of_nil.
  - simpl. by intros t a ?%elem_of_nil.
Qed.

Lemma build_reuses s fuel o entries_ targets_ dry_run v r t a :
  stored s fuel entries_ t a →
  Build.build fuel s o entries_ targets_ dry_run false = Some (v, r) →
  stored s fuel (Build.entries r) t a ∧
  ∀ e, (t, e) ∈ Build.log r →
     e = Build.SkippedDependency ∨ e = Build.SkippedNotConfirmed ∨
     e = Build.Built (hit_of a).
Proof.
  intros Hst. unfold Build.build.
  destruct (Build.detect_cycles s) as [[|c cs]|]; simpl; [| |done].
  2:{ intros [= <- <-]. split; [done|]. by intros e ?%elem_of_nil. }
  destruct (Build.get_build_order s targets_) as [[|l order]|]; simpl; [| |done].
  { intros [= <- <-]. split; [done|]. by intros e ?%elem_of_nil. }
  destruct (Build.build_loop fuel s o dry_run false _ _) as [r1|] eqn:Hloop;
    [|done].
  simpl. intros [= <- <-].
  eapply build_loop_reuses; [| |exact Hloop]; [done|].
  simpl. by intros e ?%elem_of_nil.
Qed.

(** X7. After a build that is no dry run, a second build of the same
    configuration without [force], started on the cache the first one
    left, rebuilds nothing the first one produced: a target for which the
    first run logged an artifact is, in the second run, never failed and
    never built anew; it is logged as a cache hit with the same output and
    hash and build time 0 (or skipped, for a failed dependency or a
    declined prompt), and its cache entry still answers with that hash.
    Both builds return. The digest of a fresh build is not empty. The
    configuration is loaded for a profile whose name does not end in white
    space, so that [strip] leaves the id [profile-<name>] as it is. *)
Theorem rebuild_hits_cache (profile : string) (raws : list raw)
    (s : Build.state) (o1 o2 : Build.oracle)
    (entries_ : gmap string Cache.entry) (targets1 targets2 : list string)
    (force1 dry_run2 : bool) :
  Build._load_config profile raws = Some s →
  Py.strip ("profile-" +:+ profile) = "profile-" +:+ profile →
  (∀ x, Build.fresh_hash o1 x ≠ "") →
  ∃ fuel0, ∀ fuel, (fuel0 ≤ fuel)%nat →
    ∃ v1 r1 v2 r2,
      Build.build fuel s o1 entries_ targets1 false force1 = Some (v1, r1) ∧
      Build.build fuel s o2 (Build.entries r1) targets2 dry_run2 false
        = Some (v2, r2) ∧
      ∀ t a, (t, Build.Built a) ∈ Build.log r1 →
        (∃ h m, Build.compute_hash fuel s t ∅ = Some (h, m) ∧
                Cache.get (Build.entries r2) t h = Some (Build.hash a)) ∧
        ∀ e, (t, e) ∈ Build.log r2 →
          e = Build.SkippedDependency ∨ e = Build.SkippedNotConfirmed ∨
          e = Build.Built
                {| Build.target_id := t; Build.output := Build.output a;
                   Build.hash := Build.hash a; Build.build_time_ms := 0;
                   Build.cached := true |}.
Proof.
  intros Hs Hstrip Hfresh.
  destruct (build_returns profile raws s Hs Hstrip) as [F HF].
  exists F. intros fuel Hle.
  destruct (HF fuel Hle o1 entries_ targets1 false force1) as [[v1 r1] H1].
  destruct (HF fuel Hle o2 (Build.entries r1) targets2 dry_run2 false)
    as [[v2 r2] H2].
  exists v1, r1, v2, r2. split_and!; [done..|]. intros t a Hin.
  pose proof (build_stores _ _ _ _ _ _ _ _ _ _ Hs Hfresh H1 t a Hin) as Hst.
  destruct (build_reuses _ _ _ _ _ _ _ _ _ _ Hst H2) as [Hst2 Hlog].
  split.
  - destruct Hst2 as (target & h & m & _ & Hh & Hget & _). by exists h, m.
  - intros e He. destruct (Hlog e He) as [?|[?| ->]]; [by left|by right; left|].
    right. right. unfold hit_of.
    destruct Hst as (_ & _ & _ & _ & _ & _ & _ & <- & _). done.
Qed.

Lemma rebuild_hits_cache_witness :
  ∃ s fuel v1 r1 v2 r2,
    Build._load_config "dev" diamond_config = Some s ∧
    Build.build fuel s all_built ∅ ["leaf"] false false = Some (v1, r1) ∧
    Build.build fuel s a_fails (Build.entries r1) ["leaf"] false false
      = Some (v2, r2) ∧
    ∀ t a e, (t, Build.Built a) ∈ Build.log r1 → (t, e) ∈ Build.log r2 →
      e = Build.SkippedDependency ∨ e = Build.SkippedNotConfirmed ∨
      e = Build.Built
            {| Build.target_id := t; Build.output := Build.output a;
               Build.hash := Build.hash a; Build.build_time_ms := 0;
               Build.cached := true |}.
Proof.
  destruct (Build._load_config "dev" diamond_config) as [s|] eqn:Hs;
    [|vm_compute in Hs; discriminate].
  destruct (rebuild_hits_cache "dev" diamond_config s all_built a_fails ∅
              ["leaf"] ["leaf"] false false Hs eq_refl) as [fuel0 Hrun].
  { intros x. discriminate. }
  destruct (Hrun fuel0 (le_n _)) as (v1 & r1 & v2 & r2 & H1 & H2 & Hlog).
  exists s, fuel0, v1, r1, v2, r2. split_and!; try done.
  intros t a e Hin. by apply (Hlog t a Hin).
Defined.

End rebuild_extras.

(** *** Forced builds and builds on an empty cache *)
Section forced.
Import Config Graph.
Context (s : Build.state) (fuel : nat) (o : Build.oracle) (dry_run : bool)
        (entries_ : gmap string Cache.entry).

(** [r] is a run without [force] that began with an empty cache, [r'] the
    forced run that began with [entries_], after the same targets. *)
Record forced_inv (r r' : Build.run) : Prop := {
  forced_log : Build.log r' = Build.log r;
  forced_failed : Build.failed_targets r' = Build.failed_targets r;
  forced_entries : Build.entries r' = Build.entries r ∪ entries_;
  forced_dom : ∀ k, k ∈ dom (Build.entries r) → k ∈ (Build.log r).*1;
  forced_fresh : ∀ t a, (t, Build.Built a) ∈ Build.log r → Build.cached a = false;
}.

Lemma forced_step r r' t r1 :
  forced_inv r r' → t ∉ (Build.log r).*1 →
  Build.build_step fuel s o dry_run false r t = Some r1 →
  ∃ r1', Build.build_step fuel s o dry_run true r' t = Some r1' ∧
         forced_inv r1 r1'.
Proof.
  intros [Hl Hf He Hd Hc] Hnew. unfold Build.build_step. rewrite Hf.
  destruct (Build.targets s !! t) as [target|] eqn:Ht.
  2:{ intros [= <-]. by exists r'. }
  assert (∀ e, (∀ a, e = Build.Built a → Build.cached a = false) →
            ∀ t' a, (t', Build.Built a) ∈ Build.log r ++ [(t, e)] →
                    Build.cached a = false) as Hfresh.
  { intros e He' t' a [?|Hin%list_elem_of_singleton]%elem_of_app; [by eapply Hc|].
    injection Hin as -> <-. by apply He'. }
  assert (∀ e k, k ∈ dom (Build.entries r) → k ∈ (Build.log r ++ [(t, e)]).*1)
    as Hdom.
  { intros e k Hk. rewrite fmap_app, elem_of_app. left. by apply Hd. }
  case_decide.
  { intros [= <-]. eexists. split; [done|]. split; simpl; try done.
    - by rewrite Hl.
    - by apply Hdom.
    - by apply Hfresh. }
  destruct (_ && _ && _).
  { intros [= <-]. eexists. split; [done|]. split; simpl; try done.
    - by rewrite Hl.
    - by apply Hdom.
    - by apply Hfresh. }
  unfold Build.build_target. rewrite Ht.
  destruct (Build.compute_hash fuel s t ∅) as [[h m]|]; [|done]. simpl.
  assert (Cache.get (Build.entries r) t h = None) as ->.
  { unfold Cache.get. rewrite (not_elem_of_dom_1 (Build.entries r) t); [done|].
    intros Hk. by apply Hnew, Hd. }
  simpl. destruct dry_run.
  { intros [= <-]. eexists. split; [done|]. split; simpl; try done.
    - by rewrite Hl.
    - by apply Hdom.
    - apply Hfresh. by intros a [= <-]. }
  destruct (_ && _); simpl.
  { intros [= <-]. eexists. split; [done|]. split; simpl; try done.
    - by rewrite Hl.
    - by apply Hdom.
    - by apply Hfresh. }
  intros [= <-]. eexists. split; [done|]. split; simpl; try done.
  - by rewrite Hl.
  - unfold Cache.put. by rewrite He, insert_union_l.
  - intros k. unfold Cache.put. rewrite dom_insert_L, fmap_app, elem_of_app.
    simpl. rewrite elem_of_union, elem_of_singleton, list_elem_of_singleton.
    intros [->|?]; [by right|left; by apply Hd].
  - apply Hfresh. by intros a [= <-].
Qed.

Lemma forced_loop todo r r' r1 :
  forced_inv r r' → NoDup todo → (∀ x, x ∈ todo → x ∉ (Build.log r).*1) →
  Build.build_loop fuel s o dry_run false r todo = Some r1 →
  ∃ r1', Build.build_loop fuel s o dry_run true r' todo = Some r1' ∧
         forced_inv r1 r1'.
Proof.
  revert r r'. induction todo as [|x todo IH]; intros r r' Hinv Hnd Hnew; simpl.
  { intros [= <-]. by exists r'. }
  destruct (Build.build_step fuel s o dry_run false r x) as [r2|] eqn:Hstep;
    [|done].
  simpl. apply NoDup_cons in Hnd as [Hx Hnd].
  destruct (forced_step r r' x r2 Hinv) as (r2' & -> & Hinv2);
    [apply Hnew; by left|done|].
  simpl. apply IH; [done..|].
  intros y Hy. destruct (build_step_log _ _ _ _ _ _ _ _ Hstep) as [->|[e ->]].
  - apply Hnew. by right.
  - rewrite fmap_app, elem_of_app. simpl. rewrite list_elem_of_singleton.
    intros [? | ->]; [|done]. by apply (Hnew y); [right|].
Qed.

End forced.

Section forced_extras.
Import Config Graph Examples.

(** X8. A build on an empty cache (as [clean] leaves it) and a forced
    build on any cache do the same: both return, with the same verdict and
    the same log, in which no artifact is a cache hit; and the forced build
    ends with the cache of the other one, completed by the entries the
    cache had for the targets that were not built. The configuration is
    loaded for a profile whose name does not end in white space, so that
    [strip] leaves the id [profile-<name>] as it is. *)
Theorem clean_build_is_forced_build (profile : string) (raws : list raw)
    (s : Build.state) (o : Build.oracle) (entries_ : gmap string Cache.entry)
    (targets_ : list string) (dry_run : bool) :
  Build._load_config profile raws = Some s →
  Py.strip ("profile-" +:+ profile) = "profile-" +:+ profile →
  ∃ fuel0, ∀ fuel, (fuel0 ≤ fuel)%nat →
    ∃ v r r',
      Build.build fuel s o (Cache.clear entries_) targets_ dry_run false
        = Some (v, r) ∧
      Build.build fuel s o entries_ targets_ dry_run true = Some (v, r') ∧
      Build.log r' = Build.log r ∧
      Build.failed_targets r' = Build.failed_targets r ∧
      Build.entries r' = Build.entries r ∪ entries_ ∧
      ∀ t a, (t, Build.Built a) ∈ Build.log r → Build.cached a = false.
Proof.
  intros Hs Hstrip.
  destruct (build_returns profile raws s Hs Hstrip) as [F HF].
  exists F. intros fuel Hle.
  destruct (HF fuel Hle o (Cache.clear entries_) targets_ dry_run false)
    as [[v r] H1].
  exists v, r. revert H1. unfold Build.build, Cache.clear.
  assert (forced_inv entries_
            {| Build.failed_targets := ∅; Build.entries := ∅; Build.log := [] |}
            {| Build.failed_targets := ∅; Build.entries := entries_;
               Build.log := [] |}) as Hinv0.
  { split; simpl; try done.
    - by rewrite (left_id_L ∅ (∪)).
    - by intros t a ?%elem_of_nil. }
  destruct (Build.detect_cycles s) as [[|c cs]|] eqn:Hd; simpl; [| |done].
  2:{ intros [= <- <-]. eexists. split; [done|]. split; [done|].
      by destruct Hinv0. }
  destruct (Build.get_build_order s targets_) as [[|l order]|] eqn:Ho; simpl;
    [| |done].
  { intros [= <- <-]. eexists. split; [done|]. split; [done|].
    by destruct Hinv0. }
  destruct (Build.build_loop fuel s o dry_run false _ _) as [r1|] eqn:Hloop;
    [|done].
  simpl. intros [= <- <-].
  edestruct (forced_loop s fuel o dry_run entries_ (concat (l :: order)))
    as (r1' & Hloop' & [Hl Hf He _ Hc]); [exact Hinv0| | |exact Hloop|].
  - eapply (build_order_NoDup _ _ _ _ (l :: order)); [done| |done].
    by eapply build_acyclic_by_detect.
  - simpl. by intros x _ ?%elem_of_nil.
  - exists r1'. simpl in Hloop'. rewrite Hloop'. simpl. rewrite Hf.
    split; [done|]. by split_and!.
Qed.

Lemma clean_build_is_forced_build_witness :
  ∃ s fuel v r r',
    Build._load_config "dev" diamond_config = Some s ∧
    Build.build fuel s all_built ∅ ["leaf"] false false = Some (v, r) ∧
    Build.build fuel s all_built
      {[ "root" := {| Cache.input_hash := "old"; Cache.output_hash := "old";
                      Cache.timestamp := 0 |} ]} ["leaf"] false true
      = Some (v, r') ∧
    Build.log r' = Build.log r.
Proof.
  destruct (Build._load_config "dev" diamond_config) as [s|] eqn:Hs;
    [|vm_compute in Hs; discriminate].
  destruct (clean_build_is_forced_build "dev" diamond_config s all_built
              {[ "root" := {| Cache.input_hash := "old";
                              Cache.output_hash := "old";
                              Cache.timestamp := 0 |} ]}
              ["leaf"] false Hs eq_refl) as [fuel0 Hrun].
  destruct (Hrun fuel0 (le_n _)) as (v & r & r' & H1 & H2 & Hl & _).
  by exists s, fuel0, v, r, r'.
Defined.

End forced_extras.

(** *** The statistics of a build *)
Section stats.
Import Config Graph.

Definition is_failed (entry : string * Build.event) : Prop :=
  entry.2 = Build.Failed.

Definition artifact_of (entry : string * Build.event)
    : option Build.BuildArtifact :=
  match entry.2 with Build.Built a => Some a | _ => None end.

#[local] Instance is_failed_dec entry : Decision (is_failed entry).
Proof. unfold is_failed. destruct (entry.2); (by left) || (by right). Defined.

(** What the counters hold after a log, whatever they held before *)
Lemma after_spec st log :
  let st' := BuildStats.after st log in
  BuildStats.total_targets st' = BuildStats.total_targets st + Z.of_nat (length log) ∧
  BuildStats.failed st'
    = BuildStats.failed st + Z.of_nat (length (filter is_failed log)) ∧
  BuildStats.artifacts st' = BuildStats.artifacts st ++ omap artifact_of log ∧
  BuildStats.total_time_ms st'
    = BuildStats.total_time_ms st
      + foldr Z.add 0 (Build.build_time_ms <$> omap artifact_of log) ∧
  BuildStats.built st' + BuildStats.cached st'
    = BuildStats.built st + BuildStats.cached st
      + Z.of_nat (length (omap artifact_of log)) ∧
  BuildStats.total_targets st' - BuildStats.total_targets st
    = (BuildStats.built st' - BuildStats.built st)
      + (BuildStats.cached st' - BuildStats.cached st)
      + (BuildStats.failed st' - BuildStats.failed st)
      + (BuildStats.skipped st' - BuildStats.skipped st).
Proof.
  revert st. induction log as [|[t e] log IH]; intros st.
  { cbv zeta. simpl. rewrite app_nil_r. split_and!; try done; lia. }
  cbv zeta.
  change (BuildStats.after st ((t, e) :: log))
    with (BuildStats.after (BuildStats.record st (t, e)) log).
  specialize (IH (BuildStats.record st (t, e))). cbv zeta in IH.
  destruct IH as (Ht & Hf & Ha & Htime & Hb & Hsum).
  set (st2 := BuildStats.after _ log) in *. clearbody st2. rewrite Ha.
  destruct e as [| | |a]; unfold BuildStats.record in *; simpl in *.
  - split_and!; try done; lia.
  - split_and!; try done; lia.
  - split_and!; try done; lia.
  - rewrite <-(assoc_L (++)). simpl.
    destruct (Build.cached a); split_and!; try done; unfold fmap, omap in *; lia.
Qed.

Lemma size_failed (fs : gset string) (log : list (string * Build.event)) :
  NoDup log.*1 → (∀ t, t ∈ fs ↔ (t, Build.Failed) ∈ log) →
  size fs = length (filter is_failed log).
Proof.
  intros Hnd Hfs.
  assert (fs = list_to_set (filter is_failed log).*1) as ->.
  { apply set_eq. intros t. rewrite Hfs, elem_of_list_to_set, list_elem_of_fmap.
    split.
    - intros Hin. exists (t, Build.Failed). split; [done|].
      by apply list_elem_of_filter.
    - intros ([t' e] & -> & [He Hin]%list_elem_of_filter).
      unfold is_failed in He. simpl in *. by subst. }
  rewrite size_list_to_set, length_fmap; [done|].
  assert ((filter is_failed log).*1 `sublist_of` log.*1) as Hsub.
  { apply fmap_sublist, sublist_filter. }
  by eapply sublist_NoDup in Hsub.
Qed.

End stats.

Section stats_extras.
Import Config Graph Examples.

(** X9. For a build on a loaded configuration, starting from fresh
    statistics: the total of the summary is the sum of the built, cached,
    failed and skipped counts; the failed count is the number of failed
    targets; the artifacts are those of the log, in order, as many as the
    built and cached counts together, and the total time is the sum of
    their build times. Without a cycle the verdict is [true] exactly when
    the failed count is 0, and the total is the number of targets of the
    build plan. The configuration is loaded for a profile whose name
    does not end in white space, so that [strip] leaves the id
    [profile-<name>] as it is. *)
Theorem build_summary_counts (profile : string) (raws : list raw)
    (s : Build.state) (o : Build.oracle) (entries_ : gmap string Cache.entry)
    (targets_ : list string) (dry_run force : bool) :
  Build._load_config profile raws = Some s →
  Py.strip ("profile-" +:+ profile) = "profile-" +:+ profile →
  ∃ fuel0, ∀ fuel, (fuel0 ≤ fuel)%nat →
    ∃ v r,
      Build.build fuel s o entries_ targets_ dry_run force = Some (v, r) ∧
      let st := BuildStats.after BuildStats.initial (Build.log r) in
      BuildStats.total_targets st
        = BuildStats.built st + BuildStats.cached st + BuildStats.failed st
          + BuildStats.skipped st ∧
      BuildStats.failed st = Z.of_nat (size (Build.failed_targets r)) ∧
      BuildStats.artifacts st = omap artifact_of (Build.log r) ∧
      BuildStats.built st + BuildStats.cached st
        = Z.of_nat (length (BuildStats.artifacts st)) ∧
      BuildStats.total_time_ms st
        = foldr Z.add 0 (Build.build_time_ms <$> BuildStats.artifacts st) ∧
      (¬ cyclic (Build.graph s) →
       (v = true ↔ BuildStats.failed st = 0) ∧
       ∃ order, Build.get_build_order s targets_ = Some order ∧
                BuildStats.total_targets st = Z.of_nat (length (concat order))).
Proof.
  intros Hs Hstrip.
  destruct (build_run_spec profile raws s o entries_ targets_ dry_run force
              Hs Hstrip) as [F HF].
  exists F. intros fuel Hle.
  destruct (HF fuel Hle) as (v & r & Hb & [[Hfs _] _] & Hcyc & Hacyc).
  exists v, r. split; [done|]. cbv zeta.
  destruct (after_spec BuildStats.initial (Build.log r))
    as (Ht & Hf & Ha & Htime & Hbc & Hsum).
  simpl in Ht, Hf, Ha, Htime, Hbc, Hsum.
  assert (NoDup (Build.log r).*1) as Hnd.
  { destruct (detect_cycles_decides (Build.graph s)
                (fst <$> map_to_list (Build.targets s)))
      as [[_ Hn]|(c & cs & _ & Hc)].
    { rewrite list_to_set_keys. by eapply build_load_dom. }
    - destruct (Hacyc Hn) as (_ & order & Ho & ->).
      by eapply build_order_NoDup.
    - destruct (Hcyc Hc) as [_ ->]. constructor. }
  pose proof (size_failed _ _ Hnd Hfs) as Hsize.
  split_and!.
  - lia.
  - lia.
  - done.
  - rewrite Ha. lia.
  - rewrite Ha. lia.
  - intros Hn. destruct (Hacyc Hn) as (Hv & order & Ho & Hlog). split.
    + rewrite Hv, Hf, <-Hsize, <-(leibniz_equiv_iff _ ∅), <-size_empty_iff. lia.
    + exists order. split; [done|]. rewrite Ht, <-Hlog, length_fmap. lia.
Qed.

Lemma build_summary_counts_witness :
  ∃ s fuel v r,
    Build._load_config "dev" diamond_config = Some s ∧
    Build.build fuel s all_built ∅ ["leaf"] false false = Some (v, r) ∧
    BuildStats.total_targets (BuildStats.after BuildStats.initial (Build.log r))
      = 4 ∧
    (v = true ↔
     BuildStats.failed (BuildStats.after BuildStats.initial (Build.log r)) = 0).
Proof.
  destruct (Build._load_config "dev" diamond_config) as [s|] eqn:Hs;
    [|vm_compute in Hs; discriminate].
  destruct (build_summary_counts "dev" diamond_config s all_built ∅
              ["leaf"] false false Hs eq_refl) as [fuel0 Hrun].
  destruct (Hrun fuel0 (le_n _)) as (v & r & Hb & _ & _ & _ & _ & _ & Hacyc).
  destruct (Hacyc (diamond_acyclic s Hs)) as (Hv & order & Ho & Ht).
  assert (Some order = Some [["root"]; ["mid1"; "mid2"]; ["leaf"]]) as Horder.
  { rewrite <-Ho.
    assert (s = default s (Build._load_config "dev" diamond_config)) as ->
      by by rewrite Hs.
    vm_compute. reflexivity. }
  injection Horder as ->.
  by exists s, fuel0, v, r.
Defined.

End stats_extras.

(** *** The state of a workflow *)
Section workflow.
Import Config Graph.

Definition result_of (entry : string * Orchestrator.event)
    : string * Orchestrator.Status :=
  (entry.1, Orchestrator.status_of entry.2).

Lemma workflow_after_snoc st log entry :
  WorkflowState.after st (log ++ [entry])
  = WorkflowState.record (WorkflowState.after st log) entry.
Proof. unfold WorkflowState.after. by rewrite foldl_app. Qed.

(** What [self.state] holds after a log *)
Lemma workflow_after_spec log :
  let st := WorkflowState.after WorkflowState.initial log in
  WorkflowState.results st = result_of <$> log ∧
  (WorkflowState.status st = Orchestrator.FAILED ↔
   ∃ n, (n, Orchestrator.Executed Orchestrator.FAILED) ∈ log) ∧
  (WorkflowState.status st = Orchestrator.PENDING ∨
   WorkflowState.status st = Orchestrator.FAILED) ∧
  (∀ n, WorkflowState.blocked_by st = Some n →
        (n, Orchestrator.Executed Orchestrator.WAITING_APPROVAL) ∈ log) ∧
  (WorkflowState.blocked_by st = None ↔
   ∀ n, (n, Orchestrator.Executed Orchestrator.WAITING_APPROVAL) ∉ log).
Proof.
  cbv zeta. induction log as [|[n e] log IH] using rev_ind.
  { simpl. split_and!; try done; [|by left|].
    - split; [done|]. by intros [n ?%elem_of_nil].
    - split; [|done]. by intros _ n ?%elem_of_nil. }
  rewrite workflow_after_snoc.
  destruct IH as (Hres & Hfail & Hst & Hb & Hnone).
  set (st := WorkflowState.after WorkflowState.initial log) in *. clearbody st.
  assert (∀ (P : string → Orchestrator.event → Prop) x f,
            (x, f) ∈ log ++ [(n, e)] ↔ (x, f) ∈ log ∨ (x = n ∧ f = e)) as Hin.
  { intros _ x f. rewrite elem_of_app, list_elem_of_singleton. naive_solver. }
  specialize (Hin (λ _ _, True)).
  unfold WorkflowState.record, WorkflowState.add_result. simpl.
  destruct e as [|status]; simpl.
  - split_and!.
    + by rewrite fmap_app, Hres.
    + rewrite Hfail. setoid_rewrite Hin. naive_solver.
    + done.
    + intros x Hx. apply Hin. left. by apply Hb.
    + rewrite Hnone. setoid_rewrite Hin. naive_solver.
  - destruct status; simpl; (split_and!; [by rewrite fmap_app, Hres|..]);
      try (rewrite Hfail; setoid_rewrite Hin; naive_solver);
      try (rewrite Hnone; setoid_rewrite Hin; naive_solver);
      try done; try (by right);
      try (intros x Hx; apply Hin; left; by apply Hb).
    + split; [|done]. intros _. exists n. apply Hin. by right.
    + intros x [= <-]. apply Hin. by right.
    + split; [done|]. intros Hall. destruct (Hall n). apply Hin. by right.
Qed.

End workflow.

Section workflow_extras.
Import Config Graph Examples.

Lemma orchestrator_acyclic_by_detect raws s :
  Orchestrator._load_orchestrator_config raws = Some s →
  Orchestrator.detect_cycles s = Some [] → ¬ cyclic (Orchestrator.graph s).
Proof.
  intros Hs Hd Hcyc.
  destruct (detect_cycles_correct (Orchestrator.graph s)
              (fst <$> map_to_list (Orchestrator.nodes s)))
    as (cs & Hcs & _ & Hne).
  { rewrite list_to_set_keys. by eapply orchestrator_load_dom. }
  apply (Hne Hcyc). unfold Orchestrator.detect_cycles in Hd. congruence.
Qed.

(** The statuses that [execute_node] gives, and when it asks for an
    approval *)
Lemma execute_node_status s o n dry_run auto_approve :
  let status := Orchestrator.execute_node s o n dry_run auto_approve in
  status ∈ [Orchestrator.SUCCESS; Orchestrator.FAILED; Orchestrator.SKIPPED;
            Orchestrator.WAITING_APPROVAL] ∧
  (status = Orchestrator.WAITING_APPROVAL ↔
   ∃ node, Orchestrator.nodes s !! n = Some node ∧ scope node = Some "gate" ∧
           locked node = true ∧ auto_approve = false).
Proof.
  cbv zeta. unfold Orchestrator.execute_node.
  destruct (Orchestrator.nodes s !! n) as [node|].
  2:{ split; [set_solver|]. split; [done|]. by intros (? & ? & _). }
  destruct (bool_decide (default "config" (scope node) = "gate")
            && locked node && negb auto_approve) eqn:Hgate.
  - split; [set_solver|]. split; [|done]. intros _. exists node.
    apply andb_true_iff in Hgate as [[Hsc%bool_decide_eq_true ?]%andb_true_iff
                                      ?%negb_true_iff].
    split_and!; try done. destruct (scope node); simpl in Hsc; by simplify_eq.
  - assert (¬ ∃ node0, Some node = Some node0 ∧ scope node0 = Some "gate" ∧
                       locked node0 = true ∧ auto_approve = false) as Hno.
    { intros (? & [= <-] & Hsc & Hl & Ha). by rewrite Hsc, Hl, Ha in Hgate. }
    destruct (_ && _ && _ && _); [split; [set_solver|done]|].
    destruct dry_run; [split; [set_solver|done]|].
    destruct (Orchestrator.draw_fails o n); split; (set_solver || done).
Qed.

(** X10. After [run_pipeline] on a loaded configuration without a cycle,
    for a row of scope [pipeline]: the workflow state has one result for
    each node of the execution levels, in their order; its status is
    [FAILED] when the run returns [False] and still [PENDING] when it
    returns [True], never [SUCCESS]; every result is a success, a failure,
    a skip or a wait for approval; and [blocked_by] names a node exactly
    when some result waits for approval, and then a locked gate that was
    not approved automatically. *)
Theorem workflow_state_after_run (raws : list raw) (s : Orchestrator.state)
    (o : Orchestrator.oracle) (pipeline_id : string) (row : Row)
    (dry_run auto_approve : bool) :
  Orchestrator._load_orchestrator_config raws = Some s →
  Orchestrator.nodes s !! pipeline_id = Some row →
  scope row = Some "pipeline" →
  ¬ cyclic (Orchestrator.graph s) →
  ∃ v r levels,
    Orchestrator.run_pipeline s o pipeline_id dry_run auto_approve
      = Some (v, r) ∧
    Orchestrator.get_execution_levels s [pipeline_id] = Some levels ∧
    let st := WorkflowState.after WorkflowState.initial (Orchestrator.log r) in
    (WorkflowState.results st).*1 = concat levels ∧
    WorkflowState.total_nodes st = length (concat levels) ∧
    WorkflowState.status st
      = (if v then Orchestrator.PENDING else Orchestrator.FAILED) ∧
    (∀ n status, (n, status) ∈ WorkflowState.results st →
       status ∈ [Orchestrator.SUCCESS; Orchestrator.FAILED;
                 Orchestrator.SKIPPED; Orchestrator.WAITING_APPROVAL]) ∧
    (WorkflowState.blocked_by st = None ↔
     ∀ n, (n, Orchestrator.WAITING_APPROVAL) ∉ WorkflowState.results st) ∧
    (∀ n, WorkflowState.blocked_by st = Some n →
       (n, Orchestrator.WAITING_APPROVAL) ∈ WorkflowState.results st ∧
       auto_approve = false ∧
       ∃ node, Orchestrator.nodes s !! n = Some node ∧
               scope node = Some "gate" ∧ locked node = true).
Proof.
  intros Hs Hrow Hscope Hacyc.
  destruct (run_pipeline_spec raws s o pipeline_id row dry_run auto_approve
              Hs Hrow Hscope) as (v & r & Hrun & [[Hfs _] Hex] & _ & Hrest).
  destruct (Hrest Hacyc) as (Hv & levels & Hlevels & Hlog).
  exists v, r, levels. split; [done|]. split; [done|]. cbv zeta.
  destruct (workflow_after_spec (Orchestrator.log r))
    as (Hres & Hfail & Hst & Hb & Hnone).
  set (st := WorkflowState.after WorkflowState.initial (Orchestrator.log r)) in *.
  clearbody st.
  assert ((WorkflowState.results st).*1 = concat levels) as Hids.
  { rewrite Hres, <-Hlog. apply list_eq. intros i. rewrite !list_lookup_fmap.
    by destruct (Orchestrator.log r !! i). }
  assert (∀ n, (n, Orchestrator.WAITING_APPROVAL) ∈ WorkflowState.results st ↔
               (n, Orchestrator.Executed Orchestrator.WAITING_APPROVAL)
                 ∈ Orchestrator.log r) as Hwait.
  { intros n. rewrite Hres, list_elem_of_fmap. split.
    - intros ([n' e] & [= <- Hw] & Hin). destruct e; simpl in *; by simplify_eq.
    - intros Hin. by exists (n, Orchestrator.Executed Orchestrator.WAITING_APPROVAL). }
  split_and!.
  - done.
  - unfold WorkflowState.total_nodes. by rewrite <-Hids, length_fmap.
  - destruct v.
    + destruct Hst as [?|Hf]; [done|]. apply Hfail in Hf as [n Hn].
      apply Hfs in Hn. destruct Hv as [Hv _]. rewrite Hv in Hn; set_solver.
    + apply Hfail.
      destruct (set_choose_or_empty (Orchestrator.failed_nodes r))
        as [[n Hn]|Hempty%leibniz_equiv].
      * exists n. by apply Hfs.
      * by apply Hv in Hempty.
  - intros n status. rewrite Hres, list_elem_of_fmap.
    intros ([n' e] & [= -> ->] & Hin). destruct e as [|status]; simpl.
    + set_solver.
    + rewrite (Hex n' status Hin). apply execute_node_status.
  - rewrite Hnone. by setoid_rewrite Hwait.
  - intros n Hn. apply Hb in Hn. split; [by apply Hwait|].
    pose proof (Hex n _ Hn) as Hw. symmetry in Hw.
    apply execute_node_status in Hw as (node & ? & ? & ? & ?). eauto.
Qed.

Lemma workflow_state_after_run_witness :
  ∃ s r,
    Orchestrator._load_orchestrator_config release_config = Some s ∧
    Orchestrator.run_pipeline s nothing_confirmed "release" false false
      = Some (true, r) ∧
    WorkflowState.status
      (WorkflowState.after WorkflowState.initial (Orchestrator.log r))
      = Orchestrator.PENDING ∧
    WorkflowState.blocked_by
      (WorkflowState.after WorkflowState.initial (Orchestrator.log r))
      = Some "approval".
Proof.
  destruct (Orchestrator._load_orchestrator_config release_config) as [s|] eqn:Hs;
    [|vm_compute in Hs; discriminate].
  assert (s = default s (Orchestrator._load_orchestrator_config release_config))
    as Heq by by rewrite Hs.
  assert (∃ row, Orchestrator.nodes s !! "release" = Some row ∧
                 scope row = Some "pipeline") as (row & Hrow & Hscope).
  { rewrite Heq. vm_compute. eauto. }
  assert (¬ cyclic (Orchestrator.graph s)) as Hacyc.
  { apply (orchestrator_acyclic_by_detect release_config s Hs).
    rewrite Heq. vm_compute. reflexivity. }
  destruct (workflow_state_after_run release_config s nothing_confirmed
              "release" row false false Hs Hrow Hscope Hacyc)
    as (v & r & levels & Hrun & _ & _ & _ & Hst & _ & _ & _).
  assert (fst <$> Orchestrator.run_pipeline s nothing_confirmed "release"
                    false false = Some true) as Hv.
  { rewrite Heq. vm_compute. reflexivity. }
  assert (WorkflowState.blocked_by
            <$> (WorkflowState.after WorkflowState.initial
                   <$> (Orchestrator.log
                          <$> (snd <$> Orchestrator.run_pipeline s
                                 nothing_confirmed "release" false false)))
          = Some (Some "approval")) as Hb.
  { rewrite Heq. vm_compute. reflexivity. }
  rewrite Hrun in Hv, Hb. simpl in Hv, Hb. injection Hv as ->.
  injection Hb as Hb. by exists s, r.
Defined.

End workflow_extras.

(** *** Dry runs of the orchestrator *)
Section orchestrator_dry_run.
Import Config Graph.
Context (s : Orchestrator.state) (auto_approve : bool).

(** The status a dry run gives a node *)
Definition dry_status (node : Row) : Orchestrator.Status :=
  if bool_decide (scope node = Some "gate") && locked node && negb auto_approve
  then Orchestrator.WAITING_APPROVAL else Orchestrator.SUCCESS.

Lemma execute_node_dry o n node :
  Orchestrator.nodes s !! n = Some node →
  Orchestrator.execute_node s o n true auto_approve = dry_status node.
Proof.
  intros Hn. unfold Orchestrator.execute_node, dry_status. rewrite Hn.
  assert (bool_decide (default "config" (scope node) = "gate")
          = bool_decide (scope node = Some "gate")) as ->.
  { apply bool_decide_ext. destruct (scope node); simpl; naive_solver. }
  destruct (_ && _ && _); [done|]. simpl. by rewrite andb_false_r.
Qed.

Lemma run_step_dry o o' r n :
  Orchestrator.run_step s o true auto_approve r n
  = Orchestrator.run_step s o' true auto_approve r n.
Proof.
  unfold Orchestrator.run_step.
  destruct (Orchestrator.nodes s !! n) as [node|] eqn:Hn; [|done].
  by rewrite !(execute_node_dry _ n node Hn).
Qed.

Lemma run_fold_dry o o' todo r :
  foldl (Orchestrator.run_step s o true auto_approve) r todo
  = foldl (Orchestrator.run_step s o' true auto_approve) r todo.
Proof.
  revert r. induction todo as [|n todo IH]; intros r; simpl; [done|].
  by rewrite (run_step_dry o o'), IH.
Qed.

Lemma run_pipeline_dry o o' pipeline_id :
  Orchestrator.run_pipeline s o pipeline_id true auto_approve
  = Orchestrator.run_pipeline s o' pipeline_id true auto_approve.
Proof.
  unfold Orchestrator.run_pipeline.
  destruct (Orchestrator.nodes s !! pipeline_id) as [pipeline|]; [|done].
  case_decide; [|done].
  destruct (Orchestrator.detect_cycles s) as [[|c cs]|]; simpl; [|done..].
  destruct (Orchestrator.get_execution_levels s [pipeline_id]) as [levels|];
    simpl; [|done].
  by rewrite (run_fold_dry o o').
Qed.

End orchestrator_dry_run.

Section orchestrator_dry_run_extras.
Import Config Graph Examples.

(** X11. A dry run of [run_pipeline] on a loaded configuration returns and
    consults neither the prompt nor the random draws: any other source of
    them gives the same verdict and the same run. No node fails and none
    is skipped: every result is a success, except that a locked gate
    waits for approval unless approvals are automatic, and the nodes that
    depend on such a gate are run all the same. The verdict is [True]
    exactly when the id is a row of scope [pipeline] and the graph has no
    cycle. *)
Theorem orchestrator_dry_run (raws : list raw) (s : Orchestrator.state)
    (o o' : Orchestrator.oracle) (pipeline_id : string) (auto_approve : bool) :
  Orchestrator._load_orchestrator_config raws = Some s →
  ∃ v r,
    Orchestrator.run_pipeline s o pipeline_id true auto_approve = Some (v, r) ∧
    Orchestrator.run_pipeline s o' pipeline_id true auto_approve = Some (v, r) ∧
    Orchestrator.failed_nodes r = ∅ ∧
    (v = true ↔
     (∃ row, Orchestrator.nodes s !! pipeline_id = Some row ∧
             scope row = Some "pipeline") ∧
     ¬ cyclic (Orchestrator.graph s)) ∧
    ∀ n e, (n, e) ∈ Orchestrator.log r →
      ∃ node, Orchestrator.nodes s !! n = Some node ∧
        e = Orchestrator.Executed
              (if bool_decide (scope node = Some "gate") && locked node
                  && negb auto_approve
               then Orchestrator.WAITING_APPROVAL else Orchestrator.SUCCESS).
Proof.
  intros Hs. rewrite <-(run_pipeline_dry s auto_approve o o').
  destruct (Orchestrator.nodes s !! pipeline_id) as [row|] eqn:Hrow.
  2:{ unfold Orchestrator.run_pipeline. rewrite Hrow. eexists _, _.
      split_and!; try done.
      - split; [done|]. by intros [(? & ? & _) _].
      - by intros n e ?%elem_of_nil. }
  destruct (decide (scope row = Some "pipeline")) as [Hscope|Hscope].
  2:{ unfold Orchestrator.run_pipeline. rewrite Hrow, decide_False by done.
      eexists _, _. split_and!; try done.
      - split; [done|]. intros [(? & [= <-] & ?) _]. done.
      - by intros n e ?%elem_of_nil. }
  destruct (run_pipeline_spec raws s o pipeline_id row true auto_approve
              Hs Hrow Hscope) as (v & r & Hrun & [[Hfs Hskip] Hex] & Hcyc & Hacyc).
  exists v, r. split; [done|]. split; [done|].
  destruct (detect_cycles_decides (Orchestrator.graph s)
              (fst <$> map_to_list (Orchestrator.nodes s)))
    as [[_ Hn]|(c & cs & _ & Hc)].
  { rewrite list_to_set_keys. by eapply orchestrator_load_dom. }
  2:{ destruct (Hcyc Hc) as [-> Hlog]. rewrite Hlog. split_and!.
      - apply set_eq. intros t. rewrite Hfs, Hlog. set_solver.
      - split; [done|]. by intros [_ ?].
      - by intros n e ?%elem_of_nil. }
  destruct (Hacyc Hn) as (Hv & levels & Hlevels & Hlog).
  destruct (orchestrator_levels_nodes raws s [pipeline_id] Hs Hn)
    as (levels' & Hlevels' & Hdom).
  assert (levels' = levels) as -> by congruence.
  assert (∀ n e, (n, e) ∈ Orchestrator.log r →
                 ∃ node, Orchestrator.nodes s !! n = Some node) as Hnode.
  { intros n e Hin. apply elem_of_dom, Hdom. rewrite <-Hlog.
    apply list_elem_of_fmap. by exists (n, e). }
  assert (Orchestrator.failed_nodes r = ∅) as Hempty.
  { apply set_eq. intros t. rewrite Hfs. split; [|set_solver].
    intros Hin. destruct (Hnode _ _ Hin) as [node Hnd].
    pose proof (Hex _ _ Hin) as Hst.
    rewrite (execute_node_dry s auto_approve o t node Hnd) in Hst.
    unfold dry_status in Hst. by destruct (_ && _ && _). }
  split_and!.
  - done.
  - rewrite Hv. split; [|done]. intros _. split; [|done]. by exists row.
  - intros n e Hin. destruct (Hnode _ _ Hin) as [node Hnd]. exists node.
    split; [done|]. destruct e as [|status].
    + apply list_elem_of_lookup in Hin as [i Hi].
      destruct (Hskip i n Orchestrator.SkippedDependency Hi) as [Hd _].
      destruct (Hd eq_refl) as (d & j & _ & Hj & _).
      assert (d ∈ Orchestrator.failed_nodes r) as Hfd.
      { apply Hfs, list_elem_of_lookup. eauto. }
      rewrite Hempty in Hfd. set_solver.
    + f_equal. rewrite (Hex _ _ Hin).
      by rewrite (execute_node_dry s auto_approve o n node Hnd).
Qed.

Lemma orchestrator_dry_run_witness :
  ∃ s r,
    Orchestrator._load_orchestrator_config release_config = Some s ∧
    Orchestrator.run_pipeline s deploy_fails "release" true false
      = Some (true, r) ∧
    Orchestrator.run_pipeline s nothing_confirmed "release" true false
      = Some (true, r) ∧
    Orchestrator.log r
      = [("approval", Orchestrator.Executed Orchestrator.WAITING_APPROVAL);
         ("deploy", Orchestrator.Executed Orchestrator.SUCCESS);
         ("release", Orchestrator.Executed Orchestrator.SUCCESS)].
Proof.
  destruct (Orchestrator._load_orchestrator_config release_config) as [s|] eqn:Hs;
    [|vm_compute in Hs; discriminate].
  assert (s = default s (Orchestrator._load_orchestrator_config release_config))
    as Heq by by rewrite Hs.
  destruct (orchestrator_dry_run release_config s deploy_fails nothing_confirmed
              "release" false Hs) as (v & r & H1 & H2 & _).
  assert (Orchestrator.run_pipeline s deploy_fails "release" true false
          = Some (true,
                  {| Orchestrator.failed_nodes := ∅;
                     Orchestrator.log :=
                       [("approval",
                         Orchestrator.Executed Orchestrator.WAITING_APPROVAL);
                        ("deploy", Orchestrator.Executed Orchestrator.SUCCESS);
                        ("release", Orchestrator.Executed Orchestrator.SUCCESS)]
                  |})) as Hrun.
  { rewrite Heq. vm_compute. reflexivity. }
  rewrite Hrun in H1. injection H1 as <- <-. eexists s, _. by split_and!.
Defined.

End orchestrator_dry_run_extras.

(** *** Validation by the command line tool *)
Section validate.
Import Config Graph.

Lemma elem_of_values {A} (m : gmap string A) (v : A) :
  v ∈ snd <$> map_to_list m ↔ ∃ k, m !! k = Some v.
Proof.
  rewrite list_elem_of_fmap. split.
  - intros ([k v'] & -> & Hkv%elem_of_map_to_list). by exists k.
  - intros [k Hk]. exists (k, v). split; [done|]. by apply elem_of_map_to_list.
Qed.

Lemma missing_dependencies_spec raws (e : Cli.issue) :
  e ∈ Cli.missing_dependencies (Cli.load raws) ↔
  ∃ i row dep, e = Cli.MISSING_DEPENDENCY i dep ∧
    Cli.rows (Cli.load raws) !! i = Some row ∧ dep ∈ depends row ∧
    dep ∉ dom (Cli.rows (Cli.load raws)).
Proof.
  unfold Cli.missing_dependencies. rewrite list_elem_of_bind. split.
  - intros (row & (dep & He & Hdep)%list_elem_of_bind & [k Hk]%elem_of_values).
    case_decide; [by apply elem_of_nil in He|].
    apply list_elem_of_singleton in He as ->.
    pose proof (cli_load_rows_key raws k row Hk) as [<- _].
    by exists (id row), row, dep.
  - intros (i & row & dep & -> & Hi & Hdep & Hmiss).
    pose proof (cli_load_rows_key raws i row Hi) as [<- _].
    exists row. split; [|apply elem_of_values; eauto].
    apply list_elem_of_bind. exists dep. split; [|done].
    rewrite decide_False by done. by left.
Qed.

Lemma unused_locked_spec raws (e : Cli.issue) :
  e ∈ Cli.unused_locked (Cli.load raws) ↔
  ∃ i row, e = Cli.UNUSED_LOCKED i ∧
    Cli.rows (Cli.load raws) !! i = Some row ∧ locked row = true ∧
    ∀ a, ¬ edge (Cli.graph (Cli.load raws)) a i.
Proof.
  assert (∀ i, graph_get (Cli.reverse_graph (Cli.load raws)) i = ∅ ↔
               ∀ a, ¬ edge (Cli.graph (Cli.load raws)) a i) as Hrev.
  { intros i. split.
    - intros Hempty a Ha.
      apply (cli_graph_spec (Cli.load_rows raws) a i) in Ha.
      unfold edge in Ha. simpl in Hempty. rewrite Hempty in Ha. set_solver.
    - intros Hno. apply set_eq. intros a. split; [|set_solver].
      intros Ha. destruct (Hno a).
      by apply (cli_graph_spec (Cli.load_rows raws) a i). }
  unfold Cli.unused_locked. rewrite list_elem_of_bind. split.
  - intros (row & He & [k Hk]%elem_of_values).
    pose proof (cli_load_rows_key raws k row Hk) as [<- _].
    destruct (locked row) eqn:Hl; simpl in He; [|by apply elem_of_nil in He].
    case_bool_decide as Hg; [|by apply elem_of_nil in He].
    apply list_elem_of_singleton in He as ->.
    exists (id row), row. split_and!; try done. by apply Hrev.
  - intros (i & row & -> & Hi & Hl & Hno).
    pose proof (cli_load_rows_key raws i row Hi) as [<- _].
    exists row. split; [|apply elem_of_values; eauto].
    rewrite Hl, bool_decide_eq_true_2 by by apply Hrev. by left.
Qed.

(** X12. [cmd_validate] on a loaded config ends. It never reports a
    [DUPLICATE_ID]; it reports [MISSING_DEPENDENCY] for exactly the pairs
    of a row and a dependency of it that is no row; it reports a
    [CIRCULAR_DEPENDENCY] exactly when the dependencies that name rows have
    a cycle, and every cycle reported is a closed walk; it warns
    [UNUSED_LOCKED] for exactly the locked rows that no row depends on.
    The exit code is 0 or 1, and 0 exactly when there is no error and,
    with [strict], no warning; the flags [fail_on_cycle] and
    [fail_on_missing] never change it. *)
Theorem cmd_validate_exit_code (raws : list raw)
    (strict fail_on_cycle fail_on_missing : bool) :
  ∃ v, Cli.cmd_validate (Cli.load raws) strict fail_on_cycle fail_on_missing
         = Some v ∧
    (∀ i, Cli.DUPLICATE_ID i ∉ Cli.errors v) ∧
    (∀ i dep, Cli.MISSING_DEPENDENCY i dep ∈ Cli.errors v ↔
       ∃ row, Cli.rows (Cli.load raws) !! i = Some row ∧ dep ∈ depends row ∧
              dep ∉ dom (Cli.rows (Cli.load raws))) ∧
    ((∃ c, Cli.CIRCULAR_DEPENDENCY c ∈ Cli.errors v) ↔
     cyclic (Cli.graph (Cli.load raws))) ∧
    (∀ c, Cli.CIRCULAR_DEPENDENCY c ∈ Cli.errors v →
          closed_walk (Cli.graph (Cli.load raws)) c) ∧
    (∀ e, e ∈ Cli.warnings v ↔
       ∃ i row, e = Cli.UNUSED_LOCKED i ∧
         Cli.rows (Cli.load raws) !! i = Some row ∧ locked row = true ∧
         ∀ a, ¬ edge (Cli.graph (Cli.load raws)) a i) ∧
    (Cli.exit_code v = 0 ∨ Cli.exit_code v = 1) ∧
    (Cli.exit_code v = 0 ↔
     Cli.errors v = [] ∧ (strict = true → Cli.warnings v = [])) ∧
    Cli.exit_code <$> Cli.cmd_validate (Cli.load raws) strict false false
      = Some (Cli.exit_code v).
Proof.
  unfold Cli.cmd_validate.
  destruct (detect_cycles_correct (Cli.graph (Cli.load raws))
              (fst <$> map_to_list (Cli.rows (Cli.load raws))))
    as (cs & Hcs & Hw & Hne).
  { rewrite list_to_set_keys. apply cli_load_dom. }
  unfold Cli._detect_cycles. rewrite Hcs. simpl.
  rewrite (cli_duplicate_ids_nil raws). simpl.
  set (missing := Cli.missing_dependencies (Cli.load raws)).
  set (unused := Cli.unused_locked (Cli.load raws)).
  eexists. split; [done|]. simpl.
  assert (∀ e, e ∈ missing ++ (Cli.CIRCULAR_DEPENDENCY <$> cs) ↔
               e ∈ missing ∨ ∃ c, e = Cli.CIRCULAR_DEPENDENCY c ∧ c ∈ cs) as Hin.
  { intros e. rewrite elem_of_app, list_elem_of_fmap. naive_solver. }
  split_and!.
  - intros i [(? & ? & ? & ? & _)%missing_dependencies_spec|(c & ? & _)]%Hin;
      done.
  - intros i dep. rewrite Hin. split.
    + intros [(i' & row & dep' & [= <- <-] & ?)%missing_dependencies_spec
             |(c & ? & _)]; [eauto|done].
    + intros (row & ? & ? & ?). left. apply missing_dependencies_spec.
      by exists i, row, dep.
  - split.
    + intros [c [(? & ? & ? & ? & _)%missing_dependencies_spec
                |(c' & [= <-] & Hc)]%Hin]; [done|].
      eapply closed_walk_cyclic. eapply Forall_forall in Hw; done.
    + intros Hcyc. destruct cs as [|c cs]; [by destruct (Hne Hcyc)|].
      exists c. apply Hin. right. exists c. split; [done|]. by left.
  - intros c [(? & ? & ? & ? & _)%missing_dependencies_spec
             |(c' & [= <-] & Hc)]%Hin; [done|].
    eapply Forall_forall in Hw; done.
  - intros e. apply unused_locked_spec.
  - set (errs := missing ++ _). clearbody errs unused.
    destruct errs, unused, strict, fail_on_cycle, fail_on_missing; simpl;
      repeat case_match; auto.
  - set (errs := missing ++ _). clearbody errs unused.
    destruct errs, unused, strict, fail_on_cycle, fail_on_missing; simpl;
      repeat case_match; naive_solver.
  - set (errs := missing ++ _). clearbody errs unused. f_equal.
    destruct errs, unused, strict, fail_on_cycle, fail_on_missing; simpl;
      repeat case_match; done.
Qed.

End validate.

(** *** Saving and loading again *)
Section save_load.
Import Config Graph.

(** A row as it is read back: an empty scope is not written, so it comes
    back as no scope. *)
Definition reloaded (row : Row) : Row :=
  {| id := id row; locked := locked row; name := name row; args := args row;
     expr := expr row;
     scope := match scope row with
              | Some sc => if decide (sc = EmptyString) then None else Some sc
              | None => None
              end;
     depends := depends row; sources := sources row |}.

Lemma make_row_to_dict row : make_row (id row) (Cli.to_dict row) = reloaded row.
Proof.
  unfold make_row, Cli.to_dict, reloaded. simpl. f_equal.
  - by destruct (depends row).
  - by destruct (sources row).
Qed.

Lemma load_rows_saved (kvs : list (string * Row)) i :
  (∀ k row, (k, row) ∈ kvs → id row = k ∧ k ≠ EmptyString) →
  NoDup kvs.*1 →
  Cli.load_rows ((λ kv, Some (Cli.to_dict kv.2)) <$> kvs) !! i
  = reloaded <$> (list_to_map kvs : gmap string Row) !! i.
Proof.
  induction kvs as [|[k row] kvs IH] using rev_ind; intros Hwf Hnd.
  { unfold Cli.load_rows. simpl. by rewrite !lookup_empty. }
  rewrite fmap_app in Hnd. apply NoDup_app in Hnd as (Hnd & Hk & _).
  rewrite fmap_app. simpl. rewrite cli_load_rows_snoc. unfold Cli.load_row.
  simpl. destruct (Hwf k row) as [Hid Hne]; [set_solver|].
  rewrite decide_False by by rewrite Hid.
  rewrite Hid, <-Hid at 1. rewrite make_row_to_dict, Hid.
  assert ((list_to_map (kvs ++ [(k, row)]) : gmap string Row)
          = <[k := row]> (list_to_map kvs)) as ->.
  { apply map_eq. intros j. destruct (decide (j = k)) as [->|Hj].
    - rewrite lookup_insert_eq. apply elem_of_list_to_map.
      + rewrite fmap_app. apply NoDup_app. split_and!; [done| |by apply NoDup_singleton].
        intros x Hx. by apply Hk.
      + set_solver.
    - rewrite lookup_insert_ne by done.
      destruct (list_to_map kvs !! j) as [r|] eqn:Hr.
      + apply elem_of_list_to_map in Hr; [|done].
        apply elem_of_list_to_map.
        * rewrite fmap_app. apply NoDup_app.
          split_and!; [done| |by apply NoDup_singleton]. intros x Hx. by apply Hk.
        * set_solver.
      + apply not_elem_of_list_to_map. rewrite fmap_app.
        apply not_elem_of_list_to_map in Hr. set_solver. }
  destruct (decide (i = k)) as [->|Hi].
  - by rewrite !lookup_insert_eq.
  - rewrite !lookup_insert_ne by done. apply IH; [|done].
    intros k' row' Hin. apply Hwf. set_solver.
Qed.

Lemma load_saved_rows (m : gmap string Row) (kvs : list (string * Row)) :
  (∀ i row, m !! i = Some row → id row = i ∧ i ≠ EmptyString) →
  kvs ≡ₚ map_to_list m →
  Cli.load_rows ((λ kv, Some (Cli.to_dict kv.2)) <$> kvs) = reloaded <$> m.
Proof.
  intros Hwf Hperm. apply map_eq. intros i.
  rewrite load_rows_saved.
  - rewrite lookup_fmap. f_equal. rewrite (list_to_map_proper kvs (map_to_list m)).
    + by rewrite list_to_map_to_list.
    + rewrite Hperm. apply NoDup_fst_map_to_list.
    + done.
  - intros k row Hin. apply Hwf. apply elem_of_map_to_list. by rewrite <-Hperm.
  - rewrite Hperm. apply NoDup_fst_map_to_list.
Qed.

Lemma reloaded_idemp row : reloaded (reloaded row) = reloaded row.
Proof.
  unfold reloaded. simpl. f_equal. destruct (scope row) as [sc|]; [|done].
  case_decide; [done|]. by rewrite decide_False.
Qed.

End save_load.

Section save_load_extras.
Import Config Graph Examples.

(** X13. Saving and loading again gives the rows back, in whatever order
    [save] writes them: every row comes back under its id with the same
    fields, except that an empty scope comes back as no scope; the graph
    has an edge for each dependency that names a row, as before; and a
    second round of saving and loading changes nothing. The rows sit
    under their own ids, which are not empty, as [load] and [cmd_add]
    leave them. *)
Theorem save_load_round_trip (s : Cli.state) (kvs : list (string * Row)) :
  (∀ i row, Cli.rows s !! i = Some row → id row = i ∧ i ≠ EmptyString) →
  kvs ≡ₚ map_to_list (Cli.rows s) →
  let saved := (λ kv, Some (Cli.to_dict kv.2)) <$> kvs in
  Cli.load saved = Cli.load (Cli.save s) ∧
  Cli.rows (Cli.load saved) = reloaded <$> Cli.rows s ∧
  (∀ a b, edge (Cli.graph (Cli.load saved)) a b ↔
     ∃ row, Cli.rows s !! a = Some row ∧ b ∈ depends row ∧
            b ∈ dom (Cli.rows s)) ∧
  (∀ a b, edge (Cli.reverse_graph (Cli.load saved)) b a ↔
          edge (Cli.graph (Cli.load saved)) a b) ∧
  Cli.rows (Cli.load (Cli.save (Cli.load saved))) = Cli.rows (Cli.load saved).
Proof.
  intros Hwf Hperm saved.
  assert (Cli.load_rows saved = reloaded <$> Cli.rows s) as Hrows
    by by apply load_saved_rows.
  assert (Cli.load_rows (Cli.save s) = reloaded <$> Cli.rows s) as Hrows'.
  { unfold Cli.save. rewrite <-list_fmap_compose.
    by apply (load_saved_rows (Cli.rows s) (map_to_list (Cli.rows s))). }
  split_and!.
  - unfold Cli.load. by rewrite Hrows, Hrows'.
  - done.
  - intros a b. simpl. rewrite Hrows.
    destruct (cli_graph_spec (reloaded <$> Cli.rows s) a b) as [-> _].
    rewrite dom_fmap_L. setoid_rewrite lookup_fmap. split.
    + intros (row' & Hr & Hb & Hd).
      destruct (Cli.rows s !! a) as [row|] eqn:Ha; [|done].
      injection Hr as <-. by exists row.
    + intros (row & -> & Hb & Hd). by exists (reloaded row).
  - intros a b. simpl. apply (cli_graph_spec (Cli.load_rows saved) a b).
  - unfold Cli.save. simpl. rewrite !Hrows, <-list_fmap_compose.
    etrans.
    { apply (load_saved_rows (reloaded <$> Cli.rows s)
               (map_to_list (reloaded <$> Cli.rows s))); [|done].
      intros i row'. rewrite lookup_fmap.
      destruct (Cli.rows s !! i) as [row|] eqn:Hi; [|done].
      intros [= <-]. simpl. apply (Hwf i row Hi). }
    rewrite <-map_fmap_compose. apply map_fmap_ext. intros i row _.
    apply reloaded_idemp.
Qed.

Lemma save_load_round_trip_witness :
  Cli.rows (Cli.load (Cli.save (Cli.load diamond_config)))
  = reloaded <$> Cli.rows (Cli.load diamond_config).
Proof.
  pose proof (save_load_round_trip (Cli.load diamond_config)
                (map_to_list (Cli.rows (Cli.load diamond_config)))) as Hround.
  cbv zeta in Hround. destruct Hround as (Hsame & Hrows & _).
  - intros i row. exact (cli_load_rows_key diamond_config i row).
  - reflexivity.
  - rewrite <-Hsame. exact Hrows.
Defined.

End save_load_extras.

(** *** The outcomes of the resolver *)
Section td_outcomes.
Import Runtime.
Context (repr : json → string).

(** [r] is the first element of [rows] whose id is [wanted]. *)
Definition first_match (wanted : string) (rows : list json)
    (r : list (string * json)) : Prop :=
  ∃ pre post, rows = pre ++ JDict r :: post ∧
    forallb (λ x, negb (matches wanted x)) pre = true ∧
    is_str (dict_get r "id") wanted = true.

Lemma first_match_unique wanted rows r r' :
  first_match wanted rows r → first_match wanted rows r' → r = r'.
Proof.
  intros (pre & post & -> & Hpre & Hr) (pre' & post' & Heq & Hpre' & Hr').
  revert pre' Heq Hpre'. induction pre as [|x pre IH]; intros pre' Heq Hpre'.
  - destruct pre' as [|x' pre']; simpl in Heq; [by injection Heq|].
    injection Heq as <- _. simpl in Hpre'. by rewrite Hr in Hpre'.
  - destruct pre' as [|x' pre']; simpl in Heq.
    + injection Heq as -> _. simpl in Hpre. by rewrite Hr' in Hpre.
    + injection Heq as <- Heq. simpl in Hpre, Hpre'.
      apply andb_prop in Hpre as [_ Hpre]. apply andb_prop in Hpre' as [_ Hpre'].
      by apply (IH Hpre pre').
Qed.

Lemma scan_spec wanted rows :
  match scan repr wanted rows with
  | Ok row => ∃ r, first_match wanted rows r ∧ row = make_row repr wanted r
  | TopDownIdNotFound => forallb (λ x, negb (matches wanted x)) rows = true
  | _ => False
  end.
Proof.
  induction rows as [|x rows IH]; simpl; [done|].
  assert (matches wanted x = false →
          match scan repr wanted rows with
          | Ok row => ∃ r, first_match wanted (x :: rows) r ∧
                           row = make_row repr wanted r
          | TopDownIdNotFound =>
              negb (matches wanted x)
              && forallb (λ x, negb (matches wanted x)) rows = true
          | _ => False
          end) as Hskip.
  { intros Hx. destruct (scan repr wanted rows) as [row| | |]; try done.
    - destruct IH as (r & (pre & post & -> & Hpre & Hr) & ->). exists r.
      split; [|done]. exists (x :: pre), post. simpl. by rewrite Hx.
    - by rewrite Hx. }
  destruct x as [| | | | |r]; try by apply Hskip.
  destruct (is_str (dict_get r "id") wanted) eqn:Hr; [|by apply Hskip].
  exists r. split; [|done]. by exists [], rows.
Qed.

(** X14. The outcomes of [td]: it raises [ValueError] exactly when the id
    is blank, that is empty once [strip()] has taken Unicode's white space
    off its two ends; otherwise [TopDownError] exactly when the ["rows"]
    member of the store is missing or no list; otherwise
    [TopDownIdNotFound] exactly when no element of the list is a dict
    whose id is the trimmed id; and otherwise it returns the row built
    from the first such dict, under the trimmed id. *)
Theorem td_outcomes (store : list (string * json)) (row_id : string) :
  (td repr store row_id = ValueError ↔ Py.strip row_id = EmptyString) ∧
  (td repr store row_id = TopDownError ↔
   Py.strip row_id ≠ EmptyString ∧ ∀ rows, dict_get store "rows" ≠ JList rows) ∧
  (td repr store row_id = TopDownIdNotFound ↔
   Py.strip row_id ≠ EmptyString ∧
   ∃ rows, dict_get store "rows" = JList rows ∧
           forallb (λ x, negb (matches (Py.strip row_id) x)) rows = true) ∧
  (∀ row, td repr store row_id = Ok row ↔
   Py.strip row_id ≠ EmptyString ∧
   ∃ rows r, dict_get store "rows" = JList rows ∧
             first_match (Py.strip row_id) rows r ∧
             row = make_row repr (Py.strip row_id) r) ∧
  (∀ row, td repr store row_id = Ok row → id row = Py.strip row_id).
Proof.
  unfold td. destruct (decide (Py.strip row_id = EmptyString)) as [He|Hne].
  { split_and!; try (split; [done|]); try done; by intros [? _]. }
  destruct (dict_get store "rows") as [| | | |rows|] eqn:Hrows;
    try (split_and!; [done|split; [by split|done]
                     |split; [done|by intros (_ & ? & ? & _)]
                     |intros row; split; [done|by intros (_ & ? & ? & ? & _)]
                     |done]).
  pose proof (scan_spec (Py.strip row_id) rows) as Hscan.
  destruct (scan repr (Py.strip row_id) rows) as [row| | |] eqn:Hs; try done.
  - destruct Hscan as (r & Hfirst & ->). split_and!.
    + done.
    + split; [done|]. intros [_ Hno]. by destruct (Hno rows).
    + split; [done|]. intros (_ & rows' & [= <-] & Hall).
      destruct Hfirst as (pre & post & -> & _ & Hr).
      rewrite forallb_app in Hall. apply andb_prop in Hall as [_ Hall].
      simpl in Hall. by rewrite Hr in Hall.
    + intros row. split.
      * intros [= <-]. split; [done|]. by exists rows, r.
      * intros (_ & rows' & r' & [= <-] & Hfirst' & ->).
        by rewrite (first_match_unique _ _ _ _ Hfirst Hfirst').
    + by intros row [= <-].
  - split_and!.
    + done.
    + split; [done|]. intros [_ Hno]. by destruct (Hno rows).
    + split; [|done]. intros _. split; [done|]. by exists rows.
    + intros row. split; [done|].
      intros (_ & rows' & r & [= <-] & (pre & post & -> & _ & Hr) & _).
      rewrite forallb_app in Hscan. apply andb_prop in Hscan as [_ Hscan].
      simpl in Hscan. by rewrite Hr in Hscan.
    + done.
Qed.

(** The no-break space U+00A0 around an id is white space to [td], as it
    is to [str.strip]: the row is found under the trimmed id, and U+00A0
    alone is a blank id. *)
Lemma td_trims_no_break_space :
  td repr [("rows", JList [JDict [("id", JStr "a")]])]
     (Examples.nbsp +:+ "a" +:+ Examples.nbsp)
    = Ok (make_row repr "a" [("id", JStr "a")]) ∧
  td repr [("rows", JList [JDict [("id", JStr "a")]])] Examples.nbsp
    = ValueError.
Proof. split; reflexivity. Qed.

End td_outcomes.

(** *** What the hash reads *)
Section hash_inputs.
Import Config.

(** The two stores have the same ids, and each row has the same
    arguments, expression and dependencies in both. *)
Definition same_inputs (rows rows' : gmap string Row) : Prop :=
  ∀ i, match rows !! i, rows' !! i with
       | Some row, Some row' =>
           args row = args row' ∧ expr row = expr row' ∧
           depends row = depends row'
       | None, None => True
       | _, _ => False
       end.

Lemma same_inputs_dom rows rows' :
  same_inputs rows rows' → dom rows = dom rows'.
Proof.
  intros Hsame. apply set_eq. intros i. rewrite !elem_of_dom.
  specialize (Hsame i).
  destruct (rows !! i), (rows' !! i); try done; split; eauto.
Qed.

Lemma deps_loop_ext rows rows' rec rec' deps m parts :
  dom rows = dom rows' → (∀ d m', rec d m' = rec' d m') →
  Hash.deps_loop rows rec deps m parts = Hash.deps_loop rows' rec' deps m parts.
Proof.
  intros Hdom Hrec. revert m parts.
  induction deps as [|dep deps IH]; intros m parts; simpl; [done|].
  destruct (m !! dep) as [h|]; [apply IH|].
  rewrite Hdom, Hrec. case_decide; [|apply IH].
  destruct (rec' dep m) as [r|]; simpl; [apply IH|done].
Qed.

Lemma compute_same_inputs rows rows' tail fuel t m :
  same_inputs rows rows' →
  Hash.compute rows tail fuel t m = Hash.compute rows' tail fuel t m.
Proof.
  intros Hsame. revert t m. induction fuel as [|fuel IH]; intros t m; simpl; [done|].
  pose proof (Hsame t) as Ht.
  destruct (rows !! t) as [row|], (rows' !! t) as [row'|]; try done.
  destruct Ht as (Ha & He & Hd). rewrite Hd.
  rewrite (deps_loop_ext rows rows' (Hash.compute rows tail fuel)
             (Hash.compute rows' tail fuel));
    [|by apply same_inputs_dom|done].
  destruct (Hash.deps_loop _ _ _ _ _) as [r|]; simpl; [|done].
  unfold Hash.text. by rewrite Ha, He.
Qed.

Lemma flags_same_inputs s s' :
  Build.profile_deps s = Build.profile_deps s' →
  same_inputs (Build.targets s) (Build.targets s') →
  Build.get_compiler_flags s = Build.get_compiler_flags s'.
Proof.
  intros Hp Hsame. unfold Build.get_compiler_flags. rewrite Hp. f_equal.
  apply list_fmap_ext. intros _ dep_id _. specialize (Hsame dep_id).
  destruct (Build.targets s !! dep_id) as [row|],
    (Build.targets s' !! dep_id) as [row'|]; try done.
  destruct Hsame as (-> & _). done.
Qed.

End hash_inputs.

Section hash_inputs_extras.
Import Config Examples.

(** A row under another name, locked, in another scope and with other
    sources *)
Definition relabel (row : Row) : Row :=
  {| id := id row; locked := true; name := "renamed"; args := args row;
     expr := expr row; scope := Some "other"; depends := depends row;
     sources := ["moved"] |}.

(** X15. The hash of a target reads nothing but the arguments, the
    expressions and the dependencies of the rows, and the profile's
    dependencies: two build systems with the same profile dependencies
    whose targets agree on these fields give every target the same hash
    and the same compiler flags, whatever the names, locks, scopes and
    sources are; likewise the node hash of two orchestrators. *)
Theorem hash_reads_inputs_only (s s' : Build.state)
    (n n' : Orchestrator.state) (fuel : nat) (t : string)
    (dep_hashes : gmap string string) :
  Build.profile_deps s = Build.profile_deps s' →
  same_inputs (Build.targets s) (Build.targets s') →
  same_inputs (Orchestrator.nodes n) (Orchestrator.nodes n') →
  Build.get_compiler_flags s = Build.get_compiler_flags s' ∧
  Build.compute_hash fuel s t dep_hashes
    = Build.compute_hash fuel s' t dep_hashes ∧
  Orchestrator.compute_node_hash fuel n t dep_hashes
    = Orchestrator.compute_node_hash fuel n' t dep_hashes.
Proof.
  intros Hp Hsame Hnodes. split_and!.
  - by apply flags_same_inputs.
  - unfold Build.compute_hash. rewrite (flags_same_inputs s s' Hp Hsame).
    by apply compute_same_inputs.
  - unfold Orchestrator.compute_node_hash. by apply compute_same_inputs.
Qed.

Lemma hash_reads_inputs_only_witness :
  ∃ s n,
    Build._load_config "dev" flags_config = Some s ∧
    Orchestrator._load_orchestrator_config flags_config = Some n ∧
    Build.compute_hash 3 s "app" ∅
      = Build.compute_hash 3
          {| Build.targets := relabel <$> Build.targets s;
             Build.graph := Build.graph s;
             Build.reverse_graph := Build.reverse_graph s;
             Build.profile_deps := Build.profile_deps s |} "app" ∅.
Proof.
  destruct (Build._load_config "dev" flags_config) as [s|] eqn:Hs;
    [|vm_compute in Hs; discriminate].
  destruct (Orchestrator._load_orchestrator_config flags_config) as [n|] eqn:Hn;
    [|vm_compute in Hn; discriminate].
  exists s, n. split; [done|]. split; [done|].
  apply (hash_reads_inputs_only s
           {| Build.targets := relabel <$> Build.targets s;
              Build.graph := Build.graph s;
              Build.reverse_graph := Build.reverse_graph s;
              Build.profile_deps := Build.profile_deps s |}
           n n 3 "app" ∅).
  - done.
  - intros i. simpl. rewrite lookup_fmap.
    by destruct (Build.targets s !! i).
  - intros i. by destruct (Orchestrator.nodes n !! i).
Defined.

End hash_inputs_extras.

(** *** The data pipeline: downstream stages and runs *)
Section pipeline_graphs.
Import Config Graph.

(** [v] is in the list of [k]. *)
Definition listed (g : gmap string (list string)) (k v : string) : Prop :=
  v ∈ default [] (g !! k).

Lemma listed_append g k v a x :
  listed (Pipeline.append g k v) a x ↔ listed g a x ∨ a = k ∧ x = v.
Proof.
  unfold listed, Pipeline.append. destruct (decide (a = k)) as [->|Hne].
  - rewrite lookup_insert_eq. simpl. rewrite elem_of_app, list_elem_of_singleton.
    naive_solver.
  - rewrite lookup_insert_ne by done. naive_solver.
Qed.

(** What loading keeps: the two graphs mirror each other, and what
    depends on a stage is a stage. *)
Definition mirror (st : Pipeline.state) : Prop :=
  (∀ a b, listed (Pipeline.reverse_graph st) a b ↔ listed (Pipeline.graph st) b a) ∧
  (∀ a b, listed (Pipeline.graph st) b a → b ∈ dom (Pipeline.stages st)).

Lemma pipeline_add_edges_listed prod gs stage_id deps :
  (∀ a b, listed gs.2 a b ↔ listed gs.1 b a) →
  let gs' := Pipeline.add_edges prod gs stage_id deps in
  (∀ a b, listed gs'.2 a b ↔ listed gs'.1 b a) ∧
  (∀ a b, listed gs'.1 b a → listed gs.1 b a ∨ b = stage_id).
Proof.
  unfold Pipeline.add_edges. revert gs.
  induction deps as [|dep deps IH]; intros gs Hgs; simpl; [by split; [|left]|].
  case_decide as Hin.
  - match goal with |- context [foldl _ ?gs1 deps] =>
      destruct (IH gs1) as [Hm Hnew] end.
    { intros a b. simpl. rewrite !listed_append, Hgs. naive_solver. }
    split; [done|]. intros a b [Hab| ->]%Hnew; [|by right].
    simpl in Hab. apply listed_append in Hab. naive_solver.
  - by apply IH.
Qed.

Lemma pipeline_load_mirror prod raws :
  mirror (Pipeline._load_stages prod raws).
Proof.
  unfold Pipeline._load_stages.
  assert (mirror {| Pipeline.stages := ∅; Pipeline.graph := ∅;
                    Pipeline.reverse_graph := ∅ |}) as H0.
  { split; intros a b; unfold listed; simpl; rewrite ?lookup_empty; simpl;
      [split|]; by intros ?%elem_of_nil. }
  revert H0. generalize {| Pipeline.stages := ∅; Pipeline.graph := ∅;
                           Pipeline.reverse_graph := ∅ |}.
  induction (Pipeline.stage_ids prod) as [|i ids IH]; intros st Hst; simpl; [done|].
  apply IH. destruct (Build.td raws i) as [config| |]; [|done..].
  destruct Hst as [Hm Hd].
  destruct (pipeline_add_edges_listed prod
              (Pipeline.graph st, Pipeline.reverse_graph st) i (depends config))
    as [Hm' Hnew]; [done|].
  split; simpl; [done|]. intros a b [Hab| ->]%Hnew.
  - rewrite dom_insert_L. apply elem_of_union. right. by eapply Hd.
  - rewrite dom_insert_L. set_solver.
Qed.

Lemma pipeline_dependents_closed (s : Pipeline.state) a b :
  b ∈ default [] (Pipeline.reverse_graph s !! a) → b ∈ Pipeline.dependents_ids s.
Proof.
  intros Hb. unfold Pipeline.dependents_ids. apply elem_of_union_list.
  destruct (Pipeline.reverse_graph s !! a) as [l|] eqn:Ha;
    [|by apply elem_of_nil in Hb].
  exists (list_to_set l). split; [|by apply elem_of_list_to_set].
  apply list_elem_of_fmap. exists l. split; [done|].
  apply list_elem_of_fmap. exists (a, l). split; [done|].
  by apply elem_of_map_to_list.
Qed.

Lemma downstream_spec (s : Pipeline.state) (stage_id : string) :
  mirror s →
  ∃ downstream,
    Pipeline.get_downstream s stage_id = Some downstream ∧
    (∀ x, x ∈ downstream ↔
       tc (λ a b, listed (Pipeline.graph s) b a) stage_id x) ∧
    downstream ⊆ dom (Pipeline.stages s).
Proof.
  intros [Hm Hd]. unfold Pipeline.get_downstream.
  destruct (affected_loop_spec (λ t, default [] (Pipeline.reverse_graph s !! t))
              (Pipeline.dependents_ids s) (pipeline_dependents_closed s)
              stage_id (S (S (size (Pipeline.dependents_ids s)))) [stage_id] ∅)
    as (D & HD & Hspec).
  { split.
    - by intros d ?%elem_of_empty.
    - intros q ->%list_elem_of_singleton. by left.
    - intros a [->|?%elem_of_empty]; [|done]. left. left.
    - set_solver. }
  { assert (size (Pipeline.dependents_ids s ∖ ∅)
            ≤ size (Pipeline.dependents_ids s))%nat
      by (apply subseteq_size; set_solver).
    simpl. lia. }
  exists D. split; [done|].
  assert (∀ a b,
            tc (dependent_of (λ t, default [] (Pipeline.reverse_graph s !! t))) a b
            ↔ tc (λ a b, listed (Pipeline.graph s) b a) a b) as Htc.
  { intros a b. split; intros H; (induction H as [a b H|a c b H _ IH];
      [apply tc_once|eapply tc_l; [|exact IH]]); by apply Hm. }
  assert (∀ x, x ∈ D ↔ tc (λ a b, listed (Pipeline.graph s) b a) stage_id x)
    as HD'.
  { intros x. by rewrite Hspec, Htc. }
  split; [done|]. intros x Hx%HD'. revert x Hx. apply tc_ind_r.
  - intros y Hy. by eapply Hd.
  - intros y z _ Hz _. by eapply Hd.
Qed.

(** X16. [get_downstream] ends, and for the stages that [_load_stages]
    loaded it returns exactly the stages that depend on the given stage
    through one or more edges of the graph; all of them are loaded
    stages. *)
Theorem pipeline_downstream (prod : bool) (raws : list raw) (stage_id : string) :
  ∃ downstream,
    Pipeline.get_downstream (Pipeline._load_stages prod raws) stage_id
      = Some downstream ∧
    (∀ x, x ∈ downstream ↔
       tc (λ a b, listed (Pipeline.graph (Pipeline._load_stages prod raws)) b a)
          stage_id x) ∧
    downstream ⊆ dom (Pipeline.stages (Pipeline._load_stages prod raws)).
Proof. apply downstream_spec, pipeline_load_mirror. Qed.

End pipeline_graphs.

(** *** Runs of the data pipeline *)
Section pipeline_target.
Import Config Graph.
Context (s : Pipeline.state) (target : option string).

Lemma off_target_false t x :
  target = Some t → t ≠ EmptyString → Pipeline.off_target target x = false → x = t.
Proof.
  intros -> Hne. unfold Pipeline.off_target.
  destruct (String.eqb t "") eqn:Ht; [by apply String.eqb_eq in Ht|]. simpl.
  destruct (String.eqb x t) eqn:Hx; [|done]. intros _. by apply String.eqb_eq.
Qed.

(** The loops handle no stage that is off the target. *)
Lemma run_loop_target o dry_run todo results v results' :
  Pipeline.run_loop s o target dry_run results todo = Some (v, results') →
  ∀ x ok, (x, ok) ∈ results' →
    (x, ok) ∈ results ∨ Pipeline.off_target target x = false.
Proof.
  revert results. induction todo as [|t todo IH]; intros results; simpl.
  { intros [= <- <-] x ok ?. by left. }
  destruct (Pipeline.off_target target t) eqn:Hoff; [apply IH|].
  destruct (Pipeline.simulate_stage s o t dry_run) as [[|]|]; [| |done].
  - intros Hrun x ok Hin.
    destruct (IH _ Hrun x ok Hin) as [[?|Hx%list_elem_of_singleton]%elem_of_app|?];
      [by left| |by right].
    injection Hx as -> _. by right.
  - intros [= <- <-] x ok [?|Hx%list_elem_of_singleton]%elem_of_app; [by left|].
    injection Hx as -> _. by right.
Qed.

(** In a dry run the loops handle every stage on the target, each with
    success, and ask nothing. *)
Lemma run_loop_dry o todo results :
  (∀ t, t ∈ todo → t ∈ dom (Pipeline.stages s)) →
  Pipeline.run_loop s o target true results todo
  = Some (true, results ++ ((λ t, (t, true))
                <$> filter (λ t, Pipeline.off_target target t = false) todo)).
Proof.
  revert results. induction todo as [|t todo IH]; intros results Hdom; simpl.
  { by rewrite app_nil_r. }
  assert (∀ t, t ∈ todo → t ∈ dom (Pipeline.stages s)) as Hdom'.
  { intros x Hx. apply Hdom. by right. }
  destruct (Pipeline.off_target target t) eqn:Hoff.
  { rewrite filter_cons_False by by rewrite Hoff. by apply IH. }
  rewrite filter_cons_True by done.
  assert (is_Some (Pipeline.stages s !! t)) as [stage Hstage].
  { apply elem_of_dom, Hdom. left. }
  unfold Pipeline.simulate_stage. rewrite Hstage. simpl.
  rewrite andb_false_r. simpl. rewrite IH by done.
  by rewrite <-(assoc_L (++)).
Qed.

End pipeline_target.

Section pipeline_target_extras.
Import Config Graph Examples.

(** X17. [run] of a pipeline whose graph has edges only from stages, as
    loading leaves it, returns. With a target it simulates no stage but
    the target: the stages the target depends on are not run. A dry run
    consults neither the prompt nor the random draws, every stage it
    handles succeeds, and it returns [True] exactly when the graph has no
    cycle. *)
Theorem pipeline_run_target (s : Pipeline.state) (o o' : Pipeline.oracle)
    (target : option string) (dry_run : bool) :
  dom (Pipeline.graph s) ⊆ dom (Pipeline.stages s) →
  ∃ v results,
    Pipeline.run s o target dry_run = Some (v, results) ∧
    (∀ t, target = Some t → t ≠ EmptyString →
          ∀ x ok, (x, ok) ∈ results → x = t) ∧
    (dry_run = true →
     Pipeline.run s o' target dry_run = Some (v, results) ∧
     (∀ x ok, (x, ok) ∈ results → ok = true) ∧
     (v = true ↔ ¬ cyclic (list_to_set <$> Pipeline.graph s))).
Proof.
  intros Hdom. unfold Pipeline.run.
  destruct (detect_cycles_decides (list_to_set <$> Pipeline.graph s)
              (fst <$> map_to_list (Pipeline.stages s)))
    as [[-> Hn]|(c & cs & -> & Hc)].
  { by rewrite list_to_set_keys, dom_fmap_L. }
  2:{ simpl. exists false, []. split; [done|]. split.
      - by intros t _ _ x ok ?%elem_of_nil.
      - intros _. split; [done|]. split; [by intros x ok ?%elem_of_nil|].
        split; [done|]. by intros Hn. }
  simpl. unfold Pipeline.get_execution_levels.
  destruct (levels_loop_returns (S (size (dom (Pipeline.stages s))))
              (λ t, default [] (Pipeline.reverse_graph s !! t))
              (dom (Pipeline.stages s)) (Pipeline.in_degrees s) [])
    as (levels & Hlevels & Hin); [lia|].
  rewrite Hlevels. simpl.
  assert (∀ t, t ∈ concat levels → t ∈ dom (Pipeline.stages s)) as Hstages.
  { intros t [?%elem_of_nil|?]%Hin; done. }
  destruct (run_loop_spec s o target dry_run (concat levels) [])
    as (v & results & Hrun & _); [done|by intros t ok ?%elem_of_nil|].
  exists v, results. split; [done|]. split.
  - intros t Ht Hne x ok Hx.
    destruct (run_loop_target s target o dry_run _ _ _ _ Hrun x ok Hx)
      as [?%elem_of_nil|Hoff]; [done|].
    by eapply off_target_false.
  - intros ->. rewrite (run_loop_dry s target o) in Hrun by done.
    injection Hrun as <- <-. rewrite (run_loop_dry s target o') by done.
    split; [done|]. split; [|done].
    intros x ok (y & [= _ ->] & _)%list_elem_of_fmap. done.
Qed.

Lemma pipeline_run_target_witness :
  ∃ v results,
    Pipeline.run (Pipeline._load_stages false stages_config) credentials_fail
      (Some "api-credentials") false = Some (v, results) ∧
    ∀ x ok, (x, ok) ∈ results → x = "api-credentials".
Proof.
  destruct (pipeline_run_target (Pipeline._load_stages false stages_config)
              credentials_fail credentials_fail (Some "api-credentials") false
              (pipeline_load_dom false stages_config))
    as (v & results & Hrun & Htarget & _).
  exists v, results. split; [done|]. by apply (Htarget "api-credentials").
Defined.

End pipeline_target_extras.

(** *** The execution order of the task runner *)
Section execution_order.
Import TaskRunner.
Context (tasks : gmap string Task).

(** The task [a] depends on the task [b]. *)
Definition needs (a b : string) : Prop :=
  ∃ task, tasks !! a = Some task ∧ b ∈ depends task ∧ b ∈ dom tasks.

(** What [visit] keeps, where [G] holds the tasks whose calls have not
    returned: the order holds the tasks visited whose calls have
    returned, once each, after everything they need that is on no cycle
    with them. *)
Record vinv (G : gset string) (st : gset string * list string) : Prop := {
  vinv_nodup : NoDup st.2;
  vinv_order : ∀ x, x ∈ st.2 ↔ x ∈ st.1 ∧ (x ∉ G) ∧ x ∈ dom tasks;
  vinv_grey : G ⊆ st.1;
  vinv_closed : ∀ x d, x ∈ st.2 → needs x d → d ∈ st.1;
  vinv_before : ∀ i x d, st.2 !! i = Some x → needs x d →
                  (∃ j, (j < i)%nat ∧ st.2 !! j = Some d) ∨ tc needs d x;
}.

Record vpost (G : gset string) (tid : string)
    (st st' : gset string * list string) : Prop := {
  vpost_inv : vinv G st';
  vpost_mono : st.1 ⊆ st'.1;
  vpost_visited : tid ∈ st'.1;
  vpost_new : ∃ new, st'.2 = st.2 ++ new ∧ ∀ x, x ∈ new → rtc needs tid x;
  vpost_last : tid ∉ st.1 → tid ∈ dom tasks → last st'.2 = Some tid;
}.

Lemma size_unvisited_mono (V V' : gset string) :
  V ⊆ V' → (size (dom tasks ∖ V') ≤ size (dom tasks ∖ V))%nat.
Proof. intros HV. apply subseteq_size. set_solver. Qed.

Section deps.
Context (rec : string → gset string * list string
               → option (gset string * list string)) (n : nat).
Hypothesis rec_spec : ∀ G tid st,
  vinv G st → (size (dom tasks ∖ st.1) < n)%nat →
  (∀ g, g ∈ G → rtc needs g tid) →
  ∃ st', rec tid st = Some st' ∧ vpost G tid st st'.

Lemma visit_deps_spec G tid deps st :
  vinv G st → (size (dom tasks ∖ st.1) < n)%nat →
  (∀ g, g ∈ G → rtc needs g tid) →
  (∀ d, d ∈ deps → d ∈ dom tasks → needs tid d) →
  ∃ st', visit_deps tasks rec deps st = Some st' ∧
    vinv G st' ∧ st.1 ⊆ st'.1 ∧
    (∀ d, d ∈ deps → d ∈ dom tasks → d ∈ st'.1) ∧
    ∃ new, st'.2 = st.2 ++ new ∧ ∀ x, x ∈ new → rtc needs tid x.
Proof.
  revert st. induction deps as [|dep deps IH]; intros st Hinv Hn HG Hdeps; simpl.
  { exists st. split_and!; [done..| |].
    - by intros d ?%elem_of_nil.
    - exists []. split; [by rewrite app_nil_r|]. by intros x ?%elem_of_nil. }
  assert (∀ d, d ∈ deps → d ∈ dom tasks → needs tid d) as Hdeps'.
  { intros d Hd. apply Hdeps. by right. }
  case_decide as Hdep.
  - assert (needs tid dep) as Hedge by (apply Hdeps; [left|done]).
    destruct (rec_spec G dep st Hinv Hn) as (st1 & -> & [Hinv1 Hmono1 Hvis1 Hnew1 _]).
    { intros g Hg. eapply rtc_r; [by apply HG|done]. }
    simpl. destruct Hnew1 as (new1 & Ho1 & Hreach1).
    destruct (IH st1) as (st' & -> & Hinv' & Hmono' & Hall' & new' & Ho' & Hreach');
      [done| |done|done|].
    { pose proof (size_unvisited_mono _ _ Hmono1). lia. }
    exists st'. split_and!; [done..|set_solver| |].
    + intros d [->|Hd]%elem_of_cons Hk; [set_solver|by apply Hall'].
    + exists (new1 ++ new'). split; [by rewrite Ho', Ho1, (assoc_L (++))|].
      intros x [Hx|Hx]%elem_of_app; [|by apply Hreach'].
      eapply rtc_l; [exact Hedge|by apply Hreach1].
  - destruct (IH st) as (st' & -> & Hinv' & Hmono' & Hall' & Hnew'); [done..|].
    exists st'. split_and!; [done..| |done].
    intros d [->|Hd]%elem_of_cons Hk; [done|by apply Hall'].
Qed.

End deps.

Lemma visit_spec fuel G tid st :
  vinv G st → (size (dom tasks ∖ st.1) < fuel)%nat →
  (∀ g, g ∈ G → rtc needs g tid) →
  ∃ st', visit fuel tasks tid st = Some st' ∧ vpost G tid st st'.
Proof.
  revert G tid st. induction fuel as [|fuel IH]; intros G tid st Hinv Hfuel HG;
    [lia|].
  simpl. case_decide as Hvis.
  { exists st. split; [done|]. split; [done..| |done].
    exists []. split; [by rewrite app_nil_r|]. by intros x ?%elem_of_nil. }
  destruct Hinv as [Hnd Hord Hgrey Hclosed Hbefore].
  destruct (tasks !! tid) as [task|] eqn:Htask.
  2:{ eexists. split; [done|]. apply not_elem_of_dom in Htask.
      split; simpl; [|set_solver|set_solver| |done].
      - split; simpl; [done| |set_solver| |done].
        + intros x. rewrite Hord. set_solver.
        + intros x d Hx Hd. apply elem_of_union. right. by eapply Hclosed.
      - exists []. split; [by rewrite app_nil_r|]. by intros x ?%elem_of_nil. }
  assert (tid ∈ dom tasks) as Hk by (apply elem_of_dom; eauto).
  assert (tid ∉ G) as HtG by set_solver.
  assert (size (dom tasks ∖ st.1)
          = S (size (dom tasks ∖ ({[tid]} ∪ st.1)))) as Hsize.
  { assert (dom tasks ∖ st.1 = {[tid]} ∪ dom tasks ∖ ({[tid]} ∪ st.1)) as ->.
    { apply set_eq. intros y. destruct (decide (y = tid)) as [->|]; set_solver. }
    rewrite (size_union (C:=gset string) {[tid]}) by set_solver.
    by rewrite size_singleton. }
  destruct (visit_deps_spec (visit fuel tasks) fuel IH ({[tid]} ∪ G) tid
              (depends task) ({[tid]} ∪ st.1, st.2))
    as (st2 & -> & [Hnd2 Hord2 Hgrey2 Hclosed2 Hbefore2] & Hmono2 & Hall2
        & new & Ho2 & Hreach2).
  { split; simpl; [done| |set_solver| |done].
    - intros x. rewrite Hord. set_solver.
    - intros x d Hx Hd. apply elem_of_union. right. by eapply Hclosed. }
  { simpl. lia. }
  { intros g [Hg|Hg]%elem_of_union; [|by apply HG].
    by apply elem_of_singleton in Hg as ->. }
  { intros d Hd Hdk. by exists task. }
  simpl in *. eexists. split; [done|].
  assert (tid ∉ st2.2) as Hfresh.
  { rewrite Hord2. set_solver. }
  assert (∀ d, needs tid d → d ∈ st2.1) as Hneeds.
  { intros d (task' & Ht' & Hd & Hdk). rewrite Htask in Ht'.
    injection Ht' as <-. by apply Hall2. }
  split; simpl.
  - split; simpl.
    + apply NoDup_app. split_and!; [done| |apply NoDup_singleton].
      intros x Hx Hx'. apply list_elem_of_singleton in Hx' as ->. done.
    + intros x. rewrite elem_of_app, list_elem_of_singleton, Hord2.
      destruct (decide (x = tid)) as [->|Hne]; set_solver.
    + set_solver.
    + intros x d [Hx|Hx]%elem_of_app Hd; [by eapply Hclosed2|].
      apply list_elem_of_singleton in Hx as ->. by apply Hneeds.
    + intros i x d Hi Hd.
      destruct (decide (i < length st2.2)%nat) as [Hlt|Hge].
      * rewrite lookup_app_l in Hi by done.
        destruct (Hbefore2 i x d Hi Hd) as [(j & Hj & Hjd)|?]; [|by right].
        left. exists j. split; [done|]. rewrite lookup_app_l; [done|lia].
      * rewrite lookup_app_r in Hi by lia.
        destruct (i - length st2.2)%nat as [|k] eqn:Hk'; [|done].
        injection Hi as <-. assert (i = length st2.2) as -> by lia.
        pose proof (Hneeds d Hd) as Hdv.
        destruct (decide (d ∈ st2.2)) as [Hin|Hnin].
        -- apply list_elem_of_lookup in Hin as [j Hj]. left. exists j.
           split; [by eapply lookup_lt_Some|]. by rewrite lookup_app_l
             by by eapply lookup_lt_Some.
        -- right. assert (d ∈ dom tasks) as Hdk by by destruct Hd as (? & _ & _ & ?).
           assert (d ∈ {[tid]} ∪ G) as [Hdt|HdG]%elem_of_union.
           { destruct (decide (d ∈ {[tid]} ∪ G)) as [|Hno]; [done|].
             destruct Hnin. apply Hord2. done. }
           ++ apply elem_of_singleton in Hdt as ->. by apply tc_once.
           ++ destruct (rtc_inv _ _ (HG d HdG)) as [->|(z & Hz & Hrest)]; [done|].
              by eapply tc_rtc_r; [apply tc_once|].
  - set_solver.
  - set_solver.
  - exists (new ++ [tid]). split; [by rewrite Ho2, (assoc_L (++))|].
    intros x [Hx|Hx]%elem_of_app; [by apply Hreach2|].
    by apply list_elem_of_singleton in Hx as ->.
  - intros _ _. by rewrite last_snoc.
Qed.

End execution_order.

Section execution_order_extras.
Import TaskRunner Examples.

(** The order exists and holds tasks only. *)
Lemma execution_order_spec (tasks : gmap string Task) (task_id : string) :
  ∃ order, get_execution_order tasks task_id = Some order ∧
           ∀ x, x ∈ order → x ∈ dom tasks.
Proof.
  unfold get_execution_order.
  destruct (visit_spec tasks (S (S (size (dom tasks)))) ∅ task_id (∅, []))
    as ([V order] & -> & [[_ Hord _ _ _] _ _ _ _]).
  { split; simpl; [constructor| |done| |done].
    - intros x. split; [by intros ?%elem_of_nil|set_solver].
    - by intros x d ?%elem_of_nil. }
  { simpl. rewrite difference_empty_L. lia. }
  { by intros g ?%elem_of_empty. }
  exists order. split; [done|]. intros x Hx. by apply Hord in Hx as (_ & _ & ?).
Qed.

(** X18. [get_execution_order] ends, also on tasks that need each other in
    a cycle. The order holds exactly the tasks that the given task
    reaches through dependencies that are tasks, itself included, and each
    of them once; nothing for an id that is no task. The given task comes
    last, and every task of the order comes after every task it needs,
    unless it is on a cycle. *)
Theorem execution_order_topological (tasks : gmap string Task)
    (task_id : string) :
  ∃ order,
    get_execution_order tasks task_id = Some order ∧
    NoDup order ∧
    (∀ x, x ∈ order ↔ x ∈ dom tasks ∧ rtc (needs tasks) task_id x) ∧
    (task_id ∈ dom tasks → last order = Some task_id) ∧
    (∀ i x d, order !! i = Some x → needs tasks x d →
       (∃ j, (j < i)%nat ∧ order !! j = Some d) ∨ tc (needs tasks) x x).
Proof.
  unfold get_execution_order.
  destruct (visit_spec tasks (S (S (size (dom tasks)))) ∅ task_id (∅, []))
    as ([V order] & -> & [[Hnd Hord _ Hclosed Hbefore] _ Hvis Hnew Hlast]).
  { split; simpl; [constructor| |done| |done].
    - intros x. split; [by intros ?%elem_of_nil|set_solver].
    - by intros x d ?%elem_of_nil. }
  { simpl. rewrite difference_empty_L. lia. }
  { by intros g ?%elem_of_empty. }
  simpl in *. exists order. split; [done|]. split; [done|]. split_and!.
  - intros x. split.
    + intros Hx. split; [by apply Hord in Hx as (_ & _ & ?)|].
      destruct Hnew as (new & -> & Hreach). by apply Hreach.
    + intros [Hk Hreach]. revert x Hreach Hk.
      apply (rtc_ind_r (λ x, x ∈ dom tasks → x ∈ order)).
      * intros Hk. apply Hord. set_solver.
      * intros y z _ Hyz IH Hk.
        assert (y ∈ order) as Hy.
        { apply IH. destruct Hyz as (task & Hy & _). apply elem_of_dom. eauto. }
        apply Hord. split_and!; [by eapply Hclosed|set_solver|done].
  - intros Hk. apply Hlast; [set_solver|done].
  - intros i x d Hi Hd. destruct (Hbefore i x d Hi Hd) as [?|Hcyc]; [by left|].
    right. by eapply tc_l.
Qed.

(** The loop of [run] handles a part of its list from the start, all of
    it unless a locked task was not confirmed, which is then the last one
    run. *)
Lemma task_run_loop_spec typed_yes (tasks : gmap string Task) dry_run todo ran :
  (∀ t, t ∈ todo → t ∈ dom tasks) →
  ∃ v ran', run_loop typed_yes tasks dry_run todo ran = Some (v, ran') ∧
    (∃ rest, ran' = ran ++ rest ∧ rest `prefix_of` todo) ∧
    (v = true → ran' = ran ++ todo) ∧
    (v = false → ∃ tid task, last ran' = Some tid ∧ tasks !! tid = Some task ∧
                   locked task = true ∧ dry_run = false ∧
                   typed_yes (id task) = false).
Proof.
  revert ran. induction todo as [|tid todo IH]; intros ran Hdom; simpl.
  { exists true, ran. split_and!; [done| |by rewrite app_nil_r|done].
    exists []. by rewrite app_nil_r. }
  assert (is_Some (tasks !! tid)) as [task Htask].
  { apply elem_of_dom, Hdom. left. }
  rewrite Htask. simpl. destruct (task_run typed_yes task dry_run) eqn:Hrun.
  - destruct (IH (ran ++ [tid])) as (v & ran' & -> & (rest & -> & Hpre) & Htrue & Hfalse).
    { intros t Ht. apply Hdom. by right. }
    exists v, ((ran ++ [tid]) ++ rest). split_and!; [done| | |done].
    + exists (tid :: rest). split; [by rewrite <-(assoc_L (++))|].
      by apply prefix_cons.
    + intros Hv. rewrite (Htrue Hv). by rewrite <-(assoc_L (++)).
  - exists false, (ran ++ [tid]). split_and!; [done| |done|].
    + exists [tid]. split; [done|]. by apply prefix_cons, prefix_nil.
    + intros _. exists tid, task. rewrite last_snoc. unfold task_run in Hrun.
      destruct dry_run; [done|]. by destruct (locked task).
Qed.

(** X19. [run] ends and raises no [KeyError]. For an id that is no task it
    runs nothing and returns [False]. For a task it runs the tasks of the
    execution order, in that order, all of them when it returns [True];
    it returns [False] only when the last task it ran is a locked task
    that was not confirmed, and never in a dry run. *)
Theorem task_runner_run (typed_yes : string → bool)
    (tasks : gmap string Task) (task_id : string) (dry_run : bool) :
  ∃ v ran,
    run typed_yes tasks task_id dry_run = Some (v, ran) ∧
    (task_id ∉ dom tasks → v = false ∧ ran = []) ∧
    (task_id ∈ dom tasks →
     ∃ order, get_execution_order tasks task_id = Some order ∧
       ran `prefix_of` order ∧
       (v = true → ran = order) ∧
       (v = false →
        ∃ tid task, last ran = Some tid ∧ tasks !! tid = Some task ∧
          locked task = true ∧ dry_run = false ∧ typed_yes (id task) = false) ∧
       (dry_run = true → v = true)).
Proof.
  unfold run. case_decide as Hk.
  2:{ exists false, []. by split_and!. }
  destruct (execution_order_spec tasks task_id) as (order & Horder & Hin).
  rewrite Horder. simpl.
  destruct (task_run_loop_spec typed_yes tasks dry_run order [])
    as (v & ran & -> & (rest & -> & Hpre) & Htrue & Hfalse).
  { intros t Ht. by apply Hin. }
  exists v, ([] ++ rest). split_and!; [done|done|]. intros _.
  exists order. split_and!; try done.
  intros ->. destruct v; [done|].
  by destruct (Hfalse eq_refl) as (? & ? & _ & _ & _ & ? & _).
Qed.

End execution_order_extras.

(** *** The runtime resolver *)
Section runtime_properties.
Import Runtime.

Lemma scan_first repr wanted pre r post :
  forallb (λ x, negb (matches wanted x)) pre = true →
  is_str (dict_get r "id") wanted = true →
  scan repr wanted (pre ++ JDict r :: post) = Ok (make_row repr wanted r).
Proof.
  intros Hpre Hr. induction pre as [|x pre IH]; simpl in *.
  - by rewrite Hr.
  - apply andb_prop in Hpre as [Hx Hpre].
    destruct x; auto. simpl in Hx.
    destruct (is_str _ _); [done | auto].
Qed.

(** C10. [td] resolves duplicates first-wins: when the record [r] is the
    first element of [rows] whose id is the trimmed [row_id], the row
    returned is the one built from [r], whatever records follow it. *)
Theorem td_first_wins repr (pre : list json) (r : list (string * json))
    (row_id : string) :
  Py.strip row_id ≠ EmptyString →
  forallb (λ x, negb (matches (Py.strip row_id) x)) pre = true →
  is_str (dict_get r "id") (Py.strip row_id) = true →
  ∀ store post,
    dict_get store "rows" = JList (pre ++ JDict r :: post) →
    td repr store row_id = Ok (make_row repr (Py.strip row_id) r).
Proof.
  intros Hne Hpre Hr store post Hrows. unfold td.
  rewrite decide_False by done. rewrite Hrows. by apply scan_first.
Qed.

Definition dup_store : list (string * json) :=
  [("version", JInt 1);
   ("rows", JList [JStr "junk";
                   JDict [("id", JStr "b"); ("name", JStr "other")];
                   JDict [("id", JStr "a"); ("name", JStr "first")];
                   JDict [("id", JStr "a"); ("name", JStr "second");
                          ("locked", JBool true)]])].

Lemma td_first_wins_witness :
  td (λ _, "?") dup_store " a " =
    Ok {| id := "a"; locked := false; name := "first"; args := "";
          expr := ""; scope := None |}.
Proof.
  apply (td_first_wins (λ _, "?")
           [JStr "junk"; JDict [("id", JStr "b"); ("name", JStr "other")]]
           [("id", JStr "a"); ("name", JStr "first")] " a ")
    with (post := [JDict [("id", JStr "a"); ("name", JStr "second");
                          ("locked", JBool true)]]).
  - vm_compute. discriminate.
  - reflexivity.
  - reflexivity.
  - reflexivity.
Defined.

End runtime_properties.
